(** * Variables & Styles Extractor: the synchronization engine

    A shallow embedding of [variables-styles-extractor/src/code.ts]
    (version 2.0.0): the variable cache, the plan validator, the import
    diff, the export serializer, the two-pass import with its automatic
    rollback, and the snapshot manager; then the colour spaces of the
    value codec, the W3C design-token converter, the naming
    conventions, the style processors and the checks of the message
    handler.

    Conventions of the embedding.
    - A JavaScript object used as a dictionary is an association list in
      [Object.keys] order; keys of one object are pairwise distinct. A
      lookup reads own properties: keys that name a member of
      [Object.prototype] are outside the embedding.
    - JavaScript numbers are rationals ([Q]); [Math.round x] is
      [Qfloor (x + 1/2)].
    - Strings are byte strings; [toLowerCase] is modelled on ASCII, which
      is exact on the hexadecimal strings it is applied to.
    - Live handles of the host ([Variable], [VariableCollection], styles)
      are identifiers into an explicit host state; every [await] is a
      sequence point of a single thread, so asynchronous functions are
      plain state transformers.
    - [Logger.log] lines are dropped; [Logger.send] messages are kept. *)

From Stdlib Require Import ZArith QArith Qround Lqa List Ascii String.
From stdpp Require Import gmap strings list fin_maps pretty.
From Equations Require Import Equations.

Local Open Scope string_scope.
Local Open Scope N_scope.

(** ** JavaScript string and number helpers *)

Module Js.

(** [s.startsWith(p)] *)
Definition startsWith (s p : string) : bool := String.prefix p s.

(** [s.slice(1, -1)] *)
Fixpoint dropLast (s : string) : string :=
  match s with
  | EmptyString => EmptyString
  | String _ EmptyString => EmptyString
  | String c rest => String c (dropLast rest)
  end.

Definition slice_1_m1 (s : string) : string :=
  match s with
  | EmptyString => EmptyString
  | String _ rest => dropLast rest
  end.

(** [s.replace(/\./g, '/')] *)
Fixpoint replaceDots (s : string) : string :=
  match s with
  | EmptyString => EmptyString
  | String c rest =>
      String (if Ascii.eqb c "."%char then "/"%char else c) (replaceDots rest)
  end.

(** [s.split('/')]: always at least one part. *)
Fixpoint splitSlashGo (cur : string) (s : string) : list string :=
  match s with
  | EmptyString => [String.rev cur]
  | String c rest =>
      if Ascii.eqb c "/"%char
      then String.rev cur :: splitSlashGo EmptyString rest
      else splitSlashGo (String c cur) rest
  end.

Definition splitSlash (s : string) : list string := splitSlashGo EmptyString s.

(** [parts.join(sep)] *)
Fixpoint join (sep : string) (parts : list string) : string :=
  match parts with
  | [] => EmptyString
  | [p] => p
  | p :: rest => p +:+ sep +:+ join sep rest
  end.

(** [s.toLowerCase()], ASCII letters only. *)
Definition lowerChar (c : ascii) : ascii :=
  let n := N_of_ascii c in
  if (65 <=? n) && (n <=? 90) then ascii_of_N (n + 32) else c.

Fixpoint toLowerCase (s : string) : string :=
  match s with
  | EmptyString => EmptyString
  | String c rest => String (lowerChar c) (toLowerCase rest)
  end.

(** Truthiness of a string: non-empty. *)
Definition truthy (s : string) : bool :=
  match s with EmptyString => false | _ => true end.

(** [Math.round] *)
Definition round (x : Q) : Z := Qfloor (x + (1 # 2)).

(** [n.toString(16)] for an integer [n]. *)
Definition hexDigit (d : N) : ascii :=
  if d <? 10 then ascii_of_N (48 + d) else ascii_of_N (87 + d).

Fixpoint toHexPos (fuel : nat) (n : N) (acc : string) : string :=
  match fuel with
  | O => acc
  | S fuel' =>
      let acc' := String (hexDigit (n mod 16)) acc in
      if n / 16 =? 0 then acc' else toHexPos fuel' (n / 16) acc'
  end.

Definition toString16 (z : Z) : string :=
  match z with
  | Z0 => "0"
  | Zpos p => toHexPos (S (N.to_nat (N.log2 (Npos p)))) (Npos p) EmptyString
  | Zneg p => "-" +:+ toHexPos (S (N.to_nat (N.log2 (Npos p)))) (Npos p) EmptyString
  end.

(** [s.padStart(2, '0')] *)
Definition padStart2 (s : string) : string :=
  match s with
  | EmptyString => "00"
  | String c EmptyString => String "0"%char (String c EmptyString)
  | _ => s
  end.

(** Value of one character matched by [[a-f\d]] under the [i] flag. *)
Definition hexValue (c : ascii) : option N :=
  let n := N_of_ascii c in
  if (48 <=? n) && (n <=? 57) then Some (n - 48)
  else if (97 <=? n) && (n <=? 102) then Some (n - 87)
  else if (65 <=? n) && (n <=? 70) then Some (n - 55)
  else None.

(** [parseInt(hh, 16)] on a two-character group of a hex regex. *)
Definition parseHexByte (c1 c2 : ascii) : option N :=
  match hexValue c1, hexValue c2 with
  | Some h, Some l => Some (16 * h + l)
  | _, _ => None
  end.

End Js.

(** ** Section 3 of the source: MathUtils *)

Module MathUtils.

Definition round2 (value : Q) : Q := (inject_Z (Js.round (value * 100)) / 100)%Q.

Definition toHexByte (value : Q) : string :=
  Js.padStart2 (Js.toString16 (Js.round (value * 255))).

Definition fromHexByte (n : N) : Q := (inject_Z (Z.of_N n) / 255)%Q.

End MathUtils.


(** ** Section 2 of the source: the portable document *)

(** Figma colour, channels in [0, 1]. *)
Record RGBA := mkRGBA { rgba_r : Q; rgba_g : Q; rgba_b : Q; rgba_a : Q }.

(** [RgbColor]: channels in 0..255, optional alpha. *)
Record RgbColor := mkRgbColor
  { rgb_r : Z; rgb_g : Z; rgb_b : Z; rgb_a : option Q }.

(** [ExportColorValue]. Only [hex] and [rgb] are ever read back (by
    [ColorParser.parse] and by the diff); the [css], [hsl] and [hsb]
    renderings are write-only and are not carried. *)
Record ExportColorValue := mkExportColorValue
  { hex : string; rgb : RgbColor }.

Inductive VariableValueType := TColor | TFloat | TString | TBoolean.

(** The type of [$value] and [$localValue]:
    [string | number | boolean | ExportColorValue]; [EUndefined] is a
    [$value] that [JSON.stringify] dropped because it was undefined. *)
Inductive ExportValue :=
| EString (s : string)
| ENumber (q : Q)
| EBoolean (b : bool)
| EColor (c : ExportColorValue)
| EUndefined.

Record ExportVariableValue := mkExportVariableValue
  { e_scopes : list string;             (* $scopes *)
    e_type : VariableValueType;         (* $type *)
    e_description : option string;      (* $description *)
    e_value : ExportValue;              (* $value *)
    e_collectionName : option string;   (* $collectionName *)
    e_libraryRef : option string;       (* $libraryRef *)
    e_localValue : option ExportValue   (* $localValue *) }.

Set Warnings "-register-all".

(** [NestedVariables]: a leaf is an object with a [$type] key
    ([isExportVariableValue]); anything else is a nested group. *)
Inductive Node :=
| Leaf (v : ExportVariableValue)
| Group (children : list (string * Node)).

Definition NestedVariables := list (string * Node).
Definition ModeVariables := list (string * NestedVariables).

(** [VariableBinding] of a style field. *)
Record VariableBinding := mkVariableBinding
  { b_id : option N; b_name : option string; b_collection : option string }.

(** Exported styles. The paint, typography, effect and grid payload of a
    style is carried as an opaque [body]: its conversions belong to the
    value codec and no property below depends on them. *)
Record ExportStyle := mkExportStyle
  { s_name : string;
    s_description : string;
    s_fontFamily : string;   (* text styles only *)
    s_fontStyle : string;    (* text styles only *)
    s_body : string;
    s_boundVariables : list (string * VariableBinding) }.

Record StylesExport := mkStylesExport
  { colorStyles : option (list ExportStyle);
    textStyles : option (list ExportStyle);
    effectStyles : option (list ExportStyle);
    gridStyles : option (list ExportStyle) }.

Record CollectionContent := mkCollectionContent
  { modes : option ModeVariables;
    originalName : option string        (* $originalName *) }.

(** One entry of the document array: a JavaScript object whose values are
    collection contents or, under the key [_styles], the styles. *)
Inductive ItemValue :=
| ICollection (c : CollectionContent)
| IStyles (s : StylesExport).

Definition Item := list (string * ItemValue).
Definition ExportFormat := list Item.

Record ImportOptions := mkImportOptions
  { merge : bool;
    overwrite : bool;
    importStyles : bool;
    clearFirst : bool;
    customMerge : option (bool * bool);     (* clearVariables, clearStyles *)
    collectionBehaviors : list (string * string) }.

(** Lookup in a JavaScript object. *)
Fixpoint jsGet {A} (obj : list (string * A)) (key : string) : option A :=
  match obj with
  | [] => None
  | (k, v) :: rest => if String.eqb k key then Some v else jsGet rest key
  end.

(** [obj[key] = v]: in place when the key exists, appended otherwise. *)
Fixpoint jsSet {A} (obj : list (string * A)) (key : string) (v : A)
  : list (string * A) :=
  match obj with
  | [] => [(key, v)]
  | (k, w) :: rest =>
      if String.eqb k key then (k, v) :: rest else (k, w) :: jsSet rest key v
  end.

Definition jsKeys {A} (obj : list (string * A)) : list string := map fst obj.
Definition jsValues {A} (obj : list (string * A)) : list A := map snd obj.

(** ** Section 4 and 5 of the source: colour conversion and parsing *)

Module ColorConverter.

Definition toHex (color : RGBA) : string :=
  let h := "#" +:+ MathUtils.toHexByte (rgba_r color)
               +:+ MathUtils.toHexByte (rgba_g color)
               +:+ MathUtils.toHexByte (rgba_b color) in
  if Qlt_le_dec (rgba_a color) 1
  then h +:+ MathUtils.toHexByte (rgba_a color)
  else h.

Definition toRgb255 (color : RGBA) : RgbColor :=
  {| rgb_r := Js.round (rgba_r color * 255);
     rgb_g := Js.round (rgba_g color * 255);
     rgb_b := Js.round (rgba_b color * 255);
     rgb_a := if Qlt_le_dec (rgba_a color) 1
              then Some (MathUtils.round2 (rgba_a color)) else None |}.

Definition toAllFormats (color : RGBA) : ExportColorValue :=
  {| hex := toHex color; rgb := toRgb255 color |}.

End ColorConverter.

Module ColorParser.

Definition black : RGBA := mkRGBA 0 0 0 1.

Definition stripHash (s : string) : string :=
  match s with
  | String "#" rest => rest
  | _ => s
  end.

(** [HEX_REGEX_8] then [HEX_REGEX_6], both anchored, then black. *)
Definition fromHex (h : string) : RGBA :=
  match stripHash h with
  | String c1 (String c2 (String c3 (String c4 (String c5 (String c6
      (String c7 (String c8 EmptyString))))))) =>
      match Js.parseHexByte c1 c2, Js.parseHexByte c3 c4,
            Js.parseHexByte c5 c6, Js.parseHexByte c7 c8 with
      | Some r, Some g, Some b, Some a =>
          mkRGBA (MathUtils.fromHexByte r) (MathUtils.fromHexByte g)
                 (MathUtils.fromHexByte b) (MathUtils.fromHexByte a)
      | _, _, _, _ => black
      end
  | String c1 (String c2 (String c3 (String c4 (String c5 (String c6
      EmptyString))))) =>
      match Js.parseHexByte c1 c2, Js.parseHexByte c3 c4,
            Js.parseHexByte c5 c6 with
      | Some r, Some g, Some b =>
          mkRGBA (MathUtils.fromHexByte r) (MathUtils.fromHexByte g)
                 (MathUtils.fromHexByte b) 1
      | _, _, _ => black
      end
  | _ => black
  end.

Section Parse.
(** [fromCss], the regex-based reader of [rgb(...)] and [hsl(...)]
    strings, is kept abstract. *)
Variable fromCss : string -> RGBA.

Definition parse (color : ExportValue) : RGBA :=
  match color with
  | EColor c => fromHex (hex c)
  | EString s =>
      if Js.startsWith s "rgb" || Js.startsWith s "hsl"
      then fromCss s else fromHex s
  | _ => black
  end.
End Parse.

End ColorParser.


(** ** The host platform

    The Figma object model, restricted to what the plugin calls.  Handles
    are identifiers; a call on a removed node throws.  Which further calls
    the host refuses (type mismatches, plan limits, name clashes, missing
    fonts) is not fixed by the plugin: it is the parameter [rejects] of
    the engine below.  A created collection has one mode named "Mode 1".
    A created variable has no value until one is written. *)

Inductive VariableValue :=
| VAlias (id : N)          (* { type: 'VARIABLE_ALIAS', id } *)
| VColor (c : RGBA)
| VString (s : string)
| VNumber (q : Q)
| VBoolean (b : bool).

Definition isVariableAlias (value : VariableValue) : bool :=
  match value with VAlias _ => true | _ => false end.

Inductive VariableResolvedDataType := COLOR | FLOAT | STRING | BOOLEAN.

Record Mode := mkMode { modeId : N; mode_name : string }.

(** The host's [Variable] ([Variable] is reserved in Rocq). *)
Record VariableNode := mkVariable
  { var_name : string;
    variableCollectionId : N;
    resolvedType : VariableResolvedDataType;
    valuesByMode : list (N * VariableValue);
    var_description : string;
    var_scopes : list string }.

Record VariableCollection := mkVariableCollection
  { col_id : N;
    col_name : string;
    col_remote : bool;
    col_modes : list Mode;
    variableIds : list N }.

Inductive StyleKind := PaintStyle | TextStyle | EffectStyle | GridStyle.

#[global] Instance StyleKind_eq_dec : EqDecision StyleKind.
Proof. solve_decision. Defined.

Record Style := mkStyle
  { style_id : N;
    style_kind : StyleKind;
    style_name : string;
    style_description : string;
    style_font : string * string;
    style_body : string;
    style_bound : list (string * N) }.

Record Host := mkHost
  { collections : list VariableCollection;
    variables : gmap N VariableNode;
    styles : list Style;
    nextId : N }.

Definition emptyHost : Host :=
  {| collections := []; variables := ∅; styles := []; nextId := 0 |}.

(** Association lists keyed by identifiers. *)
Fixpoint alookup {A} (l : list (N * A)) (k : N) : option A :=
  match l with
  | [] => None
  | (k', v) :: rest => if N.eqb k' k then Some v else alookup rest k
  end.

Fixpoint aset {A} (l : list (N * A)) (k : N) (v : A) : list (N * A) :=
  match l with
  | [] => [(k, v)]
  | (k', w) :: rest =>
      if N.eqb k' k then (k', v) :: rest else (k', w) :: aset rest k v
  end.

Fixpoint findCollection (cols : list VariableCollection) (id : N)
  : option VariableCollection :=
  match cols with
  | [] => None
  | c :: rest => if N.eqb (col_id c) id then Some c else findCollection rest id
  end.

Definition updateCollection (f : VariableCollection -> VariableCollection)
  (id : N) (cols : list VariableCollection) : list VariableCollection :=
  map (fun c => if N.eqb (col_id c) id then f c else c) cols.

Definition getLocalVariableCollections (h : Host) : list VariableCollection :=
  filter (fun c => col_remote c = false) (collections h).

Definition getVariableById (h : Host) (id : N) : option VariableNode :=
  variables h !! id.

Definition getVariableCollectionById (h : Host) (id : N)
  : option VariableCollection :=
  findCollection (collections h) id.

Definition getLocalStyles (kind : StyleKind) (h : Host) : list Style :=
  filter (fun s => style_kind s = kind) (styles h).

Definition modeIds (c : VariableCollection) : list N := map modeId (col_modes c).

(** The calls the host may refuse. *)
Inductive HostOp :=
| OpCreateCollection (name : string)
| OpRemoveCollection (col : N)
| OpRenameMode (col mode : N) (name : string)
| OpAddMode (col : N) (name : string)
| OpCreateVariable (name : string) (col : N) (type : VariableResolvedDataType)
| OpRemoveVariable (var : N)
| OpSetValue (var mode : N) (value : VariableValue)
| OpSetDescription (var : N) (text : string)
| OpSetScopes (var : N) (scopes : list string)
| OpCreateStyle (kind : StyleKind)
| OpSetStyleName (style : N) (name : string)
| OpSetStyleDescription (style : N) (text : string)
| OpLoadFont (family style : string)
| OpSetStyleBody (style : N) (font : string * string) (body : string)
| OpBindStyle (style : N) (key : string) (var : N)
| OpRemoveStyle (style : N)
| OpReadStyles.

(** The effect of a call the host accepts; [None] when the node is gone
    (or, for a value, when the mode is not one of the variable's
    collection). The result is the identifier created, if any. *)
Definition applyOp (op : HostOp) (h : Host) : option (N * Host) :=
  match op with
  | OpCreateCollection name =>
      let id := nextId h in
      let c := {| col_id := id; col_name := name; col_remote := false;
                  col_modes := [mkMode (id + 1) "Mode 1"]; variableIds := [] |} in
      Some (id, {| collections := (collections h ++ [c])%list;
                   variables := variables h;
                   styles := styles h;
                   nextId := id + 2 |})
  | OpRemoveCollection col =>
      match findCollection (collections h) col with
      | None => None
      | Some c =>
          Some (col, {| collections :=
                          filter (fun c' => col_id c' ≠ col) (collections h);
                        variables :=
                          foldr (fun v m => delete v m) (variables h) (variableIds c);
                        styles := styles h;
                        nextId := nextId h |})
      end
  | OpRenameMode col mode name =>
      match findCollection (collections h) col with
      | None => None
      | Some c =>
          if bool_decide (mode ∈ modeIds c) then
            let rename m :=
              if N.eqb (modeId m) mode then mkMode mode name else m in
            let f c' :=
              {| col_id := col_id c'; col_name := col_name c';
                 col_remote := col_remote c';
                 col_modes := map rename (col_modes c');
                 variableIds := variableIds c' |} in
            Some (mode, {| collections := updateCollection f col (collections h);
                           variables := variables h;
                           styles := styles h;
                           nextId := nextId h |})
          else None
      end
  | OpAddMode col name =>
      match findCollection (collections h) col with
      | None => None
      | Some c =>
          let id := nextId h in
          let f c' :=
            {| col_id := col_id c'; col_name := col_name c';
               col_remote := col_remote c';
               col_modes := (col_modes c' ++ [mkMode id name])%list;
               variableIds := variableIds c' |} in
          Some (id, {| collections := updateCollection f col (collections h);
                       variables := variables h;
                       styles := styles h;
                       nextId := id + 1 |})
      end
  | OpCreateVariable name col type =>
      match findCollection (collections h) col with
      | None => None
      | Some c =>
          let id := nextId h in
          let v := {| var_name := name; variableCollectionId := col;
                      resolvedType := type; valuesByMode := [];
                      var_description := ""; var_scopes := [] |} in
          let f c' :=
            {| col_id := col_id c'; col_name := col_name c';
               col_remote := col_remote c';
               col_modes := col_modes c';
               variableIds := (variableIds c' ++ [id])%list |} in
          Some (id, {| collections := updateCollection f col (collections h);
                       variables := <[id := v]> (variables h);
                       styles := styles h;
                       nextId := id + 1 |})
      end
  | OpRemoveVariable var =>
      match variables h !! var with
      | None => None
      | Some v =>
          let f c' :=
            {| col_id := col_id c'; col_name := col_name c';
               col_remote := col_remote c';
               col_modes := col_modes c';
               variableIds := filter (fun i => i ≠ var) (variableIds c') |} in
          Some (var, {| collections :=
                          updateCollection f (variableCollectionId v) (collections h);
                        variables := delete var (variables h);
                        styles := styles h;
                        nextId := nextId h |})
      end
  | OpSetValue var mode value =>
      match variables h !! var with
      | None => None
      | Some v =>
          match findCollection (collections h) (variableCollectionId v) with
          | None => None
          | Some c =>
              if bool_decide (mode ∈ modeIds c) then
                let v' := {| var_name := var_name v;
                             variableCollectionId := variableCollectionId v;
                             resolvedType := resolvedType v;
                             valuesByMode := aset (valuesByMode v) mode value;
                             var_description := var_description v;
                             var_scopes := var_scopes v |} in
                Some (var, {| collections := collections h;
                              variables := <[var := v']> (variables h);
                              styles := styles h;
                              nextId := nextId h |})
              else None
          end
      end
  | OpSetDescription var text =>
      match variables h !! var with
      | None => None
      | Some v =>
          let v' := {| var_name := var_name v;
                       variableCollectionId := variableCollectionId v;
                       resolvedType := resolvedType v;
                       valuesByMode := valuesByMode v;
                       var_description := text;
                       var_scopes := var_scopes v |} in
          Some (var, {| collections := collections h;
                        variables := <[var := v']> (variables h);
                        styles := styles h;
                        nextId := nextId h |})
      end
  | OpSetScopes var scopes =>
      match variables h !! var with
      | None => None
      | Some v =>
          let v' := {| var_name := var_name v;
                       variableCollectionId := variableCollectionId v;
                       resolvedType := resolvedType v;
                       valuesByMode := valuesByMode v;
                       var_description := var_description v;
                       var_scopes := scopes |} in
          Some (var, {| collections := collections h;
                        variables := <[var := v']> (variables h);
                        styles := styles h;
                        nextId := nextId h |})
      end
  | OpCreateStyle kind =>
      let id := nextId h in
      let s := {| style_id := id; style_kind := kind; style_name := "";
                  style_description := ""; style_font := ("", "");
                  style_body := ""; style_bound := [] |} in
      Some (id, {| collections := collections h;
                   variables := variables h;
                   styles := (styles h ++ [s])%list;
                   nextId := id + 1 |})
  | OpSetStyleName _ _ | OpSetStyleDescription _ _ | OpSetStyleBody _ _ _
  | OpBindStyle _ _ _ =>
      let target := match op with
                    | OpSetStyleName i _ | OpSetStyleDescription i _
                    | OpSetStyleBody i _ _ | OpBindStyle i _ _ => i
                    | _ => 0
                    end in
      let upd s :=
        if N.eqb (style_id s) target then
          match op with
          | OpSetStyleName _ name =>
              {| style_id := style_id s; style_kind := style_kind s;
                 style_name := name; style_description := style_description s;
                 style_font := style_font s; style_body := style_body s;
                 style_bound := style_bound s |}
          | OpSetStyleDescription _ text =>
              {| style_id := style_id s; style_kind := style_kind s;
                 style_name := style_name s; style_description := text;
                 style_font := style_font s; style_body := style_body s;
                 style_bound := style_bound s |}
          | OpSetStyleBody _ font body =>
              {| style_id := style_id s; style_kind := style_kind s;
                 style_name := style_name s;
                 style_description := style_description s;
                 style_font := font; style_body := body;
                 style_bound := [] |}
          | OpBindStyle _ key var =>
              {| style_id := style_id s; style_kind := style_kind s;
                 style_name := style_name s;
                 style_description := style_description s;
                 style_font := style_font s; style_body := style_body s;
                 style_bound := (style_bound s ++ [(key, var)])%list |}
          | _ => s
          end
        else s in
      if bool_decide (target ∈ map style_id (styles h)) then
        Some (target, {| collections := collections h;
                         variables := variables h;
                         styles := map upd (styles h);
                         nextId := nextId h |})
      else None
  | OpRemoveStyle style =>
      if bool_decide (style ∈ map style_id (styles h)) then
        Some (style, {| collections := collections h;
                        variables := variables h;
                        styles := filter (fun s => style_id s ≠ style) (styles h);
                        nextId := nextId h |})
      else None
  | OpLoadFont _ _ | OpReadStyles => Some (0, h)
  end.

(** ** Section 6 of the source: the variable cache *)

Record VariableCache := mkVariableCache
  { collectionMap : gmap string N;
    variableMap : gmap string N;
    initialized : bool }.

Module Cache.

Definition empty : VariableCache :=
  {| collectionMap := ∅; variableMap := ∅; initialized := false |}.

Definition getCollection (name : string) (c : VariableCache) : option N :=
  collectionMap c !! name.

Definition getVariable (key : string) (c : VariableCache) : option N :=
  variableMap c !! key.

Definition setVariable (key : string) (variable : N) (c : VariableCache)
  : VariableCache :=
  {| collectionMap := collectionMap c;
     variableMap := <[key := variable]> (variableMap c);
     initialized := initialized c |}.

Definition setCollection (name : string) (collection : N) (c : VariableCache)
  : VariableCache :=
  {| collectionMap := <[name := collection]> (collectionMap c);
     variableMap := variableMap c;
     initialized := initialized c |}.

Definition removeCollection (name : string) (c : VariableCache)
  : VariableCache :=
  let keysToRemove :=
    filter (fun key => Js.startsWith key (name +:+ "/") = true)
           (map fst (map_to_list (variableMap c))) in
  {| collectionMap := delete name (collectionMap c);
     variableMap := foldl (fun m key => delete key m) (variableMap c) keysToRemove;
     initialized := initialized c |}.

(** [rebuild]: both maps are cleared and refilled from the local
    collections of the host, in host order. *)
Definition rebuild (h : Host) (c : VariableCache) : VariableCache :=
  foldl
    (fun acc col =>
       foldl
         (fun acc' varId =>
            match getVariableById h varId with
            | Some v => setVariable (col_name col +:+ "/" +:+ var_name v) varId acc'
            | None => acc'
            end)
         (setCollection (col_name col) (col_id col) acc)
         (variableIds col))
    {| collectionMap := ∅; variableMap := ∅; initialized := initialized c |}
    (getLocalVariableCollections h).

Definition initialize (h : Host) (c : VariableCache) : VariableCache :=
  if initialized c then c
  else let c' := rebuild h c in
       {| collectionMap := collectionMap c';
          variableMap := variableMap c';
          initialized := true |}.

End Cache.

(** ** Section 7 and 9 of the source: mappers and flattening *)

Module TypeMapper.

Definition toExportType (t : VariableResolvedDataType) : VariableValueType :=
  match t with
  | COLOR => TColor | FLOAT => TFloat | STRING => TString | BOOLEAN => TBoolean
  end.

Definition toFigmaType (t : VariableValueType) : VariableResolvedDataType :=
  match t with
  | TColor => COLOR | TFloat => FLOAT | TString => STRING | TBoolean => BOOLEAN
  end.

Definition scopesToArray (scopes : list string) : list string :=
  match scopes with
  | [] => ["ALL_SCOPES"]
  | _ => if bool_decide ("ALL_SCOPES" ∈ scopes) then ["ALL_SCOPES"] else scopes
  end.

Definition arrayToScopes (arr : list string) : list string :=
  if bool_decide ("ALL_SCOPES" ∈ arr) then ["ALL_SCOPES"] else arr.

End TypeMapper.

Definition joinPath (prefix key : string) : string :=
  if Js.truthy prefix then prefix +:+ "/" +:+ key else key.

Fixpoint flattenNode (prefix key : string) (n : Node)
  : list (string * ExportVariableValue) :=
  let path := joinPath prefix key in
  match n with
  | Leaf v => [(path, v)]
  | Group children =>
      (fix go (l : list (string * Node)) :=
         match l with
         | [] => []
         | (k, c) :: rest => (flattenNode path k c ++ go rest)%list
         end) children
  end.

Definition flattenVariables (obj : NestedVariables) (prefix : string)
  : list (string * ExportVariableValue) :=
  flat_map (fun kv => flattenNode prefix (fst kv) (snd kv)) obj.

(** [getValueAtPath]: descend along [path.split('/')]. *)
Fixpoint descend (current : Node) (parts : list string)
  : option ExportVariableValue :=
  match parts with
  | [] => match current with Leaf v => Some v | Group _ => None end
  | part :: rest =>
      match current with
      | Leaf _ => None
      | Group children =>
          match jsGet children part with
          | Some next => descend next rest
          | None => None
          end
      end
  end.

Definition getValueAtPath (obj : NestedVariables) (path : string)
  : option ExportVariableValue :=
  descend (Group obj) (Js.splitSlash path).

(** [countNestedVariables] of the validator: a variable is an object
    with both [$type] and [$value]; a leaf without [$value] is walked as
    a group, and none of its fields counts. *)
Fixpoint countNode (n : Node) (count : N) : N :=
  match n with
  | Leaf v => match e_value v with EUndefined => count | _ => count + 1 end
  | Group children =>
      (fix go (l : list (string * Node)) (count : N) :=
         match l with
         | [] => count
         | (_, c) :: rest => go rest (countNode c count)
         end) children count
  end.

Definition countNestedVariables (obj : NestedVariables) (count : N) : N :=
  fold_left (fun acc kv => countNode (snd kv) acc) obj count.

(** [countVarsInNestedObj] and [countVariablesInCollection] of the diff. *)
Fixpoint countVarsInNode (n : Node) : N :=
  match n with
  | Leaf _ => 1
  | Group children =>
      (fix go (l : list (string * Node)) :=
         match l with
         | [] => 0
         | (_, c) :: rest => countVarsInNode c + go rest
         end) children
  end.

Definition countVarsInNestedObj (obj : NestedVariables) : N :=
  fold_left (fun acc kv => acc + countVarsInNode (snd kv)) obj 0.

Definition countVariablesInCollection (modes : ModeVariables) : N :=
  match jsValues modes with
  | firstMode :: _ => countVarsInNestedObj firstMode
  | [] => 0
  end.

(** ** The plugin state and its monad

    The plugin's mutable world: the host document, the module-level
    [variableCache], and the messages posted to the UI by [Logger.send].
    A computation either returns or throws; the state reached at the
    throw is kept, as a JavaScript exception undoes nothing. *)

Record ImportStats := mkImportStats
  { collectionsCreated : N;
    variablesCreated : N;
    variablesUpdated : N;
    variablesSkipped : N;
    stylesCreated : N;
    stylesUpdated : N }.

Inductive Message :=
| MsgError (message : string)                               (* 'error' *)
| MsgClearComplete (message : string)                       (* 'clear_complete' *)
| MsgImportComplete (stats : ImportStats)                   (* 'import_complete' *)
| MsgImportRollingBack (error : string)                     (* 'import_rolling_back' *)
| MsgImportRollbackComplete (error message : string)        (* 'import_rollback_complete' *)
| MsgImportRollbackFailed (error rollbackError message : string). (* 'import_rollback_failed' *)

Record State := mkState
  { host : Host;
    cache : VariableCache;
    outbox : list Message }.

Inductive Outcome (A : Type) :=
| Ok (a : A)
| Throw (e : string).
Arguments Ok {A} a.
Arguments Throw {A} e.

Definition M (A : Type) : Type := State -> Outcome A * State.

Definition ret {A} (a : A) : M A := fun st => (Ok a, st).

Definition bind {A B} (m : M A) (k : A -> M B) : M B :=
  fun st =>
    match m st with
    | (Ok a, st') => k a st'
    | (Throw e, st') => (Throw e, st')
    end.

Definition throw {A} (e : string) : M A := fun st => (Throw e, st).

(** [try { m } catch (e) { handler e }] *)
Definition tryCatch {A} (m : M A) (handler : string -> M A) : M A :=
  fun st =>
    match m st with
    | (Ok a, st') => (Ok a, st')
    | (Throw e, st') => handler e st'
    end.

Notation "x <- m ;; k" := (bind m (fun x => k))
  (at level 100, m at next level, right associativity).
Notation "m ;;; k" := (bind m (fun _ => k))
  (at level 100, right associativity).

Definition getHost : M Host := fun st => (Ok (host st), st).
Definition getCache : M VariableCache := fun st => (Ok (cache st), st).

Definition modifyCache (f : VariableCache -> VariableCache) : M unit :=
  fun st => (Ok tt, {| host := host st; cache := f (cache st); outbox := outbox st |}).

(** [Logger.send] *)
Definition send (m : Message) : M unit :=
  fun st => (Ok tt, {| host := host st; cache := cache st;
                       outbox := (outbox st ++ [m])%list |}).

Fixpoint foldM {A B} (body : B -> A -> M B) (acc : B) (l : list A) : M B :=
  match l with
  | [] => ret acc
  | x :: rest => acc' <- body acc x ;; foldM body acc' rest
  end.

Definition forEach {A} (l : list A) (body : A -> M unit) : M unit :=
  foldM (fun _ x => body x) tt l.

(** Reading a property of a live handle. *)
Definition readCollection (id : N) : M VariableCollection :=
  h <- getHost ;;
  match getVariableCollectionById h id with
  | Some c => ret c
  | None => throw "collection node does not exist"
  end.

Definition readVariable (id : N) : M VariableNode :=
  h <- getHost ;;
  match getVariableById h id with
  | Some v => ret v
  | None => throw "variable node does not exist"
  end.

Definition rebuildCache : M unit :=
  h <- getHost ;; modifyCache (Cache.rebuild h).

Definition initializeCache : M unit :=
  h <- getHost ;; modifyCache (Cache.initialize h).

(** ** Snapshots *)

(** [values[mode.name]] of a variable snapshot: an alias by name, or a raw
    value, colours of COLOR variables as a hex string.  [JSON.stringify]
    omits an undefined [value]. *)
Inductive SnapshotValue :=
| SnapAlias (aliasName aliasCollection : string)
| SnapRaw (value : option VariableValue).

Record VariableSnapshot := mkVariableSnapshot
  { vs_name : string;
    vs_type : VariableResolvedDataType;
    vs_scopes : list string;
    vs_values : list (string * SnapshotValue) }.

Record CollectionSnapshot := mkCollectionSnapshot
  { cs_name : string;
    cs_modes : list Mode;
    cs_variables : list VariableSnapshot }.

(** [UndoSnapshot], with its two JSON strings parsed (the timestamp is
    not carried). *)
Record UndoSnapshot := mkUndoSnapshot
  { snap_collections : list CollectionSnapshot;
    snap_styles : StylesExport }.

Record PendingAlias := mkPendingAlias
  { p_variable : N;
    p_modeId : N;
    p_aliasPath : string;
    p_aliasCollection : string;
    p_fallbackValue : option ExportVariableValue }.

(** The counters of the import, with the aliases queued for pass 2. *)
Record Pass1 := mkPass1
  { createdCollections : N;
    createdVariables : N;
    updatedVariables : N;
    skippedVariables : N;
    allPendingAliases : list PendingAlias }.

(** ** The engine *)

Section Engine.

(** The CSS colour reader of the value codec. *)
Variable fromCss : string -> RGBA.

(** The calls the host refuses, given its current state. *)
Variable rejects : Host -> HostOp -> bool.

(** A call into the host: it throws when the host refuses it or when
    its target node is gone, and changes nothing then. *)
Definition call (op : HostOp) : M N :=
  fun st =>
    if rejects (host st) op then (Throw "Error: the host refused the call", st)
    else match applyOp op (host st) with
         | Some (r, h') =>
             (Ok r, {| host := h'; cache := cache st; outbox := outbox st |})
         | None => (Throw "Error: the node does not exist", st)
         end.

(** *** Section 14 of the source: clear functions *)

Definition clearVariables : M unit :=
  tryCatch
    (h <- getHost ;;
     counts <-
       foldM
         (fun (acc : N * N) (collection : VariableCollection) =>
            c <- readCollection (col_id collection) ;;
            deletedVariables <-
              foldM
                (fun (n : N) (varId : N) =>
                   h' <- getHost ;;
                   match getVariableById h' varId with
                   | Some _ => call (OpRemoveVariable varId) ;;; ret (n + 1)
                   | None => ret n
                   end)
                (snd acc) (variableIds c) ;;
            call (OpRemoveCollection (col_id collection)) ;;;
            ret (fst acc + 1, deletedVariables))
         (0, 0) (getLocalVariableCollections h) ;;
     send (MsgClearComplete
             (pretty (fst counts) +:+ " collections, "
              +:+ pretty (snd counts) +:+ " variables")))
    (fun e => send (MsgError ("Failed to clear variables: " +:+ e))).

Definition clearStyles : M unit :=
  tryCatch
    (deletedStyles <-
       foldM
         (fun (n : N) (kind : StyleKind) =>
            h <- getHost ;;
            foldM (fun (n' : N) (style : Style) =>
                     call (OpRemoveStyle (style_id style)) ;;; ret (n' + 1))
                  n (getLocalStyles kind h))
         0 [PaintStyle; TextStyle; EffectStyle; GridStyle] ;;
     send (MsgClearComplete (pretty deletedStyles +:+ " styles")))
    (fun e => send (MsgError ("Failed to clear styles: " +:+ e))).

Definition clearAll : M unit :=
  tryCatch
    (clearVariables ;;; clearStyles)
    (fun e => send (MsgError ("Failed to clear: " +:+ e))).

(** *** Section 10 of the source: style processors

    Export reads the local styles of one kind; a paint style without
    paints (empty body) is not exported.  Import matches styles by name
    against the styles present when it starts. *)

Definition getVariableBindingInfo (h : Host) (id : N) : VariableBinding :=
  match getVariableById h id with
  | None => {| b_id := Some id; b_name := None; b_collection := None |}
  | Some variable =>
      {| b_id := Some id;
         b_name := Some (var_name variable);
         b_collection :=
           option_map col_name
             (getVariableCollectionById h (variableCollectionId variable)) |}
  end.

Definition extractBindings (h : Host) (bound : list (string * N))
  : list (string * VariableBinding) :=
  fold_left
    (fun bindings kv =>
       let binding := getVariableBindingInfo h (snd kv) in
       match b_name binding with
       | Some n => if Js.truthy n then jsSet bindings (fst kv) binding
                   else bindings
       | None => bindings
       end)
    bound [].

Definition exportStyle (h : Host) (style : Style) : ExportStyle :=
  {| s_name := style_name style;
     s_description := style_description style;
     s_fontFamily := fst (style_font style);
     s_fontStyle := snd (style_font style);
     s_body := style_body style;
     s_boundVariables := extractBindings h (style_bound style) |}.

Definition exportStyles (kind : StyleKind) : M (list ExportStyle) :=
  call OpReadStyles ;;;
  h <- getHost ;;
  let local := getLocalStyles kind h in
  let kept :=
    match kind with
    | PaintStyle => filter (fun s => Js.truthy (style_body s) = true) local
    | _ => local
    end in
  ret (map (exportStyle h) kept).

Definition bindStyle (style : N) (bindings : list (string * VariableBinding))
  : M unit :=
  forEach bindings
    (fun kb =>
       match b_name (snd kb), b_collection (snd kb) with
       | Some name, Some collection =>
           if Js.truthy name && Js.truthy collection then
             c <- getCache ;;
             match Cache.getVariable (collection +:+ "/" +:+ name) c with
             | Some targetVar =>
                 tryCatch
                   (call (OpBindStyle style (fst kb) targetVar) ;;; ret tt)
                   (fun _ => ret tt)
             | None => ret tt
             end
           else ret tt
       | _, _ => ret tt
       end).

Definition importStylesOf (kind : StyleKind) (styles : list ExportStyle)
  : M (N * N) :=
  h <- getHost ;;
  let existing :=
    fold_left (fun m s => jsSet m (style_name s) (style_id s))
              (getLocalStyles kind h) [] in
  foldM
    (fun (counts : N * N) (exported : ExportStyle) =>
       found <-
         match jsGet existing (s_name exported) with
         | Some style => ret (style, (fst counts, snd counts + 1))
         | None =>
             style <- call (OpCreateStyle kind) ;;
             call (OpSetStyleName style (s_name exported)) ;;;
             ret (style, (fst counts + 1, snd counts))
         end ;;
       let style := fst found in
       (if Js.truthy (s_description exported)
        then call (OpSetStyleDescription style (s_description exported)) ;;; ret tt
        else ret tt) ;;;
       let font := (s_fontFamily exported, s_fontStyle exported) in
       match kind with
       | PaintStyle =>
           if Js.truthy (s_body exported)
           then call (OpSetStyleBody style font (s_body exported)) ;;;
                bindStyle style (s_boundVariables exported)
           else ret tt
       | TextStyle =>
           tryCatch
             (call (OpLoadFont (s_fontFamily exported) (s_fontStyle exported)) ;;;
              call (OpSetStyleBody style font (s_body exported)) ;;;
              bindStyle style (s_boundVariables exported))
             (fun _ => ret tt)
       | _ =>
           call (OpSetStyleBody style font (s_body exported)) ;;;
           bindStyle style (s_boundVariables exported)
       end ;;;
       ret (snd found))
    (0, 0) styles.

(** *** Snapshot (createUndoSnapshot) *)

Definition snapshotValue (h : Host) (variable : VariableNode) (mode : Mode)
  (values : list (string * SnapshotValue))
  : M (list (string * SnapshotValue)) :=
  match alookup (valuesByMode variable) (modeId mode) with
  | Some (VAlias aliasId) =>
      match getVariableById h aliasId with
      | Some aliasVariable =>
          let aliasCollection :=
            match getVariableCollectionById h
                    (variableCollectionId aliasVariable) with
            | Some c => col_name c
            | None => ""
            end in
          ret (jsSet values (mode_name mode)
                     (SnapAlias (var_name aliasVariable) aliasCollection))
      | None => ret values
      end
  | value =>
      match resolvedType variable with
      | COLOR =>
          match value with
          | None =>
              throw "TypeError: Cannot read properties of undefined (reading 'r')"
          | Some (VColor rgba) =>
              ret (jsSet values (mode_name mode)
                         (SnapRaw (Some (VString (ColorConverter.toHex rgba)))))
          | Some _ =>
              ret (jsSet values (mode_name mode)
                         (SnapRaw (Some (VString "#NaNNaNNaN"))))
          end
      | _ => ret (jsSet values (mode_name mode) (SnapRaw value))
      end
  end.

Definition snapshotCollection (h : Host) (collection : VariableCollection)
  : M CollectionSnapshot :=
  vars <-
    foldM
      (fun (acc : list VariableSnapshot) (variableId : N) =>
         match getVariableById h variableId with
         | None => ret acc
         | Some variable =>
             values <- foldM (fun vs mode => snapshotValue h variable mode vs)
                             [] (col_modes collection) ;;
             ret (acc ++ [ {| vs_name := var_name variable;
                              vs_type := resolvedType variable;
                              vs_scopes := var_scopes variable;
                              vs_values := values |} ])%list
         end)
      [] (variableIds collection) ;;
  ret {| cs_name := col_name collection;
         cs_modes := col_modes collection;
         cs_variables := vars |}.

Definition createUndoSnapshot : M UndoSnapshot :=
  h <- getHost ;;
  snapshotCollections <-
    foldM (fun acc collection =>
             cs <- snapshotCollection h collection ;;
             ret (acc ++ [cs])%list)
          [] (getLocalVariableCollections h) ;;
  cs <- exportStyles PaintStyle ;;
  ts <- exportStyles TextStyle ;;
  es <- exportStyles EffectStyle ;;
  gs <- exportStyles GridStyle ;;
  ret {| snap_collections := snapshotCollections;
         snap_styles := {| colorStyles := Some cs; textStyles := Some ts;
                           effectStyles := Some es; gridStyles := Some gs |} |}.

(** *** Section 12 of the source: import *)

(** The value [setValueForMode] receives from [setRawValue]; an
    [ExportColorValue] bundle under a non-colour [$type] is not a
    variable value, and the host throws on it. *)
Definition rawValueOf (value : ExportVariableValue) : option VariableValue :=
  match e_type value with
  | TColor =>
      let rgba := ColorParser.parse fromCss (e_value value) in
      Some (VColor (if Qlt_le_dec (rgba_a rgba) 1
                    then mkRGBA (rgba_r rgba) (rgba_g rgba) (rgba_b rgba)
                                (MathUtils.round2 (rgba_a rgba))
                    else rgba))
  | _ =>
      match e_value value with
      | EString s => Some (VString s)
      | ENumber q => Some (VNumber q)
      | EBoolean b => Some (VBoolean b)
      | EColor _ | EUndefined => None
      end
  end.

Definition setRawValue (variable modeId : N) (value : ExportVariableValue)
  : M unit :=
  tryCatch
    (match rawValueOf value with
     | Some v => call (OpSetValue variable modeId v) ;;; ret tt
     | None => throw "Error: invalid variable value"
     end)
    (fun _ => ret tt).

(** [typeof $value === 'string' && $value.startsWith('{')] *)
Definition isAliasReference (value : ExportVariableValue) : option string :=
  match e_value value with
  | EString s => if Js.startsWith s "{" then Some s else None
  | _ => None
  end.

Definition orElse (o : option string) (d : string) : string :=
  match o with
  | Some s => if Js.truthy s then s else d
  | None => d
  end.

(** The body of the loop over [modeNames] for one variable. *)
Definition pass1Mode (collectionName : string) (modesObj : ModeVariables)
  (modeMap : list (string * N)) (variable : N) (path : string)
  (pendingAliases : list PendingAlias) (modeName : string)
  : M (list PendingAlias) :=
  match jsGet modeMap modeName with
  | None => ret pendingAliases
  | Some modeId =>
      match jsGet modesObj modeName with
      | None => throw "TypeError: Cannot convert undefined or null to object"
      | Some modeVars =>
          match getValueAtPath modeVars path with
          | None => ret pendingAliases
          | Some modeValue =>
              match isAliasReference modeValue with
              | Some ref =>
                  let aliasPath := Js.replaceDots (Js.slice_1_m1 ref) in
                  let aliasCollection :=
                    orElse (e_collectionName modeValue) collectionName in
                  setRawValue variable modeId modeValue ;;;
                  ret (pendingAliases ++
                         [ {| p_variable := variable;
                              p_modeId := modeId;
                              p_aliasPath := aliasPath;
                              p_aliasCollection := aliasCollection;
                              p_fallbackValue := Some modeValue |} ])%list
              | None =>
                  setRawValue variable modeId modeValue ;;;
                  ret pendingAliases
              end
          end
      end
  end.

(** The part of the loop body over [variablePaths] that follows the
    choice of the variable (existing or just created). *)
Definition pass1Assign (collectionName : string) (modesObj : ModeVariables)
  (modeNames : list string) (modeMap : list (string * N))
  (flat : string * ExportVariableValue) (variable : N) (acc : Pass1)
  : M Pass1 :=
  let path := fst flat in
  let value := snd flat in
  let fullPath := collectionName +:+ "/" +:+ path in
  (match e_description value with
   | Some d => if Js.truthy d
               then call (OpSetDescription variable d) ;;; ret tt
               else ret tt
   | None => ret tt
   end) ;;;
  tryCatch
    (call (OpSetScopes variable (TypeMapper.arrayToScopes (e_scopes value))) ;;;
     ret tt)
    (fun _ => ret tt) ;;;
  pending <- foldM (pass1Mode collectionName modesObj modeMap variable path)
                   (allPendingAliases acc) modeNames ;;
  modifyCache (Cache.setVariable fullPath variable) ;;;
  ret {| createdCollections := createdCollections acc;
         createdVariables := createdVariables acc;
         updatedVariables := updatedVariables acc;
         skippedVariables := skippedVariables acc;
         allPendingAliases := pending |}.

(** The body of the loop over [variablePaths]. *)
Definition pass1Variable (options : ImportOptions) (collection : N)
  (collectionName : string) (modesObj : ModeVariables)
  (modeNames : list string) (modeMap : list (string * N))
  (acc : Pass1) (flat : string * ExportVariableValue) : M Pass1 :=
  let path := fst flat in
  let value := snd flat in
  let fullPath := collectionName +:+ "/" +:+ path in
  c <- getCache ;;
  match Cache.getVariable fullPath c with
  | Some existingVar =>
      if negb (overwrite options) then
        ret {| createdCollections := createdCollections acc;
               createdVariables := createdVariables acc;
               updatedVariables := updatedVariables acc;
               skippedVariables := skippedVariables acc + 1;
               allPendingAliases := allPendingAliases acc |}
      else
        pass1Assign collectionName modesObj modeNames modeMap flat existingVar
          {| createdCollections := createdCollections acc;
             createdVariables := createdVariables acc;
             updatedVariables := updatedVariables acc + 1;
             skippedVariables := skippedVariables acc;
             allPendingAliases := allPendingAliases acc |}
  | None =>
      created <-
        tryCatch
          (v <- call (OpCreateVariable path collection
                        (TypeMapper.toFigmaType (e_type value))) ;;
           ret (Some v))
          (fun _ => ret None) ;;
      match created with
      | None => ret acc
      | Some variable =>
          pass1Assign collectionName modesObj modeNames modeMap flat variable
            {| createdCollections := createdCollections acc;
               createdVariables := createdVariables acc + 1;
               updatedVariables := updatedVariables acc;
               skippedVariables := skippedVariables acc;
               allPendingAliases := allPendingAliases acc |}
      end
  end.

(** What a document entry holds under its first key, read as a
    collection. *)
Definition asContent (v : ItemValue) : CollectionContent :=
  match v with
  | ICollection c => c
  | IStyles _ => {| modes := None; originalName := None |}
  end.

(** [options.collectionBehaviors?.[json] || ...?.[name] || 'merge'] *)
Definition behaviorOf (options : ImportOptions)
  (jsonCollectionName collectionName : string) : string :=
  orElse (jsGet (collectionBehaviors options) jsonCollectionName)
         (orElse (jsGet (collectionBehaviors options) collectionName) "merge").

Definition countCreatedCollection (acc : Pass1) : Pass1 :=
  {| createdCollections := createdCollections acc + 1;
     createdVariables := createdVariables acc;
     updatedVariables := updatedVariables acc;
     skippedVariables := skippedVariables acc;
     allPendingAliases := allPendingAliases acc |}.

(** Mode set-up of one collection: rename the sole mode to the first
    required name, then add the missing ones.  (With no mode name at
    all the first name is [undefined]: the run throws, here or at the
    flattening that follows.) *)
Definition setupModes (collection : N) (modeNames : list string)
  : M (list (string * N)) :=
  col <- readCollection collection ;;
  let modeMap0 :=
    fold_left (fun m mode => jsSet m (mode_name mode) (modeId mode))
              (col_modes col) [] in
  modeMap1 <-
    match col_modes col, modeNames with
    | [m], first :: _ =>
        match jsGet modeMap0 first with
        | Some _ => ret modeMap0
        | None =>
            call (OpRenameMode collection (modeId m) first) ;;;
            ret (jsSet modeMap0 first (modeId m))
        end
    | [m], [] => throw "TypeError: mode name is undefined"
    | _, _ => ret modeMap0
    end ;;
  foldM
    (fun modeMap modeName =>
       match jsGet modeMap modeName with
       | Some _ => ret modeMap
       | None =>
           tryCatch
             (newModeId <- call (OpAddMode collection modeName) ;;
              ret (jsSet modeMap modeName newModeId))
             (fun _ => ret modeMap)
       end)
    modeMap1 modeNames.

(** The body of the loop over [collectionData] (pass 1). *)
Definition pass1Collection (options : ImportOptions) (acc : Pass1)
  (collectionObj : Item) : M Pass1 :=
  match collectionObj with
  | [] =>
      throw "TypeError: Cannot read properties of undefined (reading '$originalName')"
  | (jsonCollectionName, itemValue) :: _ =>
      let collectionContent := asContent itemValue in
      let collectionName :=
        orElse (originalName collectionContent) jsonCollectionName in
      let collectionBehavior :=
        behaviorOf options jsonCollectionName collectionName in
      c <- getCache ;;
      chosen <-
        match Cache.getCollection collectionName c with
        | Some existingCollection =>
            if String.eqb collectionBehavior "replace" then
              tryCatch
                (call (OpRemoveCollection existingCollection) ;;;
                 modifyCache (Cache.removeCollection collectionName) ;;;
                 collection <- call (OpCreateCollection collectionName) ;;
                 modifyCache (Cache.setCollection collectionName collection) ;;;
                 ret (Some (collection, true)))
                (fun _ => ret None)
            else if negb (merge options) then ret None
            else ret (Some (existingCollection, false))
        | None =>
            collection <- call (OpCreateCollection collectionName) ;;
            modifyCache (Cache.setCollection collectionName collection) ;;;
            ret (Some (collection, true))
        end ;;
      match chosen with
      | None => ret acc
      | Some (collection, created) =>
          let acc1 := if created then countCreatedCollection acc else acc in
          match modes collectionContent with
          | None => throw "TypeError: Cannot convert undefined or null to object"
          | Some modesObj =>
              let modeNames := jsKeys modesObj in
              modeMap <- setupModes collection modeNames ;;
              match jsValues modesObj with
              | [] => throw "TypeError: Cannot convert undefined or null to object"
              | firstModeVars :: _ =>
                  let variablePaths := flattenVariables firstModeVars "" in
                  local <-
                    foldM (pass1Variable options collection collectionName
                             modesObj modeNames modeMap)
                          {| createdCollections := createdCollections acc1;
                             createdVariables := createdVariables acc1;
                             updatedVariables := updatedVariables acc1;
                             skippedVariables := skippedVariables acc1;
                             allPendingAliases := [] |}
                          variablePaths ;;
                  ret {| createdCollections := createdCollections local;
                         createdVariables := createdVariables local;
                         updatedVariables := updatedVariables local;
                         skippedVariables := skippedVariables local;
                         allPendingAliases :=
                           (allPendingAliases acc1 ++ allPendingAliases local)%list |}
              end
          end
      end
  end.

Definition pass1 (options : ImportOptions) (collectionData : list Item)
  : M Pass1 :=
  foldM (pass1Collection options)
        {| createdCollections := 0; createdVariables := 0;
           updatedVariables := 0; skippedVariables := 0;
           allPendingAliases := [] |}
        collectionData.

(** Pass 2: the cache is rebuilt, then every queued alias is wired or
    counted as failed.  The result is
    [(aliasesResolved, aliasesFailed)]. *)
Definition pass2Alias (counts : N * N) (pending : PendingAlias) : M (N * N) :=
  c <- getCache ;;
  match Cache.getVariable
          (p_aliasCollection pending +:+ "/" +:+ p_aliasPath pending) c with
  | Some targetVar =>
      tryCatch
        (call (OpSetValue (p_variable pending) (p_modeId pending)
                          (VAlias targetVar)) ;;;
         ret (fst counts + 1, snd counts))
        (fun _ => ret (fst counts, snd counts + 1))
  | None => ret (fst counts, snd counts + 1)
  end.

Definition pass2 (pendings : list PendingAlias) : M (N * N) :=
  rebuildCache ;;;
  foldM pass2Alias (0, 0) pendings.

(** *** Restore (restoreFromSnapshot) *)

Definition restoreValue (collSnapshot : CollectionSnapshot)
  (varSnapshot : VariableSnapshot) (modeMap : list (string * N)) (newVar : N)
  (pendingAliases : list PendingAlias) (modeSnapshot : Mode)
  : M (list PendingAlias) :=
  match jsGet (vs_values varSnapshot) (mode_name modeSnapshot) with
  | None => ret pendingAliases
  | Some modeValue =>
      let setValue (rawValue : VariableValue) : M (list PendingAlias) :=
        match jsGet modeMap (mode_name modeSnapshot) with
        | Some modeId =>
            call (OpSetValue newVar modeId rawValue) ;;; ret pendingAliases
        | None => throw "Error: invalid mode id"
        end in
      match modeValue with
      | SnapAlias aliasName aliasCollection =>
          if Js.truthy aliasName then
            ret (pendingAliases ++
                   [ {| p_variable := newVar;
                        p_modeId :=
                          match jsGet modeMap (mode_name modeSnapshot) with
                          | Some modeId => modeId
                          | None => 0
                          end;
                        p_aliasPath := aliasName;
                        p_aliasCollection :=
                          orElse (Some aliasCollection) (cs_name collSnapshot);
                        p_fallbackValue := None |} ])%list
          else ret pendingAliases
      | SnapRaw None => ret pendingAliases
      | SnapRaw (Some value) =>
          match vs_type varSnapshot, value with
          | COLOR, VString s => setValue (VColor (ColorParser.parse fromCss (EString s)))
          | _, _ => setValue value
          end
      end
  end.

Definition restoreVariable (collSnapshot : CollectionSnapshot)
  (newCollection : N) (modeMap : list (string * N))
  (pendingAliases : list PendingAlias) (varSnapshot : VariableSnapshot)
  : M (list PendingAlias) :=
  newVar <- call (OpCreateVariable (vs_name varSnapshot) newCollection
                    (vs_type varSnapshot)) ;;
  (match vs_scopes varSnapshot with
   | [] => ret tt
   | scopes => call (OpSetScopes newVar scopes) ;;; ret tt
   end) ;;;
  foldM (restoreValue collSnapshot varSnapshot modeMap newVar)
        pendingAliases (cs_modes collSnapshot).

Definition restoreCollection (pendingAliases : list PendingAlias)
  (collSnapshot : CollectionSnapshot) : M (list PendingAlias) :=
  newCollection <- call (OpCreateCollection (cs_name collSnapshot)) ;;
  (match cs_modes collSnapshot with
   | [] => ret tt
   | firstMode :: others =>
       col <- readCollection newCollection ;;
       match col_modes col with
       | [] => throw "TypeError: Cannot read properties of undefined (reading 'modeId')"
       | m :: _ =>
           call (OpRenameMode newCollection (modeId m) (mode_name firstMode)) ;;;
           forEach others
             (fun mode => call (OpAddMode newCollection (mode_name mode)) ;;; ret tt)
       end
   end) ;;;
  col <- readCollection newCollection ;;
  let modeMap :=
    fold_left (fun m mode => jsSet m (mode_name mode) (modeId mode))
              (col_modes col) [] in
  foldM (restoreVariable collSnapshot newCollection modeMap)
        pendingAliases (cs_variables collSnapshot).

Definition restoreAlias (alias : PendingAlias) : M unit :=
  c <- getCache ;;
  match Cache.getVariable
          (p_aliasCollection alias +:+ "/" +:+ p_aliasPath alias) c with
  | Some targetVar =>
      call (OpSetValue (p_variable alias) (p_modeId alias) (VAlias targetVar)) ;;;
      ret tt
  | None => ret tt
  end.

Definition restoreStyles (kind : StyleKind) (styles : option (list ExportStyle))
  : M unit :=
  match styles with
  | Some (st :: rest) => importStylesOf kind (st :: rest) ;;; ret tt
  | _ => ret tt
  end.

Definition restoreFromSnapshot (snapshot : UndoSnapshot) : M unit :=
  (* Step 1: clear everything *)
  clearAll ;;;
  rebuildCache ;;;
  (* Step 2, first pass: collections and variables with raw values *)
  pendingAliases <- foldM restoreCollection [] (snap_collections snapshot) ;;
  (* Step 3, second pass: resolve aliases *)
  rebuildCache ;;;
  forEach pendingAliases restoreAlias ;;;
  (* Step 4: restore styles *)
  let stylesData := snap_styles snapshot in
  restoreStyles PaintStyle (colorStyles stylesData) ;;;
  restoreStyles TextStyle (textStyles stylesData) ;;;
  restoreStyles EffectStyle (effectStyles stylesData) ;;;
  restoreStyles GridStyle (gridStyles stylesData).

(** *** importVariables

    The argument is the outcome of [JSON.parse] followed by the format
    normalisation: [None] when that throws. *)

Definition isStylesKey (item : Item) : bool :=
  match item with
  | [(k, _)] => String.eqb k "_styles"
  | _ => false
  end.

(** [item._styles] of an entry whose only key is [_styles]. *)
Definition stylesOf (item : Item) : StylesExport :=
  match item with
  | [(_, IStyles s)] => s
  | _ => {| colorStyles := None; textStyles := None;
            effectStyles := None; gridStyles := None |}
  end.

Definition separate (importData : ExportFormat)
  : option StylesExport * list Item :=
  fold_left
    (fun acc item =>
       if isStylesKey item then (Some (stylesOf item), snd acc)
       else (fst acc, (snd acc ++ [item])%list))
    importData (None, []).

Definition importStylesKind (kind : StyleKind)
  (styles : option (list ExportStyle)) (counts : N * N) : M (N * N) :=
  match styles with
  | Some l =>
      r <- importStylesOf kind l ;;
      ret (fst counts + fst r, snd counts + snd r)
  | None => ret counts
  end.

(** The [try] block of [importVariables] once the store is cleared and
    the cache initialised: the two passes, then the styles. *)
Definition importBody (importData : ExportFormat) (options : ImportOptions)
  : M unit :=
  let stylesData := fst (separate importData) in
  let collectionData := snd (separate importData) in
  (* Pass 1 *)
  p1 <- pass1 options collectionData ;;
  (* Pass 2 *)
  aliases <- pass2 (allPendingAliases p1) ;;
  (* Styles *)
  counts <-
    match stylesData with
    | Some sd =>
        if importStyles options then
          rebuildCache ;;;
          c1 <- importStylesKind PaintStyle (colorStyles sd) (0, 0) ;;
          c2 <- importStylesKind TextStyle (textStyles sd) c1 ;;
          c3 <- importStylesKind EffectStyle (effectStyles sd) c2 ;;
          importStylesKind GridStyle (gridStyles sd) c3
        else ret (0, 0)
    | None => ret (0, 0)
    end ;;
  send (MsgImportComplete
          {| collectionsCreated := createdCollections p1;
             variablesCreated := createdVariables p1;
             variablesUpdated := updatedVariables p1;
             variablesSkipped := skippedVariables p1;
             stylesCreated := fst counts;
             stylesUpdated := snd counts |}).

(** The [try] block of [importVariables]. *)
Definition importTry (parsedData : option ExportFormat)
  (options : ImportOptions) : M unit :=
  match parsedData with
  | None => throw "SyntaxError: Unexpected token in JSON"
  | Some importData =>
      (if clearFirst options then clearAll ;;; rebuildCache else ret tt) ;;;
      (match customMerge options with
       | Some (shouldClearVars, shouldClearStyles) =>
           (if shouldClearVars && shouldClearStyles then clearAll
            else if shouldClearVars then clearVariables
            else if shouldClearStyles then clearStyles
            else ret tt) ;;;
           rebuildCache
       | None => ret tt
       end) ;;;
      initializeCache ;;;
      importBody importData options
  end.

Definition rollbackCompleteText : string :=
  "Import failed but your file has been automatically restored to its previous state.".

Definition rollbackFailedText : string :=
  "Import failed and automatic rollback also failed. Please use Ctrl+Z (Cmd+Z) to undo manually.".

Definition noSnapshotText (errorMessage : string) : string :=
  "Import failed: " +:+ errorMessage +:+ ". Use Ctrl+Z (Cmd+Z) to undo changes.".

(** The [catch] block of [importVariables]. *)
Definition importCatch (preImportSnapshot : option UndoSnapshot)
  (errorMessage : string) : M unit :=
  match preImportSnapshot with
  | Some snapshot =>
      send (MsgImportRollingBack errorMessage) ;;;
      tryCatch
        (restoreFromSnapshot snapshot ;;;
         send (MsgImportRollbackComplete errorMessage rollbackCompleteText))
        (fun rollbackErrorMsg =>
           send (MsgImportRollbackFailed errorMessage rollbackErrorMsg
                   rollbackFailedText))
  | None => send (MsgError (noSnapshotText errorMessage))
  end.

Definition takeSnapshot : M (option UndoSnapshot) :=
  tryCatch (s <- createUndoSnapshot ;; ret (Some s)) (fun _ => ret None).

Definition importVariables (parsedData : option ExportFormat)
  (options : ImportOptions) : M unit :=
  preImportSnapshot <- takeSnapshot ;;
  tryCatch (importTry parsedData options) (importCatch preImportSnapshot).

End Engine.

(** A host that refuses nothing. *)
Definition permissive : Host -> HostOp -> bool := fun _ _ => false.

(** ** Section 3 of the source: plan limits and the plan validator *)

Inductive FigmaPlan := starter | professional | organization | enterprise.

(** [maxModesPerCollection] is a number or [Infinity] ([None]). *)
Record PlanLimits := mkPlanLimits
  { plan : FigmaPlan;
    maxModesPerCollection : option N;
    canPublishLibraries : bool;
    hasVariableRestApi : bool }.

Definition PLAN_LIMITS (p : FigmaPlan) : PlanLimits :=
  match p with
  | starter =>
      {| plan := starter; maxModesPerCollection := Some 1;
         canPublishLibraries := false; hasVariableRestApi := false |}
  | professional =>
      {| plan := professional; maxModesPerCollection := Some 10;
         canPublishLibraries := true; hasVariableRestApi := false |}
  | organization =>
      {| plan := organization; maxModesPerCollection := Some 20;
         canPublishLibraries := true; hasVariableRestApi := false |}
  | enterprise =>
      {| plan := enterprise; maxModesPerCollection := None;
         canPublishLibraries := true; hasVariableRestApi := true |}
  end.

Definition MAX_VARIABLES_PER_COLLECTION : N := 5000.

Definition lengthN {A} (l : list A) : N := N.of_nat (length l).

Definition detectCurrentPlan : M PlanLimits :=
  h <- getHost ;;
  let maxModesFound :=
    fold_left (fun m collection => N.max m (lengthN (col_modes collection)))
              (getLocalVariableCollections h) 1 in
  let inferredPlan :=
    if 20 <? maxModesFound then enterprise
    else if 10 <? maxModesFound then organization
    else if 1 <? maxModesFound then professional
    else professional in
  ret (PLAN_LIMITS inferredPlan).

Record PlanValidation := mkPlanValidation
  { currentPlan : PlanLimits;
    existing_collections : N;
    existing_maxModesInAnyCollection : N;
    existing_totalVariables : N;
    importing_collections : N;
    importing_maxModesInAnyCollection : N;
    importing_totalVariables : N;
    collectionsExceedingModeLimit : list string;
    warnings : list string;
    errors : list string;
    canImport : bool;
    libraryDependencies : option (N * list string);
    fontDependencies : option (N * list (string * string)) }.

Definition dquote : string := String (ascii_of_N 34) EmptyString.

(** ['_styles' in item] *)
Definition hasStylesKey (item : Item) : bool :=
  bool_decide ("_styles" ∈ jsKeys item).

(** [colExport[Object.keys(colExport)[0]]], when it is an object with
    [modes]; the entries the validator loops [continue] on give [None]. *)
Definition collectionOf (colExport : Item) : option (string * ModeVariables) :=
  match colExport with
  | [] => None
  | (colName, v) :: _ =>
      match modes (asContent v) with
      | Some m => Some (colName, m)
      | None => None
      end
  end.

Definition exceeds (modeCount : N) (limit : option N) : bool :=
  match limit with
  | Some l => l <? modeCount
  | None => false
  end.

Definition exceedingText (colName : string) (modeCount : N) (limit : option N)
  : string :=
  dquote +:+ colName +:+ dquote +:+ " (" +:+ pretty modeCount
    +:+ " modes, limit: "
    +:+ match limit with Some l => pretty l | None => "∞" end +:+ ")".

Definition variableLimitText (colName : string) (varCount : N) : string :=
  "Collection " +:+ dquote +:+ colName +:+ dquote +:+ " has "
    +:+ pretty varCount +:+ " variables, exceeds limit of "
    +:+ pretty MAX_VARIABLES_PER_COLLECTION.

Definition firstModeCount (m : ModeVariables) : N :=
  match jsValues m with
  | firstMode :: _ => countNestedVariables firstMode 0
  | [] => 0
  end.

Definition largeImportText (n : N) : string :=
  "Large import: " +:+ pretty n +:+ " variables. This may take a moment.".

Definition manyCollectionsText (n : N) : string :=
  "Importing " +:+ pretty n +:+ " collections. Consider importing in batches.".

(** The local variables of the host. *)
Definition getLocalVariables (h : Host) : list (N * VariableNode) :=
  filter (fun kv =>
            match getVariableCollectionById h (variableCollectionId (snd kv)) with
            | Some c => negb (col_remote c)
            | None => true
            end = true)
         (map_to_list (variables h)).

Definition addUnique (l : list string) (x : string) : list string :=
  if bool_decide (x ∈ l) then l else (l ++ [x])%list.

Definition validateImportAgainstPlan (importData : ExportFormat)
  (planOverride : option FigmaPlan) : M PlanValidation :=
  currentPlan <-
    match planOverride with
    | Some p => ret (PLAN_LIMITS p)
    | None => detectCurrentPlan
    end ;;
  h <- getHost ;;
  let collections := getLocalVariableCollections h in
  let existingMaxModes :=
    fold_left (fun m col => N.max m (lengthN (col_modes col))) collections 0 in
  let existingTotalVars := lengthN (getLocalVariables h) in
  let importCollections := filter (fun item => hasStylesKey item = false) importData in
  (* first loop: mode counts and the variable total *)
  let scan :=
    fold_left
      (fun (acc : N * N * list string) colExport =>
         match collectionOf colExport with
         | None => acc
         | Some (colName, m) =>
             let modeCount := lengthN (jsKeys m) in
             (N.max (fst (fst acc)) modeCount,
              snd (fst acc) + firstModeCount m,
              if exceeds modeCount (maxModesPerCollection currentPlan)
              then (snd acc ++ [exceedingText colName modeCount
                                  (maxModesPerCollection currentPlan)])%list
              else snd acc)
         end)
      importCollections (0, 0, []) in
  let importingMaxModes := fst (fst scan) in
  let importingTotalVars := snd (fst scan) in
  let exceeding := snd scan in
  (* second loop: the hard limit on variables per collection *)
  let errors :=
    fold_left
      (fun errs colExport =>
         match collectionOf colExport with
         | None => errs
         | Some (colName, m) =>
             let varCount := firstModeCount m in
             if MAX_VARIABLES_PER_COLLECTION <? varCount
             then (errs ++ [variableLimitText colName varCount])%list
             else errs
         end)
      importCollections [] in
  let warnings :=
    ((if 1000 <? importingTotalVars then [largeImportText importingTotalVars] else [])
     ++ (if 10 <? lengthN importCollections
         then [manyCollectionsText (lengthN importCollections)] else []))%list in
  (* library dependencies *)
  let libs :=
    fold_left
      (fun (acc : list string * N) colExport =>
         match collectionOf colExport with
         | None => acc
         | Some (_, m) =>
             fold_left
               (fun acc' modeName =>
                  match jsGet m modeName with
                  | None => acc'
                  | Some modeData =>
                      fold_left
                        (fun acc'' flat =>
                           match e_libraryRef (snd flat), e_collectionName (snd flat) with
                           | Some ref, Some cn =>
                               if Js.truthy ref && Js.truthy cn
                               then (addUnique (fst acc'') cn, snd acc'' + 1)
                               else acc''
                           | _, _ => acc''
                           end)
                        (flattenVariables modeData "") acc'
                  end)
               (jsKeys m) acc
         end)
      importCollections ([], 0) in
  (* font dependencies *)
  let fonts :=
    fold_left
      (fun (acc : list (string * string) * N) item =>
         if hasStylesKey item then
           match jsGet item "_styles" with
           | Some (IStyles sd) =>
               match textStyles sd with
               | Some l =>
                   fold_left
                     (fun acc' textStyle =>
                        let font := (s_fontFamily textStyle, s_fontStyle textStyle) in
                        (if bool_decide
                              ((fst font +:+ "|" +:+ snd font)
                               ∈ map (fun f => fst f +:+ "|" +:+ snd f) (fst acc'))
                         then fst acc' else (fst acc' ++ [font])%list,
                         snd acc' + 1))
                     l acc
               | None => acc
               end
           | _ => acc
           end
         else acc)
      importData ([], 0) in
  ret {| currentPlan := currentPlan;
         existing_collections := lengthN collections;
         existing_maxModesInAnyCollection := existingMaxModes;
         existing_totalVariables := existingTotalVars;
         importing_collections := lengthN importCollections;
         importing_maxModesInAnyCollection := importingMaxModes;
         importing_totalVariables := importingTotalVars;
         collectionsExceedingModeLimit := exceeding;
         warnings := warnings;
         errors := errors;
         canImport := match errors with [] => true | _ => false end;
         libraryDependencies :=
           match fst libs with [] => None | l => Some (snd libs, l) end;
         fontDependencies :=
           match fst fonts with [] => None | l => Some (snd fonts, l) end |}.

(** What one document entry contributes to [errors] and to
    [collectionsExceedingModeLimit] (the bodies of the two loops). *)
Definition variableErrorOf (colExport : Item) : list string :=
  match collectionOf colExport with
  | Some (colName, m) =>
      if MAX_VARIABLES_PER_COLLECTION <? firstModeCount m
      then [variableLimitText colName (firstModeCount m)] else []
  | None => []
  end.

Definition exceedingOf (limit : option N) (colExport : Item) : list string :=
  match collectionOf colExport with
  | Some (colName, m) =>
      if exceeds (lengthN (jsKeys m)) limit
      then [exceedingText colName (lengthN (jsKeys m)) limit] else []
  | None => []
  end.

(** ** Section 10B of the source: the import diff *)

Record VariableChange := mkVariableChange
  { ch_collection : string;
    ch_path : string;
    oldValue : string;
    newValue : string }.

Record DiffSummary := mkDiffSummary
  { collectionsNew : N;
    collectionsModified : N;
    collectionsUnchanged : N;
    variablesNew : N;
    variablesModified : N;
    variablesUnchanged : N;
    stylesNew : N;
    stylesModified : N }.

Record ImportDiffResult := mkImportDiffResult
  { newCollections : list string;
    modifiedCollections : list string;
    unchangedCollections : list string;
    newVariables : list (string * string);        (* collection, path *)
    modifiedVariables : list VariableChange;
    unchangedVariables : N;
    newStyles : list (string * string);           (* type, name *)
    modifiedStyles : list (string * string);
    summary : DiffSummary }.

Definition emptyDiff : ImportDiffResult :=
  {| newCollections := []; modifiedCollections := []; unchangedCollections := [];
     newVariables := []; modifiedVariables := []; unchangedVariables := 0;
     newStyles := []; modifiedStyles := [];
     summary := {| collectionsNew := 0; collectionsModified := 0;
                   collectionsUnchanged := 0; variablesNew := 0;
                   variablesModified := 0; variablesUnchanged := 0;
                   stylesNew := 0; stylesModified := 0 |} |}.

Section Diff.

(** [String(n)] for a number, used only to display old and new values. *)
Variable formatNumber : Q -> string.

Definition valuesAreDifferent (existing : option VariableValue)
  (imported : ExportValue) : bool :=
  match existing with
  | None => true
  | Some (VAlias _) => true
  | Some (VColor c) =>
      match imported with
      | EColor ec =>
          negb (String.eqb
                  (Js.toLowerCase (hex (ColorConverter.toAllFormats c)))
                  (Js.toLowerCase (hex ec)))
      | _ => true
      end
  | Some (VString s) =>
      match imported with
      | EString s' => negb (String.eqb s s')
      | _ => true
      end
  | Some (VNumber q) =>
      match imported with
      | ENumber q' => negb (Qeq_bool q q')
      | _ => true
      end
  | Some (VBoolean b) =>
      match imported with
      | EBoolean b' => negb (Bool.eqb b b')
      | _ => true
      end
  end.

Definition formatBool (b : bool) : string := if b then "true" else "false".

Definition formatExisting (value : option VariableValue) : string :=
  match value with
  | None => "undefined"
  | Some (VColor c) => hex (ColorConverter.toAllFormats c)
  | Some (VAlias _) => "{alias}"
  | Some (VString s) => s
  | Some (VNumber q) => formatNumber q
  | Some (VBoolean b) => formatBool b
  end.

Definition formatImported (value : ExportValue) : string :=
  match value with
  | EColor ec => hex ec
  | EString s => s
  | ENumber q => formatNumber q
  | EBoolean b => formatBool b
  | EUndefined => "undefined"
  end.

Definition addNewVariable (collectionName currentPath : string)
  (result : ImportDiffResult) : ImportDiffResult :=
  let su := summary result in
  {| newCollections := newCollections result;
     modifiedCollections := modifiedCollections result;
     unchangedCollections := unchangedCollections result;
     newVariables := (newVariables result ++ [(collectionName, currentPath)])%list;
     modifiedVariables := modifiedVariables result;
     unchangedVariables := unchangedVariables result;
     newStyles := newStyles result;
     modifiedStyles := modifiedStyles result;
     summary := {| collectionsNew := collectionsNew su;
                   collectionsModified := collectionsModified su;
                   collectionsUnchanged := collectionsUnchanged su;
                   variablesNew := variablesNew su + 1;
                   variablesModified := variablesModified su;
                   variablesUnchanged := variablesUnchanged su;
                   stylesNew := stylesNew su;
                   stylesModified := stylesModified su |} |}.

Definition addModifiedVariable (change : VariableChange)
  (result : ImportDiffResult) : ImportDiffResult :=
  let su := summary result in
  {| newCollections := newCollections result;
     modifiedCollections := modifiedCollections result;
     unchangedCollections := unchangedCollections result;
     newVariables := newVariables result;
     modifiedVariables := (modifiedVariables result ++ [change])%list;
     unchangedVariables := unchangedVariables result;
     newStyles := newStyles result;
     modifiedStyles := modifiedStyles result;
     summary := {| collectionsNew := collectionsNew su;
                   collectionsModified := collectionsModified su;
                   collectionsUnchanged := collectionsUnchanged su;
                   variablesNew := variablesNew su;
                   variablesModified := variablesModified su + 1;
                   variablesUnchanged := variablesUnchanged su;
                   stylesNew := stylesNew su;
                   stylesModified := stylesModified su |} |}.

Definition addUnchangedVariable (result : ImportDiffResult)
  : ImportDiffResult :=
  let su := summary result in
  {| newCollections := newCollections result;
     modifiedCollections := modifiedCollections result;
     unchangedCollections := unchangedCollections result;
     newVariables := newVariables result;
     modifiedVariables := modifiedVariables result;
     unchangedVariables := unchangedVariables result + 1;
     newStyles := newStyles result;
     modifiedStyles := modifiedStyles result;
     summary := {| collectionsNew := collectionsNew su;
                   collectionsModified := collectionsModified su;
                   collectionsUnchanged := collectionsUnchanged su;
                   variablesNew := variablesNew su;
                   variablesModified := variablesModified su;
                   variablesUnchanged := variablesUnchanged su + 1;
                   stylesNew := stylesNew su;
                   stylesModified := stylesModified su |} |}.

(** The leaf case of [checkVariablesDiff]. *)
Definition checkLeaf (modeId : N) (collectionName currentPath : string)
  (value : ExportVariableValue) (result : ImportDiffResult)
  : M ImportDiffResult :=
  c <- getCache ;;
  match Cache.getVariable (collectionName +:+ "/" +:+ currentPath) c with
  | None => ret (addNewVariable collectionName currentPath result)
  | Some existingVar =>
      v <- readVariable existingVar ;;
      let existingValue := alookup (valuesByMode v) modeId in
      let importValue := e_value value in
      if valuesAreDifferent existingValue importValue then
        ret (addModifiedVariable
               {| ch_collection := collectionName;
                  ch_path := currentPath;
                  oldValue := formatExisting existingValue;
                  newValue := formatImported importValue |}
               result)
      else ret (addUnchangedVariable result)
  end.

Fixpoint checkNode (modeId : N) (collectionName path key : string)
  (n : Node) (result : ImportDiffResult) : M ImportDiffResult :=
  let currentPath := joinPath path key in
  match n with
  | Leaf value => checkLeaf modeId collectionName currentPath value result
  | Group children =>
      (fix go (l : list (string * Node)) (result : ImportDiffResult) :=
         match l with
         | [] => ret result
         | (k, child) :: rest =>
             r <- checkNode modeId collectionName currentPath k child result ;;
             go rest r
         end) children result
  end.

Definition checkVariablesDiff (modeId : N) (importData : NestedVariables)
  (collectionName path : string) (result : ImportDiffResult)
  : M ImportDiffResult :=
  foldM (fun r kv => checkNode modeId collectionName path (fst kv) (snd kv) r)
        result importData.

Definition addStyle (isExisting : bool) (type name : string)
  (result : ImportDiffResult) : ImportDiffResult :=
  let su := summary result in
  {| newCollections := newCollections result;
     modifiedCollections := modifiedCollections result;
     unchangedCollections := unchangedCollections result;
     newVariables := newVariables result;
     modifiedVariables := modifiedVariables result;
     unchangedVariables := unchangedVariables result;
     newStyles := if isExisting then newStyles result
                  else (newStyles result ++ [(type, name)])%list;
     modifiedStyles := if isExisting
                       then (modifiedStyles result ++ [(type, name)])%list
                       else modifiedStyles result;
     summary := {| collectionsNew := collectionsNew su;
                   collectionsModified := collectionsModified su;
                   collectionsUnchanged := collectionsUnchanged su;
                   variablesNew := variablesNew su;
                   variablesModified := variablesModified su;
                   variablesUnchanged := variablesUnchanged su;
                   stylesNew := if isExisting then stylesNew su
                                else stylesNew su + 1;
                   stylesModified := if isExisting then stylesModified su + 1
                                     else stylesModified su |} |}.

Definition stylesDiffOf (h : Host) (kind : StyleKind) (type : string)
  (styles : option (list ExportStyle)) (result : ImportDiffResult)
  : ImportDiffResult :=
  match styles with
  | None => result
  | Some l =>
      let existingNames := map style_name (getLocalStyles kind h) in
      fold_left
        (fun r style =>
           addStyle (bool_decide (s_name style ∈ existingNames))
                    type (s_name style) r)
        l result
  end.

Definition computeStylesDiff (stylesData : StylesExport)
  (result : ImportDiffResult) : M ImportDiffResult :=
  h <- getHost ;;
  ret (stylesDiffOf h GridStyle "grid" (gridStyles stylesData)
         (stylesDiffOf h EffectStyle "effect" (effectStyles stylesData)
            (stylesDiffOf h TextStyle "text" (textStyles stylesData)
               (stylesDiffOf h PaintStyle "color" (colorStyles stylesData)
                  result)))).

Definition addNewCollection (collectionName : string) (varCount : N)
  (result : ImportDiffResult) : ImportDiffResult :=
  let su := summary result in
  {| newCollections := (newCollections result ++ [collectionName])%list;
     modifiedCollections := modifiedCollections result;
     unchangedCollections := unchangedCollections result;
     newVariables := newVariables result;
     modifiedVariables := modifiedVariables result;
     unchangedVariables := unchangedVariables result;
     newStyles := newStyles result;
     modifiedStyles := modifiedStyles result;
     summary := {| collectionsNew := collectionsNew su + 1;
                   collectionsModified := collectionsModified su;
                   collectionsUnchanged := collectionsUnchanged su;
                   variablesNew := variablesNew su + varCount;
                   variablesModified := variablesModified su;
                   variablesUnchanged := variablesUnchanged su;
                   stylesNew := stylesNew su;
                   stylesModified := stylesModified su |} |}.

(** [result.modifiedVariables.some(v => v.collection === name) ||
     result.newVariables.some(v => v.collection === name)] *)
Definition touched (collectionName : string) (result : ImportDiffResult)
  : bool :=
  existsb (fun v => String.eqb (ch_collection v) collectionName)
          (modifiedVariables result)
  || existsb (fun v => String.eqb (fst v) collectionName)
             (newVariables result).

(** The classification that closes the treatment of an existing
    collection. *)
Definition classifyCollection (collectionName : string)
  (result : ImportDiffResult) : ImportDiffResult :=
  let su := summary result in
  let touched := touched collectionName result in
  {| newCollections := newCollections result;
     modifiedCollections :=
       if touched then (modifiedCollections result ++ [collectionName])%list
       else modifiedCollections result;
     unchangedCollections :=
       if touched then unchangedCollections result
       else (unchangedCollections result ++ [collectionName])%list;
     newVariables := newVariables result;
     modifiedVariables := modifiedVariables result;
     unchangedVariables := unchangedVariables result;
     newStyles := newStyles result;
     modifiedStyles := modifiedStyles result;
     summary := {| collectionsNew := collectionsNew su;
                   collectionsModified :=
                     if touched then collectionsModified su + 1
                     else collectionsModified su;
                   collectionsUnchanged :=
                     if touched then collectionsUnchanged su
                     else collectionsUnchanged su + 1;
                   variablesNew := variablesNew su;
                   variablesModified := variablesModified su;
                   variablesUnchanged := variablesUnchanged su;
                   stylesNew := stylesNew su;
                   stylesModified := stylesModified su |} |}.

(** The loop over the modes of an existing collection.  The local flag
    [hasModifications] is carried as the source carries it. *)
Definition diffMode (existingCollection : N) (collectionName : string)
  (acc : bool * ImportDiffResult) (entry : string * NestedVariables)
  : M (bool * ImportDiffResult) :=
  col <- readCollection existingCollection ;;
  match find (fun m => String.eqb (mode_name m) (fst entry)) (col_modes col) with
  | None => ret (true, snd acc)
  | Some mode =>
      r <- checkVariablesDiff (modeId mode) (snd entry) collectionName ""
                              (snd acc) ;;
      ret (fst acc, r)
  end.

(** The collection a document entry names:
    [$originalName || Object.keys(entry)[0]]. *)
Definition entryName (item : Item) : option string :=
  match item with
  | [] => None
  | (jsonCollectionName, v) :: _ =>
      Some (orElse (originalName (asContent v)) jsonCollectionName)
  end.

(** The body of the loop over the document. *)
Definition diffItem (result : ImportDiffResult) (item : Item)
  : M ImportDiffResult :=
  if isStylesKey item then computeStylesDiff (stylesOf item) result
  else
    match item with
    | [] =>
        throw "TypeError: Cannot read properties of undefined (reading '$originalName')"
    | (jsonCollectionName, v) :: _ =>
        let collectionContent := asContent v in
        let collectionName :=
          orElse (originalName collectionContent) jsonCollectionName in
        c <- getCache ;;
        match modes collectionContent with
        | None => throw "TypeError: Cannot convert undefined or null to object"
        | Some m =>
            match Cache.getCollection collectionName c with
            | None =>
                ret (addNewCollection collectionName
                       (countVariablesInCollection m) result)
            | Some existingCollection =>
                looped <- foldM (diffMode existingCollection collectionName)
                                (false, result) m ;;
                ret (classifyCollection collectionName (snd looped))
            end
        end
    end.

Definition computeImportDiff (importData : ExportFormat) : M ImportDiffResult :=
  initializeCache ;;;
  foldM diffItem emptyDiff importData.

End Diff.

(** ** Section 4B of the source: naming conventions *)

Inductive NamingConvention := original | camelCase | kebab_case | snake_case.

Module NamingConverter.

Definition isLower (c : ascii) : bool :=
  let n := N_of_ascii c in (97 <=? n) && (n <=? 122).
Definition isUpper (c : ascii) : bool :=
  let n := N_of_ascii c in (65 <=? n) && (n <=? 90).

Definition upperChar (c : ascii) : ascii :=
  if isLower c then ascii_of_N (N_of_ascii c - 32) else c.

(** [name.replace(/([a-z])([A-Z])/g, '$1 $2')] *)
Fixpoint splitCamel (s : string) : string :=
  match s with
  | EmptyString => EmptyString
  | String c rest =>
      match rest with
      | String d _ =>
          if isLower c && isUpper d
          then String c (String " "%char (splitCamel rest))
          else String c (splitCamel rest)
      | EmptyString => String c EmptyString
      end
  end.

(** A character of the class [[\s\/\-_]] (ASCII white space). *)
Definition isSeparator (c : ascii) : bool :=
  let n := N_of_ascii c in
  (n =? 32) || ((9 <=? n) && (n <=? 13)) || (n =? 47) || (n =? 45) || (n =? 95).

(** [.split(/[\s\/\-_]+/).filter(w => w.length > 0)] *)
Fixpoint wordsGo (cur : string) (s : string) : list string :=
  match s with
  | EmptyString =>
      match cur with EmptyString => [] | _ => [String.rev cur] end
  | String c rest =>
      if isSeparator c
      then match cur with
           | EmptyString => wordsGo EmptyString rest
           | _ => String.rev cur :: wordsGo EmptyString rest
           end
      else wordsGo (String c cur) rest
  end.

Definition capitalize (w : string) : string :=
  match w with
  | EmptyString => EmptyString
  | String c rest => String (upperChar c) rest
  end.

Definition convert (name : string) (convention : NamingConvention) : string :=
  match convention with
  | original => name
  | _ =>
      let words := map Js.toLowerCase (wordsGo EmptyString (splitCamel name)) in
      match words with
      | [] => name
      | w :: ws =>
          match convention with
          | camelCase => w +:+ Js.join "" (map capitalize ws)
          | kebab_case => Js.join "-" words
          | snake_case => Js.join "_" words
          | original => name
          end
      end
  end.

End NamingConverter.

(** ** resolveAliasValue (eager alias resolution of the export)

    [getVar] is [figma.variables.getVariableByIdAsync]. *)

Definition firstValue (variable : VariableNode) (preferredModeId : N)
  : option VariableValue :=
  match alookup (valuesByMode variable) preferredModeId with
  | Some v => Some v
  | None =>
      match valuesByMode variable with
      | (_, v) :: _ => Some v
      | [] => None
      end
  end.

Equations? resolveAliasValue (getVar : N -> option VariableNode)
  (variable : VariableNode) (preferredModeId : N) (maxDepth : Z)
  : VariableValue by wf (Z.to_nat maxDepth) lt :=
  resolveAliasValue getVar variable preferredModeId maxDepth
    with Z_le_gt_dec maxDepth 0 := {
    | left _ => VString ""
    | right _ with firstValue variable preferredModeId := {
        | None => VString ""
        | Some (VAlias id) with getVar id := {
            | Some nextVar =>
                resolveAliasValue getVar nextVar preferredModeId (maxDepth - 1)
            | None => VString "" }
        | Some value => value } }.
Proof. lia. Qed.

Definition DEFAULT_MAX_DEPTH : Z := 10.

(** The recursive calls [resolveAliasValue] makes, in order: the
    variable and the depth bound passed to each. *)
Equations? resolveAliasCalls (getVar : N -> option VariableNode)
  (variable : VariableNode) (preferredModeId : N) (maxDepth : Z)
  : list (VariableNode * Z) by wf (Z.to_nat maxDepth) lt :=
  resolveAliasCalls getVar variable preferredModeId maxDepth
    with Z_le_gt_dec maxDepth 0 := {
    | left _ => []
    | right _ with firstValue variable preferredModeId := {
        | None => []
        | Some (VAlias id) with getVar id := {
            | Some nextVar =>
                (nextVar, (maxDepth - 1)%Z)
                  :: resolveAliasCalls getVar nextVar preferredModeId (maxDepth - 1)
            | None => [] }
        | Some value => [] } }.
Proof. lia. Qed.

(** A set of variables closed under alias steps: every member is, in the
    mode read, an alias of a live member.  A cycle is such a set. *)
Definition aliasClosed (getVar : N -> option VariableNode)
  (preferredModeId : N) (S : VariableNode -> Prop) : Prop :=
  forall v, S v ->
    exists id next,
      firstValue v preferredModeId = Some (VAlias id)
      /\ getVar id = Some next /\ S next.

(** ** Section 11 of the source: export (Figma JSON format) *)

(** A property key that is an array index: enumerated first, in
    ascending numeric order, by [Object.keys]. *)
Definition digitValue (c : ascii) : option N :=
  let n := N_of_ascii c in
  if (48 <=? n) && (n <=? 57) then Some (n - 48) else None.

Fixpoint parseDigits (s : string) (acc : N) : option N :=
  match s with
  | EmptyString => Some acc
  | String c rest =>
      match digitValue c with
      | Some d => parseDigits rest (10 * acc + d)
      | None => None
      end
  end.

Definition arrayIndex (key : string) : option N :=
  match key with
  | EmptyString => None
  | String "0" EmptyString => Some 0
  | String "0" _ => None
  | _ =>
      match parseDigits key 0 with
      | Some n => if n <? 4294967295 then Some n else None
      | None => None
      end
  end.

(** Adding a fresh key to an object. *)
Fixpoint objInsert {A} (obj : list (string * A)) (key : string) (v : A)
  : list (string * A) :=
  match arrayIndex key with
  | None => (obj ++ [(key, v)])%list
  | Some n =>
      match obj with
      | [] => [(key, v)]
      | (k, w) :: rest =>
          match arrayIndex k with
          | Some m => if m <? n then (k, w) :: objInsert rest key v
                      else (key, v) :: obj
          | None => (key, v) :: obj
          end
      end
  end.

(** [obj[key] = v] on a plain object. *)
Definition objSet {A} (obj : list (string * A)) (key : string) (v : A)
  : list (string * A) :=
  match jsGet obj key with
  | Some _ => jsSet obj key v
  | None => objInsert obj key v
  end.

(** Navigate or create the nested groups, then assign the leaf. *)
Fixpoint assignAt (current : NestedVariables) (nameParts : list string)
  (leaf : ExportVariableValue) : NestedVariables :=
  match nameParts with
  | [] => current
  | [leafName] => objSet current leafName (Leaf leaf)
  | part :: rest =>
      let sub := match jsGet current part with
                 | Some (Group children) => children
                 | _ => []
                 end in
      objSet current part (Group (assignAt sub rest leaf))
  end.

Record ExportOptions := mkExportOptions
  { selectedCollections : list string;
    selectedModes : list (string * list string);
    styleOptions : option (bool * bool * bool * bool);
    includeImages : bool;
    namingConvention : NamingConvention;
    resolveAliases : bool }.

Definition toExportValue (value : option VariableValue) : ExportValue :=
  match value with
  | None => EUndefined
  | Some (VColor c) => EColor (ColorConverter.toAllFormats c)
  | Some (VString s) => EString s
  | Some (VNumber q) => ENumber q
  | Some (VBoolean b) => EBoolean b
  | Some (VAlias _) => EUndefined
  end.

(** The leaf exported for one variable in one mode. *)
Definition exportLeaf (h : Host) (opts : ExportOptions)
  (variable : VariableNode) (mode : Mode) : ExportVariableValue :=
  let convention := namingConvention opts in
  let value := alookup (valuesByMode variable) (modeId mode) in
  let base (v : ExportValue) (cn : option string) (lib : option string)
           (lv : option ExportValue) :=
    {| e_scopes := TypeMapper.scopesToArray (var_scopes variable);
       e_type := TypeMapper.toExportType (resolvedType variable);
       e_description := if Js.truthy (var_description variable)
                        then Some (var_description variable) else None;
       e_value := v;
       e_collectionName := cn;
       e_libraryRef := lib;
       e_localValue := lv |} in
  match value with
  | Some (VAlias id) =>
      match getVariableById h id with
      | Some aliasVar =>
          let aliasCol :=
            getVariableCollectionById h (variableCollectionId aliasVar) in
          let aliasCollection :=
            match aliasCol with Some c => col_name c | None => "" end in
          let isLibraryAlias :=
            match aliasCol with Some c => col_remote c | None => false end in
          if resolveAliases opts then
            base (toExportValue
                    (Some (resolveAliasValue (getVariableById h) aliasVar
                             (modeId mode) DEFAULT_MAX_DEPTH)))
                 None None None
          else
            let aliasPath :=
              Js.join "."
                (map (fun p => NamingConverter.convert p convention)
                     (Js.splitSlash (var_name aliasVar))) in
            let aliasRef := "{" +:+ aliasPath +:+ "}" in
            let localValue :=
              if isLibraryAlias then
                match valuesByMode aliasVar with
                | (_, VAlias _) :: _ => None
                | (_, v) :: _ => Some (toExportValue (Some v))
                | [] => None
                end
              else None in
            base (EString aliasRef)
                 (if Js.truthy aliasCollection then Some aliasCollection else None)
                 (if isLibraryAlias then Some aliasRef else None)
                 localValue
      | None => base (EString "") None None None
      end
  | _ => base (toExportValue value) None None None
  end.

Definition exportCollection (h : Host) (opts : ExportOptions)
  (collection : VariableCollection) : Item :=
  let convention := namingConvention opts in
  let modesToExport :=
    match jsGet (selectedModes opts) (col_name collection) with
    | Some allowedModes =>
        filter (fun m => bool_decide (mode_name m ∈ allowedModes) = true)
               (col_modes collection)
    | None => col_modes collection
    end in
  let exportCollectionName :=
    NamingConverter.convert (col_name collection) convention in
  let modes0 : ModeVariables :=
    fold_left
      (fun ms mode =>
         objSet ms (NamingConverter.convert (mode_name mode) convention) [])
      modesToExport [] in
  let modes1 :=
    fold_left
      (fun ms variableId =>
         match getVariableById h variableId with
         | None => ms
         | Some variable =>
             let nameParts :=
               map (fun part => NamingConverter.convert part convention)
                   (Js.splitSlash (var_name variable)) in
             fold_left
               (fun ms' mode =>
                  let exportModeName :=
                    NamingConverter.convert (mode_name mode) convention in
                  match jsGet ms' exportModeName with
                  | Some modeValues =>
                      jsSet ms' exportModeName
                        (assignAt modeValues nameParts
                                  (exportLeaf h opts variable mode))
                  | None => ms'
                  end)
               modesToExport ms
         end)
      (variableIds collection) modes0 in
  [ (exportCollectionName,
     ICollection
       {| modes := Some modes1;
          originalName :=
            if String.eqb exportCollectionName (col_name collection)
            then None else Some (col_name collection) |}) ].

(** The [exportData] array, collections only. *)
Definition exportCollections (h : Host) (opts : ExportOptions) : ExportFormat :=
  let collections :=
    match selectedCollections opts with
    | [] => getLocalVariableCollections h
    | selected =>
        filter (fun c => bool_decide (col_name c ∈ selected) = true)
               (getLocalVariableCollections h)
    end in
  map (exportCollection h opts) collections.

Section ExportData.

Variable rejects : Host -> HostOp -> bool.

(** The [exportData] array: the collections, then one [_styles] entry
    when at least one style kind was requested. *)
Definition exportData (opts : ExportOptions) : M ExportFormat :=
  h <- getHost ;;
  let exported := exportCollections h opts in
  match styleOptions opts with
  | None => ret exported
  | Some (wantColor, wantText, wantEffect, wantGrid) =>
      cs <- (if wantColor
             then l <- exportStyles rejects PaintStyle ;; ret (Some l)
             else ret None) ;;
      ts <- (if wantText
             then l <- exportStyles rejects TextStyle ;; ret (Some l)
             else ret None) ;;
      es <- (if wantEffect
             then l <- exportStyles rejects EffectStyle ;; ret (Some l)
             else ret None) ;;
      gs <- (if wantGrid
             then l <- exportStyles rejects GridStyle ;; ret (Some l)
             else ret None) ;;
      if wantColor || wantText || wantEffect || wantGrid then
        ret (exported ++
               [ [("_styles",
                   IStyles {| colorStyles := cs; textStyles := ts;
                              effectStyles := es; gridStyles := gs |})] ])%list
      else ret exported
  end.

End ExportData.

(** ** Vocabulary of the diff properties *)

(** The leaf case of the diff applied to a flattened entry. *)
Definition checkFlat (formatNumber : Q -> string) (modeId : N)
  (collectionName : string) (r : ImportDiffResult)
  (flat : string * ExportVariableValue) : M ImportDiffResult :=
  checkLeaf formatNumber modeId collectionName (fst flat) (snd flat) r.

(** [r'] extends [r] by variables of collection [X] only. *)
Definition extends (X : string) (r r' : ImportDiffResult) : Prop :=
  modifiedCollections r' = modifiedCollections r
  /\ unchangedCollections r' = unchangedCollections r
  /\ (exists nv, newVariables r' = (newVariables r ++ nv)%list
                 /\ Forall (fun v => fst v = X) nv)
  /\ (exists mv, modifiedVariables r' = (modifiedVariables r ++ mv)%list
                 /\ Forall (fun v => ch_collection v = X) mv).

(** The four lists the collection classification reads or writes. *)
Definition sameVars (r r' : ImportDiffResult) : Prop :=
  modifiedCollections r' = modifiedCollections r
  /\ unchangedCollections r' = unchangedCollections r
  /\ newVariables r' = newVariables r
  /\ modifiedVariables r' = modifiedVariables r.

(** The collections named by the collection entries of a document. *)
Definition collectionNames (doc : ExportFormat) : list string :=
  omap (fun item => if isStylesKey item then None else entryName item) doc.

(** ** Sample stores and documents *)

Definition noCss : string -> RGBA := fun _ => ColorParser.black.
Definition noFormat : Q -> string := fun _ => "".

Definition colorLeaf (h : string) : Node :=
  Leaf {| e_scopes := ["ALL_SCOPES"]; e_type := TColor; e_description := None;
          e_value := EColor {| hex := h;
                               rgb := ColorConverter.toRgb255 (ColorParser.fromHex h) |};
          e_collectionName := None; e_libraryRef := None;
          e_localValue := None |}.

(** A live store with the variable [Colors/Brand = #FF0000] in the mode
    [Light]. *)
Definition colorsHost : Host :=
  {| collections :=
       [ {| col_id := 0; col_name := "Colors"; col_remote := false;
            col_modes := [mkMode 1 "Light"]; variableIds := [2] |} ];
     variables :=
       {[ 2 := {| var_name := "Brand"; variableCollectionId := 0;
                  resolvedType := COLOR;
                  valuesByMode := [(1, VColor (mkRGBA 1 0 0 1))];
                  var_description := ""; var_scopes := ["ALL_SCOPES"] |} ]};
     styles := [];
     nextId := 3 |}.

Definition colorsState : State :=
  {| host := colorsHost; cache := Cache.empty; outbox := [] |}.

Definition colorsDocument (brandHex : string) (extra : NestedVariables)
  : ExportFormat :=
  [ [("Colors",
      ICollection {| modes := Some [("Light", ("Brand", colorLeaf brandHex) :: extra)];
                     originalName := None |})] ].

(** The same collection, with a second mode the live collection lacks. *)
Definition twoModesDocument : ExportFormat :=
  [ [("Colors",
      ICollection {| modes := Some [("Light", [("Brand", colorLeaf "#FF0000")]);
                                    ("Dark", [("Brand", colorLeaf "#FF0000")])];
                     originalName := None |})] ].

(** A document whose only variable aliases a library token that is in
    neither the document nor the store; it carries [$localValue]. *)
Definition libraryAliasLeaf : ExportVariableValue :=
  {| e_scopes := ["ALL_SCOPES"]; e_type := TString; e_description := None;
     e_value := EString "{brand.accent}";
     e_collectionName := Some "Library";
     e_libraryRef := Some "{brand.accent}";
     e_localValue := Some (EString "hello") |}.

Definition libraryAliasDocument : ExportFormat :=
  [ [("Tokens",
      ICollection {| modes := Some [("Light", [("accent", Leaf libraryAliasLeaf)])];
                     originalName := None |})] ].

Definition defaultOptions : ImportOptions :=
  {| merge := true; overwrite := true; importStyles := true;
     clearFirst := false; customMerge := None; collectionBehaviors := [] |}.

Definition freshState : State :=
  {| host := emptyHost; cache := Cache.empty; outbox := [] |}.

(** ** Vocabulary of the pass-1 invariant *)

(** Identifiers in use are below the allocation counter of the host. *)
Definition modesBounded (h : Host) : Prop :=
  forall c m, c ∈ collections h -> m ∈ col_modes c -> modeId m < nextId h.

Definition cacheBounded (st : State) : Prop :=
  forall key id, variableMap (cache st) !! key = Some id -> id < nextId (host st).

Definition idsBounded (st : State) : Prop :=
  cacheBounded st /\ modesBounded (host st).

(** The cell of a queued alias: when its variable is live and its mode
    is a mode of the variable's collection, the variable holds a raw
    (non-alias) value for that mode. *)
Definition rawCell (h : Host) (variable mode : N) : Prop :=
  forall var col,
    getVariableById h variable = Some var ->
    getVariableCollectionById h (variableCollectionId var) = Some col ->
    mode ∈ modeIds col ->
    exists v, alookup (valuesByMode var) mode = Some v
              /\ isVariableAlias v = false.

Definition pendingOk (h : Host) (p : PendingAlias) : Prop :=
  p_variable p < nextId h /\ p_modeId p < nextId h
  /\ rawCell h (p_variable p) (p_modeId p).

Definition hostSteps (h h' : Host) : Prop :=
  nextId h <= nextId h'
  /\ (modesBounded h -> modesBounded h')
  /\ (forall p, pendingOk h p -> pendingOk h' p).

Definition steps (st st' : State) : Prop :=
  nextId (host st) <= nextId (host st')
  /\ idsBounded st'
  /\ (forall p, pendingOk (host st) p -> pendingOk (host st') p).

(** A call that writes no alias. *)
Definition writesNoAlias (op : HostOp) : Prop :=
  match op with
  | OpSetValue _ _ v => isVariableAlias v = false
  | _ => True
  end.

(** The mode identifiers of a mode map are below the counter. *)
Definition modeMapBounded (modeMap : list (string * N)) (st : State) : Prop :=
  forall n id, jsGet modeMap n = Some id -> id < nextId (host st).

(** A raw value is stored for the mode. *)
Definition rawAt (var : VariableNode) (mode : N) : Prop :=
  exists v, alookup (valuesByMode var) mode = Some v /\ isVariableAlias v = false.

(** The host accepts every write of a raw value. *)
Definition acceptsRawWrites (rejects : Host -> HostOp -> bool) : Prop :=
  forall h var mode v,
    isVariableAlias v = false -> rejects h (OpSetValue var mode v) = false.

(** Loop invariants of pass 1: over the modes of one variable and over
    the variables of one collection. *)
Definition modeQ (variable : N) (modeMap : list (string * N))
  (st : State) (pend : list PendingAlias) : Prop :=
  variable < nextId (host st) /\ modeMapBounded modeMap st
  /\ Forall (pendingOk (host st)) pend.

Definition varQ (modeMap : list (string * N)) (st : State) (acc : Pass1) : Prop :=
  modeMapBounded modeMap st /\ Forall (pendingOk (host st)) (allPendingAliases acc).

(** ** Sample documents of the capacity gate *)

(** A collection of 5001 variables is rejected by name; eleven modes
    under the professional tier are reported and do not block. *)
Definition sampleLeaf : Node :=
  Leaf {| e_scopes := ["ALL_SCOPES"]; e_type := TFloat; e_description := None;
          e_value := ENumber 1; e_collectionName := None;
          e_libraryRef := None; e_localValue := None |}.

Definition manyLeaves (n : nat) : NestedVariables :=
  map (fun i => ("v" +:+ pretty (N.of_nat i), sampleLeaf)) (seq 0 n).

Definition bigDocument : ExportFormat :=
  [ [("Big", ICollection {| modes := Some [("Mode 1", manyLeaves (N.to_nat 5001))];
                            originalName := None |})] ].

Definition manyModesDocument : ExportFormat :=
  [ [("Themes",
      ICollection
        {| modes := Some (map (fun i => ("m" +:+ pretty (N.of_nat i),
                                         [("x", sampleLeaf)]))
                              (seq 0 11));
           originalName := None |})] ].

(** The alias queued by pass 1 for [libraryAliasDocument] imported into
    the empty store. *)
Definition libraryAliasPending : PendingAlias :=
  {| p_variable := 2; p_modeId := 1; p_aliasPath := "brand/accent";
     p_aliasCollection := "Library"; p_fallbackValue := Some libraryAliasLeaf |}.

(** ** Vocabulary of the rollback report *)

(** The failure state once [import_rolling_back] is posted. *)
Definition announced (errorMessage : string) (st : State) : State :=
  {| host := host st; cache := cache st;
     outbox := (outbox st ++ [MsgImportRollingBack errorMessage])%list |}.

(** The message that closes an attempted rollback. *)
Definition rollbackReport (errorMessage : string) (r : Outcome unit) : Message :=
  match r with
  | Ok _ => MsgImportRollbackComplete errorMessage rollbackCompleteText
  | Throw rollbackErrorMsg =>
      MsgImportRollbackFailed errorMessage rollbackErrorMsg rollbackFailedText
  end.

(** The recovery instruction shared by the two failure reports. *)
Definition manualRecovery : string := "Ctrl+Z (Cmd+Z)".

Definition mentions (needle text : string) : Prop :=
  exists before after, text = before +:+ needle +:+ after.

(** A document whose second entry is an empty object: pass 1 creates
    [Tokens] and then throws. *)
Definition brokenDocument : ExportFormat :=
  [ [("Tokens",
      ICollection {| modes := Some [("Light", [("size", sampleLeaf)])];
                     originalName := None |})];
    [] ].

(** Hosts that refuse one kind of call. *)
Definition refusesCreateCollection : Host -> HostOp -> bool :=
  fun _ op => match op with OpCreateCollection _ => true | _ => false end.

Definition refusesReadStyles : Host -> HostOp -> bool :=
  fun _ op => match op with OpReadStyles => true | _ => false end.

(** A host that refuses to create the collection [Colors]. *)
Definition refusesColors : Host -> HostOp -> bool :=
  fun _ op =>
    match op with
    | OpCreateCollection name => String.eqb name "Colors"
    | _ => false
    end.

(** ** The store by names

    What an import leaves in the store, without the identifiers the
    host hands out: collections with their mode names and variables,
    every value by mode name, an alias by the names of its target. *)

Inductive StoredValue :=
| Raw (v : VariableValue)
| AliasTo (collection variable : string)
| Dangling.

Record VariableView := mkVariableView
  { vv_name : string;
    vv_type : VariableResolvedDataType;
    vv_description : string;
    vv_scopes : list string;
    vv_values : list (string * StoredValue) }.

Record CollectionView := mkCollectionView
  { cv_name : string;
    cv_modes : list string;
    cv_variables : list VariableView }.

Definition viewValue (h : Host) (v : VariableValue) : StoredValue :=
  match v with
  | VAlias target =>
      match getVariableById h target with
      | Some tv =>
          match getVariableCollectionById h (variableCollectionId tv) with
          | Some tc => AliasTo (col_name tc) (var_name tv)
          | None => Dangling
          end
      | None => Dangling
      end
  | _ => Raw v
  end.

(** The value a variable holds for a mode. *)
Definition cellOf (h : Host) (var mode : N) : option StoredValue :=
  match getVariableById h var with
  | Some v => viewValue h <$> alookup (valuesByMode v) mode
  | None => None
  end.

Definition variableViewBy (cell : N -> option StoredValue)
  (c : VariableCollection) (var : VariableNode) : VariableView :=
  {| vv_name := var_name var;
     vv_type := resolvedType var;
     vv_description := var_description var;
     vv_scopes := var_scopes var;
     vv_values :=
       omap (fun m => pair (mode_name m) <$> cell (modeId m)) (col_modes c) |}.

Definition collectionViewBy (vars : N -> option VariableNode)
  (cell : N -> N -> option StoredValue) (c : VariableCollection)
  : CollectionView :=
  {| cv_name := col_name c;
     cv_modes := map mode_name (col_modes c);
     cv_variables :=
       omap (fun id => variableViewBy (cell id) c <$> vars id) (variableIds c) |}.

Definition storeView (h : Host) : list CollectionView :=
  map (collectionViewBy (getVariableById h) (cellOf h))
      (getLocalVariableCollections h).

(** The store an import into the empty store leaves, on a host that
    refuses nothing. *)
Definition importedStore (fromCss : string -> RGBA) (options : ImportOptions)
  (doc : ExportFormat) : Host :=
  host (snd (importVariables fromCss permissive (Some doc) options freshState)).

(** The import posted [import_complete] last. *)
Definition completes (fromCss : string -> RGBA) (options : ImportOptions)
  (doc : ExportFormat) : Prop :=
  exists stats,
    last (outbox (snd (importVariables fromCss permissive (Some doc) options
                         freshState)))
    = Some (MsgImportComplete stats).

(** Sample leaves and entries. *)
Definition numberLeaf (q : Q) : Node :=
  Leaf {| e_scopes := ["ALL_SCOPES"]; e_type := TFloat; e_description := None;
          e_value := ENumber q; e_collectionName := None;
          e_libraryRef := None; e_localValue := None |}.

Definition aliasLeaf (ref collection : string) : Node :=
  Leaf {| e_scopes := ["ALL_SCOPES"]; e_type := TFloat; e_description := None;
          e_value := EString ref; e_collectionName := Some collection;
          e_libraryRef := None; e_localValue := None |}.

Definition entry (name : string) (vars : NestedVariables) : Item :=
  [(name, ICollection {| modes := Some [("Mode 1", vars)];
                         originalName := None |})].

(** Two entries name the collection [A]; [B/y] aliases [A/x]. *)
Definition twiceA : ExportFormat :=
  [ entry "A" [("x", numberLeaf 1)];
    entry "A" [("x", numberLeaf 2)];
    entry "B" [("y", aliasLeaf "{x}" "A")] ].

Definition twiceA' : ExportFormat :=
  [ entry "A" [("x", numberLeaf 2)];
    entry "A" [("x", numberLeaf 1)];
    entry "B" [("y", aliasLeaf "{x}" "A")] ].

(** The variable key [A/B/x] is [B/x] of [A] and [x] of [A/B]. *)
Definition sharedKey : ExportFormat :=
  [ entry "A" [("B", Group [("x", numberLeaf 1)]); ("base", numberLeaf 2)];
    entry "A/B" [("x", aliasLeaf "{base}" "A")] ].

Definition sharedKey' : ExportFormat :=
  [ entry "A/B" [("x", aliasLeaf "{base}" "A")];
    entry "A" [("B", Group [("x", numberLeaf 1)]); ("base", numberLeaf 2)] ].

(** ** A store inside a larger store

    The identifiers a run creates depend on the allocation counter it
    starts from.  [shift d] moves every identifier of a store [d]
    places up; [Embeds F d name ss sb] says that the state [sb] is the
    frame [F] (whose counter is [d]) followed by the state [ss] moved
    [d] places up, the two caches agreeing on the collection [name]
    and on the keys [name/...]. *)

Definition shiftMode (d : N) (m : Mode) : Mode :=
  mkMode (modeId m + d) (mode_name m).

Definition shiftCol (d : N) (c : VariableCollection) : VariableCollection :=
  {| col_id := col_id c + d; col_name := col_name c;
     col_remote := col_remote c;
     col_modes := map (shiftMode d) (col_modes c);
     variableIds := map (fun id => id + d) (variableIds c) |}.

Definition shiftValue (d : N) (v : VariableValue) : VariableValue :=
  match v with
  | VAlias target => VAlias (target + d)
  | _ => v
  end.

Definition shiftVar (d : N) (v : VariableNode) : VariableNode :=
  {| var_name := var_name v;
     variableCollectionId := variableCollectionId v + d;
     resolvedType := resolvedType v;
     valuesByMode :=
       map (fun kv => (fst kv + d, shiftValue d (snd kv))) (valuesByMode v);
     var_description := var_description v;
     var_scopes := var_scopes v |}.

Definition shiftPending (d : N) (p : PendingAlias) : PendingAlias :=
  {| p_variable := p_variable p + d; p_modeId := p_modeId p + d;
     p_aliasPath := p_aliasPath p; p_aliasCollection := p_aliasCollection p;
     p_fallbackValue := p_fallbackValue p |}.

(** The calls of pass 1, moved. *)
Definition shiftOp (d : N) (op : HostOp) : HostOp :=
  match op with
  | OpCreateCollection name => OpCreateCollection name
  | OpRemoveCollection col => OpRemoveCollection (col + d)
  | OpRenameMode col mode name => OpRenameMode (col + d) (mode + d) name
  | OpAddMode col name => OpAddMode (col + d) name
  | OpCreateVariable name col type => OpCreateVariable name (col + d) type
  | OpRemoveVariable var => OpRemoveVariable (var + d)
  | OpSetValue var mode value => OpSetValue (var + d) (mode + d) (shiftValue d value)
  | OpSetDescription var text => OpSetDescription (var + d) text
  | OpSetScopes var scopes => OpSetScopes (var + d) scopes
  | _ => op
  end.

(** The calls pass 1 makes on variables and collections. *)
Definition storeOp (op : HostOp) : bool :=
  match op with
  | OpCreateCollection _ | OpRemoveCollection _ | OpRenameMode _ _ _
  | OpAddMode _ _ | OpCreateVariable _ _ _ | OpSetValue _ _ _
  | OpSetDescription _ _ | OpSetScopes _ _ => true
  | _ => false
  end.

Definition frameOk (F : Host) : Prop :=
  forall c, c ∈ collections F -> col_id c < nextId F.

Definition EmbedsHost (F : Host) (hs hb : Host) : Prop :=
  collections hb
  = (collections F ++ map (shiftCol (nextId F)) (collections hs))%list
  /\ nextId hb = nextId hs + nextId F
  /\ (forall id, variables hb !! (id + nextId F)
                 = shiftVar (nextId F) <$> variables hs !! id)
  /\ (forall id, id < nextId F -> variables hb !! id = variables F !! id)
  /\ styles hb = styles F.

Definition EmbedsCache (d : N) (name : string) (cs cb : VariableCache) : Prop :=
  collectionMap cb !! name = (fun id => id + d) <$> collectionMap cs !! name
  /\ (forall path,
        variableMap cb !! (name +:+ "/" +:+ path)
        = (fun id => id + d) <$> variableMap cs !! (name +:+ "/" +:+ path)).

Definition Embeds (F : Host) (name : string) (ss sb : State) : Prop :=
  EmbedsHost F (host ss) (host sb)
  /\ EmbedsCache (nextId F) name (cache ss) (cache sb).

(** Two runs agree: both throw, or both return, with related
    results. *)
Definition agree {A} (R : A -> A -> Prop) (os ob : Outcome A) : Prop :=
  match os, ob with
  | Ok a, Ok b => R a b
  | Throw _, Throw _ => True
  | _, _ => False
  end.

Definition embedded {A} (F : Host) (name : string) (R : A -> A -> Prop)
  (ms mb : M A) : Prop :=
  forall ss sb,
    Embeds F name ss sb ->
    agree R (fst (ms ss)) (fst (mb sb))
    /\ Embeds F name (snd (ms ss)) (snd (mb sb)).

Definition shiftModeMap (d : N) (modeMap : list (string * N))
  : list (string * N) :=
  map (fun kv => (fst kv, snd kv + d)) modeMap.

(** The aliases queued inside the larger store: those queued before,
    then the aliases of the run, moved. *)
Definition pendingFrom (before : list PendingAlias) (d : N)
  (ps pb : list PendingAlias) : Prop :=
  pb = (before ++ map (shiftPending d) ps)%list.

Definition queuedFrom (before : list PendingAlias) (d : N) (a b : Pass1) : Prop :=
  pendingFrom before d (allPendingAliases a) (allPendingAliases b).

(** ** The moves of a run

    A run changes the state by calls the host accepts and by cache
    updates; [reach allowed st st'] says that [st'] is reached from
    [st] by moves that [allowed] admits. *)

Inductive Move :=
| CallMove (op : HostOp)
| CacheMove (f : VariableCache -> VariableCache).

Definition moves (m : Move) (st st' : State) : Prop :=
  match m with
  | CallMove op =>
      exists r h', applyOp op (host st) = Some (r, h')
                   /\ st' = {| host := h'; cache := cache st; outbox := outbox st |}
  | CacheMove f =>
      st' = {| host := host st; cache := f (cache st); outbox := outbox st |}
  end.

Inductive reach (allowed : Move -> Prop) : State -> State -> Prop :=
| reach_refl st : reach allowed st st
| reach_move m st st' st'' :
    allowed m -> moves m st st' -> reach allowed st' st'' ->
    reach allowed st st''.

Definition traces {A} (allowed : Move -> Prop) (m : M A) : Prop :=
  forall st, reach allowed st (snd (m st)).

(** The moves of pass 1 on the entry of the collection [name]. *)
Definition pass1Move (name : string) (m : Move) : Prop :=
  match m with
  | CallMove op =>
      storeOp op = true
      /\ match op with
         | OpCreateCollection n => n = name
         | OpSetValue _ _ v => isVariableAlias v = false
         | _ => True
         end
  | CacheMove f =>
      (exists path v, f = Cache.setVariable (name +:+ "/" +:+ path) v)
      \/ (exists c, f = Cache.setCollection name c)
      \/ f = Cache.removeCollection name
  end.

(** ** Well-formed stores

    Identifiers are below the allocation counter, every variable is
    listed by the collection it names, no variable holds an alias, and
    every collection carries the name [name]. *)
Definition hostWf (name : string) (h : Host) : Prop :=
  (forall c, c ∈ collections h ->
     col_id c < nextId h /\ col_name c = name
     /\ forall id, id ∈ variableIds c -> id < nextId h)
  /\ (forall id v, variables h !! id = Some v ->
        id < nextId h
        /\ (exists c, findCollection (collections h) (variableCollectionId v)
                      = Some c /\ id ∈ variableIds c)
        /\ forall m x, alookup (valuesByMode v) m = Some x ->
                       isVariableAlias x = false).

(** The cache holds entries of the collections [names] only. *)
Definition cacheKeysIn (names : list string) (c : VariableCache) : Prop :=
  (forall n id, collectionMap c !! n = Some id -> n ∈ names)
  /\ (forall key id, variableMap c !! key = Some id ->
        exists n path, n ∈ names /\ key = n +:+ "/" +:+ path).

(** ** Cache keys

    A key [collection/variable] is read back by cutting it at its first
    slash; that recovers the two names when the collection name holds
    no slash. *)
Fixpoint slashFree (s : string) : bool :=
  match s with
  | EmptyString => true
  | String c rest => negb (Ascii.eqb c "/") && slashFree rest
  end.

Fixpoint splitKey (key : string) : string * string :=
  match key with
  | EmptyString => (EmptyString, EmptyString)
  | String c rest =>
      if Ascii.eqb c "/" then (EmptyString, rest)
      else (String c (fst (splitKey rest)), snd (splitKey rest))
  end.

(** ** The blocks of an import

    The run of pass 1 on one entry alone, from the empty store, and
    the blocks the entries of a document occupy, one after the other,
    in the identifiers of the store. *)
Definition noPass1 : Pass1 :=
  {| createdCollections := 0; createdVariables := 0; updatedVariables := 0;
     skippedVariables := 0; allPendingAliases := [] |}.

Definition isolated (fromCss : string -> RGBA) (options : ImportOptions)
  (item : Item) : Outcome Pass1 * State :=
  pass1Collection fromCss permissive options noPass1 item freshState.

Definition returns {A} (o : Outcome A) : Prop :=
  match o with Ok _ => True | Throw _ => False end.

Record Block := mkBlock
  { blk_offset : N;
    blk_host : Host;
    blk_pending : list PendingAlias }.

Definition blockOf (fromCss : string -> RGBA) (options : ImportOptions)
  (d : N) (item : Item) : Block :=
  {| blk_offset := d;
     blk_host := host (snd (isolated fromCss options item));
     blk_pending :=
       match fst (isolated fromCss options item) with
       | Ok acc => allPendingAliases acc
       | Throw _ => []
       end |}.

Fixpoint layout (fromCss : string -> RGBA) (options : ImportOptions)
  (d : N) (l : list Item) : list Block :=
  match l with
  | [] => []
  | item :: rest =>
      blockOf fromCss options d item
      :: layout fromCss options
           (d + nextId (host (snd (isolated fromCss options item)))) rest
  end.

Definition blockCollections (b : Block) : list VariableCollection :=
  map (shiftCol (blk_offset b)) (collections (blk_host b)).

Definition blockPending (b : Block) : list PendingAlias :=
  map (shiftPending (blk_offset b)) (blk_pending b).

(** The store [h] holds the blocks [bs] after the frame [F]. *)
Definition Laid (F h : Host) (bs : list Block) : Prop :=
  collections h = (collections F ++ flat_map blockCollections bs)%list
  /\ (forall id, id < nextId F -> variables h !! id = variables F !! id)
  /\ (forall b, b ∈ bs ->
        forall id, id < nextId (blk_host b) ->
          variables h !! (id + blk_offset b)
          = shiftVar (blk_offset b) <$> variables (blk_host b) !! id)
  /\ styles h = styles F.

(** The entries of a document that pass 1 can take apart. *)
Definition cleanNames (names : list string) : Prop :=
  NoDup names /\ Forall (fun n => slashFree n = true) names.

(** Above the counter the store is empty. *)
Definition varsBelow (h : Host) : Prop :=
  forall id, nextId h <= id -> variables h !! id = None.

(** ** Pass 2 as a function of the store

    On a host that refuses nothing, wiring one queued alias is a
    function of the store and of the rebuilt variable map. *)
Definition aliasKey (p : PendingAlias) : string :=
  p_aliasCollection p +:+ "/" +:+ p_aliasPath p.

Definition wire (keys : gmap string N) (h : Host) (p : PendingAlias) : Host :=
  match keys !! aliasKey p with
  | Some target =>
      match applyOp (OpSetValue (p_variable p) (p_modeId p) (VAlias target)) h with
      | Some (_, h') => h'
      | None => h
      end
  | None => h
  end.

(** The host accepts a value for the mode of the variable. *)
Definition writable (h : Host) (var mode : N) : bool :=
  match variables h !! var with
  | Some v =>
      match findCollection (collections h) (variableCollectionId v) with
      | Some c => bool_decide (mode ∈ modeIds c)
      | None => false
      end
  | None => false
  end.

(** The value a variable holds for a mode, as the host stores it. *)
Definition cellRaw (h : Host) (var mode : N) : option VariableValue :=
  match variables h !! var with
  | Some v => alookup (valuesByMode v) mode
  | None => None
  end.

(** What pass 2 does not touch. *)
Definition shapeOf (v : VariableNode)
  : string * N * VariableResolvedDataType * string * list string :=
  (var_name v, variableCollectionId v, resolvedType v, var_description v,
   var_scopes v).

Definition sameShape (h h' : Host) : Prop :=
  collections h' = collections h
  /\ forall id, shapeOf <$> variables h' !! id = shapeOf <$> variables h !! id.

(** One step of pass 2 seen from one cell. *)
Definition wireStep (keys : gmap string N) (h : Host) (var mode : N)
  (cell : option VariableValue) (p : PendingAlias) : option VariableValue :=
  match keys !! aliasKey p with
  | Some target =>
      if writable h (p_variable p) (p_modeId p)
         && N.eqb (p_variable p) var && N.eqb (p_modeId p) mode
      then Some (VAlias target)
      else cell
  | None => cell
  end.

(** The keys [rebuild] stores, in the order it stores them. *)
Definition cacheEntries (h : Host) : list (string * N) :=
  flat_map
    (fun col =>
       omap (fun id =>
               (fun v => (col_name col +:+ "/" +:+ var_name v, id))
                 <$> getVariableById h id)
            (variableIds col))
    (getLocalVariableCollections h).

(** The blocks follow one another from the identifier [d] on. *)
Fixpoint contiguous (d : N) (bs : list Block) : Prop :=
  match bs with
  | [] => True
  | b :: rest =>
      blk_offset b = d /\ contiguous (d + nextId (blk_host b)) rest
  end.

Definition blockWf (b : Block) : Prop :=
  exists name,
    slashFree name = true
    /\ hostWf name (blk_host b)
    /\ modesBounded (blk_host b)
    /\ forall p, p ∈ blk_pending b ->
         p_variable p < nextId (blk_host b)
         /\ p_modeId p < nextId (blk_host b).

(** ** The store after pass 2, block by block *)

Definition aliasName (key : string) : StoredValue :=
  AliasTo (fst (splitKey key)) (snd (splitKey key)).

(** One queued alias seen from the cell [(var, mode)] of its block:
    when its key resolves and the host takes the write, the cell holds
    the alias. *)
Definition settle (resolves : string -> bool) (B : Host) (var mode : N)
  (cell : option StoredValue) (p : PendingAlias) : option StoredValue :=
  if resolves (aliasKey p) && writable B (p_variable p) (p_modeId p)
     && N.eqb (p_variable p) var && N.eqb (p_modeId p) mode
  then Some (aliasName (aliasKey p))
  else cell.

Definition finalCell (resolves : string -> bool) (B : Host)
  (pend : list PendingAlias) (var mode : N) : option StoredValue :=
  fold_left (settle resolves B var mode) pend (cellOf B var mode).

Definition blockView (resolves : string -> bool) (B : Host)
  (pend : list PendingAlias) : list CollectionView :=
  map (collectionViewBy (getVariableById B) (finalCell resolves B pend))
      (getLocalVariableCollections B).

(** The keys the rebuilt cache resolves. *)
Definition resolvesIn (h : Host) (key : string) : bool :=
  bool_decide (is_Some (variableMap (Cache.rebuild h Cache.empty) !! key)).

(** ** Import into the empty store *)

(** Nothing in the store, nothing in the two maps of the cache. *)
Definition blank (st : State) : Prop :=
  host st = emptyHost
  /\ collectionMap (cache st) = ∅ /\ variableMap (cache st) = ∅.

(** A document entry that holds a collection. *)
Definition collectionEntry (item : Item) : bool :=
  negb (isStylesKey item)
  && match item with [] => false | _ :: _ => true end.

(** The keys that resolve once every entry of the document has been
    through pass 1: the keys of the stores the entries build alone. *)
Definition docResolves (fromCss : string -> RGBA) (options : ImportOptions)
  (doc : ExportFormat) (key : string) : Prop :=
  exists item target,
    item ∈ doc
    /\ (key, target) ∈ cacheEntries (host (snd (isolated fromCss options item))).

(** The collections an entry leaves in the store, by names. *)
Definition entryView (fromCss : string -> RGBA) (options : ImportOptions)
  (resolves : string -> bool) (item : Item) : list CollectionView :=
  blockView resolves
    (blk_host (blockOf fromCss options 0 item))
    (blk_pending (blockOf fromCss options 0 item)).

(** The documents of the order-independence theorem: collection entries
    only, with pairwise distinct collection names that hold no
    slash. *)
Definition cleanDocument (doc : ExportFormat) : Prop :=
  Forall (fun item => collectionEntry item = true) doc
  /\ cleanNames (collectionNames doc).

(** [B/y] aliases [A/x]; the same two entries in the other order. *)
Definition aliasAfter : ExportFormat :=
  [ entry "A" [("x", numberLeaf 1)];
    entry "B" [("y", aliasLeaf "{x}" "A")] ].

Definition aliasBefore : ExportFormat :=
  [ entry "B" [("y", aliasLeaf "{x}" "A")];
    entry "A" [("x", numberLeaf 1)] ].

(** ** Vocabulary of the round trip *)

Definition exportAll : ExportOptions :=
  {| selectedCollections := []; selectedModes := []; styleOptions := None;
     includeImages := false; namingConvention := original;
     resolveAliases := false |}.

Definition plainVar (name : string) (col : N) (t : VariableResolvedDataType)
  (vals : list (N * VariableValue)) : VariableNode :=
  {| var_name := name; variableCollectionId := col; resolvedType := t;
     valuesByMode := vals; var_description := "";
     var_scopes := ["ALL_SCOPES"] |}.

(** A paint whose red channel is one half. *)
Definition halfRedHost : Host :=
  {| collections :=
       [ {| col_id := 0; col_name := "Paint"; col_remote := false;
            col_modes := [mkMode 1 "Mode 1"]; variableIds := [2] |} ];
     variables :=
       {[ 2 := plainVar "half" 0 COLOR [(1, VColor (mkRGBA (1 # 2) 0 0 1))] ]};
     styles := [];
     nextId := 3 |}.

Definition halfRedState : State :=
  {| host := halfRedHost; cache := Cache.empty; outbox := [] |}.

(** Two modes, groups, two colours, and aliases within and across
    collections. *)
Definition themeHost : Host :=
  {| collections :=
       [ {| col_id := 0; col_name := "Base"; col_remote := false;
            col_modes := [mkMode 1 "Light"; mkMode 2 "Dark"];
            variableIds := [3; 4; 5] |};
         {| col_id := 6; col_name := "Theme"; col_remote := false;
            col_modes := [mkMode 7 "Mode 1"]; variableIds := [8; 9; 10; 11] |} ];
     variables :=
       {[ 3 := plainVar "size/small" 0 FLOAT [(1, VNumber 4); (2, VNumber 6)];
          4 := plainVar "label" 0 STRING
                 [(1, VString "day"); (2, VString "night")];
          5 := plainVar "size/large" 0 FLOAT [(1, VNumber 16); (2, VAlias 3)];
          8 := plainVar "gap" 6 FLOAT [(7, VAlias 5)];
          9 := plainVar "on" 6 BOOLEAN [(7, VBoolean true)];
          10 := plainVar "accent" 6 COLOR
                  [(7, VColor (mkRGBA (255 # 255) (128 # 255) (0 # 255) 1))];
          11 := plainVar "shade" 6 COLOR
                  [(7, VColor (mkRGBA (0 # 255) (0 # 255) (0 # 255) (50 # 100)))] ]};
     styles := [];
     nextId := 12 |}.

Definition themeState : State :=
  {| host := themeHost; cache := Cache.empty; outbox := [] |}.

(** The leaves of a tree, each with the keys that lead to it. *)
Fixpoint leavesOf (n : Node) : list (list string * ExportVariableValue) :=
  match n with
  | Leaf v => [([], v)]
  | Group children =>
      (fix go (l : list (string * Node)) :=
         match l with
         | [] => []
         | (k, c) :: rest =>
             (map (fun e => (k :: fst e, snd e)) (leavesOf c) ++ go rest)%list
         end) children
  end.

(** The trees [assignAt] builds: the keys of a group are pairwise
    distinct, and a group below the root holds a leaf. *)
Inductive treeOk : Node -> Prop :=
| treeOk_leaf v : treeOk (Leaf v)
| treeOk_group children :
    NoDup (map fst children) ->
    Forall (fun kv => treeOk (snd kv) /\ leavesOf (snd kv) <> []) children ->
    treeOk (Group children).

(** A group at the root has a name. *)
Definition rootsNamed (t : NestedVariables) : Prop :=
  forall k children, (k, Group children) ∈ t -> Js.truthy k = true.

(** Neither list of segments starts the other. *)
Definition apart (p q : list string) : Prop :=
  ~ p `prefix_of` q /\ ~ q `prefix_of` p.

(** No name continues another after a slash. *)
Definition namesApart (names : list string) : Prop :=
  forall a b, a ∈ names -> b ∈ names -> Js.startsWith b (a +:+ "/") = false.

(** The tree of one mode: the leaves of the variables, assigned in
    order. *)
Definition treeOf (leafOf : VariableNode -> ExportVariableValue)
  (vars : list VariableNode) : NestedVariables :=
  fold_left (fun t v => assignAt t (Js.splitSlash (var_name v)) (leafOf v))
            vars [].

(** The variables a collection lists, in order. *)
Definition listed (h : Host) (c : VariableCollection) : list VariableNode :=
  omap (getVariableById h) (variableIds c).

(** Everything is exported, as it is named, aliases by reference. *)
Definition exportsAll (opts : ExportOptions) : Prop :=
  selectedCollections opts = [] /\ selectedModes opts = []
  /\ styleOptions opts = None /\ namingConvention opts = original
  /\ resolveAliases opts = false.

(** The entry of a collection whose modes hold the given trees. *)
Definition entryOf (name : string) (modesObj : ModeVariables) : Item :=
  [(name, ICollection {| modes := Some modesObj; originalName := None |})].

(** ** The store an entry builds alone *)

(** A store that holds one local collection, number 0. *)
Definition blockHost (name : string) (ms : list Mode) (vids : list N)
  (vars : gmap N VariableNode) (n : N) : Host :=
  {| collections :=
       [ {| col_id := 0; col_name := name; col_remote := false;
            col_modes := ms; variableIds := vids |} ];
     variables := vars;
     styles := [];
     nextId := n |}.

(** Modes numbered from [d] on. *)
Fixpoint modesFrom (d : N) (names : list string) : list Mode :=
  match names with
  | [] => []
  | n :: rest => mkMode d n :: modesFrom (d + 1) rest
  end.

Definition withValues (v : VariableNode) (vals : list (N * VariableValue))
  : VariableNode :=
  {| var_name := var_name v;
     variableCollectionId := variableCollectionId v;
     resolvedType := resolvedType v;
     valuesByMode := vals;
     var_description := var_description v;
     var_scopes := var_scopes v |}.

Section Rows.
Variable fromCss : string -> RGBA.
Variable name : string.
Variable modesObj : ModeVariables.

(** The leaf a mode of the entry holds at a path. *)
Definition leafAt (m : Mode) (path : string) : option ExportVariableValue :=
  match jsGet modesObj (mode_name m) with
  | Some tree => getValueAtPath tree path
  | None => None
  end.

(** The raw value pass 1 writes for a mode. *)
Definition writeCell (path : string) (l : list (N * VariableValue)) (m : Mode)
  : list (N * VariableValue) :=
  match leafAt m path with
  | Some leaf =>
      match rawValueOf fromCss leaf with
      | Some v => aset l (modeId m) v
      | None => l
      end
  | None => l
  end.

(** The alias pass 1 queues for a mode. *)
Definition queuedCell (var : N) (path : string) (m : Mode)
  : option PendingAlias :=
  match leafAt m path with
  | Some leaf =>
      match isAliasReference leaf with
      | Some ref =>
          Some {| p_variable := var;
                  p_modeId := modeId m;
                  p_aliasPath := Js.replaceDots (Js.slice_1_m1 ref);
                  p_aliasCollection := orElse (e_collectionName leaf) name;
                  p_fallbackValue := Some leaf |}
      | None => None
      end
  | None => None
  end.

(** The variable pass 1 creates for a row of the flattening. *)
Definition rowVariable (ms : list Mode) (row : string * ExportVariableValue)
  : VariableNode :=
  {| var_name := fst row;
     variableCollectionId := 0;
     resolvedType := TypeMapper.toFigmaType (e_type (snd row));
     valuesByMode := fold_left (writeCell (fst row)) ms [];
     var_description := default "" (e_description (snd row));
     var_scopes := TypeMapper.arrayToScopes (e_scopes (snd row)) |}.

End Rows.

(** What pass 1 leaves of the rows of an entry: each row with the
    variable created for it, and the aliases queued. *)
Definition builtRows (fromCss : string -> RGBA) (name : string)
  (modesObj : ModeVariables) (ms : list Mode)
  (pairs : list (N * (string * ExportVariableValue)))
  (vars : gmap N VariableNode) (pend : list PendingAlias) : Prop :=
  NoDup (map fst pairs)
  /\ Forall (fun pr => vars !! fst pr
                       = Some (rowVariable fromCss modesObj ms (snd pr)))
            pairs
  /\ forall p, p ∈ pend <->
       exists pr m, pr ∈ pairs /\ m ∈ ms
         /\ queuedCell name modesObj (fst pr) (fst (snd pr)) m = Some p.

(** What holds in the loop over the rows after the rows [done], the
    first variable being numbered [n0]. *)
Definition rowsDone (fromCss : string -> RGBA) (name : string)
  (modesObj : ModeVariables) (ms : list Mode) (n0 : N) (o : list Message)
  (done : list (string * ExportVariableValue)) (acc : Pass1) (st : State)
  : Prop :=
  exists pairs V c,
    st = mkState (blockHost name ms (map fst pairs) V
                    (n0 + N.of_nat (length done))) c o
    /\ map snd pairs = done
    /\ Forall (fun pr => fst pr < n0 + N.of_nat (length done)) pairs
    /\ (forall key, is_Some (variableMap c !! key) ->
          exists row, row ∈ done /\ key = name +:+ "/" +:+ fst row)
    /\ builtRows fromCss name modesObj ms pairs V (allPendingAliases acc).

(** The cell of a row once pass 2 is over: the alias when the leaf is a
    reference whose key resolves, the raw value written by pass 1
    otherwise. *)
Definition rowCell (fromCss : string -> RGBA) (resolves : string -> bool)
  (name : string) (modesObj : ModeVariables) (path : string) (m : Mode)
  : option StoredValue :=
  match leafAt modesObj m path with
  | None => None
  | Some leaf =>
      match isAliasReference leaf with
      | Some ref =>
          let key := orElse (e_collectionName leaf) name +:+ "/"
                       +:+ Js.replaceDots (Js.slice_1_m1 ref) in
          if resolves key then Some (aliasName key)
          else Raw <$> rawValueOf fromCss leaf
      | None => Raw <$> rawValueOf fromCss leaf
      end
  end.

Definition rowView (fromCss : string -> RGBA) (resolves : string -> bool)
  (name : string) (modesObj : ModeVariables) (ms : list Mode)
  (row : string * ExportVariableValue) : VariableView :=
  {| vv_name := fst row;
     vv_type := TypeMapper.toFigmaType (e_type (snd row));
     vv_description := default "" (e_description (snd row));
     vv_scopes := TypeMapper.arrayToScopes (e_scopes (snd row));
     vv_values :=
       omap (fun m => pair (mode_name m)
                        <$> rowCell fromCss resolves name modesObj (fst row) m)
            ms |}.

(** ** The stores of the round trip *)

(** The channels two hexadecimal digits hold, and the opacities below
    one that come back from them. *)
Definition byteChannels : list Q :=
  map (fun k => Qmake (Z.of_nat k) 255) (seq 0 256).

Definition hundredths : list Q :=
  map (fun j => Qmake (Z.of_nat j) 100) (seq 0 100).

Definition hexExact (c : RGBA) : Prop :=
  rgba_r c ∈ byteChannels /\ rgba_g c ∈ byteChannels
  /\ rgba_b c ∈ byteChannels
  /\ (rgba_a c = 1%Q \/ rgba_a c ∈ hundredths).

Definition sameQ (p q : Q) : bool :=
  Z.eqb (Qnum p) (Qnum q) && Pos.eqb (Qden p) (Qden q).

(** Written as two digits and read back, the channel is itself. *)
Definition channelKept (q : Q) : bool :=
  match MathUtils.toHexByte q with
  | String c1 (String c2 EmptyString) =>
      match Js.parseHexByte c1 c2 with
      | Some k => sameQ (MathUtils.fromHexByte k) q
      | None => false
      end
  | _ => false
  end.

(** The same for an opacity below one, which is rounded to two
    decimals when read back. *)
Definition opacityKept (q : Q) : bool :=
  (if Qlt_le_dec q 1 then true else false)
  && match MathUtils.toHexByte q with
     | String c1 (String c2 EmptyString) =>
         match Js.parseHexByte c1 c2 with
         | Some k =>
             (if Qlt_le_dec (MathUtils.fromHexByte k) 1 then true else false)
             && sameQ (MathUtils.round2 (MathUtils.fromHexByte k)) q
         | None => false
         end
     | _ => false
     end.

Fixpoint dotFree (s : string) : bool :=
  match s with
  | EmptyString => true
  | String c rest => negb (Ascii.eqb c ".") && dotFree rest
  end.

(** Scopes the export writes as they are. *)
Definition scopesKept (s : list string) : Prop :=
  s = ["ALL_SCOPES"] \/ (s <> [] /\ "ALL_SCOPES" ∉ s).

(** A value the document holds exactly: a raw value of the type of its
    variable, a colour in hexadecimal notation, a string that does not
    read as a reference; or an alias of a variable that its local
    collection lists, and whose name has no dot. *)
Definition plainValue (h : Host) (t : VariableResolvedDataType)
  (v : VariableValue) : Prop :=
  match v with
  | VColor c => t = COLOR /\ hexExact c
  | VNumber _ => t = FLOAT
  | VString s => t = STRING /\ Js.startsWith s "{" = false
  | VBoolean _ => t = BOOLEAN
  | VAlias id =>
      exists tv tc,
        getVariableById h id = Some tv
        /\ getVariableCollectionById h (variableCollectionId tv) = Some tc
        /\ col_remote tc = false
        /\ id ∈ variableIds tc
        /\ dotFree (var_name tv) = true
  end.

Definition plainVariable (h : Host) (c : VariableCollection)
  (v : VariableNode) : Prop :=
  Js.startsWith (var_name v) "/" = false
  /\ scopesKept (var_scopes v)
  /\ forall m, m ∈ col_modes c ->
       exists x, alookup (valuesByMode v) (modeId m) = Some x
                 /\ plainValue h (resolvedType v) x.

Definition plainCollection (h : Host) (c : VariableCollection) : Prop :=
  col_modes c <> []
  /\ NoDup (map mode_name (col_modes c))
  /\ ("Mode 1" ∉ tail (map mode_name (col_modes c)))
  /\ Forall (fun m => arrayIndex (mode_name m) = None) (col_modes c)
  /\ NoDup (map var_name (listed h c))
  /\ namesApart (map var_name (listed h c))
  /\ Forall (plainVariable h c) (listed h c).

Definition plainName (n : string) : Prop :=
  slashFree n = true /\ Js.truthy n = true /\ n <> "_styles".

(** The stores the round trip reproduces. *)
Definition plainStore (h : Host) : Prop :=
  NoDup (map col_name (getLocalVariableCollections h))
  /\ Forall (fun c => plainName (col_name c) /\ plainCollection h c)
            (getLocalVariableCollections h).

(** The same collections, in order, with the same modes, in order, and
    the same variables. *)
Definition sameCollection (a b : CollectionView) : Prop :=
  cv_name a = cv_name b /\ cv_modes a = cv_modes b
  /\ cv_variables a ≡ₚ cv_variables b.

Definition sameStore (v v' : list CollectionView) : Prop :=
  Forall2 sameCollection v v'.

(** A variable of the store as the view shows it. *)
Definition variableViewOf (h : Host) (c : VariableCollection)
  (v : VariableNode) : VariableView :=
  variableViewBy (fun mode => viewValue h <$> alookup (valuesByMode v) mode)
                 c v.

(** The modes of the exported entry of a collection: one tree for each
    mode, under its name. *)
Definition exportedModes (h : Host) (opts : ExportOptions)
  (c : VariableCollection) : ModeVariables :=
  map (fun m => (mode_name m,
                 treeOf (fun v => exportLeaf h opts v m) (listed h c)))
      (col_modes c).

(** * Colour spaces, the W3C converter and the handler checks

    The parts of [code.ts] around the engine: the colour spaces of the
    value codec, the W3C design-token converter, the naming conventions,
    the style processors and the checks of the message handler, with
    the vocabulary of their properties. *)

(** ** [Math.max], [Math.min] and [MathUtils.clamp] *)

Module JsMath.

Definition max (a b : Q) : Q := if Qlt_le_dec a b then b else a.
Definition min (a b : Q) : Q := if Qlt_le_dec b a then b else a.
Definition max3 (a b c : Q) : Q := max (max a b) c.
Definition min3 (a b c : Q) : Q := min (min a b) c.

(** [a === b] on numbers. *)
Definition same (a b : Q) : bool := Qeq_bool a b.

End JsMath.

Definition clamp (value min max : Q) : Q :=
  JsMath.max min (JsMath.min max value).

(** ** Section 4 of the source, continued: HSL and HSB *)

(** [HslColor] and [HsbColor]: three numbers and an optional alpha. *)
Record HslColor := mkHslColor
  { hsl_h : Q; hsl_s : Q; hsl_l : Q; hsl_a : option Q }.

Record HsbColor := mkHsbColor
  { hsb_h : Q; hsb_s : Q; hsb_b : Q; hsb_a : option Q }.

Definition calculateHue (r g b max min : Q) : Z :=
  if JsMath.same max min then 0%Z
  else
    let d := (max - min)%Q in
    let h :=
      if JsMath.same max r then
        (((g - b) / d + (if Qlt_le_dec g b then 6 else 0)) / 6)%Q
      else if JsMath.same max g then (((b - r) / d + 2) / 6)%Q
      else if JsMath.same max b then (((r - g) / d + 4) / 6)%Q
      else 0%Q in
    Js.round (h * 360).

Definition toHsl (color : RGBA) : HslColor :=
  let r := rgba_r color in
  let g := rgba_g color in
  let b := rgba_b color in
  let max := JsMath.max3 r g b in
  let min := JsMath.min3 r g b in
  let l := ((max + min) / 2)%Q in
  let s :=
    if JsMath.same max min then 0%Q
    else
      let d := (max - min)%Q in
      if Qlt_le_dec (1 # 2) l then (d / (2 - max - min))%Q
      else (d / (max + min))%Q in
  {| hsl_h := inject_Z (calculateHue r g b max min);
     hsl_s := inject_Z (Js.round (s * 100));
     hsl_l := inject_Z (Js.round (l * 100));
     hsl_a := if Qlt_le_dec (rgba_a color) 1
              then Some (MathUtils.round2 (rgba_a color)) else None |}.

Definition toHsb (color : RGBA) : HsbColor :=
  let r := rgba_r color in
  let g := rgba_g color in
  let b := rgba_b color in
  let max := JsMath.max3 r g b in
  let min := JsMath.min3 r g b in
  let s := if JsMath.same max 0 then 0%Q else ((max - min) / max)%Q in
  {| hsb_h := inject_Z (calculateHue r g b max min);
     hsb_s := inject_Z (Js.round (s * 100));
     hsb_b := inject_Z (Js.round (max * 100));
     hsb_a := if Qlt_le_dec (rgba_a color) 1
              then Some (MathUtils.round2 (rgba_a color)) else None |}.

(** Channels between 0 and 1. *)
Definition unit (q : Q) : Prop := (0 <= q /\ q <= 1)%Q.

Definition inGamut (c : RGBA) : Prop :=
  unit (rgba_r c) /\ unit (rgba_g c) /\ unit (rgba_b c).

(** The channel a byte stands for. *)
Definition byteOf (q : Q) : Q :=
  MathUtils.fromHexByte (Z.to_N (Js.round (q * 255))).

(** The same colour, number by number. *)
Definition sameColor (c c' : RGBA) : Prop :=
  (rgba_r c == rgba_r c' /\ rgba_g c == rgba_g c'
   /\ rgba_b c == rgba_b c' /\ rgba_a c == rgba_a c')%Q.

(** Written as two digits, a byte reads back as itself. *)
Definition byteKept (z : Z) : bool :=
  match Js.padStart2 (Js.toString16 z) with
  | String c1 (String c2 EmptyString) =>
      match Js.parseHexByte c1 c2 with
      | Some k => N.eqb k (Z.to_N z)
      | None => false
      end
  | _ => false
  end.

(** The byte of the channel of a byte is that byte. *)
Definition byteStable (z : Z) : bool :=
  Z.eqb (Js.round (MathUtils.fromHexByte (Z.to_N z) * 255)) z.

Definition bytes : list Z := map Z.of_nat (seq 0 256).

(** ** Vocabulary for the trees of a document *)

(** Keys as the export writes them: distinct within a group, and
    without a slash. *)
Inductive wellKeyed : Node -> Prop :=
| wellKeyed_leaf v : wellKeyed (Leaf v)
| wellKeyed_group children :
    NoDup (map fst children) ->
    Forall (fun kv => slashFree (fst kv) = true /\ wellKeyed (snd kv)) children ->
    wellKeyed (Group children).

(** ['$value' in value] for a leaf. *)
Definition hasValue (v : ExportVariableValue) : bool :=
  match e_value v with EUndefined => false | _ => true end.

(** ** Vocabulary for the queries *)

(** The moves of a query: reading the styles, and, for the diff,
    filling the cache. *)
Definition readMove (m : Move) : Prop :=
  match m with
  | CallMove OpReadStyles => True
  | _ => False
  end.

Definition cacheMove (m : Move) : Prop :=
  match m with
  | CallMove OpReadStyles => True
  | CallMove _ => False
  | CacheMove _ => True
  end.

(** ** Vocabulary for the clear functions *)

(** What identifies a collection apart from the variables it lists. *)
Definition collectionHead (c : VariableCollection)
  : N * string * bool * list Mode :=
  (col_id c, col_name c, col_remote c, col_modes c).

Definition headId (s : N * string * bool * list Mode) : N := fst (fst (fst s)).

(** The message that closes one phase of a clear: the counts, or the
    failure of that phase. *)
Definition clearReport (what : string) (m : Message) : Prop :=
  (exists text, m = MsgClearComplete text)
  \/ (exists e, m = MsgError ("Failed to clear " +:+ what +:+ ": " +:+ e)).

(** ** Section 4C of the source: the W3C design-token converter

    The converter writes and reads plain JavaScript objects.  [Json]
    is such a value: the keys of an object in the order [Object.keys]
    lists them, and [JUndefined] for a property that is set to
    [undefined]. *)

Inductive Json :=
| JUndefined
| JNull
| JBool (b : bool)
| JNumber (q : Q)
| JString (s : string)
| JArray (items : list Json)
| JObject (fields : list (string * Json)).

(** [JSON.parse(JSON.stringify(j))] for an object or an array: a
    property that is [undefined] is left out, an item that is
    [undefined] becomes [null]. *)
Fixpoint throughText (j : Json) : Json :=
  match j with
  | JArray items =>
      JArray
        ((fix go (l : list Json) :=
            match l with
            | [] => []
            | x :: rest =>
                match throughText x with
                | JUndefined => JNull :: go rest
                | y => y :: go rest
                end
            end) items)
  | JObject fields =>
      JObject
        ((fix go (l : list (string * Json)) :=
            match l with
            | [] => []
            | (k, v) :: rest =>
                match throughText v with
                | JUndefined => go rest
                | w => (k, w) :: go rest
                end
            end) fields)
  | other => other
  end.

(** [typeof j === 'object' && j !== null] *)
Definition isObject (j : Json) : bool :=
  match j with
  | JArray _ | JObject _ => true
  | _ => false
  end.

(** [key in j] for a key that starts with [$], on a value that is an
    object: an array has no such key. *)
Definition hasKey (key : string) (j : Json) : bool :=
  match j with
  | JObject fields => bool_decide (key ∈ jsKeys fields)
  | _ => false
  end.

(** [j[key]] for a key that is neither an index nor [length]. *)
Definition getKey (j : Json) (key : string) : Json :=
  match j with
  | JObject fields =>
      match jsGet fields key with
      | Some v => v
      | None => JUndefined
      end
  | _ => JUndefined
  end.

(** The items of an array under their indices. *)
Fixpoint indexed (items : list Json) (i : N) : list (string * Json) :=
  match items with
  | [] => []
  | x :: rest => (pretty i, x) :: indexed rest (i + 1)
  end.

(** The characters of a string under their indices. *)
Fixpoint characters (s : string) (i : N) : list (string * Json) :=
  match s with
  | EmptyString => []
  | String c rest =>
      (pretty i, JString (String c EmptyString)) :: characters rest (i + 1)
  end.

(** [Object.entries(j)]; it throws on [null] and [undefined]. *)
Definition objectEntries (j : Json) : option (list (string * Json)) :=
  match j with
  | JObject fields => Some fields
  | JArray items => Some (indexed items 0)
  | JString s => Some (characters s 0)
  | JBool _ | JNumber _ => Some []
  | JNull | JUndefined => None
  end.

(** Truthiness of a value. *)
Definition jsonTruthy (j : Json) : bool :=
  match j with
  | JUndefined | JNull => false
  | JBool b => b
  | JNumber q => negb (Qeq_bool q 0)
  | JString s => Js.truthy s
  | JArray _ | JObject _ => true
  end.

(** An array of strings. *)
Fixpoint stringsOf (items : list Json) : option (list string) :=
  match items with
  | [] => Some []
  | JString s :: rest =>
      match stringsOf rest with
      | Some l => Some (s :: l)
      | None => None
      end
  | _ => None
  end.

Module W3CConverter.

(** [W3C_TYPE_MAP[figmaType] || 'string'] *)
Definition typeToW3C (figmaType : VariableValueType) : string :=
  match figmaType with
  | TColor => "color"
  | TFloat => "number"
  | TString => "string"
  | TBoolean => "boolean"
  end.

(** [map[w3cType] || 'string'] on a type that is a string. *)
Definition w3cTypeToFigma (w3cType : string) : VariableValueType :=
  if String.eqb w3cType "color" then TColor
  else if String.eqb w3cType "number" then TFloat
  else if String.eqb w3cType "dimension" then TFloat
  else if String.eqb w3cType "string" then TString
  else if String.eqb w3cType "boolean" then TBoolean
  else if String.eqb w3cType "fontFamily" then TString
  else if String.eqb w3cType "fontWeight" then TFloat
  else if String.eqb w3cType "duration" then TString
  else if String.eqb w3cType "cubicBezier" then TString
  else TString.

(** [obj && typeof obj === 'object' && '$value' in obj] *)
Definition isW3CToken (obj : Json) : bool := hasKey "$value" obj.

(** [isW3CFormat]: a token among the values of the data, or among the
    values of one of these. *)
Definition isW3CFormat (data : Json) : bool :=
  if isObject data then
    match objectEntries data with
    | None => false
    | Some entries =>
        existsb
          (fun kv =>
             let value := snd kv in
             isObject value
             && ((hasKey "$value" value && hasKey "$type" value)
                 || match objectEntries value with
                    | None => false
                    | Some subEntries =>
                        existsb
                          (fun sub =>
                             isObject (snd sub) && hasKey "$value" (snd sub))
                          subEntries
                    end))
          entries
    end
  else false.

Section Converter.

(** The CSS colour reader of the value codec. *)
Variable fromCss : string -> RGBA.

(** The object of a colour bundle, with its five renderings. *)
Variable colorJson : ExportColorValue -> Json.

(** [JSON.stringify] of a token value that is an object, an array or
    [null]. *)
Variable stringify : Json -> string.

(** [String(j)], the property key a value that is not a string stands
    for. *)
Variable keyOf : Json -> string.

(** A [$value] as it is. *)
Definition plainJson (value : ExportValue) : Json :=
  match value with
  | EString s => JString s
  | ENumber q => JNumber q
  | EBoolean b => JBool b
  | EColor c => colorJson c
  | EUndefined => JUndefined
  end.

(** [typeof value.$value === 'string' && value.$value.startsWith('{')] *)
Definition isReference (value : ExportVariableValue) : bool :=
  match e_value value with
  | EString s => Js.startsWith s "{"
  | _ => false
  end.

Definition valueToW3C (value : ExportVariableValue) (isAlias : bool) : Json :=
  let tokenValue :=
    if isAlias && isReference value then plainJson (e_value value)
    else
      match e_type value, e_value value with
      | TColor, EColor c => JString (hex c)
      | _, v => plainJson v
      end in
  JObject
    ([("$value", tokenValue); ("$type", JString (typeToW3C (e_type value)))]
     ++ match e_description value with
        | Some d => if Js.truthy d then [("$description", JString d)] else []
        | None => []
        end
     ++ match e_scopes value with
        | [] => []
        | scopes =>
            if bool_decide ("ALL_SCOPES" ∈ scopes) then []
            else [("$extensions",
                   JObject [("com.figma",
                             JObject [("scopes", JArray (map JString scopes))])])]
        end)%list.

(** What [addTokensToGroup] stores under the key of an entry: the
    token of a variable, or a new group filled with the entries below. *)
Fixpoint tokensOf (namingConvention : NamingConvention) (n : Node) : Json :=
  match n with
  | Leaf value => valueToW3C value (isReference value)
  | Group children =>
      JObject
        ((fix go (l : list (string * Node)) (group : list (string * Json)) :=
            match l with
            | [] => group
            | (key, c) :: rest =>
                go rest
                   (objSet group (NamingConverter.convert key namingConvention)
                           (tokensOf namingConvention c))
            end) children [])
  end.

Definition addTokensToGroup (group : list (string * Json))
  (variables : NestedVariables) (namingConvention : NamingConvention)
  : list (string * Json) :=
  fold_left
    (fun g kv =>
       objSet g (NamingConverter.convert (fst kv) namingConvention)
              (tokensOf namingConvention (snd kv)))
    variables group.

Definition collectionToW3C (collectionName : string) (modes : ModeVariables)
  (namingConvention : NamingConvention) (originalName : option string)
  : list (string * Json) :=
  let group :=
    match originalName with
    | Some o =>
        if Js.truthy o && negb (String.eqb o collectionName)
        then [("$description", JString ("Figma collection: " +:+ o))]
        else []
    | None => []
    end in
  match modes with
  | [(_, variables)] => addTokensToGroup group variables namingConvention
  | _ =>
      fold_left
        (fun g mv =>
           objSet g (NamingConverter.convert (fst mv) namingConvention)
                  (JObject (addTokensToGroup [] (snd mv) namingConvention)))
        modes group
  end.

(** The property key a value stands for. *)
Definition propertyKey (j : Json) : string :=
  match j with
  | JString s => s
  | other => keyOf other
  end.

(** [token.$extensions?.['com.figma']?.scopes] *)
Definition scopesOf (token : Json) : Json :=
  getKey (getKey (getKey token "$extensions") "com.figma") "scopes".

(** [parseW3CToken].  The result is an [ExportVariableValue] when the
    scopes of the token, if any, are an array of strings, and its
    description, if any, is a string; [None] stands for a token that
    gives one of them another type, which the source copies as it
    is. *)
Definition parseW3CToken (token : Json) : option ExportVariableValue :=
  let figmaType := w3cTypeToFigma (propertyKey (getKey token "$type")) in
  let finalValue :=
    match getKey token "$value" with
    | JString s =>
        match figmaType with
        | TColor =>
            EColor (ColorConverter.toAllFormats
                      (ColorParser.parse fromCss (EString s)))
        | _ => EString s
        end
    | JNumber q => ENumber q
    | JBool b => EBoolean b
    | JUndefined => EUndefined
    | other => EString (stringify other)
    end in
  let scopes :=
    let s := scopesOf token in
    if jsonTruthy s then
      match s with
      | JArray items => stringsOf items
      | _ => None
      end
    else Some ["ALL_SCOPES"] in
  let description :=
    let d := getKey token "$description" in
    if jsonTruthy d then
      match d with
      | JString text => Some (Some text)
      | _ => None
      end
    else Some None in
  match scopes, description with
  | Some sc, Some de =>
      Some {| e_scopes := sc; e_type := figmaType; e_description := de;
              e_value := finalValue; e_collectionName := None;
              e_libraryRef := None; e_localValue := None |}
  | _, _ => None
  end.

(** What [w3cGroupToNestedVars] stores under a key: the leaf of a
    token, the group of an object or an array; nothing for another
    value.  The outer [None] stands for a token outside the types. *)
Fixpoint nestedOf (value : Json) : option (option Node) :=
  if isW3CToken value then
    match parseW3CToken value with
    | Some leaf => Some (Some (Leaf leaf))
    | None => None
    end
  else
    match value with
    | JObject fields =>
        match
          (fix go (l : list (string * Json)) (result : NestedVariables)
             : option NestedVariables :=
             match l with
             | [] => Some result
             | (key, v) :: rest =>
                 if Js.startsWith key "$" then go rest result
                 else
                   match nestedOf v with
                   | None => None
                   | Some None => go rest result
                   | Some (Some n) => go rest (objSet result key n)
                   end
             end) fields []
        with
        | Some result => Some (Some (Group result))
        | None => None
        end
    | JArray items =>
        match
          (fix go (l : list Json) (i : N) (result : NestedVariables)
             : option NestedVariables :=
             match l with
             | [] => Some result
             | v :: rest =>
                 match nestedOf v with
                 | None => None
                 | Some None => go rest (i + 1) result
                 | Some (Some n) => go rest (i + 1) (objSet result (pretty i) n)
                 end
             end) items 0 []
        with
        | Some result => Some (Some (Group result))
        | None => None
        end
    | _ => Some None
    end.

(** [w3cGroupToNestedVars]; [None] when [Object.entries] throws on the
    group, or for a token outside the types. *)
Definition w3cGroupToNestedVars (group : Json) : option NestedVariables :=
  match objectEntries group with
  | None => None
  | Some entries =>
      fold_left
        (fun (acc : option NestedVariables) kv =>
           match acc with
           | None => None
           | Some result =>
               if Js.startsWith (fst kv) "$" then Some result
               else
                 match nestedOf (snd kv) with
                 | None => None
                 | Some None => Some result
                 | Some (Some n) => Some (objSet result (fst kv) n)
                 end
           end)
        entries (Some [])
  end.

(** [w3cToFigmaFormat]: one entry for each key that does not start
    with [$], with the single mode [Default]; [None] as for
    [w3cGroupToNestedVars]. *)
Definition w3cToFigmaFormat (w3cData : Json) : option ExportFormat :=
  match objectEntries w3cData with
  | None => None
  | Some entries =>
      fold_left
        (fun (acc : option ExportFormat) kv =>
           match acc with
           | None => None
           | Some result =>
               if Js.startsWith (fst kv) "$" then Some result
               else
                 match w3cGroupToNestedVars (snd kv) with
                 | None => None
                 | Some variables =>
                     Some (result
                           ++ [ [(fst kv,
                                  ICollection
                                    {| modes := Some [("Default", variables)];
                                       originalName := None |})] ])%list
                 end
           end)
        entries (Some [])
  end.

End Converter.

End W3CConverter.

(** ** Vocabulary for the converter *)

(** A colour bundle only under the colour type. *)
Definition typedLeaf (v : ExportVariableValue) : Prop :=
  match e_value v with
  | EColor _ => e_type v = TColor
  | _ => True
  end.

(** The leaf a token of the plugin reads back as. *)
Definition readBack (fromCss : string -> RGBA) (v : ExportVariableValue)
  : ExportVariableValue :=
  {| e_scopes := TypeMapper.scopesToArray (e_scopes v);
     e_type := e_type v;
     e_description :=
       match e_description v with
       | Some d => if Js.truthy d then Some d else None
       | None => None
       end;
     e_value :=
       match e_type v, e_value v with
       | TColor, EString s =>
           EColor (ColorConverter.toAllFormats
                     (ColorParser.parse fromCss (EString s)))
       | TColor, EColor c =>
           EColor (ColorConverter.toAllFormats
                     (ColorParser.parse fromCss (EString (hex c))))
       | _, x => x
       end;
     e_collectionName := None;
     e_libraryRef := None;
     e_localValue := None |}.

(** The object [exportVariables] fills beside the export when the
    format is [w3c]: one group for each collection entry (the styles,
    which go under [$extensions], are left out, as in
    [exportCollections]). *)
Definition w3cExportData (colorJson : ExportColorValue -> Json)
  (exported : ExportFormat) (namingConvention : NamingConvention)
  : list (string * Json) :=
  fold_left
    (fun data (item : Item) =>
       match item with
       | (name, ICollection c) :: _ =>
           match modes c with
           | Some m =>
               objSet data name
                 (JObject (W3CConverter.collectionToW3C colorJson name m
                             namingConvention (originalName c)))
           | None => data
           end
       | _ => data
       end)
    exported [].

(** A key that is not written as [$value]. *)
Definition plainKey (namingConvention : NamingConvention) (key : string)
  : bool :=
  negb (String.eqb (NamingConverter.convert key namingConvention) "$value").

(** The modes of a collection whose tokens lie deeper than
    [isW3CFormat] looks: several modes, or one mode whose variables are
    all in groups; and no key on the way is written as [$value]. *)
Definition hidesTokens (namingConvention : NamingConvention)
  (modes : ModeVariables) : bool :=
  match modes with
  | [(_, variables)] =>
      forallb
        (fun kv =>
           plainKey namingConvention (fst kv)
           && match snd kv with
              | Leaf _ => false
              | Group children =>
                  forallb (fun kc => plainKey namingConvention (fst kc)) children
              end)
        variables
  | _ =>
      forallb
        (fun mv =>
           plainKey namingConvention (fst mv)
           && forallb (fun kv => plainKey namingConvention (fst kv)) (snd mv))
        modes
  end.

Definition hidden (namingConvention : NamingConvention)
  (exported : ExportFormat) : bool :=
  forallb
    (fun item : Item =>
       match item with
       | (_, ICollection c) :: _ =>
           match modes c with
           | Some m => hidesTokens namingConvention m
           | None => true
           end
       | _ => true
       end)
    exported.

(** The export of the collection [Base] of the sample store, which has
    two modes. *)
Definition exportBase : ExportOptions :=
  {| selectedCollections := ["Base"]; selectedModes := []; styleOptions := None;
     includeImages := false; namingConvention := original;
     resolveAliases := false |}.

(** The tree with each leaf replaced. *)
Fixpoint mapLeaves (f : ExportVariableValue -> ExportVariableValue) (n : Node)
  : Node :=
  match n with
  | Leaf v => Leaf (f v)
  | Group children =>
      Group
        ((fix go (l : list (string * Node)) :=
            match l with
            | [] => []
            | (k, c) :: rest => (k, mapLeaves f c) :: go rest
            end) children)
  end.

(** An object that lists its keys in the order [Object.keys] gives:
    setting them one after the other builds the same list. *)
Definition ordered {A} (obj : list (string * A)) : Prop :=
  fold_left (fun g kv => objSet g (fst kv) (snd kv)) obj [] = obj.

(** The trees of an export the converter reads back: every leaf has a
    value of its type, and no key starts with [$]. *)
Inductive regular : Node -> Prop :=
| regular_leaf v : typedLeaf v -> hasValue v = true -> regular (Leaf v)
| regular_group children :
    ordered children ->
    Forall (fun kv => Js.startsWith (fst kv) "$" = false /\ regular (snd kv))
           children ->
    regular (Group children).

(** The object with each value replaced. *)
Definition mapValues {A B} (f : A -> B) (obj : list (string * A))
  : list (string * B) :=
  map (fun kv => (fst kv, f (snd kv))) obj.

(** ** Section 5 of the source, continued: colours from numbers *)

(** [ColorParser.fromRgb255]: [rgb.a ?? 1]. *)
Definition fromRgb255 (rgb : RgbColor) : RGBA :=
  {| rgba_r := (inject_Z (rgb_r rgb) / 255)%Q;
     rgba_g := (inject_Z (rgb_g rgb) / 255)%Q;
     rgba_b := (inject_Z (rgb_b rgb) / 255)%Q;
     rgba_a := match rgb_a rgb with Some a => a | None => 1 end |}.

(** Within [eps] of each other. *)
Definition near (eps x y : Q) : Prop := (x - eps <= y /\ y <= x + eps)%Q.

(** [hue2rgb] of [ColorParser.fromHsl]. *)
Definition hue2rgb (p q t : Q) : Q :=
  let tt := if Qlt_le_dec t 0 then (t + 1)%Q
            else if Qlt_le_dec 1 t then (t - 1)%Q else t in
  if Qlt_le_dec tt (1 / 6) then (p + (q - p) * 6 * tt)%Q
  else if Qlt_le_dec tt (1 / 2) then q
  else if Qlt_le_dec tt (2 / 3) then (p + (q - p) * (2 / 3 - tt) * 6)%Q
  else p.

Definition fromHsl (hsl : HslColor) : RGBA :=
  let h := (hsl_h hsl / 360)%Q in
  let s := (hsl_s hsl / 100)%Q in
  let l := (hsl_l hsl / 100)%Q in
  let a := match hsl_a hsl with Some a => a | None => 1%Q end in
  if JsMath.same s 0 then mkRGBA l l l a
  else
    let q := if Qlt_le_dec l (1 # 2) then (l * (1 + s))%Q
             else (l + s - l * s)%Q in
    let p := (2 * l - q)%Q in
    mkRGBA (hue2rgb p q (h + 1 / 3)) (hue2rgb p q h) (hue2rgb p q (h - 1 / 3)) a.

(** [ColorParser.fromHsb]; [None] when [rgbMap[i % 6]] is undefined
    (a negative hue), and the destructuring throws. *)
Definition fromHsb (hsb : HsbColor) : option RGBA :=
  let h := (hsb_h hsb / 360)%Q in
  let s := (hsb_s hsb / 100)%Q in
  let v := (hsb_b hsb / 100)%Q in
  let i := Qfloor (h * 6) in
  let f := (h * 6 - inject_Z i)%Q in
  let p := (v * (1 - s))%Q in
  let q := (v * (1 - f * s))%Q in
  let t := (v * (1 - (1 - f) * s))%Q in
  let rgbMap := [(v, t, p); (q, v, p); (p, v, t); (p, q, v); (t, p, v); (v, p, q)] in
  let k := Z.rem i 6 in
  if (k <? 0)%Z then None
  else
    match rgbMap !! Z.to_nat k with
    | Some (r, g, b) =>
        Some (mkRGBA r g b (match hsb_a hsb with Some a => a | None => 1%Q end))
    | None => None
    end.

(** Hue in degrees, the other two in percent. *)
Definition hslInRange (c : HslColor) : Prop :=
  (0 <= hsl_h c /\ hsl_h c <= 360)%Q /\ (0 <= hsl_s c /\ hsl_s c <= 100)%Q
  /\ (0 <= hsl_l c /\ hsl_l c <= 100)%Q.

Definition hsbInRange (c : HsbColor) : Prop :=
  (0 <= hsb_h c /\ hsb_h c <= 360)%Q /\ (0 <= hsb_s c /\ hsb_s c <= 100)%Q
  /\ (0 <= hsb_b c /\ hsb_b c <= 100)%Q.

(** ** Vocabulary for the rollback *)

(** The calls a computation makes on the host: [h'] is reached from
    [h] by calls that [allowed] admits and the host accepts. *)
Inductive hostReach (allowed : HostOp -> Prop) : Host -> Host -> Prop :=
| hostReach_refl h : hostReach allowed h h
| hostReach_step op h r h' h'' :
    allowed op -> applyOp op h = Some (r, h') ->
    hostReach allowed h' h'' -> hostReach allowed h h''.

Definition writesOnly (allowed : HostOp -> Prop) {A} (m : M A) : Prop :=
  forall st, hostReach allowed (host st) (host (snd (m st))).

(** Every call but the writing of a description. *)
Definition keepsDescriptions (op : HostOp) : Prop :=
  match op with
  | OpSetDescription _ _ => False
  | _ => True
  end.

(** Every description of [h'] is that of the same variable in [h]. *)
Definition descriptionsInherited (h h' : Host) : Prop :=
  forall id v',
    getVariableById h' id = Some v' -> var_description v' <> "" ->
    exists v, getVariableById h id = Some v
              /\ var_description v = var_description v'.

(** ** Section 15 of the source: the checks of the message handler

    The payloads of [library_check_result] and [font_check_result]. *)

Record LibraryCheck := mkLibraryCheck
  { lib_allAvailable : bool;
    lib_available : list string;
    lib_missing : list string;
    lib_required : list string }.

Definition checkLibraries (requiredCollections : list string) : M LibraryCheck :=
  h <- getHost ;;
  let localCollectionNames := map col_name (getLocalVariableCollections h) in
  let sorted :=
    fold_left
      (fun (acc : list string * list string) collectionName =>
         if bool_decide (collectionName ∈ localCollectionNames)
         then ((fst acc ++ [collectionName])%list, snd acc)
         else (fst acc, (snd acc ++ [collectionName])%list))
      requiredCollections ([], []) in
  ret {| lib_allAvailable := match snd sorted with [] => true | _ => false end;
         lib_available := fst sorted;
         lib_missing := snd sorted;
         lib_required := requiredCollections |}.

Record FontCheck := mkFontCheck
  { font_allAvailable : bool;
    font_available : list (string * string);
    font_missing : list (string * string);
    font_required : list (string * string) }.

Definition checkFonts (rejects : Host -> HostOp -> bool)
  (requiredFonts : list (string * string)) : M FontCheck :=
  sorted <-
    foldM
      (fun (acc : list (string * string) * list (string * string)) font =>
         tryCatch
           (call rejects (OpLoadFont (fst font) (snd font)) ;;;
            ret ((fst acc ++ [font])%list, snd acc))
           (fun _ => ret (fst acc, (snd acc ++ [font])%list)))
      ([], []) requiredFonts ;;
  ret {| font_allAvailable := match snd sorted with [] => true | _ => false end;
         font_available := fst sorted;
         font_missing := snd sorted;
         font_required := requiredFonts |}.

(** ** Vocabulary for the import of styles *)

(** What identifies a style apart from its content. *)
Definition styleHead (s : Style) : N * StyleKind * string :=
  (style_id s, style_kind s, style_name s).

(** The identifiers of the styles are below the allocation counter. *)
Definition stylesBounded (h : Host) : Prop :=
  forall s, s ∈ styles h -> style_id s < nextId h.

(** The names of the local styles of a kind. *)
Definition styleNames (kind : StyleKind) (h : Host) : list string :=
  map style_name (getLocalStyles kind h).

(** From a state that satisfies [pre], [m] returns, with a result and
    a state that satisfy [post]. *)
Definition returnsWith {A} (pre : State -> Prop) (m : M A)
  (post : A -> State -> Prop) : Prop :=
  forall st, pre st -> exists a st', m st = (Ok a, st') /\ post a st'.

(** A state whose styles have the heads [heads], and that differs from
    [st0] in its styles and its allocation counter only. *)
Definition settled (heads : list (N * StyleKind * string)) (n : N)
  (st0 st : State) : Prop :=
  map styleHead (styles (host st)) = heads
  /\ nextId (host st) = n
  /\ collections (host st) = collections (host st0)
  /\ variables (host st) = variables (host st0)
  /\ cache st = cache st0
  /\ outbox st = outbox st0.

(** ** Shapes of converted names *)

(** Every character of the string satisfies the test. *)
Fixpoint allChars (p : ascii -> bool) (s : string) : bool :=
  match s with
  | EmptyString => true
  | String c rest => p c && allChars p rest
  end.

(** No upper-case letter of [A-Z] occurs in the string. *)
Definition noUpper (s : string) : bool :=
  allChars (fun c => negb (NamingConverter.isUpper c)) s.

(** A word of a name: not empty, and without a separator. *)
Definition word (w : string) : Prop :=
  Js.truthy w = true
  /\ allChars (fun c => negb (NamingConverter.isSeparator c)) w = true.

(** ** A document with styles *)

(** The theme with a paint style and a text style. *)
Definition styledState : State :=
  {| host :=
       {| collections := collections themeHost;
          variables := variables themeHost;
          styles :=
            [ {| style_id := 12; style_kind := PaintStyle; style_name := "brand";
                 style_description := ""; style_font := ("", "");
                 style_body := "#ff8000"; style_bound := [] |};
              {| style_id := 13; style_kind := TextStyle; style_name := "body";
                 style_description := "running text";
                 style_font := ("Inter", "Regular");
                 style_body := "16"; style_bound := [] |} ];
          nextId := 14 |};
     cache := Cache.empty; outbox := [] |}.

(** ** The styles of an import *)

(** The styles part of the [try] block of [importVariables]: one kind
    after the other, the counts added up. *)
Definition importStylesData (rejects : Host -> HostOp -> bool)
  (sd : StylesExport) : M (N * N) :=
  c1 <- importStylesKind rejects PaintStyle (colorStyles sd) (0, 0) ;;
  c2 <- importStylesKind rejects TextStyle (textStyles sd) c1 ;;
  c3 <- importStylesKind rejects EffectStyle (effectStyles sd) c2 ;;
  importStylesKind rejects GridStyle (gridStyles sd) c3.

(** The imported styles whose name a local style of the kind carries,
    and the others. *)
Definition knownStyles (kind : StyleKind) (h : Host)
  (imported : option (list ExportStyle)) : list ExportStyle :=
  filter (fun e => s_name e ∈ styleNames kind h) 
         (match imported with Some l => l | None => [] end).

Definition unknownStyles (kind : StyleKind) (h : Host)
  (imported : option (list ExportStyle)) : list ExportStyle :=
  filter (fun e => s_name e ∉ styleNames kind h) 
         (match imported with Some l => l | None => [] end).

(** * Properties of the engine *)

(** ** The variable cache *)

Lemma foldl_delete_lookup (keys : list string) (m : gmap string N) (k : string) :
  foldl (fun m key => delete key m) m keys !! k
  = if decide (k ∈ keys) then None else m !! k.
Proof.
  revert m. induction keys as [|key keys IH]; intros m; simpl.
  - destruct (decide (k ∈ [])) as [H|H]; [by apply elem_of_nil in H | done].
  - rewrite IH. destruct (decide (key = k)) as [->|Hne].
    + rewrite lookup_delete_eq.
      rewrite (decide_True (P := k ∈ k :: keys)) by apply list_elem_of_here.
      by case_decide.
    + rewrite lookup_delete_ne by done.
      destruct (decide (k ∈ keys)) as [Hin|Hnin].
      * rewrite decide_True; [done | by apply list_elem_of_further].
      * rewrite decide_False; [done |].
        intros [?|?]%elem_of_cons; congruence.
Qed.

Lemma removed_keys_spec (m : gmap string N) (pre k : string) :
  k ∈ filter (fun key => Js.startsWith key pre = true) (map fst (map_to_list m))
  ↔ Js.startsWith k pre = true ∧ is_Some (m !! k).
Proof.
  rewrite list_elem_of_filter, list_elem_of_fmap. split.
  - intros [Hp [[k' v] [-> Hin]]]. split; [done |].
    apply elem_of_map_to_list in Hin. by exists v.
  - intros [Hp [v Hv]]. split; [done |].
    exists (k, v). split; [done |]. by apply elem_of_map_to_list.
Qed.

(** C10. [VariableCache.removeCollection(name)] deletes the collection
    handle stored under [name] together with exactly the cached variable
    entries whose key starts with [name + "/"]; every other entry of both
    maps, and the [initialized] flag, are unchanged. *)
Theorem C10_removeCollection_frame (c : VariableCache) (name : string) :
  (∀ n : string,
      collectionMap (Cache.removeCollection name c) !! n
      = if decide (n = name) then None else collectionMap c !! n)
  ∧ (∀ key : string,
        variableMap (Cache.removeCollection name c) !! key
        = if Js.startsWith key (name +:+ "/") then None
          else variableMap c !! key)
  ∧ initialized (Cache.removeCollection name c) = initialized c.
Proof.
  repeat split.
  - intros n. simpl. case_decide as Hn.
    + subst. apply lookup_delete_eq.
    + by apply lookup_delete_ne.
  - intros key. simpl. rewrite foldl_delete_lookup.
    destruct (Js.startsWith key (name +:+ "/")) eqn:Hpre.
    + case_decide as Hin; [done |].
      destruct (variableMap c !! key) as [v|] eqn:Hv; [| done].
      exfalso. apply Hin, removed_keys_spec. eauto.
    + case_decide as Hin; [| done].
      apply removed_keys_spec in Hin as [Hp _]. congruence.
Qed.

(** ** Eager alias resolution *)

Lemma resolveAliasValue_exhausted getVar variable mode (maxDepth : Z) :
  (maxDepth <= 0)%Z ->
  resolveAliasValue getVar variable mode maxDepth = VString "".
Proof.
  intros H. rewrite resolveAliasValue_equation_1.
  destruct (Z_le_gt_dec maxDepth 0); [reflexivity | lia].
Qed.

Lemma resolveAliasValue_raw getVar variable mode (maxDepth : Z) :
  isVariableAlias (resolveAliasValue getVar variable mode maxDepth) = false.
Proof.
  funelim (resolveAliasValue getVar variable mode maxDepth);
    try reflexivity; try assumption.
Qed.

Lemma resolveAliasCalls_length getVar variable mode (maxDepth : Z) :
  (length (resolveAliasCalls getVar variable mode maxDepth) <= Z.to_nat maxDepth)%nat.
Proof.
  funelim (resolveAliasCalls getVar variable mode maxDepth);
    simpl; try lia.
Qed.

Lemma resolveAliasCalls_depths getVar variable mode (maxDepth : Z) :
  map snd (resolveAliasCalls getVar variable mode maxDepth)
  = map (fun i => (maxDepth - Z.of_nat (S i))%Z)
        (seq 0%nat (length (resolveAliasCalls getVar variable mode maxDepth))).
Proof.
  funelim (resolveAliasCalls getVar variable mode maxDepth);
    simpl; try reflexivity.
  f_equal.
  match goal with IH : map snd _ = _ |- _ => rewrite IH at 1 end.
  rewrite <- seq_shift, map_map. apply map_ext. intros i. lia.
Qed.

Lemma resolveAliasValue_closed getVar mode (S : VariableNode -> Prop) :
  aliasClosed getVar mode S ->
  forall (n : nat) (maxDepth : Z) variable,
    Z.to_nat maxDepth = n -> S variable ->
    resolveAliasValue getVar variable mode maxDepth = VString "".
Proof.
  intros Hclosed. induction n as [|n IH]; intros maxDepth variable Hn HS.
  - apply resolveAliasValue_exhausted. lia.
  - destruct (Hclosed variable HS) as (id & next & Hv & Hnext & HSnext).
    rewrite resolveAliasValue_equation_1.
    destruct (Z_le_gt_dec maxDepth 0) as [Hle|Hgt]; [reflexivity |].
    simpl. rewrite Hv. simpl. rewrite Hnext. simpl.
    apply IH; [lia | assumption].
Qed.

(** C9. [resolveAliasValue] is total: for every host, variable and depth
    bound it returns a raw value (never an alias).  Each recursive call
    receives the bound decreased by one, so at most [maxDepth] calls are
    made (ten with the default bound); with an exhausted bound, and on any
    alias cycle whatever the bound, the result is the empty string. *)
Theorem C9_resolveAliasValue_terminates
  (getVar : N -> option VariableNode) (variable : VariableNode)
  (preferredModeId : N) (maxDepth : Z) :
  isVariableAlias (resolveAliasValue getVar variable preferredModeId maxDepth)
  = false
  /\ (length (resolveAliasCalls getVar variable preferredModeId maxDepth)
      <= Z.to_nat maxDepth)%nat
  /\ map snd (resolveAliasCalls getVar variable preferredModeId maxDepth)
     = map (fun i => (maxDepth - Z.of_nat (S i))%Z)
           (seq 0%nat (length (resolveAliasCalls getVar variable preferredModeId
                             maxDepth)))
  /\ (length (resolveAliasCalls getVar variable preferredModeId DEFAULT_MAX_DEPTH)
      <= 10)%nat
  /\ ((maxDepth <= 0)%Z ->
      resolveAliasValue getVar variable preferredModeId maxDepth = VString "")
  /\ (forall S : VariableNode -> Prop,
        aliasClosed getVar preferredModeId S -> S variable ->
        resolveAliasValue getVar variable preferredModeId maxDepth = VString "").
Proof.
  split; [apply resolveAliasValue_raw |].
  split; [apply resolveAliasCalls_length |].
  split; [apply resolveAliasCalls_depths |].
  split; [apply (resolveAliasCalls_length _ _ _ DEFAULT_MAX_DEPTH) |].
  split; [apply resolveAliasValue_exhausted |].
  intros S Hclosed HS.
  eapply resolveAliasValue_closed; eauto.
Qed.

(** ** The plan validator *)

Lemma fold_left_appending {A B} (step : list B -> A -> list B) (f : A -> list B)
  (l : list A) (init : list B) :
  (forall acc x, step acc x = (acc ++ f x)%list) ->
  fold_left step l init = (init ++ flat_map f l)%list.
Proof.
  intros Hstep. revert init. induction l as [|x l IH]; intros init; simpl.
  - by rewrite app_nil_r.
  - rewrite Hstep, IH. by rewrite <- app_assoc.
Qed.

Lemma fold_left_snd_appending {A B C} (step : C * list B -> A -> C * list B)
  (f : A -> list B) (l : list A) (init : C * list B) :
  (forall acc x, snd (step acc x) = (snd acc ++ f x)%list) ->
  snd (fold_left step l init) = (snd init ++ flat_map f l)%list.
Proof.
  intros Hstep. revert init. induction l as [|x l IH]; intros init; simpl.
  - by rewrite app_nil_r.
  - rewrite IH, Hstep. by rewrite <- app_assoc.
Qed.

Lemma validate_run (importData : ExportFormat) (planOverride : option FigmaPlan)
  (st : State) :
  exists v,
    validateImportAgainstPlan importData planOverride st = (Ok v, st)
    /\ errors v
       = flat_map variableErrorOf
           (filter (fun item => hasStylesKey item = false) importData)
    /\ collectionsExceedingModeLimit v
       = flat_map (exceedingOf (maxModesPerCollection (currentPlan v)))
           (filter (fun item => hasStylesKey item = false) importData)
    /\ canImport v = match errors v with [] => true | _ => false end
    /\ warnings v
       = ((if 1000 <? importing_totalVariables v
           then [largeImportText (importing_totalVariables v)] else [])
          ++ (if 10 <? importing_collections v
              then [manyCollectionsText (importing_collections v)] else []))%list
    /\ importing_collections v
       = lengthN (filter (fun item => hasStylesKey item = false) importData)
    /\ currentPlan v
       = match planOverride with
         | Some p => PLAN_LIMITS p
         | None =>
             match detectCurrentPlan st with
             | (Ok p, _) => p
             | _ => PLAN_LIMITS professional
             end
         end.
Proof.
  unfold validateImportAgainstPlan.
  set (cur := match planOverride with Some p => PLAN_LIMITS p | None =>
             match detectCurrentPlan st with
             | (Ok p, _) => p
             | _ => PLAN_LIMITS professional
             end end).
  assert (Hcur : (match planOverride with
                  | Some p => ret (PLAN_LIMITS p)
                  | None => detectCurrentPlan
                  end) st = (Ok cur, st)).
  { subst cur. destruct planOverride; reflexivity. }
  unfold bind at 1. rewrite Hcur.
  unfold bind, getHost, ret. cbv beta iota.
  eexists. split; [reflexivity |]. cbn [errors collectionsExceedingModeLimit canImport warnings importing_collections importing_totalVariables currentPlan].
  repeat split.
  - etransitivity; [apply (fold_left_appending _ variableErrorOf) | reflexivity].
    intros acc x. unfold variableErrorOf.
    destruct (collectionOf x) as [[n m]|]; [| by rewrite app_nil_r].
    destruct (_ <? _); [done | by rewrite app_nil_r].
  - etransitivity; [apply (fold_left_snd_appending _ (exceedingOf (maxModesPerCollection cur))) |reflexivity].
    intros acc x. unfold exceedingOf.
    destruct (collectionOf x) as [[n m]|]; simpl; [| by rewrite app_nil_r].
    destruct (exceeds _ _); [done | by rewrite app_nil_r].
Qed.

Lemma in_variableErrorOf (e : string) (item : Item) :
  In e (variableErrorOf item) <->
  exists colName m,
    collectionOf item = Some (colName, m)
    /\ MAX_VARIABLES_PER_COLLECTION < firstModeCount m
    /\ e = variableLimitText colName (firstModeCount m).
Proof.
  unfold variableErrorOf. split.
  - destruct (collectionOf item) as [[n m]|]; [| intros []].
    destruct (N.ltb_spec MAX_VARIABLES_PER_COLLECTION (firstModeCount m));
      [| intros []].
    intros [<-|[]]. eauto.
  - intros (n & m & -> & Hlt & ->).
    apply N.ltb_lt in Hlt. rewrite Hlt. by left.
Qed.

Lemma in_exceedingOf (limit : option N) (e : string) (item : Item) :
  In e (exceedingOf limit item) <->
  exists colName m l,
    collectionOf item = Some (colName, m)
    /\ limit = Some l /\ l < lengthN (jsKeys m)
    /\ e = exceedingText colName (lengthN (jsKeys m)) limit.
Proof.
  unfold exceedingOf, exceeds. split.
  - destruct (collectionOf item) as [[n m]|]; [| intros []].
    destruct limit as [l|]; [| intros []].
    destruct (N.ltb_spec l (lengthN (jsKeys m))); [| intros []].
    intros [<-|[]]. eauto 10.
  - intros (n & m & l & -> & -> & Hlt & ->).
    apply N.ltb_lt in Hlt. rewrite Hlt. by left.
Qed.


Example capacity_gate_rejects :
  exists v,
    validateImportAgainstPlan bigDocument None freshState = (Ok v, freshState)
    /\ errors v
       = ["Collection " +:+ dquote +:+ "Big" +:+ dquote
          +:+ " has 5001 variables, exceeds limit of 5000"]
    /\ canImport v = false.
Proof. eexists. vm_compute. repeat split. Qed.

Example mode_ceiling_reports :
  exists v,
    validateImportAgainstPlan manyModesDocument (Some professional) freshState
    = (Ok v, freshState)
    /\ collectionsExceedingModeLimit v
       = [dquote +:+ "Themes" +:+ dquote +:+ " (11 modes, limit: 10)"]
    /\ errors v = []
    /\ canImport v = true.
Proof. eexists. vm_compute. repeat split. Qed.

(** ** The import diff *)

Lemma Node_ind' (P : Node -> Prop) :
  (forall v, P (Leaf v)) ->
  (forall children, Forall (fun kv => P (snd kv)) children -> P (Group children)) ->
  forall n, P n.
Proof.
  intros HL HG. fix IH 1. intros [v|children]; [apply HL |].
  apply HG. induction children as [|[k c] rest IHrest]; constructor.
  - apply IH.
  - exact IHrest.
Qed.

Lemma foldM_app {A B} (f : B -> A -> M B) (l1 l2 : list A) (acc : B) (st : State) :
  foldM f acc (l1 ++ l2)%list st
  = (acc' <- foldM f acc l1 ;; foldM f acc' l2) st.
Proof.
  revert acc st. induction l1 as [|x l1 IH]; intros acc st; simpl.
  - reflexivity.
  - unfold bind. destruct (f acc x st) as [[a|e] st1]; [| reflexivity].
    rewrite IH. reflexivity.
Qed.

Section DiffTraversal.
Variable formatNumber : Q -> string.

Lemma checkNode_flatten modeId collectionName (n : Node) :
  forall path key r st,
    checkNode formatNumber modeId collectionName path key n r st
    = foldM (checkFlat formatNumber modeId collectionName) r (flattenNode path key n) st.
Proof.
  induction n as [v|children IH] using Node_ind'; intros path key r st.
  - simpl. unfold checkFlat. simpl. unfold bind.
    destruct (checkLeaf _ _ _ _ _ _ _) as [[a|e] st']; reflexivity.
  - simpl. generalize (joinPath path key) as p. intros p.
    revert r st. induction IH as [|[k c] rest Hc _ IHrest]; intros r st.
    + reflexivity.
    + rewrite foldM_app. unfold bind. simpl in Hc. rewrite Hc.
      destruct (foldM _ _ _ _) as [[a|e] st']; [| reflexivity].
      apply IHrest.
Qed.

Lemma checkVariablesDiff_flatten modeId collectionName
  (importData : NestedVariables) :
  forall path r st,
    checkVariablesDiff formatNumber modeId importData collectionName path r st
    = foldM (checkFlat formatNumber modeId collectionName) r
            (flattenVariables importData path) st.
Proof.
  unfold checkVariablesDiff, flattenVariables.
  induction importData as [|[k c] rest IH]; intros path r st.
  - reflexivity.
  - simpl. rewrite foldM_app. unfold bind.
    rewrite checkNode_flatten.
    destruct (foldM _ _ _ _) as [[a|e] st']; [| reflexivity].
    apply IH.
Qed.
End DiffTraversal.

Lemma bind_ok {A B} (m : M A) (k : A -> M B) st a st' :
  m st = (Ok a, st') -> bind m k st = k a st'.
Proof. intros H. unfold bind. by rewrite H. Qed.

Lemma bind_inv_ok {A B} (m : M A) (k : A -> M B) st b st2 :
  bind m k st = (Ok b, st2) ->
  exists a st1, m st = (Ok a, st1) /\ k a st1 = (Ok b, st2).
Proof.
  unfold bind. destruct (m st) as [[a|e] st1]; [eauto | discriminate].
Qed.

Lemma foldM_inv_cons {A B} (f : B -> A -> M B) x l acc st r st2 :
  foldM f acc (x :: l) st = (Ok r, st2) ->
  exists a st1, f acc x st = (Ok a, st1) /\ foldM f a l st1 = (Ok r, st2).
Proof. simpl. apply bind_inv_ok. Qed.

(** Invariants of a fold: a state property kept by every step, and a
    result relation that is reflexive, transitive and established by a step. *)
Lemma foldM_invariant {A B} (f : B -> A -> M B) (I : State -> Prop)
  (R : B -> B -> Prop) (l : list A) :
  (forall b, R b b) ->
  (forall a b c, R a b -> R b c -> R a c) ->
  (forall acc x st r st', x ∈ l -> I st -> f acc x st = (Ok r, st') ->
                          I st' /\ R acc r) ->
  forall acc st r st',
    I st -> foldM f acc l st = (Ok r, st') -> I st' /\ R acc r.
Proof.
  intros Hrefl Htrans. induction l as [|x l IH]; intros Hstep acc st r st' HI Hrun.
  - simpl in Hrun. inversion Hrun; subst. split; [done | apply Hrefl].
  - apply foldM_inv_cons in Hrun as (a & st1 & Hx & Hrest).
    destruct (Hstep acc x st a st1) as [HI1 HR1]; [apply list_elem_of_here | done | done |].
    destruct (IH (fun acc x st r st' Hin => Hstep acc x st r st' (list_elem_of_further _ _ _ Hin))
                 a st1 r st' HI1 Hrest) as [HI2 HR2].
    split; [done | eauto].
Qed.

Section DiffFacts.
Variable formatNumber : Q -> string.

Lemma extends_refl X r : extends X r r.
Proof.
  repeat split; try reflexivity.
  - exists []. by rewrite app_nil_r.
  - exists []. by rewrite app_nil_r.
Qed.

Lemma extends_trans X a b c : extends X a b -> extends X b c -> extends X a c.
Proof.
  intros (H1 & H2 & (nv & H3 & F3) & (mv & H4 & F4))
         (H1' & H2' & (nv' & H3' & F3') & (mv' & H4' & F4')).
  repeat split; try congruence.
  - exists (nv ++ nv')%list. split; [| by apply Forall_app].
    by rewrite H3', H3, app_assoc.
  - exists (mv ++ mv')%list. split; [| by apply Forall_app].
    by rewrite H4', H4, app_assoc.
Qed.

Ltac solve_extends :=
  repeat split; try reflexivity;
  first [ exists []; cbn; split; [by rewrite app_nil_r | constructor]
        | eexists [_]; cbn; split; [reflexivity | by repeat constructor] ].

Lemma checkLeaf_extends modeId X path value r st r' st' :
  checkLeaf formatNumber modeId X path value r st = (Ok r', st') ->
  st' = st /\ extends X r r'.
Proof.
  unfold checkLeaf, bind, getCache, readVariable, getHost, ret, throw.
  destruct (Cache.getVariable _ _) as [var|].
  - cbn. destruct (getVariableById _ _) as [v|]; [| discriminate].
    destruct (valuesAreDifferent _ _); intros [= <- <-];
      (split; [done | solve_extends]).
  - intros [= <- <-]. split; [done | solve_extends].
Qed.

Lemma checkVariablesDiff_extends modeId X importData path r st r' st' :
  checkVariablesDiff formatNumber modeId importData X path r st = (Ok r', st') ->
  st' = st /\ extends X r r'.
Proof.
  rewrite checkVariablesDiff_flatten. intros Hrun.
  eapply (foldM_invariant (checkFlat formatNumber modeId X)
            (fun s => s = st) (extends X)
            (flattenVariables importData path)
            (extends_refl X) (extends_trans X)); [| reflexivity | exact Hrun].
  intros acc x s r0 s' _ -> Hx. by apply checkLeaf_extends in Hx.
Qed.

Lemma touched_extends_other X Y r r' :
  extends X r r' -> X <> Y -> touched Y r' = touched Y r.
Proof.
  intros (_ & _ & (nv & Hn & Fn) & (mv & Hm & Fm)) Hne.
  unfold touched. rewrite Hn, Hm, !existsb_app.
  assert (E1 : existsb (fun v => String.eqb (ch_collection v) Y) mv = false).
  { clear Hm. induction Fm as [|v mv Hv _ IH]; [done |]. simpl. rewrite IH.
    rewrite Hv. by apply String.eqb_neq in Hne as ->. }
  assert (E2 : existsb (fun v : string * string => String.eqb (fst v) Y) nv = false).
  { clear Hn. induction Fn as [|v nv Hv _ IH]; [done |]. simpl. rewrite IH.
    rewrite Hv. by apply String.eqb_neq in Hne as ->. }
  rewrite E1, E2, !orb_false_r. reflexivity.
Qed.

Lemma touched_extends_mono X Y r r' :
  extends X r r' -> touched Y r = true -> touched Y r' = true.
Proof.
  intros (_ & _ & (nv & Hn & _) & (mv & Hm & _)).
  unfold touched. rewrite Hn, Hm, !existsb_app.
  intros [H|H]%orb_true_iff; rewrite H; by rewrite ?orb_true_r.
Qed.
End DiffFacts.

Section DiffDocument.
Variable formatNumber : Q -> string.

Lemma sameVars_touched r r' Y : sameVars r r' -> touched Y r' = touched Y r.
Proof. intros (_ & _ & Hn & Hm). unfold touched. by rewrite Hn, Hm. Qed.

Lemma stylesDiffOf_sameVars h kind type styles r :
  sameVars r (stylesDiffOf h kind type styles r).
Proof.
  unfold stylesDiffOf. destruct styles as [l|]; [| by repeat split].
  generalize (map style_name (getLocalStyles kind h)) as names. intros names.
  revert r. induction l as [|s l IH]; intros r; [by repeat split |].
  simpl. destruct (IH (addStyle (bool_decide (s_name s ∈ names)) type (s_name s) r))
    as (H1 & H2 & H3 & H4).
  repeat split; [rewrite H1 | rewrite H2 | rewrite H3 | rewrite H4]; reflexivity.
Qed.

Lemma diffMode_extends existing X acc entry st acc' st' :
  diffMode formatNumber existing X acc entry st = (Ok acc', st') ->
  st' = st /\ extends X (snd acc) (snd acc').
Proof.
  unfold diffMode, readCollection, bind, getHost, ret, throw. cbn.
  destruct (getVariableCollectionById _ _) as [col|]; [| discriminate].
  destruct (find _ _) as [mode|].
  - destruct (checkVariablesDiff _ _ _ _ _ _ _) as [[r1|e] st1] eqn:Hc;
      [| discriminate].
    intros [= <- <-]. by apply checkVariablesDiff_extends in Hc.
  - intros [= <- <-]. split; [done | apply extends_refl].
Qed.

Lemma diffItem_spec r item st r' st' :
  diffItem formatNumber r item st = (Ok r', st') ->
  st' = st
  /\ ((isStylesKey item = true /\ sameVars r r')
      \/ (isStylesKey item = false
          /\ exists X, entryName item = Some X
               /\ ((Cache.getCollection X (cache st) = None /\ sameVars r r')
                   \/ (is_Some (Cache.getCollection X (cache st))
                       /\ exists r1, extends X r r1
                                     /\ r' = classifyCollection X r1)))).
Proof.
  unfold diffItem. destruct (isStylesKey item) eqn:Hs.
  - unfold computeStylesDiff, bind, getHost, ret. intros [= <- <-].
    split; [done |]. left. split; [done |].
    pose proof (stylesDiffOf_sameVars (host st)) as S.
    destruct (S PaintStyle "color" (colorStyles (stylesOf item)) r) as (a1 & a2 & a3 & a4).
    destruct (S TextStyle "text" (textStyles (stylesOf item))
                (stylesDiffOf (host st) PaintStyle "color" (colorStyles (stylesOf item)) r))
      as (b1 & b2 & b3 & b4).
    destruct (S EffectStyle "effect" (effectStyles (stylesOf item))
                (stylesDiffOf (host st) TextStyle "text" (textStyles (stylesOf item))
                   (stylesDiffOf (host st) PaintStyle "color" (colorStyles (stylesOf item)) r)))
      as (c1 & c2 & c3 & c4).
    destruct (S GridStyle "grid" (gridStyles (stylesOf item))
                (stylesDiffOf (host st) EffectStyle "effect" (effectStyles (stylesOf item))
                (stylesDiffOf (host st) TextStyle "text" (textStyles (stylesOf item))
                   (stylesDiffOf (host st) PaintStyle "color" (colorStyles (stylesOf item)) r))))
      as (d1 & d2 & d3 & d4).
    repeat split; congruence.
  - destruct item as [|[json v] rest]; [discriminate |].
    unfold bind, getCache, ret, throw. cbn.
    destruct (modes (asContent v)) as [m|]; [| discriminate].
    destruct (Cache.getCollection _ _) as [existing|] eqn:Hc.
    + destruct (foldM _ _ _ _) as [[looped|e] st1] eqn:Hloop; [| discriminate].
      intros [= <- <-].
      assert (Hinv : st1 = st /\ extends (orElse (originalName (asContent v)) json)
                                         r (snd looped)).
      { refine (foldM_invariant
                  (diffMode formatNumber existing (orElse (originalName (asContent v)) json))
                  (fun s => s = st)
                  (fun a b => extends (orElse (originalName (asContent v)) json) (snd a) (snd b))
                  m _ _ _ (false, r) st looped st1 eq_refl Hloop).
        - intros; apply extends_refl.
        - intros ???; apply extends_trans.
        - intros acc x s r0 s' _ -> Hx. by apply diffMode_extends in Hx. }
      destruct Hinv as [-> Hext]. split; [done |]. right. split; [done |].
      eexists. split; [reflexivity |]. right. rewrite Hc. split; [eauto |].
      eauto.
    + intros [= <- <-]. split; [done |]. right. split; [done |].
      eexists. split; [reflexivity |]. left. rewrite Hc. split; [done |].
      by repeat split.
Qed.

Lemma classify_touched X Y r :
  touched Y (classifyCollection X r) = touched Y r.
Proof. reflexivity. Qed.

Lemma diff_fold_spec (doc : ExportFormat) :
  forall r0 st r st',
    foldM (diffItem formatNumber) r0 doc st = (Ok r, st') ->
    NoDup (collectionNames doc) ->
    st' = st
    /\ (forall Y, Y ∉ collectionNames doc -> touched Y r = touched Y r0)
    /\ (forall Z, Z ∈ modifiedCollections r <->
                  Z ∈ modifiedCollections r0
                  \/ (Z ∈ collectionNames doc
                      /\ is_Some (Cache.getCollection Z (cache st))
                      /\ touched Z r = true))
    /\ (forall Z, Z ∈ unchangedCollections r <->
                  Z ∈ unchangedCollections r0
                  \/ (Z ∈ collectionNames doc
                      /\ is_Some (Cache.getCollection Z (cache st))
                      /\ touched Z r = false)).
Proof.
  induction doc as [|item rest IH]; intros r0 st r st' Hrun Hnd.
  - inversion Hrun; subst. repeat split; try tauto.
    + intros [H|(H & _)]; [done | by apply elem_of_nil in H].
    + intros [H|(H & _)]; [done | by apply elem_of_nil in H].
  - apply foldM_inv_cons in Hrun as (r1 & st1 & Hitem & Hrest).
    apply diffItem_spec in Hitem as [-> Hcase].
    unfold collectionNames in *. simpl in Hnd |- *.
    destruct Hcase as [[Hs Hsame] | (Hs & X & Hname & Hcase)]; rewrite Hs in *.
    + (* styles entry *)
      destruct (IH r1 st r st' Hrest Hnd) as (-> & Ht & Hm & Hu).
      split; [done |]. destruct Hsame as (S1 & S2 & S3 & S4).
      repeat split.
      * intros Y HY. rewrite Ht by done. unfold touched. by rewrite S3, S4.
      * rewrite Hm, S1. tauto.
      * rewrite Hm, S1. tauto.
      * rewrite Hu, S2. tauto.
      * rewrite Hu, S2. tauto.
    + rewrite Hname in *. simpl in Hnd |- *.
      apply NoDup_cons in Hnd as [HX Hnd].
      destruct (IH r1 st r st' Hrest Hnd) as (-> & Ht & Hm & Hu).
      split; [done |].
      destruct Hcase as [[Hnone Hsame] | (Hsome & r1' & Hext & ->)].
      * (* a new collection *)
        destruct Hsame as (S1 & S2 & S3 & S4).
        repeat split.
        -- intros Y HY. apply not_elem_of_cons in HY as [_ HY].
           rewrite Ht by done. unfold touched. by rewrite S3, S4.
        -- rewrite Hm, S1. intros [H|(H1 & H2 & H3)]; [by left |].
           right. split; [by apply list_elem_of_further | done].
        -- rewrite Hm, S1. intros [H|(H1 & H2 & H3)]; [by left |].
           apply elem_of_cons in H1 as [->|H1].
           ++ rewrite Hnone in H2. by destruct H2.
           ++ right. done.
        -- rewrite Hu, S2. intros [H|(H1 & H2 & H3)]; [by left |].
           right. split; [by apply list_elem_of_further | done].
        -- rewrite Hu, S2. intros [H|(H1 & H2 & H3)]; [by left |].
           apply elem_of_cons in H1 as [->|H1].
           ++ rewrite Hnone in H2. by destruct H2.
           ++ right. done.
      * (* an existing collection *)
        assert (HtX : touched X r = touched X r1').
        { rewrite Ht by done. apply classify_touched. }
        destruct Hext as (E1 & E2 & E3 & E4).
        assert (Hext : extends X r0 r1') by (repeat split; assumption).
        repeat split.
        -- intros Y HY. apply not_elem_of_cons in HY as [HYX HY].
           rewrite Ht by done. rewrite classify_touched.
           by apply (touched_extends_other X Y).
        -- rewrite Hm. cbn [modifiedCollections classifyCollection].
           intros [H|(H1 & H2 & H3)].
           ++ destruct (touched X r1') eqn:HT.
              ** apply elem_of_app in H as [H|H].
                 --- left. by rewrite <- E1.
                 --- apply list_elem_of_singleton in H as ->. right.
                     split; [apply list_elem_of_here |]. split; [done |].
                     by rewrite HtX.
              ** left. by rewrite <- E1.
           ++ right. split; [by apply list_elem_of_further | done].
        -- rewrite Hm. cbn [modifiedCollections classifyCollection].
           intros [H|(H1 & H2 & H3)].
           ++ left. destruct (touched X r1'); [apply elem_of_app; left |];
                by rewrite E1.
           ++ apply elem_of_cons in H1 as [->|H1].
              ** left. rewrite HtX in H3. rewrite H3. apply elem_of_app. right.
                 apply list_elem_of_here.
              ** right. done.
        -- rewrite Hu. cbn [unchangedCollections classifyCollection].
           intros [H|(H1 & H2 & H3)].
           ++ destruct (touched X r1') eqn:HT.
              ** left. by rewrite <- E2.
              ** apply elem_of_app in H as [H|H].
                 --- left. by rewrite <- E2.
                 --- apply list_elem_of_singleton in H as ->. right.
                     split; [apply list_elem_of_here |]. split; [done |].
                     by rewrite HtX.
           ++ right. split; [by apply list_elem_of_further | done].
        -- rewrite Hu. cbn [unchangedCollections classifyCollection].
           intros [H|(H1 & H2 & H3)].
           ++ left. destruct (touched X r1'); [| apply elem_of_app; left];
                by rewrite E2.
           ++ apply elem_of_cons in H1 as [->|H1].
              ** left. rewrite HtX in H3. rewrite H3. apply elem_of_app. right.
                 apply list_elem_of_here.
              ** right. done.
Qed.
End DiffDocument.

Lemma touched_spec X r :
  touched X r = true <->
  (exists v, v ∈ modifiedVariables r /\ ch_collection v = X)
  \/ (exists path, (X, path) ∈ newVariables r).
Proof.
  unfold touched. rewrite orb_true_iff, !existsb_exists. split.
  - intros [(v & Hin & He) | ([c p] & Hin & He)].
    + left. exists v. split; [by apply list_elem_of_In |]. by apply String.eqb_eq.
    + right. exists p. apply String.eqb_eq in He. simpl in He. subst.
      by apply list_elem_of_In.
  - intros [(v & Hin & <-) | (p & Hin)].
    + left. exists v. split; [by apply list_elem_of_In | apply String.eqb_refl].
    + right. exists (X, p). split; [by apply list_elem_of_In | apply String.eqb_refl].
Qed.

Lemma checkLeaf_new fmt modeId X path value r st :
  Cache.getVariable (X +:+ "/" +:+ path) (cache st) = None ->
  checkLeaf fmt modeId X path value r st = (Ok (addNewVariable X path r), st).
Proof. intros H. unfold checkLeaf, bind, getCache. cbn. by rewrite H. Qed.

Lemma checkLeaf_existing fmt modeId X path value r st var v :
  Cache.getVariable (X +:+ "/" +:+ path) (cache st) = Some var ->
  getVariableById (host st) var = Some v ->
  checkLeaf fmt modeId X path value r st
  = (Ok (if valuesAreDifferent (alookup (valuesByMode v) modeId) (e_value value)
         then addModifiedVariable
                {| ch_collection := X; ch_path := path;
                   oldValue := formatExisting fmt (alookup (valuesByMode v) modeId);
                   newValue := formatImported fmt (e_value value) |} r
         else addUnchangedVariable r), st).
Proof.
  intros Hc Hv. unfold checkLeaf, bind, getCache, readVariable, getHost. cbn.
  rewrite Hc. cbn. rewrite Hv. cbn.
  by destruct (valuesAreDifferent _ _).
Qed.


(** The example of the specification: [Colors/Brand = #FF0000] against
    the same hex is unchanged, against [#00FF00] it is modified with both
    hex values, and an absent path is new. *)
Example diff_same_hex :
  exists r st',
    computeImportDiff noFormat (colorsDocument "#FF0000" []) colorsState
    = (Ok r, st')
    /\ unchangedVariables r = 1 /\ modifiedVariables r = []
    /\ newVariables r = [] /\ unchangedCollections r = ["Colors"].
Proof. do 2 eexists. vm_compute. repeat split. Qed.

Example diff_other_hex :
  exists r st',
    computeImportDiff noFormat (colorsDocument "#00FF00" []) colorsState
    = (Ok r, st')
    /\ modifiedVariables r
       = [ {| ch_collection := "Colors"; ch_path := "Brand";
              oldValue := "#ff0000"; newValue := "#00FF00" |} ]
    /\ modifiedCollections r = ["Colors"].
Proof. do 2 eexists. vm_compute. repeat split. Qed.

Example diff_absent_path :
  exists r st',
    computeImportDiff noFormat
      (colorsDocument "#FF0000" [("Accent", colorLeaf "#0000FF")]) colorsState
    = (Ok r, st')
    /\ newVariables r = [("Colors", "Accent")]
    /\ modifiedCollections r = ["Colors"].
Proof. do 2 eexists. vm_compute. repeat split. Qed.


(** C7. The live collection [Colors] has the single mode [Light]; the
    document entry adds a mode [Dark].  The loop sets its flag
    [hasModifications] for the unmatched mode, but the classification
    never reads the flag: with no new or modified variable the collection
    is reported unchanged, not modified. *)
Theorem C7_unmatched_mode_reported_unchanged :
  exists r st',
    computeImportDiff noFormat twoModesDocument colorsState = (Ok r, st')
    /\ modifiedCollections r = []
    /\ unchangedCollections r = ["Colors"]
    /\ collectionsModified (summary r) = 0
    /\ (exists looped s,
          foldM (diffMode noFormat 0 "Colors") (false, emptyDiff)
                [("Light", [("Brand", colorLeaf "#FF0000")]);
                 ("Dark", [("Brand", colorLeaf "#FF0000")])] st'
          = (Ok looped, s)
          /\ fst looped = true).
Proof.
  do 2 eexists. split; [vm_compute; reflexivity |].
  repeat split. do 2 eexists. split; [vm_compute; reflexivity | reflexivity].
Qed.

(** ** Pass 2: unresolved aliases *)

(** An alias whose target is not in the rebuilt cache: no host call, no
    exception, the failed counter incremented, the state untouched. *)
Lemma pass2Alias_unresolved rejects (counts : N * N) (pending : PendingAlias)
  (st : State) :
  Cache.getVariable (p_aliasCollection pending +:+ "/" +:+ p_aliasPath pending)
                    (cache st) = None ->
  pass2Alias rejects counts pending st = (Ok (fst counts, snd counts + 1), st).
Proof.
  intros H. unfold pass2Alias, bind, getCache. cbn. by rewrite H.
Qed.

(** Pass 2 never throws. *)
Lemma pass2_total rejects (pendings : list PendingAlias) (st : State) :
  exists counts st', pass2 rejects pendings st = (Ok counts, st').
Proof.
  unfold pass2, rebuildCache, bind, getHost, modifyCache. cbn.
  generalize (0, 0) as counts.
  generalize ({| host := host st; cache := Cache.rebuild (host st) (cache st);
                 outbox := outbox st |}) as s.
  induction pendings as [|p ps IH]; intros s counts; [by eexists _, _ |].
  simpl. unfold bind at 1.
  assert (Hp : exists c s', pass2Alias rejects counts p s = (Ok c, s')).
  { unfold pass2Alias, bind, getCache, tryCatch, ret. cbn.
    destruct (Cache.getVariable _ _); [| by eexists _, _].
    destruct (call _ _ _) as [[?|?] ?]; by eexists _, _. }
  destruct Hp as (c & s' & ->). apply IH.
Qed.

(** C3. Importing [libraryAliasDocument] into an empty store: pass 1
    queues the alias, pass 2 does not find [Library/brand/accent], does
    not throw and counts one failed alias; the import completes.  The
    variable [Tokens/accent] is left holding the alias text
    ["{brand.accent}"], the placeholder [setRawValue] wrote from
    [$value]; the carried [$localValue] ["hello"] is never read. *)
Theorem C3_unresolved_alias_keeps_alias_text :
  exists p1 st1 st2,
    pass1 noCss permissive defaultOptions libraryAliasDocument freshState
    = (Ok p1, st1)
    /\ length (allPendingAliases p1) = 1%nat
    /\ pass2 permissive (allPendingAliases p1) st1 = (Ok (0, 1), st2)
    /\ map_to_list (variables (host st2))
       = [ (2, {| var_name := "accent"; variableCollectionId := 0;
                  resolvedType := STRING;
                  valuesByMode := [(1, VString "{brand.accent}")];
                  var_description := ""; var_scopes := ["ALL_SCOPES"] |}) ]
    /\ e_localValue libraryAliasLeaf = Some (EString "hello")
    /\ host (snd (importVariables noCss permissive (Some libraryAliasDocument)
                    defaultOptions freshState)) = host st2
    /\ outbox (snd (importVariables noCss permissive (Some libraryAliasDocument)
                      defaultOptions freshState))
       = [MsgImportComplete
            {| collectionsCreated := 1; variablesCreated := 1;
               variablesUpdated := 0; variablesSkipped := 0;
               stylesCreated := 0; stylesUpdated := 0 |}].
Proof.
  do 3 eexists. split; [vm_compute; reflexivity |].
  split; [reflexivity |].
  split; [vm_compute; reflexivity |].
  repeat split; vm_compute; reflexivity.
Qed.

(** ** The pass-1 invariant of queued aliases *)

Lemma alookup_aset {A} (l : list (N * A)) k v k' :
  alookup (aset l k v) k' = if N.eqb k k' then Some v else alookup l k'.
Proof.
  induction l as [|[k0 w] l IH]; simpl.
  - reflexivity.
  - destruct (N.eqb_spec k0 k) as [->|Hne]; simpl.
    + destruct (N.eqb_spec k k'); reflexivity.
    + rewrite IH. destruct (N.eqb_spec k0 k') as [->|?]; [| reflexivity].
      destruct (N.eqb_spec k k'); [congruence | reflexivity].
Qed.

Lemma findCollection_app l c id :
  findCollection (l ++ [c])%list id
  = match findCollection l id with
    | Some x => Some x
    | None => if N.eqb (col_id c) id then Some c else None
    end.
Proof.
  induction l as [|c0 l IH]; simpl; [reflexivity |].
  destruct (N.eqb (col_id c0) id); [reflexivity | exact IH].
Qed.

Lemma findCollection_update f id l id' :
  (forall c, col_id (f c) = col_id c) ->
  findCollection (updateCollection f id l) id'
  = option_map (fun c => if N.eqb (col_id c) id then f c else c)
               (findCollection l id').
Proof.
  intros Hf. induction l as [|c0 l IH]; simpl; [reflexivity |].
  destruct (N.eqb (col_id c0) id) eqn:E.
  - rewrite Hf. destruct (N.eqb (col_id c0) id'); simpl; [by rewrite E | exact IH].
  - destruct (N.eqb (col_id c0) id'); simpl; [by rewrite E | exact IH].
Qed.

Lemma findCollection_filter l col id :
  findCollection (filter (fun c' => col_id c' ≠ col) l) id
  = if N.eqb id col then None else findCollection l id.
Proof.
  induction l as [|c0 l IH]; simpl.
  - by destruct (N.eqb id col).
  - rewrite filter_cons. destruct (decide (col_id c0 ≠ col)) as [Hne|Heq].
    + simpl. destruct (N.eqb_spec (col_id c0) id) as [E|?].
      * subst id. by apply N.eqb_neq in Hne as ->.
      * exact IH.
    + apply dec_stable in Heq. rewrite IH.
      destruct (N.eqb_spec id col) as [E|?]; [reflexivity |].
      destruct (N.eqb_spec (col_id c0) id); [congruence | reflexivity].
Qed.

Lemma findCollection_elem l id c : findCollection l id = Some c -> c ∈ l /\ col_id c = id.
Proof.
  induction l as [|c0 l IH]; simpl; [discriminate |].
  destruct (N.eqb_spec (col_id c0) id).
  - intros [= ->]. split; [apply list_elem_of_here | done].
  - intros H. destruct (IH H). split; [by apply list_elem_of_further | done].
Qed.

Lemma elem_of_updateCollection f id l c' :
  c' ∈ updateCollection f id l ->
  exists c, c ∈ l /\ (c' = c \/ c' = f c).
Proof.
  unfold updateCollection. intros H. apply list_elem_of_fmap in H as (c & -> & Hc).
  exists c. split; [done |]. destruct (N.eqb _ _); eauto.
Qed.

Lemma hostSteps_intro (h h' : Host) :
  nextId h <= nextId h' ->
  (forall c m, modesBounded h -> c ∈ collections h' -> m ∈ col_modes c ->
               modeId m < nextId h') ->
  (forall id var', id < nextId h -> variables h' !! id = Some var' ->
     exists var, variables h !! id = Some var
                 /\ variableCollectionId var' = variableCollectionId var
                 /\ forall mode, rawAt var mode -> rawAt var' mode) ->
  (forall cid col' mode,
     findCollection (collections h') cid = Some col' ->
     mode < nextId h -> mode ∈ modeIds col' ->
     exists col, findCollection (collections h) cid = Some col
                 /\ mode ∈ modeIds col) ->
  hostSteps h h'.
Proof.
  intros Hn Hm HV HC. split; [done |].
  split; [intros Hb c m; by apply Hm |].
  intros p (Hv & Hmo & Hcell). split; [lia |]. split; [lia |].
  intros var' col' Hvar' Hcol' Hin.
  unfold getVariableById, getVariableCollectionById in *.
  destruct (HV _ _ Hv Hvar') as (var & Hvar & Hcid & Hraw).
  rewrite Hcid in Hcol'.
  destruct (HC _ _ _ Hcol' Hmo Hin) as (col & Hcol & Hin').
  apply Hraw. exact (Hcell var col Hvar Hcol Hin').
Qed.

Lemma lookup_foldr_delete (m : gmap N VariableNode) (ids : list N) (id : N) v :
  foldr (fun v m => delete v m) m ids !! id = Some v -> m !! id = Some v.
Proof.
  induction ids as [|i ids IH]; simpl; [done |].
  intros H. apply lookup_delete_Some in H as [_ H]. by apply IH.
Qed.

Lemma modeIds_elem (c : VariableCollection) (mode : N) :
  mode ∈ modeIds c <-> exists m, m ∈ col_modes c /\ modeId m = mode.
Proof.
  unfold modeIds. rewrite list_elem_of_fmap. split.
  - intros (m & -> & H). eauto.
  - intros (m & H & <-). eauto.
Qed.

Lemma applyOp_steps (op : HostOp) (h : Host) (r : N) (h' : Host) :
  applyOp op h = Some (r, h') -> writesNoAlias op -> hostSteps h h'.
Proof.
  intros Hop Hna.
  destruct op; simpl in Hop.
  - (* create collection *)
    injection Hop as <- <-. apply hostSteps_intro; cbn [nextId collections variables styles].
    + lia.
    + intros c m Hb Hc Hm. apply elem_of_app in Hc as [Hc|Hc].
      * specialize (Hb c m Hc Hm). lia.
      * apply list_elem_of_singleton in Hc as ->. simpl in Hm.
        apply list_elem_of_singleton in Hm as ->. cbn [modeId]. lia.
    + intros id var' _ Hv. exists var'. by repeat split.
    + intros cid col' mode Hc Hlt Hin. rewrite findCollection_app in Hc.
      destruct (findCollection (collections h) cid) as [col|] eqn:E.
      * injection Hc as <-. eauto.
      * destruct (N.eqb _ _); [| discriminate]. injection Hc as <-.
        simpl in Hin. apply list_elem_of_singleton in Hin. cbn [modeId] in Hin. lia.
  - (* remove collection *)
    destruct (findCollection (collections h) col) as [c|] eqn:E; [| discriminate].
    injection Hop as <- <-. apply hostSteps_intro; cbn [nextId collections variables styles].
    + lia.
    + intros c' m Hb Hc Hm. apply list_elem_of_filter in Hc as [_ Hc]. by apply (Hb c').
    + intros id var' _ Hv. apply lookup_foldr_delete in Hv.
      exists var'. by repeat split.
    + intros cid col' mode Hc Hlt Hin. rewrite findCollection_filter in Hc.
      destruct (N.eqb cid col); [discriminate |]. eauto.
  - (* rename mode *)
    destruct (findCollection (collections h) col) as [c|] eqn:E; [| discriminate].
    destruct (bool_decide _); [| discriminate].
    injection Hop as <- <-. apply hostSteps_intro; cbn [nextId collections variables styles].
    + lia.
    + intros c' m Hb Hc Hm. apply elem_of_updateCollection in Hc as (c0 & Hc0 & [->| ->]).
      * by apply (Hb c0).
      * simpl in Hm. apply list_elem_of_fmap in Hm as (m0 & -> & Hm0).
        specialize (Hb c0 m0 Hc0 Hm0).
        destruct (N.eqb_spec (modeId m0) mode) as [<-|?]; simpl; done.
    + intros id var' _ Hv. exists var'. by repeat split.
    + intros cid col' mode0 Hc Hlt Hin.
      rewrite findCollection_update in Hc by done.
      destruct (findCollection (collections h) cid) as [c0|]; [| discriminate].
      simpl in Hc. injection Hc as <-. exists c0. split; [done |].
      destruct (N.eqb _ _); [| done].
      unfold modeIds in *. simpl in Hin. rewrite map_map in Hin.
      erewrite map_ext in Hin; [exact Hin |].
      intros m0. simpl. by destruct (N.eqb_spec (modeId m0) mode) as [<-|?].
  - (* add mode *)
    destruct (findCollection (collections h) col) as [c|] eqn:E; [| discriminate].
    injection Hop as <- <-. apply hostSteps_intro; cbn [nextId collections variables styles].
    + lia.
    + intros c' m Hb Hc Hm. apply elem_of_updateCollection in Hc as (c0 & Hc0 & [->| ->]).
      * specialize (Hb c0 m Hc0 Hm). lia.
      * simpl in Hm. apply elem_of_app in Hm as [Hm|Hm].
        -- specialize (Hb c0 m Hc0 Hm). lia.
        -- apply list_elem_of_singleton in Hm as ->. cbn [modeId]. lia.
    + intros id var' _ Hv. exists var'. by repeat split.
    + intros cid col' mode0 Hc Hlt Hin.
      rewrite findCollection_update in Hc by done.
      destruct (findCollection (collections h) cid) as [c0|]; [| discriminate].
      simpl in Hc. injection Hc as <-. exists c0. split; [done |].
      destruct (N.eqb _ _); [| done].
      unfold modeIds in *. simpl in Hin. rewrite map_app in Hin.
      apply elem_of_app in Hin as [Hin|Hin]; [done |].
      apply list_elem_of_singleton in Hin. cbn [modeId] in Hin. lia.
  - (* create variable *)
    destruct (findCollection (collections h) col) as [c|] eqn:E; [| discriminate].
    injection Hop as <- <-. apply hostSteps_intro; cbn [nextId collections variables styles].
    + lia.
    + intros c' m Hb Hc Hm. apply elem_of_updateCollection in Hc as (c0 & Hc0 & [->| ->]);
        specialize (Hb c0 m Hc0 Hm); lia.
    + intros id var' Hlt Hv. rewrite lookup_insert_ne in Hv by lia.
      exists var'. by repeat split.
    + intros cid col' mode0 Hc Hlt Hin.
      rewrite findCollection_update in Hc by done.
      destruct (findCollection (collections h) cid) as [c0|]; [| discriminate].
      simpl in Hc. injection Hc as <-. exists c0. split; [done |].
      by destruct (N.eqb _ _).
  - (* remove variable *)
    destruct (variables h !! var) as [v|] eqn:E; [| discriminate].
    injection Hop as <- <-. apply hostSteps_intro; cbn [nextId collections variables styles].
    + lia.
    + intros c' m Hb Hc Hm. apply elem_of_updateCollection in Hc as (c0 & Hc0 & [->| ->]);
        by apply (Hb c0).
    + intros id var' Hlt Hv. apply lookup_delete_Some in Hv as [_ Hv].
      exists var'. by repeat split.
    + intros cid col' mode0 Hc Hlt Hin.
      rewrite findCollection_update in Hc by done.
      destruct (findCollection (collections h) cid) as [c0|]; [| discriminate].
      simpl in Hc. injection Hc as <-. exists c0. split; [done |].
      by destruct (N.eqb _ _).
  - (* set value *)
    destruct (variables h !! var) as [v|] eqn:E; [| discriminate].
    destruct (findCollection _ _) as [c|]; [| discriminate].
    destruct (bool_decide _); [| discriminate].
    injection Hop as <- <-. apply hostSteps_intro; cbn [nextId collections variables styles]; try done; try (intros c0 m0 Hb Hc Hm; by apply (Hb c0)).
    + intros id var' Hlt Hv. destruct (decide (var = id)) as [->|Hne].
      * rewrite lookup_insert_eq in Hv. injection Hv as <-.
        exists v. split; [done |]. split; [done |].
        intros mode0 (v0 & Hv0 & Hraw). unfold rawAt. simpl.
        rewrite alookup_aset. destruct (N.eqb mode mode0); eauto.
      * rewrite lookup_insert_ne in Hv by done. exists var'. by repeat split.
    + eauto.
  - (* set description *)
    destruct (variables h !! var) as [v|] eqn:E; [| discriminate].
    injection Hop as <- <-. apply hostSteps_intro; cbn [nextId collections variables styles]; try done; try (intros c0 m0 Hb Hc Hm; by apply (Hb c0)).
    + intros id var' Hlt Hv. destruct (decide (var = id)) as [->|Hne].
      * rewrite lookup_insert_eq in Hv. injection Hv as <-.
        exists v. by repeat split.
      * rewrite lookup_insert_ne in Hv by done. exists var'. by repeat split.
    + eauto.
  - (* set scopes *)
    destruct (variables h !! var) as [v|] eqn:E; [| discriminate].
    injection Hop as <- <-. apply hostSteps_intro; cbn [nextId collections variables styles]; try done; try (intros c0 m0 Hb Hc Hm; by apply (Hb c0)).
    + intros id var' Hlt Hv. destruct (decide (var = id)) as [->|Hne].
      * rewrite lookup_insert_eq in Hv. injection Hv as <-.
        exists v. by repeat split.
      * rewrite lookup_insert_ne in Hv by done. exists var'. by repeat split.
    + eauto.
  - (* create style *)
    injection Hop as <- <-. apply hostSteps_intro; cbn [nextId collections variables styles].
    + lia.
    + intros c m Hb Hc Hm. specialize (Hb c m Hc Hm). lia.
    + intros id var' _ Hv. exists var'. by repeat split.
    + eauto.
  - destruct (bool_decide _); [| discriminate].
    injection Hop as <- <-. apply hostSteps_intro; cbn [nextId collections variables styles]; try done; eauto; try (intros c m Hb Hc Hm; by apply (Hb c));
      try (intros id var' _ Hv; exists var'; by repeat split).
  - destruct (bool_decide _); [| discriminate].
    injection Hop as <- <-. apply hostSteps_intro; cbn [nextId collections variables styles]; try done; eauto; try (intros c m Hb Hc Hm; by apply (Hb c));
      try (intros id var' _ Hv; exists var'; by repeat split).
  - injection Hop as <- <-. apply hostSteps_intro; cbn [nextId collections variables styles]; try done; eauto; try (intros c m Hb Hc Hm; by apply (Hb c));
      try (intros id var' _ Hv; exists var'; by repeat split).
  - destruct (bool_decide _); [| discriminate].
    injection Hop as <- <-. apply hostSteps_intro; cbn [nextId collections variables styles]; try done; eauto; try (intros c m Hb Hc Hm; by apply (Hb c));
      try (intros id var' _ Hv; exists var'; by repeat split).
  - destruct (bool_decide _); [| discriminate].
    injection Hop as <- <-. apply hostSteps_intro; cbn [nextId collections variables styles]; try done; eauto; try (intros c m Hb Hc Hm; by apply (Hb c));
      try (intros id var' _ Hv; exists var'; by repeat split).
  - destruct (bool_decide _); [| discriminate].
    injection Hop as <- <-. apply hostSteps_intro; cbn [nextId collections variables styles]; try done; eauto; try (intros c m Hb Hc Hm; by apply (Hb c));
      try (intros id var' _ Hv; exists var'; by repeat split).
  - injection Hop as <- <-. apply hostSteps_intro; cbn [nextId collections variables styles]; try done; eauto; try (intros c m Hb Hc Hm; by apply (Hb c));
      try (intros id var' _ Hv; exists var'; by repeat split).
Qed.

Lemma steps_refl st : idsBounded st -> steps st st.
Proof. intros H. split; [lia |]. split; [done |]. auto. Qed.

Lemma steps_trans a b c : steps a b -> steps b c -> steps a c.
Proof.
  intros (H1 & H2 & H3) (H1' & H2' & H3').
  split; [lia |]. split; [done |]. auto.
Qed.

Lemma steps_bounded a b : steps a b -> idsBounded b.
Proof. by intros (_ & H & _). Qed.

Lemma steps_nextId a b : steps a b -> nextId (host a) <= nextId (host b).
Proof. by intros (H & _). Qed.

Lemma steps_pending a b pend :
  steps a b -> Forall (pendingOk (host a)) pend -> Forall (pendingOk (host b)) pend.
Proof. intros (_ & _ & H) HF. eapply Forall_impl; eauto. Qed.

Lemma rawValueOf_raw fromCss value v :
  rawValueOf fromCss value = Some v -> isVariableAlias v = false.
Proof.
  unfold rawValueOf. destruct (e_type value).
  - by intros [= <-].
  - destruct (e_value value); by intros [= <-].
  - destruct (e_value value); by intros [= <-].
  - destruct (e_value value); by intros [= <-].
Qed.

Section Pass1Invariant.
Variable fromCss : string -> RGBA.
Variable rejects : Host -> HostOp -> bool.

Lemma call_steps op st o st' :
  idsBounded st -> call rejects op st = (o, st') -> writesNoAlias op ->
  steps st st' /\ cache st' = cache st
  /\ match o with
     | Ok r => rejects (host st) op = false
               /\ applyOp op (host st) = Some (r, host st')
     | Throw _ => st' = st
     end.
Proof.
  intros [Hc Hm]. unfold call.
  destruct (rejects (host st) op) eqn:Hrej.
  { intros [= <- <-] Hna. split; [by apply steps_refl | done]. }
  destruct (applyOp op (host st)) as [[r h']|] eqn:Hop;
    intros [= <- <-] Hna; [| split; [by apply steps_refl | done]].
  destruct (applyOp_steps _ _ _ _ Hop Hna) as (Hn & Hmb & Hp).
  split; [| by repeat split].
  split; [done |]. split; [| done]. split; [| by apply Hmb].
  intros key id Hk. specialize (Hc key id Hk). simpl in *. lia.
Qed.

Lemma modifyCache_steps f st :
  idsBounded st ->
  (forall key id, variableMap (f (cache st)) !! key = Some id ->
                  id < nextId (host st)) ->
  steps st (snd (modifyCache f st)).
Proof.
  intros [Hc Hm] Hf. split; [simpl; lia |]. split; [| auto]. split; done.
Qed.

Lemma setVariable_steps key variable st :
  idsBounded st -> variable < nextId (host st) ->
  steps st (snd (modifyCache (Cache.setVariable key variable) st)).
Proof.
  intros Hb Hv. apply modifyCache_steps; [done |].
  intros k id. simpl. destruct (decide (key = k)) as [->|Hne].
  - rewrite lookup_insert_eq. by intros [= <-].
  - rewrite lookup_insert_ne by done. apply Hb.
Qed.

Lemma setCollection_steps name collection st :
  idsBounded st ->
  steps st (snd (modifyCache (Cache.setCollection name collection) st)).
Proof. intros Hb. apply modifyCache_steps; [done |]. apply Hb. Qed.

Lemma removeCollection_steps name st :
  idsBounded st ->
  steps st (snd (modifyCache (Cache.removeCollection name) st)).
Proof.
  intros Hb. apply modifyCache_steps; [done |].
  intros k id. simpl. rewrite foldl_delete_lookup.
  case_decide; [discriminate |]. apply Hb.
Qed.

Lemma setRawValue_spec variable modeId value st o st' :
  idsBounded st ->
  setRawValue fromCss rejects variable modeId value st = (o, st') ->
  o = Ok tt /\ steps st st'
  /\ (acceptsRawWrites rejects -> is_Some (rawValueOf fromCss value) ->
      rawCell (host st') variable modeId).
Proof.
  intros Hb. unfold setRawValue, tryCatch.
  destruct (rawValueOf fromCss value) as [v|] eqn:Hraw.
  - unfold bind.
    destruct (call rejects (OpSetValue variable modeId v) st) as [[r|e] st1] eqn:Hcall.
    + destruct (call_steps _ _ _ _ Hb Hcall (rawValueOf_raw _ _ _ Hraw))
        as (Hs & Hcache & Hrej & Hop).
      unfold ret. intros [= <- <-]. split; [done |]. split; [done |].
      intros _ _ var col Hvar Hcol Hin.
      simpl in Hop.
      destruct (variables (host st) !! variable) as [v0|]; [| discriminate].
      destruct (findCollection _ _); [| discriminate].
      destruct (bool_decide _); [| discriminate].
      injection Hop as _ Hh. rewrite <- Hh in Hvar. unfold getVariableById in Hvar.
      simpl in Hvar. rewrite lookup_insert_eq in Hvar. injection Hvar as <-.
      simpl. rewrite alookup_aset, N.eqb_refl.
      exists v. split; [done | by eapply rawValueOf_raw].
    + destruct (call_steps _ _ _ _ Hb Hcall (rawValueOf_raw _ _ _ Hraw))
        as (Hs & Hcache & ->).
      unfold ret. intros [= <- <-]. split; [done |]. split; [done |].
      intros Hacc _ var col Hvar Hcol Hin.
      unfold call in Hcall.
      rewrite (Hacc _ _ _ _ (rawValueOf_raw _ _ _ Hraw)) in Hcall.
      simpl in Hcall. unfold getVariableById, getVariableCollectionById in *.
      rewrite Hvar, Hcol in Hcall. rewrite bool_decide_eq_true_2 in Hcall by done.
      discriminate.
  - unfold throw, ret. intros [= <- <-]. split; [done |].
    split; [by apply steps_refl |]. intros _ [? ?]. discriminate.
Qed.
End Pass1Invariant.

Lemma jsGet_jsSet {A} (m : list (string * A)) k v k' :
  jsGet (jsSet m k v) k' = if String.eqb k k' then Some v else jsGet m k'.
Proof.
  induction m as [|[k0 w] m IH]; simpl.
  - reflexivity.
  - destruct (String.eqb_spec k0 k) as [->|Hne]; simpl.
    + destruct (String.eqb_spec k k'); reflexivity.
    + rewrite IH. destruct (String.eqb_spec k0 k') as [->|?]; [| reflexivity].
      destruct (String.eqb_spec k k'); [congruence | reflexivity].
Qed.

Lemma modeMapBounded_mono mm st st' :
  nextId (host st) <= nextId (host st') ->
  modeMapBounded mm st -> modeMapBounded mm st'.
Proof. intros Hle H n id Hn. specialize (H n id Hn). lia. Qed.

Lemma modeMapBounded_set mm st k id :
  modeMapBounded mm st -> id < nextId (host st) ->
  modeMapBounded (jsSet mm k id) st.
Proof.
  intros H Hid n i. rewrite jsGet_jsSet.
  destruct (String.eqb k n); [by intros [= <-] | apply H].
Qed.

(** A fold whose steps keep the identifiers bounded and a
    state-dependent property of the accumulator. *)
Lemma foldM_steps {A B} (f : B -> A -> M B) (Q : State -> B -> Prop)
  (l : list A) :
  (forall acc x st o st',
     idsBounded st -> Q st acc -> f acc x st = (o, st') ->
     steps st st' /\ (forall acc', o = Ok acc' -> Q st' acc')) ->
  forall acc st o st',
    idsBounded st -> Q st acc -> foldM f acc l st = (o, st') ->
    steps st st' /\ (forall acc', o = Ok acc' -> Q st' acc').
Proof.
  intros Hstep. induction l as [|x l IH]; intros acc st o st' Hb HQ.
  - simpl. unfold ret. intros [= <- <-]. split; [by apply steps_refl |].
    by intros acc' [= <-].
  - simpl. unfold bind. destruct (f acc x st) as [[a|e] st1] eqn:Hx.
    + destruct (Hstep _ _ _ _ _ Hb HQ Hx) as [Hs HQ1].
      intros Hrest.
      destruct (IH a st1 o st' (steps_bounded _ _ Hs) (HQ1 a eq_refl) Hrest)
        as [Hs' HQ'].
      split; [by eapply steps_trans | done].
    + destruct (Hstep _ _ _ _ _ Hb HQ Hx) as [Hs _].
      intros [= <- <-]. split; [done |]. by intros acc' [=].
Qed.

Section Pass1Modes.
Variable fromCss : string -> RGBA.
Variable rejects : Host -> HostOp -> bool.
Hypothesis Hacc : acceptsRawWrites rejects.

Lemma isAliasReference_raw value ref :
  isAliasReference value = Some ref -> is_Some (rawValueOf fromCss value).
Proof.
  unfold isAliasReference, rawValueOf.
  destruct (e_value value); try discriminate.
  intros _. destruct (e_type value); eauto.
Qed.

Lemma pass1Mode_steps collectionName modesObj modeMap variable path pend
  modeName st o st' :
  idsBounded st -> modeQ variable modeMap st pend ->
  pass1Mode fromCss rejects collectionName modesObj modeMap variable path
            pend modeName st = (o, st') ->
  steps st st' /\ (forall pend', o = Ok pend' -> modeQ variable modeMap st' pend').
Proof.
  intros Hb (Hv & Hmm & Hp). unfold pass1Mode.
  destruct (jsGet modeMap modeName) as [modeId|] eqn:Hmode.
  2:{ unfold ret. intros [= <- <-]. split; [by apply steps_refl |].
      intros ? [= <-]. by repeat split. }
  destruct (jsGet modesObj modeName) as [modeVars|].
  2:{ unfold throw. intros [= <- <-]. split; [by apply steps_refl |]. by intros ? [=]. }
  destruct (getValueAtPath modeVars path) as [modeValue|].
  2:{ unfold ret. intros [= <- <-]. split; [by apply steps_refl |].
      intros ? [= <-]. by repeat split. }
  destruct (isAliasReference modeValue) as [ref|] eqn:Href; unfold bind;
    destruct (setRawValue fromCss rejects variable modeId modeValue st)
      as [[[]|e] st1] eqn:Hset;
    destruct (setRawValue_spec _ _ _ _ _ _ _ _ Hb Hset) as (Ho & Hs & Hcell);
    try discriminate; unfold ret; intros [= <- <-]; (split; [done |]);
    intros pend' [= <-]; pose proof (steps_nextId _ _ Hs) as Hle.
  - split; [lia |]. split; [by eapply modeMapBounded_mono |].
    apply Forall_app. split; [by eapply steps_pending |].
    apply Forall_singleton. specialize (Hmm _ _ Hmode).
    split; [simpl; lia |]. split; [simpl; lia |]. simpl.
    apply Hcell; [done |]. by eapply isAliasReference_raw.
  - split; [lia |]. split; [by eapply modeMapBounded_mono |].
    by eapply steps_pending.
Qed.
End Pass1Modes.

Section Pass1Assignments.
Variable fromCss : string -> RGBA.
Variable rejects : Host -> HostOp -> bool.
Hypothesis Hacc : acceptsRawWrites rejects.

Lemma call_unit_steps op st o st' :
  idsBounded st ->
  (call rejects op ;;; ret tt) st = (o, st') -> writesNoAlias op -> steps st st'.
Proof.
  intros Hb. unfold bind.
  destruct (call rejects op st) as [[r|e] st1] eqn:Hcall;
    unfold ret; intros [= <- <-] Hna;
    by destruct (call_steps rejects op _ _ _ Hb Hcall Hna) as (Hs & _).
Qed.

Lemma pass1Assign_steps collectionName modesObj modeNames modeMap flat variable
  acc st o st' :
  idsBounded st -> variable < nextId (host st) -> varQ modeMap st acc ->
  pass1Assign fromCss rejects collectionName modesObj modeNames modeMap flat
              variable acc st = (o, st') ->
  steps st st' /\ (forall acc', o = Ok acc' -> varQ modeMap st' acc').
Proof.
  intros Hb Hv (Hmm & Hp). unfold pass1Assign.
  unfold bind at 1.
  destruct (match e_description (snd flat) with
            | Some d => if Js.truthy d
                        then call rejects (OpSetDescription variable d) ;;; ret tt
                        else ret tt
            | None => ret tt
            end st) as [[[]|e] st1] eqn:Hdesc.
  2:{ intros [= <- <-].
      assert (Hs : steps st st1).
      { destruct (e_description (snd flat)) as [d|]; [| discriminate].
        destruct (Js.truthy d); [| discriminate].
        by eapply (call_unit_steps (OpSetDescription variable d)); eauto. }
      split; [done | by intros ? [=]]. }
  assert (Hs1 : steps st st1).
  { destruct (e_description (snd flat)) as [d|].
    - destruct (Js.truthy d).
      + by eapply (call_unit_steps (OpSetDescription variable d)); eauto.
      + injection Hdesc as <-. by apply steps_refl.
    - injection Hdesc as <-. by apply steps_refl. }
  unfold bind at 1.
  destruct (tryCatch _ _ st1) as [[[]|e] st2] eqn:Hscopes.
  2:{ unfold tryCatch in Hscopes.
      destruct ((call rejects _ ;;; ret tt) st1) as [[[]|e'] st2'];
        unfold ret in Hscopes; discriminate. }
  assert (Hs2 : steps st1 st2).
  { unfold tryCatch in Hscopes.
    destruct ((call rejects (OpSetScopes variable
                 (TypeMapper.arrayToScopes (e_scopes (snd flat)))) ;;; ret tt) st1)
      as [[[]|e'] st2'] eqn:Hc;
      pose proof (call_unit_steps _ _ _ _ (steps_bounded _ _ Hs1) Hc I) as Hs;
      unfold ret in Hscopes; by injection Hscopes as <-. }
  pose proof (steps_trans _ _ _ Hs1 Hs2) as Hs12.
  unfold bind at 1.
  destruct (foldM _ _ _ st2) as [[pending|e] st3] eqn:Hfold.
  - destruct (foldM_steps
                (pass1Mode fromCss rejects collectionName modesObj modeMap variable (fst flat))
                (modeQ variable modeMap) modeNames
                (fun acc x st o st' Hb' HQ Hrun =>
                   pass1Mode_steps fromCss rejects Hacc _ _ _ _ _ _ _ _ _ _ Hb' HQ Hrun)
                _ _ _ _ (steps_bounded _ _ Hs12)
                (conj (N.lt_le_trans _ _ _ Hv (steps_nextId _ _ Hs12))
                      (conj (modeMapBounded_mono _ _ _ (steps_nextId _ _ Hs12) Hmm)
                            (steps_pending _ _ _ Hs12 Hp)))
                Hfold) as [Hs3 HQ3].
    destruct (HQ3 pending eq_refl) as (Hv3 & Hmm3 & Hp3).
    unfold bind, modifyCache, ret. intros [= <- <-].
    pose proof (setVariable_steps (collectionName +:+ "/" +:+ fst flat) variable st3
                  (steps_bounded _ _ Hs3) Hv3) as Hs4.
    split.
    + eapply steps_trans; [exact Hs12 |]. eapply steps_trans; [exact Hs3 | exact Hs4].
    + intros acc' [= <-]. split; simpl; done.
  - destruct (foldM_steps
                (pass1Mode fromCss rejects collectionName modesObj modeMap variable (fst flat))
                (modeQ variable modeMap) modeNames
                (fun acc x st o st' Hb' HQ Hrun =>
                   pass1Mode_steps fromCss rejects Hacc _ _ _ _ _ _ _ _ _ _ Hb' HQ Hrun)
                _ _ _ _ (steps_bounded _ _ Hs12)
                (conj (N.lt_le_trans _ _ _ Hv (steps_nextId _ _ Hs12))
                      (conj (modeMapBounded_mono _ _ _ (steps_nextId _ _ Hs12) Hmm)
                            (steps_pending _ _ _ Hs12 Hp)))
                Hfold) as [Hs3 _].
    intros [= <- <-]. split; [by eapply steps_trans | by intros ? [=]].
Qed.
End Pass1Assignments.

Lemma applyOp_create_variable name col type h r h' :
  applyOp (OpCreateVariable name col type) h = Some (r, h') ->
  r = nextId h /\ nextId h' = nextId h + 1.
Proof.
  simpl. destruct (findCollection _ _); [| discriminate].
  intros [= <- <-]. simpl. done.
Qed.

Lemma applyOp_add_mode col name h r h' :
  applyOp (OpAddMode col name) h = Some (r, h') ->
  r = nextId h /\ nextId h' = nextId h + 1.
Proof.
  simpl. destruct (findCollection _ _); [| discriminate].
  intros [= <- <-]. simpl. done.
Qed.

Section Pass1Variables.
Variable fromCss : string -> RGBA.
Variable rejects : Host -> HostOp -> bool.
Hypothesis Hacc : acceptsRawWrites rejects.

Lemma pass1Variable_steps options collection collectionName modesObj modeNames
  modeMap acc flat st o st' :
  idsBounded st -> varQ modeMap st acc ->
  pass1Variable fromCss rejects options collection collectionName modesObj
                modeNames modeMap acc flat st = (o, st') ->
  steps st st' /\ (forall acc', o = Ok acc' -> varQ modeMap st' acc').
Proof.
  intros Hb HQ. unfold pass1Variable, bind at 1, getCache.
  destruct (Cache.getVariable _ (cache st)) as [existingVar|] eqn:Hget.
  - destruct (negb (overwrite options)).
    + unfold ret. intros [= <- <-]. split; [by apply steps_refl |].
      intros ? [= <-]. exact HQ.
    + apply pass1Assign_steps; try done. destruct Hb as [Hc _]. by eapply Hc.
  - unfold bind, tryCatch.
    destruct (call rejects _ st) as [[v|e] st1] eqn:Hcall;
      destruct (call_steps rejects _ _ _ _ Hb Hcall I) as (Hs & _ & Hres).
    + destruct Hres as [_ Hop]. apply applyOp_create_variable in Hop as [-> Hn].
      unfold ret. cbv beta iota. intros Hrun.
      destruct HQ as [Hmm Hp].
      apply (pass1Assign_steps fromCss rejects Hacc) in Hrun as [Hs' HQ'].
      * split; [by eapply steps_trans | done].
      * exact (steps_bounded _ _ Hs).
      * lia.
      * split; [| exact (steps_pending _ _ _ Hs Hp)].
        exact (modeMapBounded_mono _ _ _ (steps_nextId _ _ Hs) Hmm).
    + subst st1. unfold ret. intros [= <- <-]. split; [by apply steps_refl |].
      intros ? [= <-]. exact HQ.
Qed.

Lemma fold_modeMap_bounded (modes : list Mode) (init : list (string * N)) st :
  modeMapBounded init st ->
  (forall m, m ∈ modes -> modeId m < nextId (host st)) ->
  modeMapBounded
    (fold_left (fun m mode => jsSet m (mode_name mode) (modeId mode)) modes init) st.
Proof.
  revert init. induction modes as [|m modes IH]; intros init Hi Hm; [done |].
  simpl. apply IH.
  - apply modeMapBounded_set; [done |]. apply Hm, list_elem_of_here.
  - intros m' Hm'. by apply Hm, list_elem_of_further.
Qed.

Lemma setupModes_steps collection modeNames st o st' :
  idsBounded st ->
  setupModes rejects collection modeNames st = (o, st') ->
  steps st st' /\ (forall mm, o = Ok mm -> modeMapBounded mm st').
Proof.
  intros Hb. unfold setupModes, bind at 1, readCollection, bind at 1, getHost.
  destruct (getVariableCollectionById (host st) collection) as [col|] eqn:Hcol.
  2:{ unfold throw. intros [= <- <-]. split; [by apply steps_refl | by intros ? [=]]. }
  unfold ret. cbv beta iota.
  set (modeMap0 := fold_left _ (col_modes col) []).
  assert (Hmodes : forall m, m ∈ col_modes col -> modeId m < nextId (host st)).
  { intros m Hm. apply findCollection_elem in Hcol as [Hc _].
    destruct Hb as [_ Hmb]. by apply (Hmb col). }
  assert (H0 : modeMapBounded modeMap0 st).
  { apply fold_modeMap_bounded; [| done]. intros n id. discriminate. }
  clearbody modeMap0.
  unfold bind at 1.
  match goal with
  | |- (let (o0, st'0) := ?m st in _) = _ -> _ =>
      destruct (m st) as [[modeMap1|e] st1] eqn:Hren
  end.
  2:{ intros [= <- <-].
      assert (Hs : steps st st1).
      { destruct (col_modes col) as [|m [|m2 ms]]; try discriminate.
        destruct modeNames as [|first rest].
        - unfold throw in Hren. injection Hren as _ <-. by apply steps_refl.
        - destruct (jsGet modeMap0 first); [discriminate |].
          unfold bind in Hren.
          destruct (call rejects _ st) as [[r|e'] st2] eqn:Hcall; [discriminate |].
          destruct (call_steps rejects _ _ _ _ Hb Hcall I) as (Hs & _).
          by injection Hren as _ <-. }
      split; [done | by intros ? [=]]. }
  assert (Hs1 : steps st st1 /\ modeMapBounded modeMap1 st1).
  { destruct (col_modes col) as [|m [|m2 ms]] eqn:Hcm.
    - injection Hren as <- <-. split; [by apply steps_refl | done].
    - destruct modeNames as [|first rest]; [discriminate |].
      destruct (jsGet modeMap0 first).
      + injection Hren as <- <-. split; [by apply steps_refl | done].
      + unfold bind in Hren.
        destruct (call rejects _ st) as [[r|e'] st2] eqn:Hcall; [| discriminate].
        destruct (call_steps rejects _ _ _ _ Hb Hcall I) as (Hs & _).
        injection Hren as <- <-. split; [done |].
        eapply modeMapBounded_mono; [exact (steps_nextId _ _ Hs) |].
        apply modeMapBounded_set; [done |]. apply Hmodes, list_elem_of_here.
    - injection Hren as <- <-. split; [by apply steps_refl | done]. }
  destruct Hs1 as [Hs1 H1]. intros Hfold.
  destruct (foldM_steps
              (fun modeMap modeName =>
                 match jsGet modeMap modeName with
                 | Some _ => ret modeMap
                 | None =>
                     tryCatch
                       (newModeId <- call rejects (OpAddMode collection modeName) ;;
                        ret (jsSet modeMap modeName newModeId))
                       (fun _ => ret modeMap)
                 end)
              (fun s mm => modeMapBounded mm s) modeNames) with
    (acc := modeMap1) (st := st1) (o := o) (st' := st') as [Hs2 HQ2];
    [| exact (steps_bounded _ _ Hs1) | exact H1 | exact Hfold |].
  - intros mm x s o0 s' Hbs Hmm.
    destruct (jsGet mm x).
    + unfold ret. intros [= <- <-]. split; [by apply steps_refl |]. by intros ? [= <-].
    + unfold tryCatch, bind.
      destruct (call rejects _ s) as [[r|e'] s1] eqn:Hcall;
        destruct (call_steps rejects _ _ _ _ Hbs Hcall I) as (Hs & _ & Hres);
        unfold ret; intros [= <- <-]; (split; [done |]); intros ? [= <-].
      * destruct Hres as [_ Hop]. apply applyOp_add_mode in Hop as [-> Hn].
        apply modeMapBounded_set; [| lia].
        eapply modeMapBounded_mono; [exact (steps_nextId _ _ Hs) | done].
      * by subst.
  - split; [by eapply steps_trans | done].
Qed.
End Pass1Variables.

Section Pass1Collections.
Variable fromCss : string -> RGBA.
Variable rejects : Host -> HostOp -> bool.
Hypothesis Hacc : acceptsRawWrites rejects.

Lemma createCollection_steps name st o st' :
  idsBounded st ->
  (collection <- call rejects (OpCreateCollection name) ;;
   modifyCache (Cache.setCollection name collection) ;;;
   ret (Some (collection, true))) st = (o, st') ->
  steps st st'.
Proof.
  intros Hb. unfold bind.
  destruct (call rejects _ st) as [[r|e] st1] eqn:Hcall;
    destruct (call_steps rejects _ _ _ _ Hb Hcall I) as (Hs & _).
  - unfold ret. intros [= <- <-].
    eapply steps_trans; [exact Hs |].
    apply setCollection_steps. exact (steps_bounded _ _ Hs).
  - by intros [= <- <-].
Qed.

Lemma replaceCollection_steps name existing st o st' :
  idsBounded st ->
  (call rejects (OpRemoveCollection existing) ;;;
   modifyCache (Cache.removeCollection name) ;;;
   collection <- call rejects (OpCreateCollection name) ;;
   modifyCache (Cache.setCollection name collection) ;;;
   ret (Some (collection, true))) st = (o, st') ->
  steps st st'.
Proof.
  intros Hb. unfold bind at 1.
  destruct (call rejects _ st) as [[r|e] st1] eqn:Hcall;
    destruct (call_steps rejects _ _ _ _ Hb Hcall I) as (Hs & _).
  2:{ by intros [= <- <-]. }
  unfold bind at 1.
  pose proof (removeCollection_steps name st1 (steps_bounded _ _ Hs)) as Hs2.
  destruct (modifyCache (Cache.removeCollection name) st1) as [[[]|e] st2] eqn:Hmod;
    [| discriminate].
  simpl in Hs2. intros Hrun.
  apply createCollection_steps in Hrun; [| exact (steps_bounded _ _ Hs2)].
  eapply steps_trans; [exact Hs |]. by eapply steps_trans.
Qed.

Lemma pass1Collection_steps options acc item st o st' :
  idsBounded st -> Forall (pendingOk (host st)) (allPendingAliases acc) ->
  pass1Collection fromCss rejects options acc item st = (o, st') ->
  steps st st' /\
  (forall acc', o = Ok acc' ->
     Forall (pendingOk (host st')) (allPendingAliases acc')).
Proof.
  intros Hb HQ. unfold pass1Collection.
  destruct item as [|[jsonName itemValue] rest].
  { unfold throw. intros [= <- <-]. split; [by apply steps_refl | by intros ? [=]]. }
  set (collectionName := orElse _ jsonName).
  unfold bind at 1, getCache. unfold bind at 1.
  match goal with
  | |- (let (o0, st'0) := ?m st in _) = _ -> _ =>
      destruct (m st) as [[chosen|e] st1] eqn:Hchosen
  end.
  - assert (Hs1 : steps st st1).
    { destruct (Cache.getCollection collectionName (cache st)) as [existing|].
      - destruct (String.eqb _ "replace").
        + unfold tryCatch in Hchosen.
          match type of Hchosen with
          | (let (o0, st'0) := ?m st in _) = _ =>
              destruct (m st) as [[r|e] st2] eqn:Hrep
          end; apply replaceCollection_steps in Hrep; try done;
            unfold ret in Hchosen; by injection Hchosen as _ <-.
        + destruct (negb (merge options)); unfold ret in Hchosen;
            injection Hchosen as _ <-; by apply steps_refl.
      - by apply createCollection_steps in Hchosen. }
    destruct chosen as [[collection created]|].
    2:{ unfold ret. intros [= <- <-]. split; [done |].
        intros ? [= <-]. by eapply steps_pending. }
    set (acc1 := if created then countCreatedCollection acc else acc).
    assert (Hacc1 : allPendingAliases acc1 = allPendingAliases acc).
    { unfold acc1. by destruct created. }
    destruct (modes (asContent itemValue)) as [modesObj|].
    2:{ unfold throw. intros [= <- <-]. split; [done | by intros ? [=]]. }
    unfold bind at 1.
    destruct (setupModes rejects collection (jsKeys modesObj) st1)
      as [[modeMap|e] st2] eqn:Hsetup;
      destruct (setupModes_steps rejects _ _ _ _ _ (steps_bounded _ _ Hs1) Hsetup)
      as [Hs2 Hmm].
    2:{ intros [= <- <-]. split; [by eapply steps_trans | by intros ? [=]]. }
    pose proof (steps_trans _ _ _ Hs1 Hs2) as Hs12.
    destruct (jsValues modesObj) as [|firstModeVars others].
    { unfold throw. intros [= <- <-]. split; [done | by intros ? [=]]. }
    unfold bind.
    destruct (foldM _ _ _ st2) as [[local|e] st3] eqn:Hfold;
      (apply (foldM_steps
                (pass1Variable fromCss rejects options collection collectionName
                   modesObj (jsKeys modesObj) modeMap)
                (varQ modeMap)) in Hfold as [Hs3 HQ3];
       [ | intros ? ? ? ? ? Hb' HQ' Hr;
           exact (pass1Variable_steps fromCss rejects Hacc _ _ _ _ _ _ _ _ _ _ _
                    Hb' HQ' Hr)
         | exact (steps_bounded _ _ Hs12)
         | split; [exact (Hmm _ eq_refl) | apply Forall_nil_2] ]).
    + unfold ret. intros [= <- <-]. split; [by eapply steps_trans |].
      intros ? [= <-]. simpl. apply Forall_app. split.
      * rewrite Hacc1. eapply steps_pending; [| exact HQ].
        by eapply steps_trans.
      * by destruct (HQ3 local eq_refl).
    + intros [= <- <-]. split; [by eapply steps_trans | by intros ? [=]].
  - intros [= <- <-].
    assert (Hs1 : steps st st1).
    { destruct (Cache.getCollection collectionName (cache st)) as [existing|].
      - destruct (String.eqb _ "replace").
        + unfold tryCatch in Hchosen.
          match type of Hchosen with
          | (let (o0, st'0) := ?m st in _) = _ =>
              destruct (m st) as [[r|e'] st2] eqn:Hrep
          end; unfold ret in Hchosen; discriminate.
        + destruct (negb (merge options)); unfold ret in Hchosen; discriminate.
      - by apply createCollection_steps in Hchosen. }
    split; [done | by intros ? [=]].
Qed.

Lemma pass1_steps options collectionData st o st' :
  idsBounded st ->
  pass1 fromCss rejects options collectionData st = (o, st') ->
  steps st st' /\
  (forall p1, o = Ok p1 ->
     Forall (pendingOk (host st')) (allPendingAliases p1)).
Proof.
  intros Hb Hrun. unfold pass1 in Hrun.
  apply (foldM_steps (pass1Collection fromCss rejects options)
           (fun s acc => Forall (pendingOk (host s)) (allPendingAliases acc)))
    in Hrun; [done | | done | apply Forall_nil_2].
  intros acc x s o0 s' Hb' HQ Hr.
  exact (pass1Collection_steps options acc x s o0 s' Hb' HQ Hr).
Qed.
End Pass1Collections.

Lemma permissive_acceptsRawWrites : acceptsRawWrites permissive.
Proof. intros h var mode v _. reflexivity. Qed.

Lemma freshState_idsBounded : idsBounded freshState.
Proof.
  split.
  - intros key id. simpl. by rewrite lookup_empty.
  - intros c m Hc. simpl in Hc. by apply elem_of_nil in Hc.
Qed.



(** The placeholder of the sample is the alias text itself. *)
Example queued_alias_cell :
  exists var,
    getVariableById
      (host (snd (pass1 noCss permissive defaultOptions libraryAliasDocument
                    freshState)))
      (p_variable libraryAliasPending) = Some var
    /\ alookup (valuesByMode var) (p_modeId libraryAliasPending)
       = Some (VString "{brand.accent}").
Proof. eexists. split; vm_compute; reflexivity. Qed.

(** ** Rollback of a failed import *)

Section Rollback.
Variable fromCss : string -> RGBA.
Variable rejects : Host -> HostOp -> bool.

Lemma takeSnapshot_total st :
  exists snap st1, takeSnapshot rejects st = (Ok snap, st1).
Proof.
  unfold takeSnapshot, tryCatch, bind, ret.
  destruct (createUndoSnapshot rejects st) as [[s|e] st1]; by eexists _, _.
Qed.

Lemma importVariables_total parsedData options st :
  exists st', importVariables fromCss rejects parsedData options st = (Ok tt, st').
Proof.
  unfold importVariables, bind.
  destruct (takeSnapshot_total st) as (snap & st1 & ->).
  unfold tryCatch.
  destruct (importTry fromCss rejects parsedData options st1) as [[[]|e] st2];
    [by eexists |].
  unfold importCatch. destruct snap as [s|]; [| by eexists].
  unfold bind, send, tryCatch.
  destruct (restoreFromSnapshot fromCss rejects s _) as [[[]|re] st3]; by eexists.
Qed.
End Rollback.

Lemma rollbackFailedText_recovery : mentions manualRecovery rollbackFailedText.
Proof.
  exists "Import failed and automatic rollback also failed. Please use ",
         " to undo manually.".
  reflexivity.
Qed.

Lemma append_assoc (a b c : string) : (a +:+ b) +:+ c = a +:+ (b +:+ c).
Proof.
  induction a as [|x a IH]; [done |].
  change (String x ((a +:+ b) +:+ c) = String x (a +:+ (b +:+ c))).
  by rewrite IH.
Qed.

Lemma noSnapshotText_recovery e : mentions manualRecovery (noSnapshotText e).
Proof.
  exists (("Import failed: " +:+ e) +:+ ". Use "), " to undo changes.".
  unfold noSnapshotText. rewrite append_assoc. reflexivity.
Qed.



(** The three reports on [brokenDocument] over the store [colorsState]:
    restored; restore refused by the host; no snapshot. *)
Example rollback_restores_store :
  let st := snd (importVariables noCss permissive (Some brokenDocument)
                   defaultOptions colorsState) in
  map col_name (collections (host st)) = ["Colors"]
  /\ map (fun kv => var_name (snd kv)) (map_to_list (variables (host st)))
     = ["Brand"].
Proof. split; vm_compute; reflexivity. Qed.

Example rollback_failure_reported :
  last (outbox (snd (importVariables noCss refusesColors (Some brokenDocument)
                       defaultOptions colorsState)))
  = Some (MsgImportRollbackFailed
            "TypeError: Cannot read properties of undefined (reading '$originalName')"
            "Error: the host refused the call" rollbackFailedText).
Proof. vm_compute. reflexivity. Qed.

Example missing_snapshot_reported :
  let st := snd (importVariables noCss refusesReadStyles (Some brokenDocument)
                   defaultOptions colorsState) in
  outbox st
  = [MsgError
       (noSnapshotText
          "TypeError: Cannot read properties of undefined (reading '$originalName')")]
  /\ map col_name (collections (host st)) = ["Colors"; "Tokens"].
Proof. split; vm_compute; reflexivity. Qed.

(** ** Order of the entries of a document *)


(** The same with distinct collection names, one of them holding a
    slash: the entries share the cache key [A/B/x]. *)
Example order_matters_shared_key :
  sharedKey ≡ₚ sharedKey'
  /\ ~ (storeView (importedStore noCss defaultOptions sharedKey)
        ≡ₚ storeView (importedStore noCss defaultOptions sharedKey')).
Proof.
  split; [apply perm_swap |].
  intros Hperm. vm_compute in Hperm.
  apply Permutation_length_2_inv in Hperm as [Heq | Heq]; discriminate.
Qed.

(** ** Pass 1 inside a larger store *)

Lemma findCollection_frame (F : list VariableCollection) d cs0 col :
  (forall c, c ∈ F -> col_id c < d) ->
  findCollection (F ++ map (shiftCol d) cs0)%list (col + d)
  = shiftCol d <$> findCollection cs0 col.
Proof.
  intros HF. induction F as [|c F IH]; simpl.
  - induction cs0 as [|c cs0 IH]; simpl; [done |].
    destruct (N.eqb_spec (col_id c) col) as [Heq|Hne].
    + rewrite Heq. by rewrite N.eqb_refl.
    + destruct (N.eqb_spec (col_id c + d) (col + d)) as [Heq|_]; [lia | exact IH].
  - destruct (N.eqb_spec (col_id c) (col + d)) as [Heq|_].
    + pose proof (HF c (list_elem_of_here _ _)). lia.
    + apply IH. intros c' Hc'. apply HF. by apply list_elem_of_further.
Qed.

Lemma updateCollection_frame f g (F : list VariableCollection) d cs0 col :
  (forall c, c ∈ F -> col_id c < d) ->
  (forall c, g (shiftCol d c) = shiftCol d (f c)) ->
  updateCollection g (col + d) (F ++ map (shiftCol d) cs0)%list
  = (F ++ map (shiftCol d) (updateCollection f col cs0))%list.
Proof.
  intros HF Hfg. unfold updateCollection. rewrite map_app. f_equal.
  - rewrite <- (map_id F) at 2. apply map_ext_in. intros c Hc.
    apply list_elem_of_In in Hc. apply HF in Hc.
    destruct (N.eqb_spec (col_id c) (col + d)); [lia | done].
  - rewrite !map_map. apply map_ext. intros c. simpl.
    destruct (N.eqb_spec (col_id c) col) as [->|Hne].
    + by rewrite N.eqb_refl, Hfg.
    + destruct (N.eqb_spec (col_id c + d) (col + d)); [lia | done].
Qed.

Lemma filter_frame (F : list VariableCollection) d cs0 col :
  (forall c, c ∈ F -> col_id c < d) ->
  filter (fun c' => col_id c' ≠ col + d) (F ++ map (shiftCol d) cs0)%list
  = (F ++ map (shiftCol d) (filter (fun c' => col_id c' ≠ col) cs0))%list.
Proof.
  intros HF. rewrite filter_app. f_equal.
  - induction F as [|c F IH]; [done |].
    rewrite filter_cons_True.
    + f_equal. apply IH. intros c' Hc'. apply HF. by apply list_elem_of_further.
    + pose proof (HF c (list_elem_of_here _ _)). lia.
  - induction cs0 as [|c cs0 IH]; [done |]. simpl.
    destruct (decide (col_id c = col)) as [Heq|Hne].
    + rewrite !filter_cons_False; [done | | ]; simpl; intros Hx; apply Hx; lia.
    + rewrite !filter_cons_True; [| done | simpl; lia]. simpl. by rewrite IH.
Qed.

Lemma modeIds_shiftCol d c mode :
  mode + d ∈ modeIds (shiftCol d c) <-> mode ∈ modeIds c.
Proof.
  unfold modeIds. simpl. rewrite map_map. simpl.
  rewrite !list_elem_of_fmap. split.
  - intros (m & Heq & Hm). exists m. split; [lia | done].
  - intros (m & -> & Hm). by exists m.
Qed.

Lemma aset_shift d (l : list (N * VariableValue)) k v :
  map (fun kv => (fst kv + d, shiftValue d (snd kv))) (aset l k v)
  = aset (map (fun kv => (fst kv + d, shiftValue d (snd kv))) l) (k + d)
         (shiftValue d v).
Proof.
  induction l as [|[k' w] l IH]; simpl; [done |].
  destruct (N.eqb_spec k' k) as [->|Hne].
  - by rewrite N.eqb_refl.
  - destruct (N.eqb_spec (k' + d) (k + d)); [lia |]. simpl. by rewrite IH.
Qed.

Lemma alookup_shift d (l : list (N * VariableValue)) k :
  alookup (map (fun kv => (fst kv + d, shiftValue d (snd kv))) l) (k + d)
  = shiftValue d <$> alookup l k.
Proof.
  induction l as [|[k' w] l IH]; simpl; [done |].
  destruct (N.eqb_spec k' k) as [->|Hne].
  - by rewrite N.eqb_refl.
  - destruct (N.eqb_spec (k' + d) (k + d)); [lia | exact IH].
Qed.

Lemma lookup_foldr_delete_full (m : gmap N VariableNode) (ids : list N) (id : N) :
  foldr (fun v m => delete v m) m ids !! id
  = if decide (id ∈ ids) then None else m !! id.
Proof.
  induction ids as [|i ids IH]; simpl.
  - destruct (decide (id ∈ [])) as [Hin|_]; [by apply elem_of_nil in Hin | done].
  - destruct (decide (i = id)) as [->|Hne].
    + rewrite lookup_delete_eq. destruct (decide (id ∈ id :: ids)) as [_|Hn]; [done |].
      exfalso. apply Hn, list_elem_of_here.
    + rewrite lookup_delete_ne by done. rewrite IH.
      destruct (decide (id ∈ ids)) as [Hin|Hn];
        destruct (decide (id ∈ i :: ids)) as [Hin'|Hn']; try done.
      * exfalso. apply Hn'. by apply list_elem_of_further.
      * apply elem_of_cons in Hin' as [Heq|Hin']; [by subst | done].
Qed.

Section EmbeddedCalls.
Variable F : Host.
Hypothesis HF : frameOk F.

Lemma embeds_insert hs hb var v cols_s cols_b n :
  EmbedsHost F hs hb ->
  cols_b = (collections F ++ map (shiftCol (nextId F)) cols_s)%list ->
  EmbedsHost F
    {| collections := cols_s; variables := <[var := v]> (variables hs);
       styles := styles hs; nextId := n |}
    {| collections := cols_b;
       variables := <[var + (nextId F) := shiftVar (nextId F) v]> (variables hb);
       styles := styles hb; nextId := n + (nextId F) |}.
Proof.
  intros (Hc & Hn & Hv & Hfr & Hst) ->.
  split; [done |]. split; [done |]. split; [| split; [| done]]; simpl.
  - intros id. destruct (decide (var = id)) as [->|Hne].
    + by rewrite !lookup_insert_eq.
    + rewrite !lookup_insert_ne by lia. apply Hv.
  - intros id Hid. rewrite lookup_insert_ne by lia. by apply Hfr.
Qed.

Lemma applyOp_embeds op hs hb :
  EmbedsHost F hs hb -> storeOp op = true ->
  match applyOp op hs, applyOp (shiftOp (nextId F) op) hb with
  | Some (r, hs'), Some (r', hb') => r' = r + (nextId F) /\ EmbedsHost F hs' hb'
  | None, None => True
  | _, _ => False
  end.
Proof.
  intros Hemb Hop. pose proof Hemb as (Hc & Hn & Hv & Hfr & Hst).
  destruct op; try discriminate; simpl.
  - (* createVariableCollection *)
    split; [done |]. split; [| split; [cbn [nextId]; lia | done]]. simpl.
    rewrite Hc, map_app, <- app_assoc. do 2 f_equal. simpl.
    unfold shiftCol, shiftMode. simpl. rewrite Hn.
    do 4 f_equal. lia.
  - (* remove *)
    rewrite Hc, (findCollection_frame _ _ _ _ HF).
    destruct (findCollection (collections hs) col) as [c|]; simpl; [| done].
    split; [done |]. split; [| split; [done |]]; simpl.
    + by rewrite <- Hc, Hc, (filter_frame _ _ _ _ HF).
    + split; [| split; [| done]].
      * intros id. rewrite !lookup_foldr_delete_full.
        destruct (decide (id ∈ variableIds c)) as [Hin|Hn'].
        -- rewrite decide_True; [done |]. apply list_elem_of_fmap. by exists id.
        -- rewrite decide_False; [apply Hv |].
           intros (i & Heq & Hi)%list_elem_of_fmap.
           assert (i = id) by lia. by subst.
      * intros id Hid. rewrite lookup_foldr_delete_full.
        rewrite decide_False; [by apply Hfr |].
        intros (i & Heq & Hi)%list_elem_of_fmap. lia.
  - (* renameMode *)
    rewrite Hc, (findCollection_frame _ _ _ _ HF).
    destruct (findCollection (collections hs) col) as [c|]; simpl; [| done].
    rewrite (bool_decide_ext _ _ (modeIds_shiftCol (nextId F) c mode)).
    destruct (bool_decide (mode ∈ modeIds c)); [| done].
    split; [done |]. split; [| done]. simpl.
    rewrite <- Hc, Hc. apply (updateCollection_frame _ _ _ _ _ _ HF).
    intros c'. unfold shiftCol. simpl. f_equal. rewrite !map_map.
    apply map_ext. intros m. simpl.
    destruct (N.eqb_spec (modeId m) mode) as [->|Hne].
    + by rewrite N.eqb_refl.
    + destruct (N.eqb_spec (modeId m + (nextId F)) (mode + (nextId F))); [lia | done].
  - (* addMode *)
    rewrite Hc, (findCollection_frame _ _ _ _ HF).
    destruct (findCollection (collections hs) col) as [c|]; simpl; [| done].
    split; [done |]. split; [| split; [cbn [nextId]; lia | done]]. simpl.
    rewrite <- Hc, Hc. apply (updateCollection_frame _ _ _ _ _ _ HF).
    intros c'. unfold shiftCol. simpl. f_equal. rewrite map_app. simpl.
    by rewrite Hn.
  - (* createVariable *)
    rewrite Hc, (findCollection_frame _ _ _ _ HF).
    destruct (findCollection (collections hs) col) as [c|]; simpl; [| done].
    split; [done |]. rewrite Hn.
    replace (nextId hs + (nextId F) + 1) with (nextId hs + 1 + (nextId F)) by lia.
    apply (embeds_insert hs hb (nextId hs)
             {| var_name := name; variableCollectionId := col;
                resolvedType := type; valuesByMode := [];
                var_description := ""; var_scopes := [] |}); [done |].
    rewrite <- Hc, Hc. apply (updateCollection_frame _ _ _ _ _ _ HF).
    intros c'. unfold shiftCol. simpl. f_equal. by rewrite map_app.
  - (* setValueForMode *)
    rewrite Hv. destruct (variables hs !! var) as [v|]; simpl; [| done].
    rewrite Hc, (findCollection_frame _ _ _ _ HF).
    destruct (findCollection (collections hs) (variableCollectionId v)) as [c|];
      simpl; [| done].
    rewrite (bool_decide_ext _ _ (modeIds_shiftCol (nextId F) c mode)).
    destruct (bool_decide (mode ∈ modeIds c)); [| done].
    split; [done |]. rewrite <- Hc.
    replace (nextId hb) with (nextId hs + (nextId F)) by done.
    rewrite <- aset_shift.
    exact (embeds_insert hs hb var
             {| var_name := var_name v;
                variableCollectionId := variableCollectionId v;
                resolvedType := resolvedType v;
                valuesByMode := aset (valuesByMode v) mode value;
                var_description := var_description v;
                var_scopes := var_scopes v |} _ _ _ Hemb Hc).
  - (* description *)
    rewrite Hv. destruct (variables hs !! var) as [v|]; simpl; [| done].
    split; [done |]. replace (nextId hb) with (nextId hs + (nextId F)) by done.
    exact (embeds_insert hs hb var
             {| var_name := var_name v;
                variableCollectionId := variableCollectionId v;
                resolvedType := resolvedType v;
                valuesByMode := valuesByMode v;
                var_description := text;
                var_scopes := var_scopes v |} _ _ _ Hemb Hc).
  - (* scopes *)
    rewrite Hv. destruct (variables hs !! var) as [v|]; simpl; [| done].
    split; [done |]. replace (nextId hb) with (nextId hs + (nextId F)) by done.
    exact (embeds_insert hs hb var
             {| var_name := var_name v;
                variableCollectionId := variableCollectionId v;
                resolvedType := resolvedType v;
                valuesByMode := valuesByMode v;
                var_description := var_description v;
                var_scopes := scopes |} _ _ _ Hemb Hc).
Qed.
End EmbeddedCalls.

Section EmbeddedRuns.
Variable F : Host.
Variable name : string.
Hypothesis HF : frameOk F.

Lemma embedded_ret {A} (R : A -> A -> Prop) a b :
  R a b -> embedded F name R (ret a) (ret b).
Proof. intros HR ss sb Hemb. by split. Qed.

Lemma embedded_throw {A} (R : A -> A -> Prop) e e' :
  embedded F name R (throw e) (throw e').
Proof. intros ss sb Hemb. by split. Qed.

Lemma embedded_bind {A B} (RA : A -> A -> Prop) (RB : B -> B -> Prop)
  (ms mb : M A) (ks kb : A -> M B) :
  embedded F name RA ms mb ->
  (forall a b, RA a b -> embedded F name RB (ks a) (kb b)) ->
  embedded F name RB (bind ms ks) (bind mb kb).
Proof.
  intros Hm Hk ss sb Hemb. unfold bind.
  destruct (Hm ss sb Hemb) as [Hag Hemb'].
  destruct (ms ss) as [[a|e] ss'], (mb sb) as [[b|e'] sb']; simpl in *; try done.
  by apply Hk.
Qed.

Lemma embedded_tryCatch {A} (R : A -> A -> Prop) (ms mb : M A)
  (hs hb : string -> M A) :
  embedded F name R ms mb ->
  (forall e e', embedded F name R (hs e) (hb e')) ->
  embedded F name R (tryCatch ms hs) (tryCatch mb hb).
Proof.
  intros Hm Hh ss sb Hemb. unfold tryCatch.
  destruct (Hm ss sb Hemb) as [Hag Hemb'].
  destruct (ms ss) as [[a|e] ss'], (mb sb) as [[b|e'] sb']; simpl in *; try done.
  by apply Hh.
Qed.

Lemma embedded_foldM {A B} (R : B -> B -> Prop) (fs fb : B -> A -> M B)
  (l : list A) :
  (forall x a b, x ∈ l -> R a b -> embedded F name R (fs a x) (fb b x)) ->
  forall a b, R a b -> embedded F name R (foldM fs a l) (foldM fb b l).
Proof.
  induction l as [|x l IH]; intros Hf a b HR; simpl.
  - by apply embedded_ret.
  - eapply embedded_bind.
    + apply Hf; [apply list_elem_of_here | done].
    + intros a' b' HR'. apply IH; [| done].
      intros y a'' b'' Hy. apply Hf. by apply list_elem_of_further.
Qed.

Lemma embedded_weaken {A} (R R' : A -> A -> Prop) (ms mb : M A) :
  (forall a b, R a b -> R' a b) ->
  embedded F name R ms mb -> embedded F name R' ms mb.
Proof.
  intros HRR Hm ss sb Hemb. destruct (Hm ss sb Hemb) as [Hag Hemb'].
  split; [| done].
  destruct (fst (ms ss)), (fst (mb sb)); simpl in *; auto.
Qed.

Lemma embedded_call op :
  storeOp op = true ->
  embedded F name (fun r r' => r' = r + nextId F)
    (call permissive op) (call permissive (shiftOp (nextId F) op)).
Proof.
  intros Hop ss sb [Hh Hcache]. unfold call, permissive.
  pose proof (applyOp_embeds F HF op (host ss) (host sb) Hh Hop) as Hstep.
  destruct (applyOp op (host ss)) as [[r hs']|],
           (applyOp (shiftOp (nextId F) op) (host sb)) as [[r' hb']|];
    simpl; try done.
  destruct Hstep as [-> Hh']. split; [done |]. by split.
Qed.

Lemma embedded_getCache :
  embedded F name (EmbedsCache (nextId F) name) getCache getCache.
Proof. intros ss sb [Hh Hcache]. by split. Qed.

Lemma embedded_modifyCache (fs fb : VariableCache -> VariableCache) :
  (forall cs cb, EmbedsCache (nextId F) name cs cb ->
                 EmbedsCache (nextId F) name (fs cs) (fb cb)) ->
  embedded F name (fun _ _ => True) (modifyCache fs) (modifyCache fb).
Proof.
  intros Hf ss sb [Hh Hcache]. split; [done |]. split; [done |]. by apply Hf.
Qed.

Lemma embedded_readCollection col :
  embedded F name (fun c c' => c' = shiftCol (nextId F) c)
    (readCollection col) (readCollection (col + nextId F)).
Proof.
  intros ss sb Hemb. pose proof Hemb as [(Hc & _) _].
  unfold readCollection, bind, getHost, getVariableCollectionById.
  rewrite Hc, (findCollection_frame _ _ _ _ HF).
  destruct (findCollection (collections (host ss)) col); simpl; by split.
Qed.
End EmbeddedRuns.

Lemma shiftValue_raw d v : isVariableAlias v = false -> shiftValue d v = v.
Proof. by destruct v. Qed.

Lemma jsGet_shiftModeMap d mm k :
  jsGet (shiftModeMap d mm) k = (fun id => id + d) <$> jsGet mm k.
Proof.
  induction mm as [|[k' id] mm IH]; simpl; [done |].
  by destruct (String.eqb k' k).
Qed.

Lemma jsSet_shiftModeMap d mm k id :
  jsSet (shiftModeMap d mm) k (id + d) = shiftModeMap d (jsSet mm k id).
Proof.
  induction mm as [|[k' id'] mm IH]; simpl; [done |].
  destruct (String.eqb k' k); simpl; [done |]. by rewrite IH.
Qed.

Section EmbeddedPass1.
Variable fromCss : string -> RGBA.
Variable F : Host.
Variable name : string.
Hypothesis HF : frameOk F.

Lemma embedded_unit_call op :
  storeOp op = true ->
  embedded F name (fun _ _ => True)
    (call permissive op ;;; ret tt)
    (call permissive (shiftOp (nextId F) op) ;;; ret tt).
Proof.
  intros Hop. eapply embedded_bind; [by apply embedded_call |].
  intros. by apply embedded_ret.
Qed.

Lemma embedded_setRawValue variable modeId value :
  embedded F name (fun _ _ => True)
    (setRawValue fromCss permissive variable modeId value)
    (setRawValue fromCss permissive (variable + nextId F) (modeId + nextId F)
       value).
Proof.
  unfold setRawValue. apply embedded_tryCatch.
  - destruct (rawValueOf fromCss value) as [v|] eqn:Hraw.
    + rewrite <- (shiftValue_raw (nextId F) v (rawValueOf_raw _ _ _ Hraw)) at 2.
      by apply (embedded_unit_call (OpSetValue variable modeId v)).
    + apply embedded_throw.
  - intros. by apply embedded_ret.
Qed.

Lemma embedded_pass1Mode before collectionName modesObj modeMap variable path
  pend_s pend_b modeName :
  pendingFrom before (nextId F) pend_s pend_b ->
  embedded F name (pendingFrom before (nextId F))
    (pass1Mode fromCss permissive collectionName modesObj modeMap variable path
       pend_s modeName)
    (pass1Mode fromCss permissive collectionName modesObj
       (shiftModeMap (nextId F) modeMap) (variable + nextId F) path
       pend_b modeName).
Proof.
  intros Hp. unfold pass1Mode. rewrite jsGet_shiftModeMap.
  destruct (jsGet modeMap modeName) as [modeId|]; simpl;
    [| by apply embedded_ret].
  destruct (jsGet modesObj modeName) as [modeVars|]; [| apply embedded_throw].
  destruct (getValueAtPath modeVars path) as [modeValue|];
    [| by apply embedded_ret].
  destruct (isAliasReference modeValue) as [ref|].
  - eapply embedded_bind; [apply embedded_setRawValue |].
    intros _ _ _. apply embedded_ret. unfold pendingFrom in *.
    rewrite Hp, map_app, app_assoc. done.
  - eapply embedded_bind; [apply embedded_setRawValue |].
    intros _ _ _. by apply embedded_ret.
Qed.
End EmbeddedPass1.

Lemma embedsCache_setVariable d name path variable cs cb :
  EmbedsCache d name cs cb ->
  EmbedsCache d name
    (Cache.setVariable (name +:+ "/" +:+ path) variable cs)
    (Cache.setVariable (name +:+ "/" +:+ path) (variable + d) cb).
Proof.
  intros [Hcol Hvar]. split; [done |]. intros path'. simpl.
  destruct (decide (name +:+ "/" +:+ path = name +:+ "/" +:+ path')) as [<-|Hne].
  - by rewrite !lookup_insert_eq.
  - rewrite !lookup_insert_ne by done. apply Hvar.
Qed.

Lemma embedsCache_setCollection d name collection cs cb :
  EmbedsCache d name cs cb ->
  EmbedsCache d name
    (Cache.setCollection name collection cs)
    (Cache.setCollection name (collection + d) cb).
Proof.
  intros [Hcol Hvar]. split; [| done]. simpl. by rewrite !lookup_insert_eq.
Qed.

Section EmbeddedVariables.
Variable fromCss : string -> RGBA.
Variable F : Host.
Variable name : string.
Hypothesis HF : frameOk F.

Lemma embedded_pass1Assign before modesObj modeNames modeMap flat variable
  acc_s acc_b :
  queuedFrom before (nextId F) acc_s acc_b ->
  embedded F name (queuedFrom before (nextId F))
    (pass1Assign fromCss permissive name modesObj modeNames modeMap flat
       variable acc_s)
    (pass1Assign fromCss permissive name modesObj modeNames
       (shiftModeMap (nextId F) modeMap) flat (variable + nextId F) acc_b).
Proof.
  intros Hq. unfold pass1Assign.
  eapply embedded_bind with (RA := fun _ _ => True).
  { destruct (e_description (snd flat)) as [text|]; [| by apply embedded_ret].
    destruct (Js.truthy text); [| by apply embedded_ret].
    by apply (embedded_unit_call F name HF (OpSetDescription variable text)). }
  intros _ _ _.
  eapply embedded_bind with (RA := fun _ _ => True).
  { apply embedded_tryCatch.
    - by apply (embedded_unit_call F name HF
                  (OpSetScopes variable
                     (TypeMapper.arrayToScopes (e_scopes (snd flat))))).
    - intros. by apply embedded_ret. }
  intros _ _ _.
  eapply embedded_bind with (RA := pendingFrom before (nextId F)).
  { apply embedded_foldM; [| exact Hq].
    intros modeName ps pb _ Hp. by apply embedded_pass1Mode. }
  intros ps pb Hp.
  eapply embedded_bind with (RA := fun _ _ => True).
  { apply embedded_modifyCache. intros cs cb. apply embedsCache_setVariable. }
  intros _ _ _. by apply embedded_ret.
Qed.

Lemma embedded_pass1Variable before options collection modesObj modeNames
  modeMap acc_s acc_b flat :
  queuedFrom before (nextId F) acc_s acc_b ->
  embedded F name (queuedFrom before (nextId F))
    (pass1Variable fromCss permissive options collection name modesObj
       modeNames modeMap acc_s flat)
    (pass1Variable fromCss permissive options (collection + nextId F) name
       modesObj modeNames (shiftModeMap (nextId F) modeMap) acc_b flat).
Proof.
  intros Hq. unfold pass1Variable.
  eapply embedded_bind; [apply embedded_getCache |].
  intros cs cb [_ Hvar]. unfold Cache.getVariable. rewrite Hvar.
  destruct (variableMap cs !! _) as [existingVar|]; simpl.
  - destruct (negb (overwrite options)); [by apply embedded_ret |].
    by apply embedded_pass1Assign.
  - eapply embedded_bind
      with (RA := fun o o' => o' = (fun id => id + nextId F) <$> o).
    + apply embedded_tryCatch.
      * eapply embedded_bind.
        -- by apply (embedded_call F name HF
                       (OpCreateVariable (fst flat) collection
                          (TypeMapper.toFigmaType (e_type (snd flat))))).
        -- intros r r' ->. by apply embedded_ret.
      * intros. by apply embedded_ret.
    + intros o o' ->. destruct o as [variable|]; simpl.
      * by apply embedded_pass1Assign.
      * by apply embedded_ret.
Qed.
End EmbeddedVariables.

Lemma fold_modeMap_shift d (modes : list Mode) (init : list (string * N)) :
  fold_left (fun m mode => jsSet m (mode_name mode) (modeId mode))
            (map (shiftMode d) modes) (shiftModeMap d init)
  = shiftModeMap d
      (fold_left (fun m mode => jsSet m (mode_name mode) (modeId mode))
                 modes init).
Proof.
  revert init. induction modes as [|m modes IH]; intros init; simpl; [done |].
  by rewrite jsSet_shiftModeMap, IH.
Qed.

Lemma modeMap_of_shiftCol d col :
  fold_left (fun m mode => jsSet m (mode_name mode) (modeId mode))
            (col_modes (shiftCol d col)) []
  = shiftModeMap d
      (fold_left (fun m mode => jsSet m (mode_name mode) (modeId mode))
                 (col_modes col) []).
Proof. exact (fold_modeMap_shift d (col_modes col) []). Qed.

Lemma removeCollection_lookup (c : VariableCache) (name key : string) :
  variableMap (Cache.removeCollection name c) !! key
  = if Js.startsWith key (name +:+ "/") then None else variableMap c !! key.
Proof.
  simpl. rewrite foldl_delete_lookup.
  destruct (Js.startsWith key (name +:+ "/")) eqn:Hpre.
  - case_decide as Hin; [done |].
    destruct (variableMap c !! key) as [v|] eqn:Hv; [| done].
    exfalso. apply Hin, removed_keys_spec. eauto.
  - case_decide as Hin; [| done].
    apply removed_keys_spec in Hin as [Hp _]. congruence.
Qed.

Lemma embedsCache_removeCollection d name cs cb :
  EmbedsCache d name cs cb ->
  EmbedsCache d name (Cache.removeCollection name cs)
                     (Cache.removeCollection name cb).
Proof.
  intros [Hcol Hvar]. split.
  - simpl. by rewrite !lookup_delete_eq.
  - intros path. rewrite !removeCollection_lookup.
    destruct (Js.startsWith (name +:+ "/" +:+ path) (name +:+ "/")); [done |].
    apply Hvar.
Qed.

Section EmbeddedCollections.
Variable fromCss : string -> RGBA.
Variable F : Host.
Variable name : string.
Hypothesis HF : frameOk F.

Lemma embedded_setupModes collection modeNames :
  embedded F name (fun mm mm' => mm' = shiftModeMap (nextId F) mm)
    (setupModes permissive collection modeNames)
    (setupModes permissive (collection + nextId F) modeNames).
Proof.
  unfold setupModes.
  eapply embedded_bind; [by apply embedded_readCollection |].
  intros col col' ->. rewrite modeMap_of_shiftCol.
  set (modeMap0 := fold_left _ (col_modes col) []). clearbody modeMap0.
  cbv zeta. cbn [col_modes shiftCol].
  eapply embedded_bind
    with (RA := fun mm mm' => mm' = shiftModeMap (nextId F) mm).
  - destruct (col_modes col) as [|m [|m2 ms]]; simpl;
      try by apply embedded_ret.
    destruct modeNames as [|first rest]; [apply embedded_throw |].
    rewrite jsGet_shiftModeMap.
    destruct (jsGet modeMap0 first); simpl; [by apply embedded_ret |].
    eapply embedded_bind.
    + by apply (embedded_call F name HF
                  (OpRenameMode collection (modeId m) first)).
    + intros _ _ _. apply embedded_ret. by rewrite jsSet_shiftModeMap.
  - intros mm mm' ->. apply embedded_foldM; [| done].
    intros modeName a b _ ->. rewrite jsGet_shiftModeMap.
    destruct (jsGet a modeName); simpl; [by apply embedded_ret |].
    apply embedded_tryCatch.
    + eapply embedded_bind.
      * by apply (embedded_call F name HF (OpAddMode collection modeName)).
      * intros r r' ->. apply embedded_ret. by rewrite jsSet_shiftModeMap.
    + intros. by apply embedded_ret.
Qed.
End EmbeddedCollections.

Section EmbeddedItems.
Variable fromCss : string -> RGBA.
Variable F : Host.
Variable name : string.
Hypothesis HF : frameOk F.

Lemma embedded_createCollection :
  embedded F name
    (fun o o' => o' = (fun cb => (fst cb + nextId F, snd cb)) <$> o)
    (collection <- call permissive (OpCreateCollection name) ;;
     modifyCache (Cache.setCollection name collection) ;;;
     ret (Some (collection, true)))
    (collection <- call permissive (OpCreateCollection name) ;;
     modifyCache (Cache.setCollection name collection) ;;;
     ret (Some (collection, true))).
Proof.
  eapply embedded_bind.
  - by apply (embedded_call F name HF (OpCreateCollection name)).
  - intros r r' ->. eapply embedded_bind with (RA := fun _ _ => True).
    + apply embedded_modifyCache. intros cs cb.
      apply embedsCache_setCollection.
    + intros _ _ _. by apply embedded_ret.
Qed.

Lemma embedded_pass1Collection before options acc_s acc_b item :
  entryName item = Some name ->
  queuedFrom before (nextId F) acc_s acc_b ->
  embedded F name (queuedFrom before (nextId F))
    (pass1Collection fromCss permissive options acc_s item)
    (pass1Collection fromCss permissive options acc_b item).
Proof.
  intros Hname Hq. unfold pass1Collection.
  destruct item as [|[jsonName itemValue] rest]; [discriminate |].
  injection Hname as Hname. rewrite Hname.
  eapply embedded_bind; [apply embedded_getCache |].
  intros cs cb [Hcol _]. unfold Cache.getCollection. rewrite Hcol.
  eapply embedded_bind
    with (RA := fun o o' => o' = (fun cb => (fst cb + nextId F, snd cb)) <$> o).
  - destruct (collectionMap cs !! name) as [existing|]; simpl.
    + destruct (String.eqb _ "replace").
      * apply embedded_tryCatch; [| intros; by apply embedded_ret].
        eapply embedded_bind.
        { by apply (embedded_call F name HF (OpRemoveCollection existing)). }
        intros _ _ _.
        eapply embedded_bind with (RA := fun _ _ => True).
        { apply embedded_modifyCache. intros cs' cb'.
          apply embedsCache_removeCollection. }
        intros _ _ _. apply embedded_createCollection.
      * destruct (negb (merge options)); by apply embedded_ret.
    + apply embedded_createCollection.
  - intros o o' ->. destruct o as [[collection created]|]; simpl;
      [| by apply embedded_ret].
    set (acc1_s := if created then countCreatedCollection acc_s else acc_s).
    set (acc1_b := if created then countCreatedCollection acc_b else acc_b).
    assert (Hq1 : queuedFrom before (nextId F) acc1_s acc1_b).
    { unfold acc1_s, acc1_b. by destruct created. }
    clearbody acc1_s acc1_b.
    destruct (modes (asContent itemValue)) as [modesObj|];
      [| apply embedded_throw].
    eapply embedded_bind; [by apply embedded_setupModes |].
    intros mm mm' ->.
    destruct (jsValues modesObj) as [|firstModeVars others];
      [apply embedded_throw |].
    eapply embedded_bind with (RA := queuedFrom [] (nextId F)).
    + apply embedded_foldM; [| done].
      intros flat a b _ Hab. by apply embedded_pass1Variable.
    + intros local_s local_b Hl. apply embedded_ret.
      unfold queuedFrom, pendingFrom in *. simpl in *.
      rewrite Hq1, Hl, map_app, app_assoc. done.
Qed.
End EmbeddedItems.

(** ** The moves of pass 1 *)

Lemma reach_trans allowed a b c :
  reach allowed a b -> reach allowed b c -> reach allowed a c.
Proof.
  induction 1 as [|m st st' st'' Hm Hstep _ IH]; [done |].
  intros Hc. eapply reach_move; eauto.
Qed.

Lemma reach_invariant allowed (I : State -> Prop) :
  (forall m st st', allowed m -> moves m st st' -> I st -> I st') ->
  forall st st', reach allowed st st' -> I st -> I st'.
Proof. intros Hstep st st'. induction 1; eauto. Qed.

Section Traces.
Variable allowed : Move -> Prop.

Lemma traces_ret {A} (a : A) : traces allowed (ret a).
Proof. intros st. apply reach_refl. Qed.

Lemma traces_throw {A} e : traces allowed (throw (A := A) e).
Proof. intros st. apply reach_refl. Qed.

Lemma traces_bind {A B} (m : M A) (k : A -> M B) :
  traces allowed m -> (forall a, traces allowed (k a)) ->
  traces allowed (bind m k).
Proof.
  intros Hm Hk st. unfold bind. specialize (Hm st).
  destruct (m st) as [[a|e] st']; simpl in *; [| done].
  eapply reach_trans; [exact Hm | apply Hk].
Qed.

Lemma traces_tryCatch {A} (m : M A) (handler : string -> M A) :
  traces allowed m -> (forall e, traces allowed (handler e)) ->
  traces allowed (tryCatch m handler).
Proof.
  intros Hm Hh st. unfold tryCatch. specialize (Hm st).
  destruct (m st) as [[a|e] st']; simpl in *; [done |].
  eapply reach_trans; [exact Hm | apply Hh].
Qed.

Lemma traces_foldM {A B} (f : B -> A -> M B) (l : list A) :
  (forall acc x, traces allowed (f acc x)) ->
  forall acc, traces allowed (foldM f acc l).
Proof.
  intros Hf. induction l as [|x l IH]; intros acc; simpl.
  - apply traces_ret.
  - apply traces_bind; [apply Hf | exact IH].
Qed.

Lemma traces_call rejects op :
  allowed (CallMove op) -> traces allowed (call rejects op).
Proof.
  intros Hop st. unfold call. destruct (rejects (host st) op); [apply reach_refl |].
  destruct (applyOp op (host st)) as [[r h']|] eqn:Happly; [| apply reach_refl].
  simpl. eapply reach_move; [exact Hop | | apply reach_refl].
  by exists r, h'.
Qed.

Lemma traces_modifyCache f :
  allowed (CacheMove f) -> traces allowed (modifyCache f).
Proof.
  intros Hf st. eapply reach_move; [exact Hf | | apply reach_refl]. done.
Qed.

Lemma traces_getCache : traces allowed getCache.
Proof. intros st. apply reach_refl. Qed.

Lemma traces_readCollection id : traces allowed (readCollection id).
Proof.
  intros st. unfold readCollection, bind, getHost.
  destruct (getVariableCollectionById (host st) id); apply reach_refl.
Qed.
End Traces.

Section Pass1Traces.
Variable fromCss : string -> RGBA.
Variable rejects : Host -> HostOp -> bool.
Variable name : string.

Local Ltac trace_step :=
  first
    [ apply traces_ret | apply traces_throw | apply traces_getCache
    | apply traces_readCollection
    | apply traces_bind; [| intros ?]
    | apply traces_tryCatch; [| intros ?]
    | apply traces_foldM; intros ? ?
    | apply traces_call; split; done
    | apply traces_modifyCache ].

Lemma traces_setRawValue variable modeId value :
  traces (pass1Move name) (setRawValue fromCss rejects variable modeId value).
Proof.
  unfold setRawValue. apply traces_tryCatch; [| intros; apply traces_ret].
  destruct (rawValueOf fromCss value) as [v|] eqn:Hraw; [| apply traces_throw].
  apply traces_bind; [| intros; apply traces_ret].
  apply traces_call. split; [done |]. by eapply rawValueOf_raw.
Qed.

Lemma traces_pass1Mode modesObj modeMap variable path pend modeName :
  traces (pass1Move name)
    (pass1Mode fromCss rejects name modesObj modeMap variable path pend modeName).
Proof.
  unfold pass1Mode.
  destruct (jsGet modeMap modeName); [| apply traces_ret].
  destruct (jsGet modesObj modeName); [| apply traces_throw].
  destruct (getValueAtPath _ path); [| apply traces_ret].
  destruct (isAliasReference _);
    (apply traces_bind; [apply traces_setRawValue | intros; apply traces_ret]).
Qed.

Lemma traces_pass1Assign modesObj modeNames modeMap flat variable acc :
  traces (pass1Move name)
    (pass1Assign fromCss rejects name modesObj modeNames modeMap flat variable acc).
Proof.
  unfold pass1Assign. apply traces_bind.
  { destruct (e_description (snd flat)) as [text|]; [| apply traces_ret].
    destruct (Js.truthy text); repeat trace_step. }
  intros _. apply traces_bind; [repeat trace_step |].
  intros _. apply traces_bind.
  { apply traces_foldM. intros. apply traces_pass1Mode. }
  intros pend. apply traces_bind; [| intros; apply traces_ret].
  apply traces_modifyCache. left. by eexists _, _.
Qed.

Lemma traces_pass1Variable options collection modesObj modeNames modeMap acc flat :
  traces (pass1Move name)
    (pass1Variable fromCss rejects options collection name modesObj modeNames
       modeMap acc flat).
Proof.
  unfold pass1Variable. apply traces_bind; [apply traces_getCache |].
  intros c. destruct (Cache.getVariable _ c).
  - destruct (negb (overwrite options)); [apply traces_ret |].
    apply traces_pass1Assign.
  - apply traces_bind; [repeat trace_step |].
    intros [variable|]; [apply traces_pass1Assign | apply traces_ret].
Qed.

Lemma traces_setupModes collection modeNames :
  traces (pass1Move name) (setupModes rejects collection modeNames).
Proof.
  unfold setupModes. apply traces_bind; [apply traces_readCollection |].
  intros col. cbv zeta. apply traces_bind.
  - destruct (col_modes col) as [|m [|m2 ms]]; try apply traces_ret.
    destruct modeNames as [|first rest]; [apply traces_throw |].
    destruct (jsGet _ first); repeat trace_step.
  - intros mm. apply traces_foldM. intros acc x.
    destruct (jsGet acc x); repeat trace_step.
Qed.

Lemma traces_createCollection :
  traces (pass1Move name)
    (collection <- call rejects (OpCreateCollection name) ;;
     modifyCache (Cache.setCollection name collection) ;;;
     ret (Some (collection, true))).
Proof.
  apply traces_bind; [by apply traces_call |].
  intros collection. apply traces_bind; [| intros; apply traces_ret].
  apply traces_modifyCache. right. left. by eexists.
Qed.

Lemma traces_pass1Collection options acc item :
  entryName item = Some name ->
  traces (pass1Move name) (pass1Collection fromCss rejects options acc item).
Proof.
  intros Hname. unfold pass1Collection.
  destruct item as [|[jsonName itemValue] rest]; [discriminate |].
  injection Hname as Hname. rewrite Hname.
  apply traces_bind; [apply traces_getCache |]. intros c.
  apply traces_bind.
  - destruct (Cache.getCollection name c) as [existing|];
      [| apply traces_createCollection].
    destruct (String.eqb _ "replace").
    + apply traces_tryCatch; [| intros; apply traces_ret].
      apply traces_bind; [by apply traces_call |]. intros _.
      apply traces_bind; [| intros _; apply traces_createCollection].
      apply traces_modifyCache. by right; right.
    + destruct (negb (merge options)); apply traces_ret.
  - intros [[collection created]|]; [| apply traces_ret].
    destruct (modes (asContent itemValue)) as [modesObj|]; [| apply traces_throw].
    apply traces_bind; [apply traces_setupModes |]. intros modeMap.
    destruct (jsValues modesObj) as [|firstModeVars others]; [apply traces_throw |].
    apply traces_bind; [| intros; apply traces_ret].
    apply traces_foldM. intros. apply traces_pass1Variable.
Qed.
End Pass1Traces.

(** ** Stores built by pass 1 are well formed *)

Lemma hostWf_vars_update name h var v v' cols n :
  variables h !! var = Some v ->
  variableCollectionId v' = variableCollectionId v ->
  (forall m x, alookup (valuesByMode v') m = Some x -> isVariableAlias x = false) ->
  cols = collections h -> n = nextId h ->
  hostWf name h ->
  hostWf name {| collections := cols; variables := <[var := v']> (variables h);
                 styles := styles h; nextId := n |}.
Proof.
  intros Hvar Hcid Hraw -> -> [Hc Hv]. split; [exact Hc |]. simpl.
  intros id w. destruct (decide (var = id)) as [->|Hne].
  - rewrite lookup_insert_eq. intros [= <-].
    destruct (Hv _ _ Hvar) as (Hb & Hcol & _). rewrite Hcid. by repeat split.
  - rewrite lookup_insert_ne by done. apply Hv.
Qed.

Lemma hostWf_cols_update name h f col :
  (forall c, col_id (f c) = col_id c /\ col_name (f c) = col_name c
             /\ variableIds (f c) = variableIds c) ->
  forall n, nextId h <= n ->
  hostWf name h ->
  hostWf name {| collections := updateCollection f col (collections h);
                 variables := variables h; styles := styles h; nextId := n |}.
Proof.
  intros Hf n Hn [Hc Hv]. split; simpl.
  - intros c' (c & Hin & Hor)%elem_of_updateCollection.
    destruct (Hc c Hin) as (Hb & Hnm & Hids). destruct (Hf c) as (E1 & E2 & E3).
    destruct Hor as [->| ->]; [| rewrite E1, E2, E3];
      (split; [lia |]; split; [done |]; intros id Hid; specialize (Hids id Hid); lia).
  - intros id v Hvar. destruct (Hv id v Hvar) as (Hb & (c & Hfind & Hin) & Hraw).
    split; [lia |]. split; [| done].
    rewrite findCollection_update by (intros c0; apply Hf). rewrite Hfind. simpl.
    destruct (N.eqb (col_id c) col); eexists; split; try done.
    by destruct (Hf c) as (_ & _ & ->).
Qed.

Lemma applyOp_hostWf name op h r h' :
  pass1Move name (CallMove op) ->
  applyOp op h = Some (r, h') -> hostWf name h -> hostWf name h'.
Proof.
  intros [Hstore Hop] Happly Hwf. pose proof Hwf as [Hc Hv].
  destruct op; try discriminate; simpl in Happly.
  - (* createVariableCollection *)
    injection Happly as _ <-. subst name0. split; simpl.
    + intros c [Hin|Hin]%elem_of_app.
      * destruct (Hc c Hin) as (Hb & Hnm & Hids).
        split; [lia |]. split; [done |]. intros id Hid. specialize (Hids id Hid). lia.
      * apply list_elem_of_singleton in Hin as ->. simpl.
        split; [lia |]. split; [done |]. intros id Hid. by apply elem_of_nil in Hid.
    + intros id v Hvar. destruct (Hv id v Hvar) as (Hb & (c & Hfind & Hin) & Hraw).
      split; [lia |]. split; [| done].
      exists c. by rewrite findCollection_app, Hfind.
  - (* remove *)
    destruct (findCollection (collections h) col) as [c|] eqn:Hcol; [| discriminate].
    injection Happly as _ <-. split; simpl.
    + intros c' Hin. apply list_elem_of_filter in Hin as [_ Hin]. by apply Hc.
    + intros id v Hvar. rewrite lookup_foldr_delete_full in Hvar.
      destruct (decide (id ∈ variableIds c)) as [|Hnotin]; [discriminate |].
      destruct (Hv id v Hvar) as (Hb & (c' & Hfind & Hin) & Hraw).
      split; [done |]. split; [| done]. exists c'.
      rewrite findCollection_filter.
      destruct (N.eqb_spec (variableCollectionId v) col) as [Heq|_]; [| done].
      rewrite Heq, Hcol in Hfind. injection Hfind as ->. done.
  - (* renameMode *)
    destruct (findCollection (collections h) col) as [c|]; [| discriminate].
    destruct (bool_decide _); [| discriminate].
    injection Happly as _ <-.
    apply (hostWf_cols_update name h); [done | lia | done].
  - (* addMode *)
    destruct (findCollection (collections h) col) as [c|]; [| discriminate].
    injection Happly as _ <-.
    apply (hostWf_cols_update name h); [done | lia | done].
  - (* createVariable *)
    destruct (findCollection (collections h) col) as [c|] eqn:Hcol; [| discriminate].
    injection Happly as _ <-. split; simpl.
    + intros c' (c0 & Hin & Hor)%elem_of_updateCollection.
      destruct (Hc c0 Hin) as (Hb & Hnm & Hids).
      destruct Hor as [->| ->]; simpl;
        (split; [lia |]; split; [done |]); intros id Hid.
      * specialize (Hids id Hid). lia.
      * apply elem_of_app in Hid as [Hid|Hid].
        -- specialize (Hids id Hid). lia.
        -- apply list_elem_of_singleton in Hid. lia.
    + intros id v. destruct (decide (nextId h = id)) as [<-|Hne].
      * rewrite lookup_insert_eq. intros [= <-]. simpl.
        split; [lia |]. split; [| done].
        rewrite findCollection_update by done. rewrite Hcol. simpl.
        apply findCollection_elem in Hcol as [_ ->]. rewrite N.eqb_refl.
        eexists. split; [done |]. simpl. apply elem_of_app. right.
        apply list_elem_of_here.
      * rewrite lookup_insert_ne by done. intros Hvar.
        destruct (Hv id v Hvar) as (Hb & (c' & Hfind & Hin) & Hraw).
        split; [lia |]. split; [| done].
        rewrite findCollection_update by done. rewrite Hfind. simpl.
        destruct (N.eqb (col_id c') col); eexists; (split; [done |]); [| done].
        simpl. apply elem_of_app. by left.
  - (* setValueForMode *)
    destruct (variables h !! var) as [v|] eqn:Hvar; [| discriminate].
    destruct (findCollection _ _) as [c|]; [| discriminate].
    destruct (bool_decide _); [| discriminate].
    injection Happly as _ <-.
    apply (hostWf_vars_update name h var v); try done. simpl.
    intros m x. rewrite alookup_aset.
    destruct (N.eqb mode m); [by intros [= <-] |].
    by apply (Hv var v Hvar).
  - (* description *)
    destruct (variables h !! var) as [v|] eqn:Hvar; [| discriminate].
    injection Happly as _ <-.
    apply (hostWf_vars_update name h var v); try done. by apply (Hv var v Hvar).
  - (* scopes *)
    destruct (variables h !! var) as [v|] eqn:Hvar; [| discriminate].
    injection Happly as _ <-.
    apply (hostWf_vars_update name h var v); try done. by apply (Hv var v Hvar).
Qed.

Lemma reach_hostWf name st st' :
  reach (pass1Move name) st st' -> hostWf name (host st) -> hostWf name (host st').
Proof.
  apply (reach_invariant (pass1Move name) (fun s => hostWf name (host s))).
  intros [op|f] s s' Hall Hmove Hwf.
  - destruct Hmove as (r & h' & Happly & ->). simpl.
    by eapply applyOp_hostWf.
  - by rewrite Hmove.
Qed.

Lemma reach_cacheKeys name names st st' :
  reach (pass1Move name) st st' ->
  cacheKeysIn names (cache st) -> cacheKeysIn (name :: names) (cache st').
Proof.
  intros Hreach [Hc Hv].
  apply (reach_invariant (pass1Move name)
           (fun s => cacheKeysIn (name :: names) (cache s))) with (st := st);
    [| done |].
  - intros [op|f] s s' Hall Hmove [Hc' Hv'].
    + destruct Hmove as (r & h' & _ & ->). by split.
    + rewrite Hmove. simpl.
      destruct Hall as [(path & v & ->) | [(c & ->) | ->]]; split; simpl.
      * done.
      * intros key id. destruct (decide (name +:+ "/" +:+ path = key)) as [<-|Hne].
        -- intros _. exists name, path. split; [apply list_elem_of_here | done].
        -- rewrite lookup_insert_ne by done. apply Hv'.
      * intros n id. destruct (decide (name = n)) as [<-|Hne].
        -- intros _. apply list_elem_of_here.
        -- rewrite lookup_insert_ne by done. apply Hc'.
      * done.
      * intros n id Hl. apply lookup_delete_Some in Hl as [_ Hl]. by eapply Hc'.
      * intros key id Hl.
        pose proof (removeCollection_lookup (cache s) name key) as Hk.
        simpl in Hk. rewrite Hk in Hl.
        destruct (Js.startsWith key (name +:+ "/")); [discriminate |].
        by eapply Hv'.
  - split.
    + intros n id Hl. apply list_elem_of_further. by eapply Hc.
    + intros key id Hl. destruct (Hv key id Hl) as (n & path & Hn & ->).
      exists n, path. split; [by apply list_elem_of_further | done].
Qed.

(** ** Cache keys *)

Lemma append_cons a s t : String a s +:+ t = String a (s +:+ t).
Proof. reflexivity. Qed.

Lemma splitKey_join c v :
  slashFree c = true -> splitKey (c +:+ "/" +:+ v) = (c, v).
Proof.
  induction c as [|a c IH]; [done |].
  cbn [slashFree]. intros [Ha Hc]%andb_prop. rewrite append_cons.
  cbn [splitKey]. destruct (Ascii.eqb a "/"); [discriminate |].
  by rewrite (IH Hc).
Qed.

Lemma key_inj c1 v1 c2 v2 :
  slashFree c1 = true -> slashFree c2 = true ->
  c1 +:+ "/" +:+ v1 = c2 +:+ "/" +:+ v2 -> c1 = c2 /\ v1 = v2.
Proof.
  intros H1 H2 Heq.
  pose proof (splitKey_join c1 v1 H1) as E1.
  pose proof (splitKey_join c2 v2 H2) as E2.
  rewrite Heq, E2 in E1. by injection E1 as -> ->.
Qed.

Lemma cacheKeysIn_fresh names c name :
  cacheKeysIn names c -> name ∉ names ->
  slashFree name = true -> Forall (fun n => slashFree n = true) names ->
  collectionMap c !! name = None
  /\ forall path, variableMap c !! (name +:+ "/" +:+ path) = None.
Proof.
  intros [Hc Hv] Hnew Hname Hnames. split.
  - destruct (collectionMap c !! name) as [id|] eqn:Hl; [| done].
    exfalso. by eapply Hnew, Hc.
  - intros path. destruct (variableMap c !! _) as [id|] eqn:Hl; [| done].
    exfalso. destruct (Hv _ _ Hl) as (n & path' & Hn & Heq).
    rewrite Forall_forall in Hnames.
    apply key_inj in Heq as [-> _]; [done | done | by apply Hnames].
Qed.

(** ** The layout of the store after pass 1 *)

Lemma hostWf_empty name : hostWf name emptyHost.
Proof.
  split.
  - intros c Hc. by apply elem_of_nil in Hc.
  - intros id v Hv. simpl in Hv. by rewrite lookup_empty in Hv.
Qed.

Section Layout.
Variable fromCss : string -> RGBA.
Variable options : ImportOptions.

Lemma isolated_hostWf item name :
  entryName item = Some name ->
  hostWf name (host (snd (isolated fromCss options item))).
Proof.
  intros Hname. unfold isolated.
  apply (reach_hostWf name freshState); [| apply hostWf_empty].
  by apply traces_pass1Collection.
Qed.

Lemma isolated_pending item p :
  p ∈ blk_pending (blockOf fromCss options 0 item) ->
  p_variable p < nextId (host (snd (isolated fromCss options item)))
  /\ p_modeId p < nextId (host (snd (isolated fromCss options item))).
Proof.
  unfold blockOf, isolated. simpl.
  destruct (pass1Collection fromCss permissive options noPass1 item freshState)
    as [[acc|e] st'] eqn:Hrun; simpl; [| by intros ?%elem_of_nil].
  destruct (pass1Collection_steps fromCss permissive permissive_acceptsRawWrites
              options noPass1 item freshState _ _ freshState_idsBounded
              (Forall_nil_2 _) Hrun) as [_ HQ].
  specialize (HQ acc eq_refl). rewrite Forall_forall in HQ.
  intros Hp. by destruct (HQ p Hp) as (Hv & Hm & _).
Qed.

Lemma embeds_start F name sb :
  varsBelow F -> host sb = F ->
  collectionMap (cache sb) !! name = None ->
  (forall path, variableMap (cache sb) !! (name +:+ "/" +:+ path) = None) ->
  Embeds F name freshState sb.
Proof.
  intros Hbelow <- Hc Hv. split.
  - split; [by rewrite app_nil_r |]. split; [done |].
    split; [| by split]. intros id. simpl. rewrite lookup_empty. simpl.
    apply Hbelow. lia.
  - split; simpl; [by rewrite Hc, lookup_empty |].
    intros path. by rewrite Hv, lookup_empty.
Qed.
End Layout.

Section Laying.
Variable fromCss : string -> RGBA.
Variable options : ImportOptions.

Lemma cleanNames_middle n ns names :
  cleanNames ((n :: ns) ++ names) ->
  (n ∉ names) /\ slashFree n = true
  /\ Forall (fun k => slashFree k = true) names
  /\ cleanNames (ns ++ n :: names).
Proof.
  intros [Hnd Hsf]. simpl in *.
  apply NoDup_cons in Hnd as [Hnotin Hnd].
  apply Forall_cons in Hsf as [Hn Hsf].
  split.
  { intros Hin. apply Hnotin, elem_of_app. by right. }
  split; [done |].
  split; [by apply Forall_app in Hsf as [_ ?] |].
  split.
  - rewrite <- Permutation_middle. by apply NoDup_cons.
  - rewrite <- Permutation_middle. by apply Forall_cons.
Qed.

Lemma embeds_frameOk F name hs hb :
  frameOk F -> hostWf name hs -> EmbedsHost F hs hb -> frameOk hb.
Proof.
  intros HF [Hc _] (Hcols & Hn & _). intros c. rewrite Hcols, Hn.
  intros [Hin|Hin]%elem_of_app.
  - specialize (HF c Hin). lia.
  - apply list_elem_of_fmap in Hin as (c0 & -> & Hin0).
    destruct (Hc c0 Hin0) as (Hb & _). simpl. lia.
Qed.

Lemma embeds_varsBelow F name hs hb :
  hostWf name hs -> EmbedsHost F hs hb -> varsBelow hb.
Proof.
  intros [_ Hv] (_ & Hn & Hvars & _) id Hid. rewrite Hn in Hid.
  replace id with (id - nextId F + nextId F) by lia. rewrite Hvars.
  destruct (variables hs !! (id - nextId F)) as [v|] eqn:Hl; [| done].
  destruct (Hv _ _ Hl) as [Hb _]. lia.
Qed.

Lemma pass1_laid (l : list Item) :
  forall ns names sb accb,
    map entryName l = map Some ns ->
    cleanNames (ns ++ names) ->
    cacheKeysIn names (cache sb) ->
    frameOk (host sb) -> varsBelow (host sb) ->
    match fst (foldM (pass1Collection fromCss permissive options) accb l sb) with
    | Ok acc' =>
        Forall (fun x => returns (fst (isolated fromCss options x))) l
        /\ Laid (host sb)
             (host (snd (foldM (pass1Collection fromCss permissive options)
                           accb l sb)))
             (layout fromCss options (nextId (host sb)) l)
        /\ allPendingAliases acc'
           = (allPendingAliases accb
              ++ flat_map blockPending
                   (layout fromCss options (nextId (host sb)) l))%list
    | Throw _ =>
        ~ Forall (fun x => returns (fst (isolated fromCss options x))) l
    end.
Proof.
  induction l as [|x l IH]; intros ns names sb accb Hns Hclean Hkeys HF Hbelow.
  { simpl. split; [done |]. split; [| by rewrite app_nil_r].
    split; [by rewrite app_nil_r |]. split; [done |]. split; [| done].
    intros b Hb. by apply elem_of_nil in Hb. }
  destruct ns as [|n ns]; [discriminate |].
  injection Hns as Hname Hns.
  destruct (cleanNames_middle _ _ _ Hclean) as (Hnew & Hsf & Hsfs & Hclean').
  destruct (cacheKeysIn_fresh _ _ n Hkeys Hnew Hsf Hsfs) as [Hcn Hvn].
  pose proof (embeds_start (host sb) n sb Hbelow eq_refl Hcn Hvn) as Hemb.
  assert (Hq : queuedFrom (allPendingAliases accb) (nextId (host sb)) noPass1 accb).
  { unfold queuedFrom, pendingFrom. simpl. by rewrite app_nil_r. }
  destruct (embedded_pass1Collection fromCss (host sb) n HF _ options _ _ x
              Hname Hq freshState sb Hemb) as [Hag Hemb1].
  pose proof (isolated_hostWf fromCss options x n Hname) as Hwf.
  pose proof (traces_pass1Collection fromCss permissive n options accb x Hname sb)
    as Hreach.
  fold (isolated fromCss options x) in Hag, Hemb1.
  cbn [foldM layout]. unfold bind at 1 2.
  destruct (pass1Collection fromCss permissive options accb x sb)
    as [[acc1|e] sb1] eqn:Hbig; simpl in Hag, Hemb1, Hreach |- *.
  2:{ intros Hall. apply Forall_cons in Hall as [Hx _].
      destruct (fst (isolated fromCss options x)); done. }
  destruct (isolated fromCss options x) as [[acc_s|e] ss1] eqn:Hiso;
    simpl in Hag, Hemb1, Hwf; [| done].
  destruct Hemb1 as [Hh1 Hc1].
  pose proof (embeds_frameOk _ _ _ _ HF Hwf Hh1) as HF1.
  pose proof (embeds_varsBelow _ _ _ _ Hwf Hh1) as Hbelow1.
  pose proof (reach_cacheKeys _ _ _ _ Hreach Hkeys) as Hkeys1.
  specialize (IH ns (n :: names) sb1 acc1 Hns Hclean' Hkeys1 HF1 Hbelow1).
  destruct Hh1 as (Hcols1 & Hn1 & Hvars1 & Hframe1 & Hst1).
  rewrite Hn1 in IH. rewrite (N.add_comm (nextId (host sb))).
  destruct (foldM _ acc1 l sb1) as [[acc'|e] sb'] eqn:Hrest; simpl in IH |- *.
  2:{ intros Hall. apply Forall_cons in Hall as [_ Hl]. by apply IH. }
  destruct IH as (Hall & (Hcols & Hfr & Hblocks & Hst) & Hpend).
  split; [apply Forall_cons; split; [by rewrite Hiso | done] |].
  split.
  - split; [| split; [| split]].
    + rewrite Hcols, Hcols1, <- app_assoc. f_equal. cbn [flat_map]. f_equal.
      unfold blockCollections, blockOf. simpl. by rewrite Hiso.
    + intros id Hid. rewrite Hfr by lia. by apply Hframe1.
    + intros b [->|Hb]%elem_of_cons.
      * intros id Hid. cbn [blk_offset blk_host blockOf] in *.
        rewrite Hiso in *. simpl in *. rewrite Hfr by lia. apply Hvars1.
      * by apply Hblocks.
    + by rewrite Hst.
  - rewrite Hpend, Hag. unfold pendingFrom. cbn [flat_map].
    rewrite <- app_assoc. do 2 f_equal.
    unfold blockPending, blockOf. simpl. by rewrite Hiso.
Qed.
End Laying.

(** ** Pass 2 *)

Lemma pass2Alias_host counts p st :
  host (snd (pass2Alias permissive counts p st))
  = wire (variableMap (cache st)) (host st) p
  /\ cache (snd (pass2Alias permissive counts p st)) = cache st
  /\ returns (fst (pass2Alias permissive counts p st)).
Proof.
  unfold pass2Alias, wire, bind, getCache, Cache.getVariable, aliasKey.
  destruct (variableMap (cache st) !! _) as [target|]; [| done].
  unfold tryCatch, bind, call, permissive.
  destruct (applyOp _ (host st)) as [[r h']|]; done.
Qed.

Lemma foldM_pass2Alias_host (P : list PendingAlias) counts st :
  host (snd (foldM (pass2Alias permissive) counts P st))
  = fold_left (wire (variableMap (cache st))) P (host st).
Proof.
  revert counts st. induction P as [|p P IH]; intros counts st; [done |].
  simpl. unfold bind.
  destruct (pass2Alias_host counts p st) as (Hh & Hc & Hret).
  destruct (pass2Alias permissive counts p st) as [[c|e] st1] eqn:Hrun;
    simpl in Hh, Hc, Hret; [| done].
  by rewrite IH, Hc, Hh.
Qed.

Lemma pass2_host (P : list PendingAlias) st :
  host (snd (pass2 permissive P st))
  = fold_left (wire (variableMap (Cache.rebuild (host st) (cache st)))) P (host st).
Proof.
  unfold pass2, bind, rebuildCache, getHost, modifyCache.
  apply (foldM_pass2Alias_host P (0, 0)
           {| host := host st; cache := Cache.rebuild (host st) (cache st);
              outbox := outbox st |}).
Qed.

Lemma writable_sameShape h h' var mode :
  sameShape h h' -> writable h' var mode = writable h var mode.
Proof.
  intros [Hc Hs]. unfold writable. rewrite Hc. specialize (Hs var).
  destruct (variables h' !! var) as [v'|], (variables h !! var) as [v|];
    simpl in Hs; try done.
  by injection Hs as _ -> _ _ _.
Qed.

Lemma wire_spec keys h p :
  sameShape h (wire keys h p)
  /\ forall var mode,
       cellRaw (wire keys h p) var mode
       = wireStep keys h var mode (cellRaw h var mode) p.
Proof.
  unfold wire, wireStep, writable.
  destruct (keys !! aliasKey p) as [target|]; [| by split].
  simpl. destruct (variables h !! p_variable p) as [v|] eqn:Hv; [| by split].
  destruct (findCollection _ _) as [c|]; [| by split].
  destruct (bool_decide _); [| by split].
  split.
  - split; [done |]. intros id. simpl.
    destruct (decide (p_variable p = id)) as [<-|Hne].
    + by rewrite lookup_insert_eq, Hv.
    + by rewrite lookup_insert_ne.
  - intros var mode. unfold cellRaw. simpl.
    destruct (N.eqb_spec (p_variable p) var) as [<-|Hne]; simpl.
    + rewrite lookup_insert_eq, Hv. simpl. rewrite alookup_aset.
      by destruct (N.eqb (p_modeId p) mode).
    + by rewrite lookup_insert_ne.
Qed.

Lemma sameShape_trans a b c : sameShape a b -> sameShape b c -> sameShape a c.
Proof.
  intros [Hc1 Hs1] [Hc2 Hs2]. split; [congruence |].
  intros id. by rewrite Hs2, Hs1.
Qed.

Lemma wireStep_ext keys h h' var mode cell p :
  sameShape h h' ->
  wireStep keys h' var mode cell p = wireStep keys h var mode cell p.
Proof.
  intros Hs. unfold wireStep. by rewrite (writable_sameShape h h').
Qed.

Lemma fold_wire_spec keys (P : list PendingAlias) h :
  sameShape h (fold_left (wire keys) P h)
  /\ forall var mode,
       cellRaw (fold_left (wire keys) P h) var mode
       = fold_left (wireStep keys h var mode) P (cellRaw h var mode).
Proof.
  assert (Hgen : forall h0, sameShape h h0 ->
            sameShape h (fold_left (wire keys) P h0)
            /\ forall var mode,
                 cellRaw (fold_left (wire keys) P h0) var mode
                 = fold_left (wireStep keys h var mode) P (cellRaw h0 var mode)).
  { induction P as [|p P IH]; intros h0 Hs; [by split |].
    simpl. destruct (wire_spec keys h0 p) as [Hs1 Hcell].
    destruct (IH _ (sameShape_trans _ _ _ Hs Hs1)) as [Hs' Hcells].
    split; [done |]. intros var mode.
    by rewrite Hcells, Hcell, (wireStep_ext keys h h0). }
  apply Hgen. by split.
Qed.

(** ** The rebuilt cache *)

Lemma foldl_insert_Some (l : list (string * N)) (m : gmap string N) K t :
  foldl (fun m kv => <[fst kv := snd kv]> m) m l !! K = Some t ->
  m !! K = Some t \/ (K, t) ∈ l.
Proof.
  revert m. induction l as [|[k v] l IH]; intros m; simpl; [by left |].
  intros [Hm|Hin]%IH.
  - destruct (decide (k = K)) as [->|Hne].
    + rewrite lookup_insert_eq in Hm. injection Hm as ->. right. apply list_elem_of_here.
    + rewrite lookup_insert_ne in Hm by done. by left.
  - right. by apply list_elem_of_further.
Qed.

Lemma foldl_insert_is_Some (l : list (string * N)) (m : gmap string N) K :
  is_Some (m !! K) \/ (exists t, (K, t) ∈ l) ->
  is_Some (foldl (fun m kv => <[fst kv := snd kv]> m) m l !! K).
Proof.
  revert m. induction l as [|[k v] l IH]; intros m; simpl.
  - intros [Hm|[t Hin]]; [done | by apply elem_of_nil in Hin].
  - intros [Hm|[t Hin]]; apply IH.
    + left. destruct (decide (k = K)) as [->|Hne].
      * by rewrite lookup_insert_eq.
      * by rewrite lookup_insert_ne.
    + apply elem_of_cons in Hin as [[= <- <-]|Hin].
      * left. by rewrite lookup_insert_eq.
      * right. by exists t.
Qed.

Lemma rebuild_inner h col (ids : list N) acc :
  variableMap
    (foldl (fun acc' varId =>
              match getVariableById h varId with
              | Some v => Cache.setVariable (col_name col +:+ "/" +:+ var_name v)
                                            varId acc'
              | None => acc'
              end) acc ids)
  = foldl (fun m kv => <[fst kv := snd kv]> m) (variableMap acc)
      (omap (fun id =>
               (fun v => (col_name col +:+ "/" +:+ var_name v, id))
                 <$> getVariableById h id) ids).
Proof.
  revert acc. induction ids as [|id ids IH]; intros acc; simpl; [done |].
  rewrite IH. by destruct (getVariableById h id).
Qed.

Lemma rebuild_outer h (cols : list VariableCollection) acc :
  variableMap
    (foldl
       (fun acc col =>
          foldl
            (fun acc' varId =>
               match getVariableById h varId with
               | Some v => Cache.setVariable (col_name col +:+ "/" +:+ var_name v)
                                             varId acc'
               | None => acc'
               end)
            (Cache.setCollection (col_name col) (col_id col) acc)
            (variableIds col))
       acc cols)
  = foldl (fun m kv => <[fst kv := snd kv]> m) (variableMap acc)
      (flat_map
         (fun col =>
            omap (fun id =>
                    (fun v => (col_name col +:+ "/" +:+ var_name v, id))
                      <$> getVariableById h id)
                 (variableIds col))
         cols).
Proof.
  revert acc. induction cols as [|col cols IH]; intros acc; simpl; [done |].
  by rewrite IH, rebuild_inner, foldl_app.
Qed.

Lemma rebuild_variableMap h c :
  variableMap (Cache.rebuild h c)
  = foldl (fun m kv => <[fst kv := snd kv]> m) ∅ (cacheEntries h).
Proof. unfold Cache.rebuild, cacheEntries. by rewrite rebuild_outer. Qed.

Lemma elem_of_cacheEntries h K t :
  (K, t) ∈ cacheEntries h <->
  exists col v, col ∈ getLocalVariableCollections h /\ t ∈ variableIds col
                /\ variables h !! t = Some v
                /\ K = col_name col +:+ "/" +:+ var_name v.
Proof.
  unfold cacheEntries. rewrite list_elem_of_In, in_flat_map. split.
  - intros (col & Hcol & Hin). apply list_elem_of_In in Hcol, Hin.
    apply list_elem_of_omap in Hin as (id & Hid & Hsome).
    unfold getVariableById in Hsome.
    destruct (variables h !! id) as [v|] eqn:Hv; [| discriminate].
    injection Hsome as <- <-. by exists col, v.
  - intros (col & v & Hcol & Hid & Hv & ->). exists col.
    split; [by apply list_elem_of_In |]. apply list_elem_of_In.
    apply list_elem_of_omap. exists t. split; [done |].
    unfold getVariableById. by rewrite Hv.
Qed.

Lemma rebuild_sound h c K t :
  variableMap (Cache.rebuild h c) !! K = Some t -> (K, t) ∈ cacheEntries h.
Proof.
  rewrite rebuild_variableMap. intros [Hm|Hin]%foldl_insert_Some; [| done].
  by rewrite lookup_empty in Hm.
Qed.

Lemma rebuild_complete h c K :
  is_Some (variableMap (Cache.rebuild h c) !! K)
  <-> exists t, (K, t) ∈ cacheEntries h.
Proof.
  split.
  - intros [t Ht]. exists t. by eapply rebuild_sound.
  - intros Hin. rewrite rebuild_variableMap. apply foldl_insert_is_Some. by right.
Qed.

(** ** Blocks *)

Section Blocks.
Variable fromCss : string -> RGBA.
Variable options : ImportOptions.

Lemma layout_contiguous (l : list Item) d :
  contiguous d (layout fromCss options d l).
Proof.
  revert d. induction l as [|x l IH]; intros d; simpl; [done |].
  split; [done |]. apply IH.
Qed.

Lemma isolated_modesBounded item :
  modesBounded (host (snd (isolated fromCss options item))).
Proof.
  unfold isolated.
  destruct (pass1Collection fromCss permissive options noPass1 item freshState)
    as [o st'] eqn:Hrun.
  destruct (pass1Collection_steps fromCss permissive permissive_acceptsRawWrites
              options noPass1 item freshState _ _ freshState_idsBounded
              (Forall_nil_2 _) Hrun) as [Hsteps _].
  by destruct (steps_bounded _ _ Hsteps).
Qed.

Lemma layout_blockWf (l : list Item) :
  forall ns d,
    map entryName l = map Some ns ->
    Forall (fun n => slashFree n = true) ns ->
    Forall blockWf (layout fromCss options d l).
Proof.
  induction l as [|x l IH]; intros ns d Hns Hsf; simpl; [done |].
  destruct ns as [|n ns]; [discriminate |]. injection Hns as Hname Hns.
  apply Forall_cons in Hsf as [Hn Hsf].
  apply Forall_cons. split; [| by eapply IH].
  exists n. split; [done |].
  split; [by apply isolated_hostWf |].
  split; [apply isolated_modesBounded |].
  intros p Hp. by apply isolated_pending.
Qed.
End Blocks.

Lemma findCollection_app_gen l1 l2 id :
  findCollection (l1 ++ l2)%list id
  = match findCollection l1 id with
    | Some c => Some c
    | None => findCollection l2 id
    end.
Proof.
  induction l1 as [|c l1 IH]; simpl; [done |].
  by destruct (N.eqb (col_id c) id).
Qed.

Lemma findCollection_None l id :
  (forall c, c ∈ l -> col_id c ≠ id) -> findCollection l id = None.
Proof.
  induction l as [|c l IH]; intros Hl; simpl; [done |].
  destruct (N.eqb_spec (col_id c) id) as [Heq|_].
  - exfalso. by apply (Hl c (list_elem_of_here _ _)).
  - apply IH. intros c' Hc'. apply Hl. by apply list_elem_of_further.
Qed.

Lemma contiguous_above d bs b :
  contiguous d bs -> b ∈ bs -> d <= blk_offset b.
Proof.
  revert d. induction bs as [|b0 bs IH]; intros d Hc Hb;
    [by apply elem_of_nil in Hb |].
  destruct Hc as [Hoff Hc]. apply elem_of_cons in Hb as [->|Hb]; [lia |].
  specialize (IH _ Hc Hb). lia.
Qed.

Lemma blockCollections_range b c :
  blockWf b -> c ∈ blockCollections b ->
  blk_offset b <= col_id c < blk_offset b + nextId (blk_host b).
Proof.
  intros (name & _ & [Hc _] & _) Hin.
  apply list_elem_of_fmap in Hin as (c0 & -> & Hin0).
  destruct (Hc c0 Hin0) as (Hb & _). simpl. lia.
Qed.

Lemma laid_collections_above d bs c :
  contiguous d bs -> Forall blockWf bs ->
  c ∈ flat_map blockCollections bs -> d <= col_id c.
Proof.
  intros Hc Hwf Hin. apply list_elem_of_In, in_flat_map in Hin as (b & Hb & Hin).
  apply list_elem_of_In in Hb, Hin.
  rewrite Forall_forall in Hwf.
  pose proof (blockCollections_range b c (Hwf b Hb) Hin).
  pose proof (contiguous_above d bs b Hc Hb). lia.
Qed.

Lemma findCollection_block b cid :
  findCollection (blockCollections b) (cid + blk_offset b)
  = shiftCol (blk_offset b) <$> findCollection (collections (blk_host b)) cid.
Proof.
  apply (findCollection_frame [] (blk_offset b) (collections (blk_host b)) cid).
  intros c Hc. by apply elem_of_nil in Hc.
Qed.

Lemma findCollection_laid d bs b cid :
  contiguous d bs -> Forall blockWf bs -> b ∈ bs ->
  cid < nextId (blk_host b) ->
  findCollection (flat_map blockCollections bs) (cid + blk_offset b)
  = shiftCol (blk_offset b) <$> findCollection (collections (blk_host b)) cid.
Proof.
  revert d. induction bs as [|b0 bs IH]; intros d Hc Hwf Hb Hcid;
    [by apply elem_of_nil in Hb |].
  destruct Hc as [Hoff Hc]. apply Forall_cons in Hwf as [Hwf0 Hwf].
  cbn [flat_map]. rewrite findCollection_app_gen.
  apply elem_of_cons in Hb as [->|Hb].
  - rewrite findCollection_block.
    destruct (findCollection (collections (blk_host b0)) cid); [done |]. simpl.
    apply findCollection_None. intros c Hin.
    pose proof (laid_collections_above _ _ c Hc Hwf Hin). lia.
  - rewrite (findCollection_None (blockCollections b0)).
    + by eapply IH.
    + intros c Hin. pose proof (blockCollections_range b0 c Hwf0 Hin).
      pose proof (contiguous_above _ _ b Hc Hb). lia.
Qed.

(** ** Cells of a laid-out store *)

Lemma cellOf_cellRaw h var mode :
  cellOf h var mode = viewValue h <$> cellRaw h var mode.
Proof.
  unfold cellOf, cellRaw, getVariableById. by destruct (variables h !! var).
Qed.

Lemma wireStep_noop keys h var mode (Q : list PendingAlias) cell :
  (forall p, p ∈ Q -> p_variable p ≠ var) ->
  fold_left (wireStep keys h var mode) Q cell = cell.
Proof.
  revert cell. induction Q as [|p Q IH]; intros cell HQ; simpl; [done |].
  rewrite IH by (intros q Hq; apply HQ; by apply list_elem_of_further).
  unfold wireStep. destruct (keys !! aliasKey p); [| done].
  destruct (N.eqb_spec (p_variable p) var) as [Heq|_].
  - exfalso. by apply (HQ p (list_elem_of_here _ _)).
  - by rewrite andb_false_r.
Qed.

Lemma blockPending_range b p :
  blockWf b -> p ∈ blockPending b ->
  blk_offset b <= p_variable p < blk_offset b + nextId (blk_host b).
Proof.
  intros (name & _ & _ & _ & Hp) Hin.
  apply list_elem_of_fmap in Hin as (p0 & -> & Hin0).
  destruct (Hp p0 Hin0) as [Hv _]. simpl. lia.
Qed.

Lemma laid_pending_above d bs p :
  contiguous d bs -> Forall blockWf bs ->
  p ∈ flat_map blockPending bs -> d <= p_variable p.
Proof.
  intros Hc Hwf Hin. apply list_elem_of_In, in_flat_map in Hin as (b & Hb & Hin).
  apply list_elem_of_In in Hb, Hin.
  rewrite Forall_forall in Hwf.
  pose proof (blockPending_range b p (Hwf b Hb) Hin).
  pose proof (contiguous_above d bs b Hc Hb). lia.
Qed.

Lemma wireStep_block keys h d bs b id mode cell :
  contiguous d bs -> Forall blockWf bs -> b ∈ bs ->
  id < nextId (blk_host b) ->
  fold_left (wireStep keys h (id + blk_offset b) mode)
            (flat_map blockPending bs) cell
  = fold_left (wireStep keys h (id + blk_offset b) mode) (blockPending b) cell.
Proof.
  revert d cell. induction bs as [|b0 bs IH]; intros d cell Hc Hwf Hb Hid;
    [by apply elem_of_nil in Hb |].
  destruct Hc as [Hoff Hc]. apply Forall_cons in Hwf as [Hwf0 Hwf].
  cbn [flat_map]. rewrite fold_left_app.
  apply elem_of_cons in Hb as [->|Hb].
  - apply wireStep_noop. intros p Hp.
    pose proof (laid_pending_above _ _ p Hc Hwf Hp). lia.
  - rewrite (wireStep_noop _ _ _ _ (blockPending b0)).
    + by eapply IH.
    + intros p Hp. pose proof (blockPending_range b0 p Hwf0 Hp).
      pose proof (contiguous_above _ _ b Hc Hb). lia.
Qed.

Section LaidStore.
Variable h : Host.
Variable bs : list Block.
Variable d : N.
Hypothesis Hcols : collections h = flat_map blockCollections bs.
Hypothesis Hvars :
  forall b, b ∈ bs ->
    forall id, id < nextId (blk_host b) ->
      variables h !! (id + blk_offset b)
      = shiftVar (blk_offset b) <$> variables (blk_host b) !! id.
Hypothesis Hcont : contiguous d bs.
Hypothesis Hwf : Forall blockWf bs.

Lemma writable_laid b var mode :
  b ∈ bs -> var < nextId (blk_host b) ->
  writable h (var + blk_offset b) (mode + blk_offset b)
  = writable (blk_host b) var mode.
Proof.
  intros Hb Hvar. unfold writable. rewrite (Hvars b Hb var Hvar).
  destruct (variables (blk_host b) !! var) as [v|] eqn:Hv; simpl; [| done].
  pose proof Hwf as Hall. rewrite Forall_forall in Hall.
  destruct (Hall b Hb) as (name & _ & [Hc Hv'] & _).
  destruct (Hv' var v Hv) as (_ & (c & Hfind & _) & _).
  pose proof (findCollection_elem _ _ _ Hfind) as [Hin Hid].
  destruct (Hc c Hin) as (Hcb & _).
  rewrite Hcols, (findCollection_laid d bs b) by (done || lia).
  rewrite Hfind. simpl.
  apply bool_decide_ext, modeIds_shiftCol.
Qed.

Lemma cellRaw_laid b var mode :
  b ∈ bs -> var < nextId (blk_host b) ->
  cellRaw h (var + blk_offset b) (mode + blk_offset b)
  = cellRaw (blk_host b) var mode.
Proof.
  intros Hb Hvar. unfold cellRaw. rewrite (Hvars b Hb var Hvar).
  destruct (variables (blk_host b) !! var) as [v|] eqn:Hv; simpl; [| done].
  rewrite alookup_shift.
  destruct (alookup (valuesByMode v) mode) as [x|] eqn:Hx; simpl; [| done].
  pose proof Hwf as Hall. rewrite Forall_forall in Hall.
  destruct (Hall b Hb) as (name & _ & [_ Hv'] & _).
  destruct (Hv' var v Hv) as (_ & _ & Hraw).
  by rewrite (shiftValue_raw _ _ (Hraw mode x Hx)).
Qed.
End LaidStore.

Section WiredStore.
Variable h h2 : Host.
Variable bs : list Block.
Variable d : N.
Variable c : VariableCache.
Hypothesis Hcols : collections h = flat_map blockCollections bs.
Hypothesis Hvars :
  forall b, b ∈ bs ->
    forall id, id < nextId (blk_host b) ->
      variables h !! (id + blk_offset b)
      = shiftVar (blk_offset b) <$> variables (blk_host b) !! id.
Hypothesis Hcont : contiguous d bs.
Hypothesis Hwf : Forall blockWf bs.
Hypothesis Hshape : sameShape h h2.
Hypothesis Hcells :
  forall var mode,
    cellRaw h2 var mode
    = fold_left (wireStep (variableMap (Cache.rebuild h c)) h var mode)
                (flat_map blockPending bs) (cellRaw h var mode).

Lemma alias_view key target :
  variableMap (Cache.rebuild h c) !! key = Some target ->
  viewValue h2 (VAlias target) = aliasName key.
Proof.
  intros Hk. apply rebuild_sound, elem_of_cacheEntries in Hk
    as (col & v & Hcol & Hid & Hv & ->).
  apply list_elem_of_filter in Hcol as [_ Hcol]. rewrite Hcols in Hcol.
  apply list_elem_of_In, in_flat_map in Hcol as (b & Hb & Hin).
  apply list_elem_of_In in Hb, Hin.
  apply list_elem_of_fmap in Hin as (c0 & -> & Hc0).
  simpl in Hid. apply list_elem_of_fmap in Hid as (id & -> & Hid0).
  pose proof Hwf as Hall. rewrite Forall_forall in Hall.
  destruct (Hall b Hb) as (name & Hsf & [Hc Hv'] & _).
  destruct (Hc c0 Hc0) as (_ & Hname0 & Hids).
  pose proof (Hids id Hid0) as Hidb.
  rewrite (Hvars b Hb id Hidb) in Hv.
  destruct (variables (blk_host b) !! id) as [v0|] eqn:Hv0; [| discriminate].
  injection Hv as <-.
  destruct (Hv' id v0 Hv0) as (_ & (c1 & Hfind & _) & _).
  pose proof (findCollection_elem _ _ _ Hfind) as [Hin1 Hid1].
  destruct (Hc c1 Hin1) as (Hcb1 & Hname1 & _).
  destruct Hshape as [Hc2 Hs2]. specialize (Hs2 (id + blk_offset b)).
  rewrite (Hvars b Hb id Hidb), Hv0 in Hs2. simpl in Hs2.
  unfold viewValue, getVariableById, getVariableCollectionById.
  destruct (variables h2 !! (id + blk_offset b)) as [v2|]; [| discriminate].
  injection Hs2 as Hn2 Hcid2 _ _ _. rewrite Hcid2, Hc2, Hcols.
  rewrite (findCollection_laid d bs b) by (done || lia).
  rewrite Hfind. simpl. rewrite Hn2, Hname1.
  unfold aliasName. rewrite Hname0.
  by rewrite (splitKey_join name (var_name v0) Hsf).
Qed.

Lemma settle_wired b id mode (pend : list PendingAlias) cellG cellL :
  b ∈ bs -> id < nextId (blk_host b) ->
  (forall p, p ∈ pend -> p_variable p < nextId (blk_host b)) ->
  viewValue h2 <$> cellG = cellL ->
  viewValue h2 <$>
    fold_left (wireStep (variableMap (Cache.rebuild h c)) h
                 (id + blk_offset b) (mode + blk_offset b))
              (map (shiftPending (blk_offset b)) pend) cellG
  = fold_left (settle (resolvesIn h) (blk_host b) id mode) pend cellL.
Proof.
  intros Hb Hid. revert cellG cellL.
  induction pend as [|p pend IH]; intros cellG cellL Hp Hcell; [done |].
  simpl. apply IH; [intros q Hq; apply Hp; by apply list_elem_of_further |].
  unfold wireStep, settle, resolvesIn.
  change (aliasKey (shiftPending (blk_offset b) p)) with (aliasKey p).
  rewrite !rebuild_variableMap. cbn [shiftPending p_variable p_modeId].
  rewrite (writable_laid h bs d Hcols Hvars Hcont Hwf b)
    by (done || apply Hp, list_elem_of_here).
  replace (N.eqb (p_variable p + blk_offset b) (id + blk_offset b))
    with (N.eqb (p_variable p) id)
    by (destruct (N.eqb_spec (p_variable p) id),
                 (N.eqb_spec (p_variable p + blk_offset b) (id + blk_offset b));
        (done || lia)).
  replace (N.eqb (p_modeId p + blk_offset b) (mode + blk_offset b))
    with (N.eqb (p_modeId p) mode)
    by (destruct (N.eqb_spec (p_modeId p) mode),
                 (N.eqb_spec (p_modeId p + blk_offset b) (mode + blk_offset b));
        (done || lia)).
  destruct (foldl _ ∅ (cacheEntries h) !! aliasKey p) as [target|] eqn:Hk.
  - rewrite bool_decide_true by done. simpl.
    destruct (_ && _ && _); [| done]. simpl.
    f_equal. apply alias_view. by rewrite rebuild_variableMap.
  - rewrite bool_decide_false by (by intros [? ?]). done.
Qed.

Lemma cellOf_wired b id mode :
  b ∈ bs -> id < nextId (blk_host b) ->
  cellOf h2 (id + blk_offset b) (mode + blk_offset b)
  = finalCell (resolvesIn h) (blk_host b) (blk_pending b) id mode.
Proof.
  intros Hb Hid. rewrite cellOf_cellRaw, Hcells.
  rewrite (wireStep_block _ _ d bs b) by done.
  unfold finalCell, blockPending.
  pose proof Hwf as Hall. rewrite Forall_forall in Hall.
  destruct (Hall b Hb) as (name & _ & [_ Hv'] & _ & Hpend).
  apply settle_wired; [done | done | intros p Hp; exact (proj1 (Hpend p Hp)) |].
  rewrite (cellRaw_laid h bs Hvars Hwf b) by done.
  rewrite cellOf_cellRaw. unfold cellRaw.
  destruct (variables (blk_host b) !! id) as [v|] eqn:Hv; [| done].
  destruct (alookup (valuesByMode v) mode) as [x|] eqn:Hx; [| done]. simpl.
  destruct (Hv' id v Hv) as (_ & _ & Hraw). specialize (Hraw mode x Hx).
  by destruct x.
Qed.
End WiredStore.

(** ** The view of a laid-out store *)

Lemma omap_map_ext {A B C} (f : B -> option C) (f' : A -> option C)
  (g : A -> B) (l : list A) :
  (forall x, x ∈ l -> f (g x) = f' x) -> omap f (map g l) = omap f' l.
Proof.
  induction l as [|x l IH]; intros Hl; simpl; [done |].
  rewrite (Hl x (list_elem_of_here _ _)).
  assert (E : omap f (map g l) = omap f' l)
    by (apply IH; intros y Hy; apply Hl; by apply list_elem_of_further).
  destruct (f' x); [f_equal |]; exact E.
Qed.

Lemma map_map_ext_in {A B C} (f : B -> C) (f' : A -> C) (g : A -> B)
  (l : list A) :
  (forall x, x ∈ l -> f (g x) = f' x) -> map f (map g l) = map f' l.
Proof.
  induction l as [|x l IH]; intros Hl; simpl; [done |].
  rewrite (Hl x (list_elem_of_here _ _)).
  rewrite IH by (intros y Hy; apply Hl; by apply list_elem_of_further). done.
Qed.

Lemma local_flat_map {A} (f : A -> list VariableCollection) (l : list A) :
  filter (fun c => col_remote c = false) (flat_map f l)
  = flat_map (fun x => filter (fun c => col_remote c = false) (f x)) l.
Proof.
  induction l as [|x l IH]; simpl; [done |]. by rewrite filter_app, IH.
Qed.

Lemma map_flat_map {A B C} (g : B -> C) (f : A -> list B) (l : list A) :
  map g (flat_map f l) = flat_map (fun x => map g (f x)) l.
Proof.
  induction l as [|x l IH]; simpl; [done |]. by rewrite map_app, IH.
Qed.

Lemma flat_map_ext_elem {A B} (f g : A -> list B) (l : list A) :
  (forall x, x ∈ l -> f x = g x) -> flat_map f l = flat_map g l.
Proof.
  induction l as [|x l IH]; intros Hl; simpl; [done |].
  rewrite (Hl x (list_elem_of_here _ _)).
  rewrite IH by (intros y Hy; apply Hl; by apply list_elem_of_further). done.
Qed.

Lemma local_shiftCol d (l : list VariableCollection) :
  filter (fun c => col_remote c = false) (map (shiftCol d) l)
  = map (shiftCol d) (filter (fun c => col_remote c = false) l).
Proof.
  induction l as [|c l IH]; simpl; [done |].
  rewrite !filter_cons. simpl.
  destruct (decide (col_remote c = false)); simpl; by rewrite IH.
Qed.

Section WiredView.
Variable h h2 : Host.
Variable bs : list Block.
Variable d : N.
Variable c : VariableCache.
Hypothesis Hcols : collections h = flat_map blockCollections bs.
Hypothesis Hvars :
  forall b, b ∈ bs ->
    forall id, id < nextId (blk_host b) ->
      variables h !! (id + blk_offset b)
      = shiftVar (blk_offset b) <$> variables (blk_host b) !! id.
Hypothesis Hcont : contiguous d bs.
Hypothesis Hwf : Forall blockWf bs.
Hypothesis Hshape : sameShape h h2.
Hypothesis Hcells :
  forall var mode,
    cellRaw h2 var mode
    = fold_left (wireStep (variableMap (Cache.rebuild h c)) h var mode)
                (flat_map blockPending bs) (cellRaw h var mode).

Lemma collectionView_wired b c0 :
  b ∈ bs -> c0 ∈ collections (blk_host b) ->
  collectionViewBy (getVariableById h2) (cellOf h2) (shiftCol (blk_offset b) c0)
  = collectionViewBy (getVariableById (blk_host b))
      (finalCell (resolvesIn h) (blk_host b) (blk_pending b)) c0.
Proof.
  intros Hb Hc0. unfold collectionViewBy. cbn [shiftCol col_name col_modes variableIds].
  pose proof Hwf as Hall. rewrite Forall_forall in Hall.
  destruct (Hall b Hb) as (name & _ & [Hc _] & _).
  destruct (Hc c0 Hc0) as (_ & _ & Hids).
  f_equal.
  - rewrite map_map. by apply map_ext.
  - apply omap_map_ext. intros id Hid. specialize (Hids id Hid).
    destruct Hshape as [_ Hs2]. specialize (Hs2 (id + blk_offset b)).
    rewrite (Hvars b Hb id Hids) in Hs2. unfold getVariableById.
    destruct (variables (blk_host b) !! id) as [v0|],
             (variables h2 !! (id + blk_offset b)) as [v2|];
      simpl in Hs2 |- *; try done.
    injection Hs2 as Hn _ Ht Hd Hsc. f_equal.
    unfold variableViewBy. cbn [col_modes]. rewrite Hn, Ht, Hd, Hsc. f_equal.
    apply omap_map_ext. intros m _. cbn [shiftMode modeId mode_name].
    by rewrite (cellOf_wired h h2 bs d c Hcols Hvars Hcont Hwf Hshape Hcells b).
Qed.

Lemma storeView_wired :
  storeView h2
  = flat_map (fun b => blockView (resolvesIn h) (blk_host b) (blk_pending b)) bs.
Proof.
  unfold storeView, getLocalVariableCollections.
  destruct Hshape as [-> _]. rewrite Hcols, local_flat_map, map_flat_map.
  apply flat_map_ext_elem. intros b Hb.
  unfold blockCollections, blockView, getLocalVariableCollections.
  rewrite local_shiftCol. apply map_map_ext_in. intros c0 Hc0.
  apply list_elem_of_filter in Hc0 as [_ Hc0].
  by apply collectionView_wired.
Qed.
End WiredView.

(** ** Import into the empty store *)

Section BlankRuns.
Variable fromCss : string -> RGBA.

Lemma blank_clearVariables st :
  blank st ->
  returns (fst (clearVariables permissive st))
  /\ blank (snd (clearVariables permissive st)).
Proof.
  destruct st as [h c o]. intros (Hh & Hc & Hv). simpl in *. subst h.
  by repeat split.
Qed.

Lemma blank_clearStyles st :
  blank st ->
  returns (fst (clearStyles permissive st))
  /\ blank (snd (clearStyles permissive st)).
Proof.
  destruct st as [h c o]. intros (Hh & Hc & Hv). simpl in *. subst h.
  by repeat split.
Qed.

Lemma blank_clearAll st :
  blank st ->
  returns (fst (clearAll permissive st)) /\ blank (snd (clearAll permissive st)).
Proof.
  destruct st as [h c o]. intros (Hh & Hc & Hv). simpl in *. subst h.
  by repeat split.
Qed.

Lemma blank_rebuildCache st :
  blank st ->
  returns (fst (rebuildCache st)) /\ blank (snd (rebuildCache st)).
Proof.
  destruct st as [h c o]. intros (Hh & Hc & Hv). simpl in *. subst h.
  by repeat split.
Qed.

Lemma blank_initializeCache st :
  blank st ->
  returns (fst (initializeCache st)) /\ blank (snd (initializeCache st)).
Proof.
  destruct st as [h c o]. intros (Hh & Hc & Hv). simpl in *. subst h.
  unfold initializeCache, bind, getHost, modifyCache, Cache.initialize. simpl.
  destruct (initialized c); by repeat split.
Qed.

Lemma blank_bind {A B} (m : M A) (k : A -> M B) st :
  (returns (fst (m st)) /\ blank (snd (m st))) ->
  exists a st', blank st' /\ bind m k st = k a st'.
Proof.
  unfold bind. destruct (m st) as [[a|e] st']; simpl; intros [Hr Hb]; [| done].
  by exists a, st'.
Qed.

Lemma importTry_blank doc options st :
  blank st ->
  exists st0,
    blank st0
    /\ importTry fromCss permissive (Some doc) options st
       = importBody fromCss permissive doc options st0.
Proof.
  intros Hb. unfold importTry.
  destruct (blank_bind
              (if clearFirst options
               then clearAll permissive ;;; rebuildCache else ret tt)
              (fun _ =>
                 (match customMerge options with
                  | Some (shouldClearVars, shouldClearStyles) =>
                      (if shouldClearVars && shouldClearStyles
                       then clearAll permissive
                       else if shouldClearVars then clearVariables permissive
                       else if shouldClearStyles then clearStyles permissive
                       else ret tt) ;;;
                      rebuildCache
                  | None => ret tt
                  end) ;;;
                 initializeCache ;;;
                 importBody fromCss permissive doc options) st)
    as (a1 & st1 & Hb1 & ->).
  { destruct (clearFirst options); [| by split].
    destruct (blank_bind (clearAll permissive) (fun _ => rebuildCache) st
                (blank_clearAll st Hb)) as (a & s & Hs & ->).
    by apply blank_rebuildCache. }
  destruct (blank_bind
              (match customMerge options with
               | Some (shouldClearVars, shouldClearStyles) =>
                   (if shouldClearVars && shouldClearStyles
                    then clearAll permissive
                    else if shouldClearVars then clearVariables permissive
                    else if shouldClearStyles then clearStyles permissive
                    else ret tt) ;;;
                   rebuildCache
               | None => ret tt
               end)
              (fun _ => initializeCache ;;;
                        importBody fromCss permissive doc options) st1)
    as (a2 & st2 & Hb2 & ->).
  { destruct (customMerge options) as [[vars styles]|]; [| by split].
    destruct (blank_bind
                (if vars && styles then clearAll permissive
                 else if vars then clearVariables permissive
                 else if styles then clearStyles permissive
                 else ret tt)
                (fun _ => rebuildCache) st1) as (a & s & Hs & ->).
    { destruct vars, styles; simpl;
        auto using blank_clearAll, blank_clearVariables, blank_clearStyles. }
    by apply blank_rebuildCache. }
  destruct (blank_bind initializeCache
              (fun _ => importBody fromCss permissive doc options) st2
              (blank_initializeCache st2 Hb2)) as (a3 & st3 & Hb3 & ->).
  by exists st3.
Qed.

Lemma takeSnapshot_blank :
  returns (fst (takeSnapshot permissive freshState))
  /\ blank (snd (takeSnapshot permissive freshState)).
Proof. by vm_compute. Qed.
End BlankRuns.

Section ImportRun.
Variable fromCss : string -> RGBA.

Lemma separate_fold (doc : ExportFormat) styles (items : list Item) :
  Forall (fun item => collectionEntry item = true) doc ->
  fold_left
    (fun acc item =>
       if isStylesKey item then (Some (stylesOf item), snd acc)
       else (fst acc, (snd acc ++ [item])%list))
    doc (styles, items)
  = (styles, (items ++ doc)%list).
Proof.
  revert items. induction doc as [|item doc IH]; intros items Hall; simpl.
  - by rewrite app_nil_r.
  - apply Forall_cons in Hall as [Hitem Hall].
    apply andb_prop in Hitem as [Hst _].
    destruct (isStylesKey item); [discriminate |]. simpl.
    by rewrite IH, <- app_assoc.
Qed.

Lemma separate_collections (doc : ExportFormat) :
  Forall (fun item => collectionEntry item = true) doc ->
  separate doc = (None, doc).
Proof. intros Hall. unfold separate. by rewrite separate_fold. Qed.

Lemma entryNames_collections (doc : ExportFormat) :
  Forall (fun item => collectionEntry item = true) doc ->
  map entryName doc = map Some (collectionNames doc).
Proof.
  unfold collectionNames.
  induction doc as [|item doc IH]; intros Hall; simpl; [done |].
  apply Forall_cons in Hall as [Hitem Hall].
  apply andb_prop in Hitem as [Hst Hne].
  destruct (isStylesKey item); [discriminate |].
  destruct item as [|[k v] rest]; [discriminate |]. simpl.
  f_equal. by apply IH.
Qed.

Lemma importCatch_last rejects snap e st stats :
  last (outbox (snd (importCatch fromCss rejects snap e st)))
  ≠ Some (MsgImportComplete stats).
Proof.
  unfold importCatch. destruct snap as [s|].
  - unfold bind at 1, send at 1. unfold tryCatch, bind.
    destruct (restoreFromSnapshot fromCss rejects s _) as [[[]|re] st'];
      unfold send; simpl; by rewrite last_snoc.
  - unfold send. simpl. by rewrite last_snoc.
Qed.

Lemma importBody_run (doc : ExportFormat) (options : ImportOptions) st0 :
  separate doc = (None, doc) ->
  match pass1 fromCss permissive options doc st0 with
  | (Ok p1, st1) =>
      exists stats st',
        importBody fromCss permissive doc options st0 = (Ok tt, st')
        /\ host st' = host (snd (pass2 permissive (allPendingAliases p1) st1))
        /\ last (outbox st') = Some (MsgImportComplete stats)
  | (Throw e, st1) =>
      importBody fromCss permissive doc options st0 = (Throw e, st1)
  end.
Proof.
  intros Hsep.
  destruct (pass1 fromCss permissive options doc st0) as [[p1|e] st1] eqn:Hp1;
    unfold importBody; rewrite Hsep; cbn [fst snd]; unfold bind at 1;
    rewrite Hp1; [| done].
  unfold bind at 1.
  destruct (pass2_total permissive (allPendingAliases p1) st1)
    as (counts & st2 & Hp2).
  rewrite Hp2. unfold ret, bind, send. simpl.
  eexists _, _. split; [reflexivity |]. simpl. split; [done |].
  by rewrite last_snoc.
Qed.

Lemma import_outcome (doc : ExportFormat) (options : ImportOptions) :
  Forall (fun item => collectionEntry item = true) doc ->
  exists st0,
    blank st0
    /\ match fst (pass1 fromCss permissive options doc st0) with
       | Ok p1 =>
           completes fromCss options doc
           /\ importedStore fromCss options doc
              = host (snd (pass2 permissive (allPendingAliases p1)
                             (snd (pass1 fromCss permissive options doc st0))))
       | Throw _ => ~ completes fromCss options doc
       end.
Proof.
  intros Hall.
  destruct (takeSnapshot_blank) as [Hret Hblank].
  destruct (takeSnapshot permissive freshState) as [[snap|e] st_s] eqn:Hsnap;
    simpl in Hret, Hblank; [| done].
  destruct (importTry_blank fromCss doc options st_s Hblank) as (st0 & Hb0 & Htry).
  exists st0. split; [done |].
  assert (Hrun : importVariables fromCss permissive (Some doc) options freshState
                 = tryCatch (importBody fromCss permissive doc options)
                            (importCatch fromCss permissive snap) st0).
  { unfold importVariables, bind. rewrite Hsnap. unfold tryCatch.
    by rewrite Htry. }
  unfold completes, importedStore. rewrite Hrun. unfold tryCatch.
  pose proof (importBody_run doc options st0 (separate_collections doc Hall))
    as Hbody.
  destruct (pass1 fromCss permissive options doc st0) as [[p1|e] st1]; simpl.
  - destruct Hbody as (stats & st' & -> & Hh & Hl). simpl.
    split; [by exists stats | done].
  - rewrite Hbody. intros [stats Hlast]. by apply importCatch_last in Hlast.
Qed.
End ImportRun.

(** ** The imported store, entry by entry *)

Lemma omap_ext_all {A B} (f f' : A -> option B) (l : list A) :
  (forall x, f x = f' x) -> omap f l = omap f' l.
Proof.
  intros Hf. induction l as [|x l IH]; simpl; [done |].
  rewrite Hf. destruct (f' x); [f_equal |]; exact IH.
Qed.

Lemma finalCell_ext (r r' : string -> bool) B pend var mode :
  (forall key, r key = r' key) ->
  finalCell r B pend var mode = finalCell r' B pend var mode.
Proof.
  intros Hr. unfold finalCell. generalize (cellOf B var mode) as cell.
  induction pend as [|p pend IH]; intros cell; simpl; [done |].
  rewrite IH. unfold settle. by rewrite Hr.
Qed.

Lemma blockView_ext (r r' : string -> bool) B pend :
  (forall key, r key = r' key) -> blockView r B pend = blockView r' B pend.
Proof.
  intros Hr. unfold blockView. apply map_ext. intros c0.
  unfold collectionViewBy. f_equal. apply omap_ext_all. intros id.
  destruct (getVariableById B id) as [v|]; simpl; [| done]. f_equal.
  unfold variableViewBy. f_equal. apply omap_ext_all. intros m.
  by rewrite (finalCell_ext r r').
Qed.

Section EntryViews.
Variable fromCss : string -> RGBA.
Variable options : ImportOptions.

Lemma layout_views (r : string -> bool) (l : list Item) d :
  flat_map (fun b => blockView r (blk_host b) (blk_pending b))
           (layout fromCss options d l)
  = flat_map (entryView fromCss options r) l.
Proof.
  revert d. induction l as [|x l IH]; intros d; simpl; [done |].
  by rewrite IH.
Qed.

Lemma layout_hosts (l : list Item) d (P : Host -> Prop) :
  (exists b, b ∈ layout fromCss options d l /\ P (blk_host b))
  <-> exists item, item ∈ l /\ P (host (snd (isolated fromCss options item))).
Proof.
  revert d. induction l as [|x l IH]; intros d; simpl.
  - split; intros (y & Hy & _); by apply elem_of_nil in Hy.
  - split.
    + intros (b & [->|Hb]%elem_of_cons & HP).
      * exists x. split; [apply list_elem_of_here | done].
      * destruct (proj1 (IH _) (ex_intro _ b (conj Hb HP))) as (item & Hi & HPi).
        exists item. split; [by apply list_elem_of_further | done].
    + intros (item & [->|Hi]%elem_of_cons & HP).
      * eexists. split; [apply list_elem_of_here | done].
      * destruct (proj2 (IH (d + nextId (host (snd (isolated fromCss options x)))))
                    (ex_intro _ item (conj Hi HP))) as (b & Hb & HPb).
        exists b. split; [by apply list_elem_of_further | done].
Qed.
End EntryViews.

Section LaidKeys.
Variable h : Host.
Variable bs : list Block.
Hypothesis Hcols : collections h = flat_map blockCollections bs.
Hypothesis Hvars :
  forall b, b ∈ bs ->
    forall id, id < nextId (blk_host b) ->
      variables h !! (id + blk_offset b)
      = shiftVar (blk_offset b) <$> variables (blk_host b) !! id.
Hypothesis Hwf : Forall blockWf bs.

Lemma laid_keys key :
  (exists t, (key, t) ∈ cacheEntries h)
  <-> exists b, b ∈ bs /\ exists t, (key, t) ∈ cacheEntries (blk_host b).
Proof.
  pose proof Hwf as Hall. rewrite Forall_forall in Hall. split.
  - intros (t & (col & v & Hcol & Hid & Hv & ->)%elem_of_cacheEntries).
    apply list_elem_of_filter in Hcol as [Hlocal Hcol]. rewrite Hcols in Hcol.
    apply list_elem_of_In, in_flat_map in Hcol as (b & Hb & Hin).
    apply list_elem_of_In in Hb, Hin.
    apply list_elem_of_fmap in Hin as (c0 & -> & Hc0).
    simpl in Hid. apply list_elem_of_fmap in Hid as (id & -> & Hid0).
    destruct (Hall b Hb) as (name & _ & [Hc _] & _).
    destruct (Hc c0 Hc0) as (_ & _ & Hids).
    rewrite (Hvars b Hb id (Hids id Hid0)) in Hv.
    destruct (variables (blk_host b) !! id) as [v0|] eqn:Hv0; [| discriminate].
    injection Hv as <-. exists b. split; [done |]. exists id.
    apply elem_of_cacheEntries. exists c0, v0.
    split; [by apply list_elem_of_filter |]. done.
  - intros (b & Hb & t & (c0 & v0 & Hc0 & Hid & Hv0 & ->)%elem_of_cacheEntries).
    apply list_elem_of_filter in Hc0 as [Hlocal Hc0].
    destruct (Hall b Hb) as (name & _ & [Hc _] & _).
    destruct (Hc c0 Hc0) as (_ & _ & Hids).
    exists (t + blk_offset b). apply elem_of_cacheEntries.
    exists (shiftCol (blk_offset b) c0), (shiftVar (blk_offset b) v0).
    split; [| split; [| split]].
    + apply list_elem_of_filter. split; [done |]. rewrite Hcols.
      apply list_elem_of_In, in_flat_map. exists b.
      split; [by apply list_elem_of_In |]. apply list_elem_of_In.
      apply list_elem_of_fmap. by exists c0.
    + simpl. apply list_elem_of_fmap. by exists t.
    + by rewrite (Hvars b Hb t (Hids t Hid)), Hv0.
    + done.
Qed.
End LaidKeys.

Section ImportedStore.
Variable fromCss : string -> RGBA.
Variable options : ImportOptions.

Lemma blank_start st0 :
  blank st0 ->
  frameOk (host st0) /\ varsBelow (host st0) /\ cacheKeysIn [] (cache st0)
  /\ nextId (host st0) = 0 /\ collections (host st0) = [].
Proof.
  intros (-> & Hc & Hv). split; [intros c Hin; by apply elem_of_nil in Hin |].
  split; [intros id _; apply lookup_empty |].
  split; [| done]. split.
  - intros n id. by rewrite Hc, lookup_empty.
  - intros key id. by rewrite Hv, lookup_empty.
Qed.

Lemma import_spec (doc : ExportFormat) :
  cleanDocument doc ->
  (completes fromCss options doc
   <-> Forall (fun x => returns (fst (isolated fromCss options x))) doc)
  /\ (completes fromCss options doc ->
      exists r : string -> bool,
        (forall key, r key = true <-> docResolves fromCss options doc key)
        /\ storeView (importedStore fromCss options doc)
           = flat_map (entryView fromCss options r) doc).
Proof.
  intros [Hentries Hclean].
  destruct (import_outcome fromCss doc options Hentries) as (st0 & Hblank & Hout).
  destruct (blank_start st0 Hblank) as (HF & Hbelow & Hkeys & Hn0 & Hc0).
  pose proof (pass1_laid fromCss options doc (collectionNames doc) [] st0 noPass1
                (entryNames_collections doc Hentries)) as Hlaid.
  rewrite app_nil_r in Hlaid. specialize (Hlaid Hclean Hkeys HF Hbelow).
  change (foldM (pass1Collection fromCss permissive options) noPass1 doc st0)
    with (pass1 fromCss permissive options doc st0) in Hlaid.
  destruct (pass1 fromCss permissive options doc st0) as [[p1|e] st1];
    simpl in Hout, Hlaid.
  2:{ split; [by split | by intros ?]. }
  destruct Hout as [Hcomplete Hstore].
  destruct Hlaid as (Hall & (Hcols & _ & Hvars & _) & Hpend).
  rewrite Hn0 in *. rewrite Hc0 in Hcols. simpl in Hcols, Hpend.
  split; [by split |]. intros _.
  set (bs := layout fromCss options 0 doc) in *.
  assert (Hwf : Forall blockWf bs).
  { apply (layout_blockWf fromCss options doc (collectionNames doc));
      [by apply entryNames_collections | by destruct Hclean]. }
  pose proof (layout_contiguous fromCss options doc 0) as Hcont.
  exists (resolvesIn (host st1)). split.
  - intros key. unfold resolvesIn. rewrite bool_decide_eq_true.
    rewrite rebuild_complete, (laid_keys (host st1) bs Hcols Hvars Hwf).
    unfold docResolves.
    pose proof (layout_hosts fromCss options doc 0
                  (fun B => exists t, (key, t) ∈ cacheEntries B)) as Hh.
    cbv beta in Hh. fold bs in Hh. rewrite Hh. clear Hh.
    split.
    + intros (item & Hi & t & Ht). by exists item, t.
    + intros (item & t & Hi & Ht). exists item. split; [done | by exists t].
  - rewrite Hstore, pass2_host, Hpend.
    destruct (fold_wire_spec
                (variableMap (Cache.rebuild (host st1) (cache st1)))
                (flat_map blockPending bs) (host st1)) as [Hshape Hcells].
    rewrite (storeView_wired (host st1) _ bs 0 (cache st1)
               Hcols Hvars Hcont Hwf Hshape Hcells).
    apply layout_views.
Qed.
End ImportedStore.

Lemma cleanDocument_perm (doc doc' : ExportFormat) :
  doc ≡ₚ doc' -> cleanDocument doc -> cleanDocument doc'.
Proof.
  intros Hperm [Hentries [Hnd Hsf]].
  assert (Hnames : collectionNames doc ≡ₚ collectionNames doc').
  { unfold collectionNames. by rewrite Hperm. }
  split; [by rewrite <- Hperm |]. split; by rewrite <- Hnames.
Qed.



(** In both orders [B/y] ends as the alias of [A/x]. *)
Example alias_wired_both_orders :
  storeView (importedStore noCss defaultOptions aliasBefore)
  = [ {| cv_name := "B"; cv_modes := ["Mode 1"];
         cv_variables :=
           [ {| vv_name := "y"; vv_type := FLOAT; vv_description := "";
                vv_scopes := ["ALL_SCOPES"];
                vv_values := [("Mode 1", AliasTo "A" "x")] |} ] |};
      {| cv_name := "A"; cv_modes := ["Mode 1"];
         cv_variables :=
           [ {| vv_name := "x"; vv_type := FLOAT; vv_description := "";
                vv_scopes := ["ALL_SCOPES"];
                vv_values := [("Mode 1", Raw (VNumber 1))] |} ] |} ].
Proof. vm_compute. reflexivity. Qed.


(** ** Segments of a name *)

Lemma append_nil_r (s : string) : s +:+ "" = s.
Proof.
  induction s as [|a s IH]; [done |].
  change (String a (s +:+ "") = String a s). by rewrite IH.
Qed.

Lemma splitSlashGo_cons cur s :
  exists p rest, Js.splitSlashGo cur s = p :: rest.
Proof.
  revert cur. induction s as [|c s IH]; intros cur; simpl; [eauto |].
  destruct (Ascii.eqb c "/"); eauto.
Qed.

Lemma join_cons sep p q rest :
  Js.join sep (p :: q :: rest) = p +:+ sep +:+ Js.join sep (q :: rest).
Proof. reflexivity. Qed.

Lemma rev_app_append a b : String.rev_app a b = String.rev_app a "" +:+ b.
Proof.
  revert b. induction a as [|x a IH]; intros b; [done |].
  cbn [String.rev_app]. rewrite (IH (String x b)), (IH (String x "")).
  by rewrite append_assoc.
Qed.

Lemma rev_app_truthy a b :
  Js.truthy a || Js.truthy b = true -> Js.truthy (String.rev_app a b) = true.
Proof.
  revert b. induction a as [|x a IH]; intros b; [done |].
  intros _. cbn [String.rev_app]. apply IH. apply orb_true_r.
Qed.

Lemma join_splitSlashGo cur s :
  Js.join "/" (Js.splitSlashGo cur s) = String.rev_app cur s.
Proof.
  revert cur. induction s as [|c s IH]; intros cur.
  - reflexivity.
  - cbn [Js.splitSlashGo]. destruct (Ascii.eqb_spec c "/") as [->|Hne].
    + destruct (splitSlashGo_cons "" s) as (p & rest & E).
      specialize (IH ""). rewrite E in *. rewrite join_cons, IH.
      by rewrite (rev_app_append cur (String "/" s)).
    + by rewrite IH.
Qed.

Lemma join_splitSlash s : Js.join "/" (Js.splitSlash s) = s.
Proof. apply join_splitSlashGo. Qed.

Lemma splitSlash_cons s : exists p rest, Js.splitSlash s = p :: rest.
Proof. apply splitSlashGo_cons. Qed.

Lemma splitSlash_inj a b : Js.splitSlash a = Js.splitSlash b -> a = b.
Proof.
  intros E. rewrite <- (join_splitSlash a), <- (join_splitSlash b). by rewrite E.
Qed.

Lemma join_app sep l x rest :
  l <> [] ->
  Js.join sep (l ++ x :: rest)%list
  = Js.join sep l +:+ sep +:+ Js.join sep (x :: rest).
Proof.
  induction l as [|p l IH]; [done |]. intros _.
  destruct l as [|q l].
  - reflexivity.
  - specialize (IH ltac:(done)). cbn [app] in *.
    rewrite join_cons, IH, join_cons. by rewrite !append_assoc.
Qed.

Lemma startsWith_append p s : Js.startsWith (p +:+ s) p = true.
Proof.
  unfold Js.startsWith. induction p as [|a p IH]; [by destruct s |].
  rewrite append_cons. cbn [String.prefix].
  destruct (ascii_dec a a); [apply IH | done].
Qed.

(** A name whose segments extend those of another starts with it and a
    slash. *)
Lemma prefix_startsWith a b :
  Js.splitSlash a `prefix_of` Js.splitSlash b -> a <> b ->
  Js.startsWith b (a +:+ "/") = true.
Proof.
  intros [k Hk] Hne. destruct k as [|x rest].
  - rewrite app_nil_r in Hk. symmetry in Hk. by apply splitSlash_inj in Hk.
  - rewrite <- (join_splitSlash b), Hk.
    destruct (splitSlash_cons a) as (p & l & E).
    rewrite join_app by (by rewrite E). rewrite join_splitSlash.
    rewrite <- append_assoc. apply startsWith_append.
Qed.

(** The first segment of a name that does not start with a slash. *)
Lemma splitSlashGo_head cur s :
  Js.truthy cur = true ->
  match Js.splitSlashGo cur s with
  | p :: _ => Js.truthy p = true
  | [] => False
  end.
Proof.
  revert cur. induction s as [|c s IH]; intros cur Hcur; simpl.
  - apply rev_app_truthy. by rewrite Hcur.
  - destruct (Ascii.eqb c "/"); [| by apply IH].
    apply rev_app_truthy. by rewrite Hcur.
Qed.

Lemma splitSlash_head s :
  Js.startsWith s "/" = false ->
  match Js.splitSlash s with
  | [p] => True
  | p :: _ => Js.truthy p = true
  | [] => False
  end.
Proof.
  unfold Js.splitSlash. destruct s as [|c s]; [done |].
  intros Hs. cbn [Js.splitSlashGo].
  destruct (Ascii.eqb_spec c "/") as [->|Hne].
  - by destruct s.
  - pose proof (splitSlashGo_head (String c "") s eq_refl) as H.
    destruct (Js.splitSlashGo (String c "") s) as [|p [|q l]]; done.
Qed.

(** ** Objects *)

Lemma jsGet_None {A} (t : list (string * A)) k :
  jsGet t k = None <-> k ∉ map fst t.
Proof.
  induction t as [|[k0 w] t IH]; simpl.
  - split; [intros _ H; by apply elem_of_nil in H | done].
  - rewrite not_elem_of_cons. destruct (String.eqb_spec k0 k) as [->|Hne].
    + split; [done | by intros [? _]].
    + rewrite IH. split; [by intros ?; split | by intros [_ ?]].
Qed.

Lemma jsGet_split {A} (t : list (string * A)) k n :
  jsGet t k = Some n ->
  exists t1 t2, t = (t1 ++ (k, n) :: t2)%list /\ jsGet t1 k = None.
Proof.
  induction t as [|[k0 w] t IH]; simpl; [done |].
  destruct (String.eqb_spec k0 k) as [->|Hne].
  - intros [= ->]. by exists [], t.
  - intros (t1 & t2 & -> & H1)%IH. exists ((k0, w) :: t1), t2. split; [done |].
    simpl. by destruct (String.eqb_spec k0 k).
Qed.

Lemma jsGet_elem {A} (t : list (string * A)) k n :
  jsGet t k = Some n -> (k, n) ∈ t.
Proof.
  intros (t1 & t2 & -> & _)%jsGet_split.
  apply elem_of_app. right. apply list_elem_of_here.
Qed.

Lemma jsGet_NoDup {A} (t : list (string * A)) k n :
  NoDup (map fst t) -> (k, n) ∈ t -> jsGet t k = Some n.
Proof.
  induction t as [|[k0 w] t IH]; simpl.
  - intros _ H. by apply elem_of_nil in H.
  - intros [Hk Hnd]%NoDup_cons [[= <- <-]|Hin]%elem_of_cons.
    + by rewrite String.eqb_refl.
    + destruct (String.eqb_spec k0 k) as [->|Hne]; [| by apply IH].
      destruct Hk. apply list_elem_of_fmap. by exists (k, n).
Qed.

Lemma jsSet_split {A} (t1 t2 : list (string * A)) k n v :
  jsGet t1 k = None ->
  jsSet (t1 ++ (k, n) :: t2)%list k v = (t1 ++ (k, v) :: t2)%list.
Proof.
  induction t1 as [|[k0 w] t1 IH]; simpl.
  - by rewrite String.eqb_refl.
  - destruct (String.eqb_spec k0 k); [done |]. intros H. by rewrite IH.
Qed.

Lemma objInsert_perm {A} (t : list (string * A)) k v :
  objInsert t k v ≡ₚ (k, v) :: t.
Proof.
  induction t as [|[k0 w] t IH]; simpl.
  - by destruct (arrayIndex k).
  - destruct (arrayIndex k) as [n|].
    + destruct (arrayIndex k0) as [m|]; [| done].
      destruct (m <? n); [| done]. rewrite IH. apply perm_swap.
    + change ((k0, w) :: t ++ [(k, v)])%list with (((k0, w) :: t) ++ [(k, v)])%list.
      by rewrite <- Permutation_cons_append.
Qed.

(** ** Trees *)

Lemma leavesOf_group children :
  leavesOf (Group children)
  = flat_map (fun kv => map (fun e => (fst kv :: fst e, snd e))
                            (leavesOf (snd kv)))
             children.
Proof.
  induction children as [|[k c] rest IH]; [done |].
  simpl in *. by rewrite IH.
Qed.

Lemma flattenNode_group prefix key children :
  flattenNode prefix key (Group children)
  = flat_map (fun kv => flattenNode (joinPath prefix key) (fst kv) (snd kv))
             children.
Proof.
  simpl. generalize (joinPath prefix key) as p. intros p.
  induction children as [|[k c] rest IH]; [done |].
  simpl. by rewrite IH.
Qed.

Lemma flat_map_map {A B C} (f : B -> C) (g : A -> list B) (l : list A) :
  map f (flat_map g l) = flat_map (fun x => map f (g x)) l.
Proof.
  induction l as [|x l IH]; [done |]. simpl. by rewrite map_app, IH.
Qed.

Lemma flat_map_ext_Forall {A B} (f g : A -> list B) (l : list A) :
  Forall (fun x => f x = g x) l -> flat_map f l = flat_map g l.
Proof. induction 1 as [|x l E _ IH]; [done |]. simpl. by rewrite E, IH. Qed.

(** The paths of the flattening under a prefix that is not empty. *)
Lemma flattenNode_under (n : Node) :
  forall prefix key,
    Js.truthy prefix = true ->
    flattenNode prefix key n
    = map (fun e => (prefix +:+ "/" +:+ Js.join "/" (key :: fst e), snd e))
          (leavesOf n).
Proof.
  induction n as [v|children IH] using Node_ind'; intros prefix key Hp.
  - simpl. unfold joinPath. by rewrite Hp.
  - rewrite flattenNode_group, leavesOf_group, flat_map_map.
    apply flat_map_ext_Forall. eapply Forall_impl; [exact IH |].
    intros [k c] Hc. simpl in *. rewrite Hc.
    2:{ unfold joinPath. rewrite Hp. by destruct prefix. }
    rewrite map_map. apply map_ext. intros [p v]. simpl.
    unfold joinPath. rewrite Hp. f_equal.
    destruct p; by rewrite !append_assoc.
Qed.

(** The paths of the flattening at the root. *)
Lemma flattenNode_root key (n : Node) :
  match n with Leaf _ => True | Group _ => Js.truthy key = true end ->
  flattenNode "" key n
  = map (fun e => (Js.join "/" (key :: fst e), snd e)) (leavesOf n).
Proof.
  destruct n as [v|children]; intros Hk; [done |].
  rewrite flattenNode_group, leavesOf_group, flat_map_map.
  apply flat_map_ext_Forall, Forall_forall. intros [k c] _. simpl.
  change (joinPath "" key) with key.
  rewrite flattenNode_under by done.
  rewrite map_map. apply map_ext. by intros [p v].
Qed.

Lemma flattenVariables_leaves (t : NestedVariables) :
  rootsNamed t ->
  flattenVariables t ""
  = map (fun e => (Js.join "/" (fst e), snd e)) (leavesOf (Group t)).
Proof.
  intros Hroots. unfold flattenVariables.
  rewrite leavesOf_group, flat_map_map.
  apply flat_map_ext_Forall, Forall_forall. intros [k c] Hin. simpl.
  rewrite flattenNode_root.
  - by rewrite map_map.
  - destruct c as [v|children]; [done |]. by apply (Hroots k children).
Qed.

(** Descending along the keys of a leaf finds it. *)
Lemma descend_leaves (n : Node) :
  forall parts v,
    treeOk n -> (parts, v) ∈ leavesOf n -> descend n parts = Some v.
Proof.
  induction n as [w|children IH] using Node_ind'; intros parts v Hok Hin.
  - simpl in Hin. apply list_elem_of_singleton in Hin. by injection Hin as -> ->.
  - rewrite leavesOf_group in Hin.
    apply list_elem_of_In, in_flat_map in Hin as ([k c] & Hkc & Hin).
    apply in_map_iff in Hin as ([p w] & [= <- <-] & Hp). simpl in *.
    inversion Hok as [|? Hnd Hall]; subst.
    apply list_elem_of_In in Hkc, Hp.
    rewrite (jsGet_NoDup children k c Hnd Hkc).
    rewrite Forall_forall in IH, Hall.
    apply (IH (k, c) Hkc); [| done]. by apply (Hall (k, c)).
Qed.

Lemma leavesOf_perm t t' :
  t ≡ₚ t' -> leavesOf (Group t) ≡ₚ leavesOf (Group t').
Proof. intros H. rewrite !leavesOf_group. by apply Permutation_flat_map. Qed.

Lemma leavesOf_app t1 t2 :
  leavesOf (Group (t1 ++ t2)%list)
  = (leavesOf (Group t1) ++ leavesOf (Group t2))%list.
Proof. rewrite !leavesOf_group. apply flat_map_app. Qed.

Lemma leavesOf_cons k c rest :
  leavesOf (Group ((k, c) :: rest))
  = (map (fun e => (k :: fst e, snd e)) (leavesOf c)
       ++ leavesOf (Group rest))%list.
Proof. reflexivity. Qed.

Lemma treeOk_perm t t' : t ≡ₚ t' -> treeOk (Group t) -> treeOk (Group t').
Proof.
  intros H Hok. inversion Hok as [|? Hnd Hall]; subst. constructor.
  - by rewrite <- H.
  - by rewrite <- H.
Qed.

Lemma treeOk_cons k c t :
  treeOk (Group ((k, c) :: t))
  <-> (k ∉ map fst t) /\ treeOk c /\ leavesOf c <> [] /\ treeOk (Group t).
Proof.
  split.
  - intros Hok. inversion Hok as [|? Hnd Hall]; subst.
    simpl in Hnd. apply NoDup_cons in Hnd as [Hk Hnd].
    apply Forall_cons in Hall as [[Hc Hne] Hall].
    repeat split; try done. by constructor.
  - intros (Hk & Hc & Hne & Hok). inversion Hok as [|? Hnd Hall]; subst.
    constructor; simpl.
    + by apply NoDup_cons.
    + by apply Forall_cons.
Qed.

Lemma treeOk_middle t1 k c t2 :
  treeOk (Group (t1 ++ (k, c) :: t2)%list)
  <-> (k ∉ map fst (t1 ++ t2)%list) /\ treeOk c /\ leavesOf c <> []
      /\ treeOk (Group (t1 ++ t2)%list).
Proof.
  rewrite <- treeOk_cons. split; apply treeOk_perm.
  - by rewrite <- Permutation_middle.
  - by rewrite <- Permutation_middle.
Qed.

Lemma apart_cons k p q : apart (k :: p) (k :: q) -> apart p q.
Proof.
  intros [H1 H2]. split; intros H; [apply H1 | apply H2]; by apply prefix_cons.
Qed.

Lemma assignAt_step t part next rest leaf :
  assignAt t (part :: next :: rest) leaf
  = objSet t part
      (Group (assignAt match jsGet t part with
                       | Some (Group children) => children
                       | _ => []
                       end (next :: rest) leaf)).
Proof. reflexivity. Qed.

(** Assigning a leaf along keys that are apart from every leaf of the
    tree adds the leaf, and nothing else. *)
Lemma assignAt_leaves (parts : list string) :
  forall (t : NestedVariables) leaf,
    parts <> [] ->
    treeOk (Group t) ->
    (forall e, e ∈ leavesOf (Group t) -> apart (fst e) parts) ->
    treeOk (Group (assignAt t parts leaf))
    /\ leavesOf (Group (assignAt t parts leaf))
       ≡ₚ (parts, leaf) :: leavesOf (Group t).
Proof.
  induction parts as [|part rest IH]; intros t leaf Hne Hok Hapart; [done |].
  destruct rest as [|next rest].
  - (* the leaf itself *)
    cbn [assignAt]. unfold objSet.
    destruct (jsGet t part) as [n|] eqn:Hget.
    + exfalso. apply jsGet_split in Hget as (t1 & t2 & -> & _).
      apply treeOk_middle in Hok as (_ & Hn & Hleaves & _).
      destruct (leavesOf n) as [|[p v] l] eqn:El; [done |].
      destruct (Hapart (part :: p, v)) as [H1 H2].
      { rewrite leavesOf_app, leavesOf_cons, El. apply elem_of_app. right.
        simpl. apply list_elem_of_here. }
      apply H2. simpl. apply prefix_cons, prefix_nil.
    + split.
      * eapply treeOk_perm; [symmetry; apply objInsert_perm |].
        apply treeOk_cons. split; [by apply jsGet_None |].
        split; [constructor |]. by split.
      * by rewrite (leavesOf_perm _ _ (objInsert_perm t part (Leaf leaf))).
  - (* a group on the way *)
    rewrite assignAt_step. unfold objSet.
    destruct (jsGet t part) as [n|] eqn:Hget.
    + apply jsGet_split in Hget as (t1 & t2 & -> & Hfresh).
      rewrite jsSet_split by done.
      pose proof Hok as Hok'.
      apply treeOk_middle in Hok' as (Hk & Hn & Hleaves & Hrest).
      destruct n as [v|children].
      { exfalso. destruct (Hapart ([part], v)) as [H1 _].
        { rewrite leavesOf_app, leavesOf_cons. apply elem_of_app. right.
          simpl. apply list_elem_of_here. }
        apply H1. apply prefix_cons, prefix_nil. }
      destruct (IH children leaf) as [Hok1 Hperm]; [done | done | |].
      { intros [p v] Hin. apply (apart_cons part). apply (Hapart (part :: p, v)).
        rewrite leavesOf_app, leavesOf_cons. apply elem_of_app. right.
        apply elem_of_app. left. apply list_elem_of_fmap. by exists (p, v). }
      split.
      * apply treeOk_middle. repeat split; try done.
        intros E. rewrite E in Hperm. by apply Permutation_nil_cons in Hperm.
      * rewrite !leavesOf_app, !leavesOf_cons, Hperm. simpl.
        by rewrite <- Permutation_middle.
    + destruct (IH [] leaf) as [Hok1 Hperm]; [done | constructor; constructor | |].
      { intros e Hin. by apply elem_of_nil in Hin. }
      change (leavesOf (Group [])) with (@nil (list string * ExportVariableValue))
        in Hperm.
      split.
      * eapply treeOk_perm; [symmetry; apply objInsert_perm |].
        apply treeOk_cons. split; [by apply jsGet_None |].
        split; [done |]. split; [| done].
        intros E. rewrite E in Hperm. by apply Permutation_nil_cons in Hperm.
      * rewrite (leavesOf_perm _ _ (objInsert_perm t part _)).
        rewrite leavesOf_cons, Hperm. reflexivity.
Qed.

Lemma elem_of_objSet {A} (t : list (string * A)) k v x :
  x ∈ objSet t k v -> x = (k, v) \/ x ∈ t.
Proof.
  unfold objSet. destruct (jsGet t k) as [n|] eqn:Hget.
  - apply jsGet_split in Hget as (t1 & t2 & -> & Hfresh).
    rewrite jsSet_split by done.
    rewrite !elem_of_app, !elem_of_cons. tauto.
  - rewrite objInsert_perm, elem_of_cons. tauto.
Qed.

Lemma assignAt_rootsNamed (t : NestedVariables) parts leaf :
  rootsNamed t ->
  match parts with
  | [] | [_] => True
  | p :: _ => Js.truthy p = true
  end ->
  rootsNamed (assignAt t parts leaf).
Proof.
  intros Hroots Hhead k children Hin.
  destruct parts as [|part [|next rest]]; [by apply (Hroots k children) | |].
  - cbn [assignAt] in Hin. apply elem_of_objSet in Hin as [[=]|Hin].
    by apply (Hroots k children).
  - rewrite assignAt_step in Hin.
    apply elem_of_objSet in Hin as [[= -> _]|Hin]; [done |].
    by apply (Hroots k children).
Qed.

Section TreeOf.
Variable leafOf : VariableNode -> ExportVariableValue.

Lemma treeOf_snoc vars v :
  treeOf leafOf (vars ++ [v])%list
  = assignAt (treeOf leafOf vars) (Js.splitSlash (var_name v)) (leafOf v).
Proof. unfold treeOf. by rewrite fold_left_app. Qed.

Lemma treeOf_spec (vars : list VariableNode) :
  NoDup (map var_name vars) ->
  namesApart (map var_name vars) ->
  Forall (fun v => Js.startsWith (var_name v) "/" = false) vars ->
  treeOk (Group (treeOf leafOf vars))
  /\ rootsNamed (treeOf leafOf vars)
  /\ leavesOf (Group (treeOf leafOf vars))
     ≡ₚ map (fun v => (Js.splitSlash (var_name v), leafOf v)) vars.
Proof.
  induction vars as [|v vars IH] using rev_ind; intros Hnd Hapart Hhead.
  - split; [constructor; constructor |]. split; [| done].
    intros k children Hin. by apply elem_of_nil in Hin.
  - rewrite map_app in Hnd, Hapart. simpl in Hnd, Hapart.
    apply NoDup_app in Hnd as (Hnd & Hfresh & _).
    apply Forall_app in Hhead as [Hhead Hv]. rewrite Forall_singleton in Hv.
    destruct IH as (Hok & Hroots & Hperm); [done | | done |].
    { intros a b Ha Hb. apply Hapart; apply elem_of_app; by left. }
    rewrite treeOf_snoc.
    destruct (splitSlash_cons (var_name v)) as (p & rest & Eparts).
    destruct (assignAt_leaves (Js.splitSlash (var_name v))
                (treeOf leafOf vars) (leafOf v)) as [Hok' Hperm'].
    { by rewrite Eparts. }
    { done. }
    { intros e He. rewrite Hperm in He.
      apply list_elem_of_fmap in He as (u & -> & Hu). simpl.
      assert (Hun : var_name u ∈ map var_name vars).
      { apply list_elem_of_fmap. by exists u. }
      assert (Hne : var_name u <> var_name v).
      { intros E. apply (Hfresh (var_name u) Hun).
        rewrite E. apply list_elem_of_here. }
      split; intros Hp.
      - apply prefix_startsWith in Hp; [| done].
        rewrite Hapart in Hp; [done | |].
        + apply elem_of_app. by left.
        + apply elem_of_app. right. apply list_elem_of_here.
      - apply prefix_startsWith in Hp; [| done].
        rewrite Hapart in Hp; [done | |].
        + apply elem_of_app. right. apply list_elem_of_here.
        + apply elem_of_app. by left. }
    split; [done |]. split.
    + apply assignAt_rootsNamed; [done |].
      pose proof (splitSlash_head (var_name v) Hv) as Hh.
      destruct (Js.splitSlash (var_name v)) as [|q [|q' l]]; done.
    + rewrite Hperm', Hperm, map_app. simpl.
      by rewrite <- Permutation_cons_append.
Qed.

(** The flattening of the tree lists the variables, by names. *)
Lemma treeOf_flatten (vars : list VariableNode) :
  NoDup (map var_name vars) ->
  namesApart (map var_name vars) ->
  Forall (fun v => Js.startsWith (var_name v) "/" = false) vars ->
  flattenVariables (treeOf leafOf vars) ""
  ≡ₚ map (fun v => (var_name v, leafOf v)) vars.
Proof.
  intros Hnd Hapart Hhead.
  destruct (treeOf_spec vars Hnd Hapart Hhead) as (Hok & Hroots & Hperm).
  rewrite flattenVariables_leaves by done. rewrite Hperm, map_map.
  simpl. erewrite map_ext; [done |].
  intros v. simpl. by rewrite join_splitSlash.
Qed.

(** The name of a variable leads to its leaf. *)
Lemma treeOf_lookup (vars : list VariableNode) v :
  NoDup (map var_name vars) ->
  namesApart (map var_name vars) ->
  Forall (fun v => Js.startsWith (var_name v) "/" = false) vars ->
  v ∈ vars ->
  getValueAtPath (treeOf leafOf vars) (var_name v) = Some (leafOf v).
Proof.
  intros Hnd Hapart Hhead Hin.
  destruct (treeOf_spec vars Hnd Hapart Hhead) as (Hok & Hroots & Hperm).
  unfold getValueAtPath. apply descend_leaves; [done |].
  rewrite Hperm. apply list_elem_of_fmap. by exists v.
Qed.
End TreeOf.

(** ** The exported entry of a collection *)

Lemma jsGet_middle {A} (t1 t2 : list (string * A)) k n :
  jsGet t1 k = None -> jsGet (t1 ++ (k, n) :: t2)%list k = Some n.
Proof.
  induction t1 as [|[k0 w] t1 IH]; simpl.
  - by rewrite String.eqb_refl.
  - destruct (String.eqb_spec k0 k); [done | apply IH].
Qed.

Lemma objSet_fresh {A} (t : list (string * A)) k v :
  k ∉ map fst t -> arrayIndex k = None -> objSet t k v = (t ++ [(k, v)])%list.
Proof.
  intros Hk Hidx. unfold objSet.
  apply jsGet_None in Hk. rewrite Hk.
  destruct t; simpl; by rewrite Hidx.
Qed.

Lemma emptyModes_spec (ms : list Mode) :
  forall acc : ModeVariables,
    NoDup (map fst acc ++ map mode_name ms)%list ->
    Forall (fun m => arrayIndex (mode_name m) = None) ms ->
    fold_left (fun t mode => objSet t (mode_name mode) []) ms acc
    = (acc ++ map (fun m => (mode_name m, [])) ms)%list.
Proof.
  induction ms as [|m ms IH]; intros acc Hnd Hidx; simpl.
  - by rewrite app_nil_r.
  - apply Forall_cons in Hidx as [Hm Hidx].
    rewrite objSet_fresh; [| | done].
    + rewrite IH; [| | done].
      * by rewrite <- app_assoc.
      * rewrite map_app. simpl. by rewrite <- app_assoc.
    + simpl in Hnd. apply NoDup_app in Hnd as (_ & Hfresh & _).
      intros Hin. apply (Hfresh _ Hin). apply list_elem_of_here.
Qed.

Section AssignModes.
Variable leafOf : Mode -> ExportVariableValue.
Variable parts : list string.

Lemma assignModes_spec (todo : list Mode) :
  forall (done : list Mode) (T : Mode -> NestedVariables),
    NoDup (map mode_name (done ++ todo)%list) ->
    fold_left
      (fun (t : ModeVariables) mode =>
         match jsGet t (mode_name mode) with
         | Some modeValues =>
             jsSet t (mode_name mode) (assignAt modeValues parts (leafOf mode))
         | None => t
         end)
      todo
      (map (fun m => (mode_name m, assignAt (T m) parts (leafOf m))) done
         ++ map (fun m => (mode_name m, T m)) todo)%list
    = map (fun m => (mode_name m, assignAt (T m) parts (leafOf m)))
          (done ++ todo)%list.
Proof.
  induction todo as [|m todo IH]; intros done T Hnd; simpl.
  - by rewrite !app_nil_r.
  - assert (Hfresh : jsGet (map (fun m => (mode_name m,
                                           assignAt (T m) parts (leafOf m)))
                                done) (mode_name m) = None).
    { apply jsGet_None. rewrite map_map. simpl.
      rewrite map_app in Hnd. apply NoDup_app in Hnd as (_ & Hfresh & _).
      intros Hin. apply (Hfresh _ Hin). apply list_elem_of_here. }
    rewrite jsGet_middle by done. rewrite jsSet_split by done.
    replace (done ++ m :: todo)%list with ((done ++ [m]) ++ todo)%list in *
      by (by rewrite <- app_assoc).
    rewrite <- (IH (done ++ [m])%list T Hnd).
    f_equal. rewrite map_app. by rewrite <- app_assoc.
Qed.
End AssignModes.

Lemma exportModes_spec (h : Host)
  (leafOf : VariableNode -> Mode -> ExportVariableValue)
  (ms : list Mode) (ids : list N) :
  NoDup (map mode_name ms) ->
  forall T : Mode -> NestedVariables,
    fold_left
      (fun (t : ModeVariables) variableId =>
         match getVariableById h variableId with
         | None => t
         | Some variable =>
             fold_left
               (fun (t' : ModeVariables) mode =>
                  match jsGet t' (mode_name mode) with
                  | Some modeValues =>
                      jsSet t' (mode_name mode)
                        (assignAt modeValues
                           (map (fun part => part)
                                (Js.splitSlash (var_name variable)))
                           (leafOf variable mode))
                  | None => t'
                  end)
               ms t
         end)
      ids (map (fun m => (mode_name m, T m)) ms)
    = map (fun m =>
             (mode_name m,
              fold_left
                (fun t v => assignAt t (Js.splitSlash (var_name v)) (leafOf v m))
                (omap (getVariableById h) ids) (T m)))
          ms.
Proof.
  intros Hnd. induction ids as [|id ids IH]; intros T; [done |].
  cbn [fold_left omap list_omap].
  destruct (getVariableById h id) as [v|] eqn:E; [| apply IH].
  rewrite map_id.
  pose proof (assignModes_spec (leafOf v) (Js.splitSlash (var_name v)) ms [] T)
    as Hinner.
  simpl in Hinner. rewrite Hinner by done.
  by rewrite IH.
Qed.

Lemma exportCollection_spec (h : Host) (opts : ExportOptions)
  (c : VariableCollection) :
  exportsAll opts ->
  NoDup (map mode_name (col_modes c)) ->
  Forall (fun m => arrayIndex (mode_name m) = None) (col_modes c) ->
  exportCollection h opts c
  = entryOf (col_name c)
      (map (fun m => (mode_name m,
                      treeOf (fun v => exportLeaf h opts v m) (listed h c)))
           (col_modes c)).
Proof.
  intros (_ & Hmodes & _ & Hconv & _) Hnd Hidx.
  unfold exportCollection, entryOf. rewrite Hmodes, Hconv.
  cbn [jsGet NamingConverter.convert].
  rewrite String.eqb_refl.
  pose proof (emptyModes_spec (col_modes c) [] Hnd Hidx) as E0.
  pose proof (exportModes_spec h (exportLeaf h opts) (col_modes c)
                (variableIds c) Hnd (fun _ => [])) as E1.
  unfold ModeVariables, NestedVariables in *.
  rewrite E0, app_nil_l. by rewrite E1.
Qed.

(** ** Pass 1 on one entry, from the empty store *)

Lemma call_run op h c o r h' :
  applyOp op h = Some (r, h') ->
  call permissive op (mkState h c o) = (Ok r, mkState h' c o).
Proof. intros E. unfold call. simpl. by rewrite E. Qed.

Lemma tryCatch_ok {A} (m : M A) handler st a st' :
  m st = (Ok a, st') -> tryCatch m handler st = (Ok a, st').
Proof. intros H. unfold tryCatch. by rewrite H. Qed.

Lemma foldM_map {A B C} (f : B -> A -> M B) (g : C -> A) (l : list C) acc st :
  foldM f acc (map g l) st = foldM (fun acc x => f acc (g x)) acc l st.
Proof.
  revert acc st. induction l as [|x l IH]; intros acc st; [done |].
  simpl. unfold bind. destruct (f acc (g x) st) as [[a|e] st1]; [apply IH | done].
Qed.

(** A fold whose steps all return, with what holds after each prefix. *)
Lemma foldM_prefixes {A B} (f : B -> A -> M B)
  (I : list A -> B -> State -> Prop) (l : list A) :
  (forall done x rest acc st,
     l = (done ++ x :: rest)%list -> I done acc st ->
     exists acc' st', f acc x st = (Ok acc', st') /\ I (done ++ [x])%list acc' st') ->
  forall acc st,
    I [] acc st ->
    exists acc' st', foldM f acc l st = (Ok acc', st') /\ I l acc' st'.
Proof.
  intros Hstep.
  assert (H : forall rest done acc st,
             l = (done ++ rest)%list -> I done acc st ->
             exists acc' st', foldM f acc rest st = (Ok acc', st') /\ I l acc' st').
  { induction rest as [|x rest IH]; intros done acc st El HI.
    - rewrite app_nil_r in El. subst. by exists acc, st.
    - destruct (Hstep done x rest acc st El HI) as (acc1 & st1 & Hx & HI1).
      destruct (IH (done ++ [x])%list acc1 st1) as (acc2 & st2 & Hrest & HI2).
      { by rewrite <- app_assoc. }
      { done. }
      exists acc2, st2. split; [| done].
      simpl. by rewrite (bind_ok _ _ _ _ _ Hx). }
  intros acc st HI. by apply (H l [] acc st).
Qed.

Lemma modesFrom_length d names : length (modesFrom d names) = length names.
Proof. revert d. induction names as [|n l IH]; intros d; simpl; [done | by rewrite IH]. Qed.

Lemma modesFrom_names d names : map mode_name (modesFrom d names) = names.
Proof. revert d. induction names as [|n l IH]; intros d; simpl; [done | by rewrite IH]. Qed.

Lemma modesFrom_ids d names m :
  m ∈ modesFrom d names -> d <= modeId m < d + N.of_nat (length names).
Proof.
  revert d. induction names as [|n l IH]; intros d; simpl.
  - intros H. by apply elem_of_nil in H.
  - intros [->|Hin]%elem_of_cons; [simpl; lia |].
    apply IH in Hin. lia.
Qed.

Lemma modesFrom_NoDup d names : NoDup (map modeId (modesFrom d names)).
Proof.
  revert d. induction names as [|n l IH]; intros d; simpl; [constructor |].
  apply NoDup_cons. split; [| apply IH].
  intros (m & E & Hin)%list_elem_of_fmap. apply modesFrom_ids in Hin. lia.
Qed.

Section AddModes.
Variable name : string.

(** The loop of [setupModes] over names the map does not hold. *)
Lemma addModes_run (todo : list string) :
  forall d ms (mm : list (string * N)) c o,
    NoDup todo ->
    (forall k, k ∈ todo -> jsGet mm k = None) ->
    exists mm',
      foldM
        (fun modeMap modeName =>
           match jsGet modeMap modeName with
           | Some _ => ret modeMap
           | None =>
               tryCatch
                 (newModeId <- call permissive (OpAddMode 0 modeName) ;;
                  ret (jsSet modeMap modeName newModeId))
                 (fun _ => ret modeMap)
           end)
        mm todo (mkState (blockHost name ms [] ∅ d) c o)
      = (Ok mm',
         mkState (blockHost name (ms ++ modesFrom d todo) [] ∅
                            (d + N.of_nat (length todo))) c o)
      /\ (forall m, m ∈ modesFrom d todo ->
                    jsGet mm' (mode_name m) = Some (modeId m))
      /\ (forall k, k ∉ todo -> jsGet mm' k = jsGet mm k).
Proof.
  induction todo as [|n todo IH]; intros d ms mm c o Hnd Hfresh.
  - exists mm. simpl. rewrite app_nil_r, N.add_0_r. split; [done |].
    split; [| done]. intros m H. by apply elem_of_nil in H.
  - apply NoDup_cons in Hnd as [Hn Hnd].
    destruct (IH (d + 1) (ms ++ [mkMode d n])%list (jsSet mm n d) c o Hnd)
      as (mm' & Hrun & Hnew & Hold).
    { intros k Hk. rewrite jsGet_jsSet.
      destruct (String.eqb_spec n k) as [->|Hne]; [done |].
      apply Hfresh. by apply list_elem_of_further. }
    exists mm'. split; [| split].
    + cbn [foldM]. erewrite bind_ok; [rewrite Hrun |].
      * replace (d + 1 + N.of_nat (length todo))
          with (d + N.of_nat (length (n :: todo))) by (cbn [length]; lia).
        by rewrite <- app_assoc.
      * rewrite (Hfresh n) by apply list_elem_of_here.
        apply tryCatch_ok. erewrite bind_ok; [reflexivity |].
        by apply call_run.
    + simpl. intros m [->|Hin]%elem_of_cons; [| by apply Hnew].
      simpl. rewrite Hold by done. rewrite jsGet_jsSet.
      by rewrite String.eqb_refl.
    + intros k Hk. apply not_elem_of_cons in Hk as [Hk1 Hk2].
      rewrite Hold by done. rewrite jsGet_jsSet.
      by destruct (String.eqb_spec n k).
Qed.

(** [setupModes] on the collection just created. *)
Lemma setupModes_run (first : string) (rest : list string) c o :
  NoDup (first :: rest) ->
  "Mode 1" ∉ rest ->
  exists mm,
    setupModes permissive 0 (first :: rest)
      (mkState (blockHost name [mkMode 1 "Mode 1"] [] ∅ 2) c o)
    = (Ok mm,
       mkState (blockHost name (modesFrom 1 (first :: rest)) [] ∅
                          (2 + N.of_nat (length rest))) c o)
    /\ forall m, m ∈ modesFrom 1 (first :: rest) ->
                 jsGet mm (mode_name m) = Some (modeId m).
Proof.
  intros [Hfirst Hnd]%NoDup_cons Hmode1.
  set (mm1 := if String.eqb "Mode 1" first then [("Mode 1", 1)]
              else [("Mode 1", 1); (first, 1)]).
  assert (Hget1 : jsGet mm1 first = Some 1).
  { unfold mm1. destruct (String.eqb_spec "Mode 1" first) as [<-|Hne]; [done |].
    cbn [jsGet]. destruct (String.eqb_spec "Mode 1" first); [done |].
    by rewrite String.eqb_refl. }
  assert (Hrest : forall k, k ∈ rest -> jsGet mm1 k = None).
  { intros k Hk. unfold mm1.
    destruct (String.eqb_spec "Mode 1" first) as [<-|Hne]; cbn [jsGet].
    - destruct (String.eqb_spec "Mode 1" k) as [<-|?]; done.
    - destruct (String.eqb_spec "Mode 1" k) as [<-|?]; [done |].
      destruct (String.eqb_spec first k) as [<-|?]; done. }
  destruct (addModes_run rest 2 [mkMode 1 first] mm1 c o Hnd Hrest)
    as (mm & Hrun & Hnew & Hold).
  exists mm. split.
  - unfold setupModes.
    erewrite bind_ok; [| reflexivity].
    cbn [col_modes fold_left mode_name modeId jsSet].
    rewrite (bind_ok _ _ _ mm1
               (mkState (blockHost name [mkMode 1 first] [] ∅ 2) c o)).
    2:{ subst mm1. cbn [jsGet].
        destruct (String.eqb_spec "Mode 1" first) as [<-|Hne]; [done |].
        erewrite bind_ok; [| by apply call_run].
        cbn [jsSet]. by destruct (String.eqb_spec "Mode 1" first). }
    cbn [foldM]. rewrite Hget1. erewrite bind_ok; [| reflexivity].
    exact Hrun.
  - intros m [->|Hin]%elem_of_cons; [| by apply Hnew].
    simpl. by rewrite Hold.
Qed.
End AddModes.

Section RowRuns.
Variable fromCss : string -> RGBA.
Variable name : string.
Variable modesObj : ModeVariables.
Variable mm : list (string * N).
Variable ms : list Mode.
Hypothesis Hmm : forall m, m ∈ ms -> jsGet mm (mode_name m) = Some (modeId m).
Hypothesis Hobj : forall m, m ∈ ms -> is_Some (jsGet modesObj (mode_name m)).

Lemma modeIds_block m : m ∈ ms -> modeId m ∈ map modeId ms.
Proof. intros H. apply list_elem_of_fmap. by exists m. Qed.

Lemma setValue_run var m v cur vals vids V n c o :
  m ∈ ms -> variableCollectionId cur = 0 ->
  call permissive (OpSetValue var (modeId m) v)
    (mkState (blockHost name ms vids (<[var := withValues cur vals]> V) n) c o)
  = (Ok var,
     mkState (blockHost name ms vids
                (<[var := withValues cur (aset vals (modeId m) v)]> V) n) c o).
Proof.
  intros Hm Hcol. destruct cur as [cn cc ct cv cd cs]; simpl in Hcol; subst.
  apply call_run. unfold applyOp.
  cbn [variables blockHost]. rewrite lookup_insert_eq.
  unfold withValues, modeIds.
  cbn [variableCollectionId collections findCollection col_id N.eqb col_modes
       var_name resolvedType valuesByMode var_description var_scopes
       styles nextId blockHost].
  rewrite bool_decide_eq_true_2 by (by apply modeIds_block).
  by rewrite insert_insert_eq.
Qed.

Lemma setRawValue_run var m leaf cur vals vids V n c o :
  m ∈ ms -> variableCollectionId cur = 0 ->
  setRawValue fromCss permissive var (modeId m) leaf
    (mkState (blockHost name ms vids (<[var := withValues cur vals]> V) n) c o)
  = (Ok tt,
     mkState (blockHost name ms vids
                (<[var := withValues cur
                            match rawValueOf fromCss leaf with
                            | Some v => aset vals (modeId m) v
                            | None => vals
                            end]> V) n) c o).
Proof.
  intros Hm Hcol. unfold setRawValue.
  destruct (rawValueOf fromCss leaf) as [v|]; [| done].
  apply tryCatch_ok. erewrite bind_ok; [reflexivity |].
  by apply setValue_run.
Qed.

Lemma pass1Mode_run var path cur vids V n c o m vals pend :
  variableCollectionId cur = 0 -> m ∈ ms ->
  pass1Mode fromCss permissive name modesObj mm var path pend (mode_name m)
    (mkState (blockHost name ms vids (<[var := withValues cur vals]> V) n) c o)
  = (Ok (pend ++ option_list (queuedCell name modesObj var path m))%list,
     mkState (blockHost name ms vids
                (<[var := withValues cur
                            (writeCell fromCss modesObj path vals m)]> V) n)
             c o).
Proof.
  intros Hcol Hm. unfold pass1Mode, queuedCell, writeCell, leafAt.
  rewrite (Hmm m Hm). destruct (Hobj m Hm) as [tree ->].
  destruct (getValueAtPath tree path) as [leaf|].
  2:{ simpl. by rewrite app_nil_r. }
  destruct (isAliasReference leaf) as [ref|].
  - erewrite bind_ok; [reflexivity | by apply setRawValue_run].
  - erewrite bind_ok; [| by apply setRawValue_run].
    simpl. by rewrite app_nil_r.
Qed.

(** The loop over the modes, for one variable. *)
Lemma writeModes_run var path cur vids V n c o (todo : list Mode) :
  variableCollectionId cur = 0 ->
  forall vals pend,
    (forall m, m ∈ todo -> m ∈ ms) ->
    foldM (pass1Mode fromCss permissive name modesObj mm var path) pend
          (map mode_name todo)
          (mkState (blockHost name ms vids (<[var := withValues cur vals]> V) n)
                   c o)
    = (Ok (pend ++ omap (queuedCell name modesObj var path) todo)%list,
       mkState (blockHost name ms vids
                  (<[var := withValues cur
                              (fold_left (writeCell fromCss modesObj path)
                                         todo vals)]> V) n) c o).
Proof.
  intros Hcol. induction todo as [|m todo IH]; intros vals pend Hin.
  - simpl. by rewrite app_nil_r.
  - assert (Hm : m ∈ ms) by apply Hin, list_elem_of_here.
    cbn [map foldM fold_left omap list_omap].
    rewrite (bind_ok _ _ _ _ _ (pass1Mode_run var path cur vids V n c o m vals
                                  pend Hcol Hm)).
    rewrite IH by (intros; by apply Hin, list_elem_of_further).
    rewrite <- app_assoc.
    by destruct (queuedCell name modesObj var path m).
Qed.
End RowRuns.

Section RowStep.
Variable fromCss : string -> RGBA.
Variable options : ImportOptions.
Variable name : string.
Variable modesObj : ModeVariables.
Variable mm : list (string * N).
Variable ms : list Mode.
Hypothesis Hmm : forall m, m ∈ ms -> jsGet mm (mode_name m) = Some (modeId m).
Hypothesis Hobj : forall m, m ∈ ms -> is_Some (jsGet modesObj (mode_name m)).

Lemma setDescription_run var d cn ct cv cd cs vids V n c o :
  call permissive (OpSetDescription var d)
    (mkState (blockHost name ms vids (<[var := mkVariable cn 0 ct cv cd cs]> V) n)
             c o)
  = (Ok var,
     mkState (blockHost name ms vids (<[var := mkVariable cn 0 ct cv d cs]> V) n)
             c o).
Proof.
  apply call_run. unfold applyOp. cbn [variables blockHost].
  rewrite lookup_insert_eq. cbn. by rewrite insert_insert_eq.
Qed.

Lemma setScopes_run var s cn ct cv cd cs vids V n c o :
  call permissive (OpSetScopes var s)
    (mkState (blockHost name ms vids (<[var := mkVariable cn 0 ct cv cd cs]> V) n)
             c o)
  = (Ok var,
     mkState (blockHost name ms vids (<[var := mkVariable cn 0 ct cv cd s]> V) n)
             c o).
Proof.
  apply call_run. unfold applyOp. cbn [variables blockHost].
  rewrite lookup_insert_eq. cbn. by rewrite insert_insert_eq.
Qed.

Lemma createVariable_run path t vids V n c o :
  call permissive (OpCreateVariable path 0 t)
    (mkState (blockHost name ms vids V n) c o)
  = (Ok n,
     mkState (blockHost name ms (vids ++ [n])
                (<[n := mkVariable path 0 t [] "" []]> V) (n + 1)) c o).
Proof. by apply call_run. Qed.

(** The body of the loop over the rows, on a row the cache does not
    hold. *)
Lemma pass1Variable_run (row : string * ExportVariableValue) acc vids V n c o :
  Cache.getVariable (name +:+ "/" +:+ fst row) c = None ->
  pass1Variable fromCss permissive options 0 name modesObj (map mode_name ms)
    mm acc row (mkState (blockHost name ms vids V n) c o)
  = (Ok {| createdCollections := createdCollections acc;
           createdVariables := createdVariables acc + 1;
           updatedVariables := updatedVariables acc;
           skippedVariables := skippedVariables acc;
           allPendingAliases :=
             (allPendingAliases acc
                ++ omap (queuedCell name modesObj n (fst row)) ms)%list |},
     mkState (blockHost name ms (vids ++ [n])
                (<[n := rowVariable fromCss modesObj ms row]> V) (n + 1))
             (Cache.setVariable (name +:+ "/" +:+ fst row) n c) o).
Proof.
  intros Hfresh. destruct row as [path value]. simpl in Hfresh.
  unfold pass1Variable. cbn [fst snd].
  erewrite bind_ok; [| reflexivity]. cbn [cache]. rewrite Hfresh.
  erewrite bind_ok.
  2:{ apply tryCatch_ok. erewrite bind_ok; [reflexivity |].
      apply createVariable_run. }
  unfold pass1Assign. cbn [fst snd allPendingAliases createdCollections
                           createdVariables updatedVariables skippedVariables].
  set (t := TypeMapper.toFigmaType (e_type value)).
  set (d := default "" (e_description value)).
  rewrite (bind_ok _ _ _ tt
             (mkState (blockHost name ms (vids ++ [n])
                         (<[n := mkVariable path 0 t [] d []]> V) (n + 1)) c o)).
  2:{ subst d. destruct (e_description value) as [d|]; [| reflexivity].
      destruct d as [|a d]; [reflexivity |]. cbn [Js.truthy default].
      erewrite bind_ok; [reflexivity | apply setDescription_run]. }
  rewrite (bind_ok _ _ _ tt
             (mkState (blockHost name ms (vids ++ [n])
                         (<[n := mkVariable path 0 t [] d
                                   (TypeMapper.arrayToScopes (e_scopes value))]> V)
                         (n + 1)) c o)).
  2:{ apply tryCatch_ok. erewrite bind_ok; [reflexivity | apply setScopes_run]. }
  erewrite bind_ok.
  2:{ apply (writeModes_run fromCss name modesObj mm ms Hmm Hobj n path
               (mkVariable path 0 t [] d
                  (TypeMapper.arrayToScopes (e_scopes value)))
               (vids ++ [n])%list V (n + 1) c o ms eq_refl []
               (allPendingAliases acc)).
      by intros. }
  erewrite bind_ok; [| reflexivity]. reflexivity.
Qed.
End RowStep.

Lemma append_inj_l (a b c : string) : a +:+ b = a +:+ c -> b = c.
Proof.
  induction a as [|x a IH]; [done |].
  rewrite !append_cons. intros [= E]. by apply IH.
Qed.

Section RowsLoop.
Variable fromCss : string -> RGBA.
Variable options : ImportOptions.
Variable name : string.
Variable modesObj : ModeVariables.
Variable mm : list (string * N).
Variable ms : list Mode.
Hypothesis Hmm : forall m, m ∈ ms -> jsGet mm (mode_name m) = Some (modeId m).
Hypothesis Hobj : forall m, m ∈ ms -> is_Some (jsGet modesObj (mode_name m)).

Lemma rowsDone_step n0 o done x rest acc st :
  NoDup (map fst (done ++ x :: rest)%list) ->
  rowsDone fromCss name modesObj ms n0 o done acc st ->
  exists acc' st',
    pass1Variable fromCss permissive options 0 name modesObj
      (map mode_name ms) mm acc x st = (Ok acc', st')
    /\ rowsDone fromCss name modesObj ms n0 o (done ++ [x])%list acc' st'.
Proof.
  intros Hnd (pairs & V & c & -> & Hsnd & Hlt & Hcache & Hnd' & Hvars & Hpend).
  set (n := n0 + N.of_nat (length done)) in *.
  assert (Hfresh : Cache.getVariable (name +:+ "/" +:+ fst x) c = None).
  { unfold Cache.getVariable.
    destruct (variableMap c !! (name +:+ "/" +:+ fst x)) as [id|] eqn:E; [| done].
    destruct (Hcache _ (mk_is_Some _ _ E)) as (row & Hrow & Hkey).
    apply append_inj_l in Hkey. apply (append_inj_l "/") in Hkey.
    rewrite map_app in Hnd. apply NoDup_app in Hnd as (_ & Hdis & _).
    exfalso. apply (Hdis (fst row)).
    - apply list_elem_of_fmap. by exists row.
    - rewrite <- Hkey. simpl. apply list_elem_of_here. }
  eexists _, _. split.
  { apply (pass1Variable_run fromCss options name modesObj mm ms Hmm Hobj);
      exact Hfresh. }
  assert (Hn : n ∉ map fst pairs).
  { intros (pr & E & Hin)%list_elem_of_fmap.
    rewrite Forall_forall in Hlt. specialize (Hlt pr Hin). lia. }
  exists (pairs ++ [(n, x)])%list, (<[n := rowVariable fromCss modesObj ms x]> V),
         (Cache.setVariable (name +:+ "/" +:+ fst x) n c).
  split; [| split; [| split; [| split; [| split; [| split]]]]].
  - rewrite map_app, length_app. simpl.
    replace (n0 + N.of_nat (length done + 1)) with (n + 1) by lia. done.
  - rewrite map_app, Hsnd. done.
  - rewrite length_app. simpl. apply Forall_app. split.
    + eapply Forall_impl; [exact Hlt |]. intros pr Hpr. simpl in Hpr. lia.
    + apply Forall_singleton. simpl. lia.
  - intros key. simpl. intros Hkey.
    destruct (decide (key = name +:+ "/" +:+ fst x)) as [->|Hne].
    + exists x. split; [| done]. apply elem_of_app. right. apply list_elem_of_here.
    + rewrite lookup_insert_ne in Hkey by done.
      destruct (Hcache key Hkey) as (row & Hrow & ->).
      exists row. split; [| done]. apply elem_of_app. by left.
  - rewrite map_app. simpl. apply NoDup_app. split; [done |].
    split; [| apply NoDup_singleton].
    intros id Hid ->%list_elem_of_singleton. done.
  - apply Forall_app. split.
    + rewrite Forall_forall in Hvars, Hlt. apply Forall_forall. intros pr Hpr.
      rewrite lookup_insert_ne; [by apply Hvars |].
      specialize (Hlt pr Hpr). lia.
    + apply Forall_singleton. simpl. by rewrite lookup_insert_eq.
  - intros p. simpl. rewrite elem_of_app, Hpend. split.
    + intros [(pr & m & Hpr & Hm & Hq)|Hq].
      * exists pr, m. split; [| done]. apply elem_of_app. by left.
      * apply list_elem_of_omap in Hq as (m & Hm & Hq).
        exists (n, x), m. split; [| done]. apply elem_of_app. right.
        apply list_elem_of_here.
    + intros (pr & m & [Hpr|Hpr]%elem_of_app & Hm & Hq).
      * left. by exists pr, m.
      * apply list_elem_of_singleton in Hpr as ->. right.
        apply list_elem_of_omap. by exists m.
Qed.

(** The loop over the rows, from a store that holds none. *)
Lemma rows_run n0 c o rows acc :
  NoDup (map fst rows) ->
  variableMap c = ∅ ->
  allPendingAliases acc = [] ->
  exists acc' pairs V c',
    foldM (pass1Variable fromCss permissive options 0 name modesObj
             (map mode_name ms) mm)
          acc rows (mkState (blockHost name ms [] ∅ n0) c o)
    = (Ok acc',
       mkState (blockHost name ms (map fst pairs) V
                  (n0 + N.of_nat (length rows))) c' o)
    /\ map snd pairs = rows
    /\ builtRows fromCss name modesObj ms pairs V (allPendingAliases acc').
Proof.
  intros Hnd Hc Hp.
  destruct (foldM_prefixes
              (pass1Variable fromCss permissive options 0 name modesObj
                 (map mode_name ms) mm)
              (rowsDone fromCss name modesObj ms n0 o) rows) with (acc := acc)
    (st := mkState (blockHost name ms [] ∅ n0) c o)
    as (acc' & st' & Hrun & pairs & V & c' & -> & Hsnd & _ & _ & Hbuilt).
  - intros done x rest acc0 st0 El HI. apply (rowsDone_step n0 o done x rest);
      [by rewrite <- El | done].
  - exists [], ∅, c. split; [simpl; by rewrite N.add_0_r |].
    split; [done |]. split; [done |]. split.
    { intros key [id Hid]. by rewrite Hc, lookup_empty in Hid. }
    split; [constructor |]. split; [done |].
    intros p. rewrite Hp. split.
    + intros H. by apply elem_of_nil in H.
    + intros (pr & m & Hpr & _). by apply elem_of_nil in Hpr.
  - by exists acc', pairs, V, c'.
Qed.
End RowsLoop.

Lemma jsGet_keys {A} (t : list (string * A)) k :
  k ∈ jsKeys t -> is_Some (jsGet t k).
Proof.
  intros Hk. destruct (jsGet t k) eqn:E; [done |].
  apply jsGet_None in E. by destruct E.
Qed.

(** Pass 1 on an entry alone: the collection, its modes numbered from 1,
    one variable for each row of the first mode. *)
Lemma isolated_entry fromCss options name first tree restModes :
  NoDup (jsKeys ((first, tree) :: restModes)) ->
  "Mode 1" ∉ jsKeys restModes ->
  NoDup (map fst (flattenVariables tree "")) ->
  exists acc pairs V c,
    isolated fromCss options (entryOf name ((first, tree) :: restModes))
    = (Ok acc,
       mkState (blockHost name (modesFrom 1 (jsKeys ((first, tree) :: restModes)))
                  (map fst pairs) V
                  (2 + N.of_nat (length (jsKeys restModes))
                   + N.of_nat (length (flattenVariables tree ""))))
               c [])
    /\ map snd pairs = flattenVariables tree ""
    /\ builtRows fromCss name ((first, tree) :: restModes)
         (modesFrom 1 (jsKeys ((first, tree) :: restModes))) pairs V
         (allPendingAliases acc).
Proof.
  intros Hnd Hmode1 Hrows.
  set (modesObj := (first, tree) :: restModes) in *.
  set (ms := modesFrom 1 (jsKeys modesObj)).
  destruct (setupModes_run name first (jsKeys restModes)
              (Cache.setCollection name 0 Cache.empty) [] Hnd Hmode1)
    as (mm & Hsetup & Hmm).
  assert (Hobj : forall m, m ∈ ms -> is_Some (jsGet modesObj (mode_name m))).
  { intros m Hm. apply jsGet_keys. rewrite <- (modesFrom_names 1 (jsKeys modesObj)).
    apply list_elem_of_fmap. by exists m. }
  destruct (rows_run fromCss options name modesObj mm ms Hmm Hobj
              (2 + N.of_nat (length (jsKeys restModes)))
              (Cache.setCollection name 0 Cache.empty) []
              (flattenVariables tree "")
              {| createdCollections := 1; createdVariables := 0;
                 updatedVariables := 0; skippedVariables := 0;
                 allPendingAliases := [] |} Hrows eq_refl eq_refl)
    as (acc' & pairs & V & c' & Hrun & Hsnd & Hbuilt).
  eexists _, pairs, V, c'. split; [| split; [exact Hsnd |]].
  - unfold isolated, pass1Collection, entryOf.
    cbn [asContent originalName orElse modes].
    erewrite bind_ok; [| reflexivity].
    cbn [cache freshState]. unfold Cache.getCollection.
    cbn [collectionMap Cache.empty]. rewrite lookup_empty.
    erewrite bind_ok.
    2:{ erewrite bind_ok; [| by apply call_run].
        erewrite bind_ok; reflexivity. }
    cbv beta iota.
    erewrite bind_ok; [| exact Hsetup].
    change (jsValues modesObj) with (tree :: jsValues restModes).
    cbv beta iota.
    rewrite <- (modesFrom_names 1 (jsKeys modesObj)). fold ms.
    erewrite bind_ok; [| exact Hrun]. reflexivity.
  - exact Hbuilt.
Qed.

(** ** The view of the store an entry builds alone *)

Section RowCells.
Variable fromCss : string -> RGBA.
Variable modesObj : ModeVariables.
Variable path : string.

Lemma writeCells_other (l : list Mode) :
  forall vals k,
    k ∉ map modeId l ->
    alookup (fold_left (writeCell fromCss modesObj path) l vals) k
    = alookup vals k.
Proof.
  induction l as [|m l IH]; intros vals k Hk; [done |].
  simpl in Hk. apply not_elem_of_cons in Hk as [Hne Hk].
  cbn [fold_left]. rewrite IH by done. unfold writeCell.
  destruct (leafAt modesObj m path) as [leaf|]; [| done].
  destruct (rawValueOf fromCss leaf) as [v|]; [| done].
  rewrite alookup_aset. by destruct (N.eqb_spec (modeId m) k).
Qed.

Lemma writeCells_lookup (l : list Mode) m :
  NoDup (map modeId l) -> m ∈ l ->
  forall vals,
    alookup (fold_left (writeCell fromCss modesObj path) l vals) (modeId m)
    = match leafAt modesObj m path ≫= rawValueOf fromCss with
      | Some v => Some v
      | None => alookup vals (modeId m)
      end.
Proof.
  induction l as [|m' l IH]; intros Hnd Hin vals.
  - by apply elem_of_nil in Hin.
  - simpl in Hnd. apply NoDup_cons in Hnd as [Hfresh Hnd].
    cbn [fold_left]. apply elem_of_cons in Hin as [->|Hin].
    + rewrite writeCells_other by done. unfold writeCell.
      destruct (leafAt modesObj m' path) as [leaf|]; [| done]. simpl.
      destruct (rawValueOf fromCss leaf) as [v|]; [| done].
      by rewrite alookup_aset, N.eqb_refl.
    + rewrite IH by done.
      destruct (leafAt modesObj m path ≫= rawValueOf fromCss); [done |].
      unfold writeCell.
      destruct (leafAt modesObj m' path) as [leaf|]; [| done].
      destruct (rawValueOf fromCss leaf) as [v|]; [| done].
      rewrite alookup_aset. destruct (N.eqb_spec (modeId m') (modeId m)) as [E|]; [| done].
      destruct Hfresh. rewrite E. apply list_elem_of_fmap. by exists m.
Qed.
End RowCells.

(** No queued alias names the cell: pass 2 leaves it. *)
Lemma settle_none resolves B var mode (pend : list PendingAlias) :
  (forall p, p ∈ pend ->
     N.eqb (p_variable p) var && N.eqb (p_modeId p) mode = false) ->
  forall cell, fold_left (settle resolves B var mode) pend cell = cell.
Proof.
  induction pend as [|p pend IH]; intros Hall cell; [done |].
  cbn [fold_left]. rewrite IH.
  2:{ intros q Hq. apply Hall. by apply list_elem_of_further. }
  unfold settle. rewrite <- !andb_assoc.
  rewrite (Hall p) by apply list_elem_of_here. by rewrite !andb_false_r.
Qed.

(** The queued aliases that name the cell are all [p0]: the fold over
    them is one step. *)
Lemma settle_one resolves B var mode p0 (pend : list PendingAlias) :
  (forall p, p ∈ pend ->
     N.eqb (p_variable p) var && N.eqb (p_modeId p) mode = true -> p = p0) ->
  N.eqb (p_variable p0) var && N.eqb (p_modeId p0) mode = true ->
  forall cell,
    (p0 ∈ pend ->
     fold_left (settle resolves B var mode) pend cell
     = settle resolves B var mode cell p0)
    /\ (fold_left (settle resolves B var mode) pend cell = cell
        \/ fold_left (settle resolves B var mode) pend cell
           = settle resolves B var mode cell p0).
Proof.
  intros Hall Hhit.
  assert (Hidem : forall cell,
             settle resolves B var mode (settle resolves B var mode cell p0) p0
             = settle resolves B var mode cell p0).
  { intros cell. unfold settle.
    by destruct (resolves (aliasKey p0) && writable B (p_variable p0) (p_modeId p0)
                 && N.eqb (p_variable p0) var && N.eqb (p_modeId p0) mode). }
  induction pend as [|p pend IH]; intros cell.
  - split; [| by left]. intros H. by apply elem_of_nil in H.
  - cbn [fold_left].
    assert (Hrest : forall q, q ∈ pend ->
              N.eqb (p_variable q) var && N.eqb (p_modeId q) mode = true -> q = p0).
    { intros q Hq. apply Hall. by apply list_elem_of_further. }
    destruct (N.eqb (p_variable p) var && N.eqb (p_modeId p) mode) eqn:Ep.
    + assert (p = p0) as -> by (apply Hall; [apply list_elem_of_here | done]).
      destruct (IH Hrest (settle resolves B var mode cell p0)) as [_ [E|E]].
      * rewrite E. split; [done | by right].
      * rewrite E, Hidem. split; [done | by right].
    + assert (Es : settle resolves B var mode cell p = cell).
      { unfold settle. rewrite <- !andb_assoc, Ep. by rewrite !andb_false_r. }
      rewrite Es. destruct (IH Hrest cell) as [Hin Hor]. split; [| done].
      intros [->|H]%elem_of_cons; [| by apply Hin].
      by rewrite Hhit in Ep.
Qed.

Lemma NoDup_map_inj {A B} (f : A -> B) (l : list A) x y :
  NoDup (map f l) -> x ∈ l -> y ∈ l -> f x = f y -> x = y.
Proof.
  induction l as [|a l IH]; intros Hnd Hx Hy E.
  - by apply elem_of_nil in Hx.
  - simpl in Hnd. apply NoDup_cons in Hnd as [Ha Hnd].
    apply elem_of_cons in Hx as [->|Hx]; apply elem_of_cons in Hy as [->|Hy].
    + done.
    + destruct Ha. rewrite E. apply list_elem_of_fmap. by exists y.
    + destruct Ha. rewrite <- E. apply list_elem_of_fmap. by exists x.
    + by apply IH.
Qed.

Lemma omap_ext_elem {A B} (f f' : A -> option B) (l : list A) :
  (forall x, x ∈ l -> f x = f' x) -> omap f l = omap f' l.
Proof.
  intros Hf. rewrite <- (map_id l) at 1. by apply omap_map_ext.
Qed.

Lemma omap_map_Some {A B C} (f : B -> option C) (g : A -> C) (k : A -> B)
  (l : list A) :
  (forall x, x ∈ l -> f (k x) = Some (g x)) -> omap f (map k l) = map g l.
Proof.
  induction l as [|x l IH]; intros Hl; simpl; [done |].
  rewrite (Hl x (list_elem_of_here _ _)). f_equal.
  apply IH. intros y Hy. apply Hl. by apply list_elem_of_further.
Qed.

Section BuiltView.
Variable fromCss : string -> RGBA.
Variable resolves : string -> bool.
Variable name : string.
Variable modesObj : ModeVariables.
Variable ms : list Mode.
Variable pairs : list (N * (string * ExportVariableValue)).
Variable V : gmap N VariableNode.
Variable pend : list PendingAlias.
Variable n : N.
Hypothesis Hids : NoDup (map modeId ms).
Hypothesis Hbuilt : builtRows fromCss name modesObj ms pairs V pend.

Lemma built_cell pr m :
  pr ∈ pairs -> m ∈ ms ->
  finalCell resolves (blockHost name ms (map fst pairs) V n) pend
            (fst pr) (modeId m)
  = rowCell fromCss resolves name modesObj (fst (snd pr)) m.
Proof.
  intros Hpr Hm. destruct Hbuilt as (Hnd & Hvars & Hpend).
  rewrite Forall_forall in Hvars. pose proof (Hvars pr Hpr) as Hv.
  set (B := blockHost name ms (map fst pairs) V n).
  assert (Hcell : cellOf B (fst pr) (modeId m)
                  = Raw <$> (leafAt modesObj m (fst (snd pr))
                               ≫= rawValueOf fromCss)).
  { unfold cellOf, getVariableById. cbn [variables B blockHost]. rewrite Hv.
    cbn [valuesByMode rowVariable].
    rewrite (writeCells_lookup fromCss modesObj (fst (snd pr)) ms m Hids Hm).
    destruct (leafAt modesObj m (fst (snd pr))) as [leaf|]; [| done]. simpl.
    destruct (rawValueOf fromCss leaf) as [v|] eqn:Ev; [| done]. simpl.
    apply rawValueOf_raw in Ev. by destruct v. }
  assert (Hw : writable B (fst pr) (modeId m) = true).
  { unfold writable. cbn [variables B blockHost]. rewrite Hv.
    cbn [variableCollectionId rowVariable collections findCollection col_id
         N.eqb modeIds col_modes].
    apply bool_decide_eq_true_2, list_elem_of_fmap. by exists m. }
  assert (Hhits : forall p,
             p ∈ pend ->
             N.eqb (p_variable p) (fst pr) && N.eqb (p_modeId p) (modeId m) = true ->
             queuedCell name modesObj (fst pr) (fst (snd pr)) m = Some p).
  { intros p Hp [E1 E2]%andb_prop.
    apply Hpend in Hp as (pr' & m' & Hpr' & Hm' & Hq).
    assert (p_variable p = fst pr' /\ p_modeId p = modeId m') as [F1 F2].
    { unfold queuedCell in Hq.
      destruct (leafAt modesObj m' (fst (snd pr'))) as [leaf|]; [| done].
      destruct (isAliasReference leaf); [| done]. by injection Hq as <-. }
    apply N.eqb_eq in E1, E2.
    assert (pr' = pr) as ->.
    { apply (NoDup_map_inj fst pairs); [done | done | done | congruence]. }
    assert (m' = m) as ->.
    { apply (NoDup_map_inj modeId ms); [done | done | done | congruence]. }
    done. }
  unfold finalCell. fold B. rewrite Hcell. unfold rowCell.
  destruct (queuedCell name modesObj (fst pr) (fst (snd pr)) m) as [p0|] eqn:Eq.
  - destruct (settle_one resolves B (fst pr) (modeId m) p0 pend) with
      (cell := Raw <$> (leafAt modesObj m (fst (snd pr)) ≫= rawValueOf fromCss))
      as [Hin _].
    { intros p Hp Hhit. specialize (Hhits p Hp Hhit). congruence. }
    { unfold queuedCell in Eq.
      destruct (leafAt modesObj m (fst (snd pr))) as [leaf|]; [| done].
      destruct (isAliasReference leaf); [| done]. injection Eq as <-. simpl.
      by rewrite !N.eqb_refl. }
    rewrite Hin by (apply Hpend; by exists pr, m).
    unfold queuedCell in Eq.
    destruct (leafAt modesObj m (fst (snd pr))) as [leaf|]; [| done].
    destruct (isAliasReference leaf) as [ref|]; [| done]. injection Eq as <-.
    unfold settle, aliasKey.
    cbn [p_variable p_modeId p_aliasCollection p_aliasPath].
    rewrite Hw, !N.eqb_refl, !andb_true_r. done.
  - rewrite settle_none.
    2:{ intros p Hp.
        destruct (N.eqb (p_variable p) (fst pr) && N.eqb (p_modeId p) (modeId m))
          eqn:Ehit; [| done].
        by specialize (Hhits p Hp Ehit). }
    unfold queuedCell in Eq.
    destruct (leafAt modesObj m (fst (snd pr))) as [leaf|]; [| done].
    by destruct (isAliasReference leaf).
Qed.

(** The entry leaves one collection, its rows as variables. *)
Lemma built_view :
  blockView resolves (blockHost name ms (map fst pairs) V n) pend
  = [ {| cv_name := name;
         cv_modes := map mode_name ms;
         cv_variables :=
           map (rowView fromCss resolves name modesObj ms) (map snd pairs) |} ].
Proof.
  unfold blockView, getLocalVariableCollections.
  cbn [collections blockHost filter list_filter col_remote].
  rewrite decide_True by done. cbn [map].
  unfold collectionViewBy. cbn [col_name col_modes variableIds]. do 2 f_equal.
  rewrite map_map.
  apply omap_map_Some. intros pr Hpr.
  destruct Hbuilt as (_ & Hvars & _). rewrite Forall_forall in Hvars.
  unfold getVariableById. cbn [variables blockHost]. rewrite (Hvars pr Hpr).
  cbn [fmap option_fmap option_map]. f_equal.
  unfold variableViewBy, rowView.
  cbn [var_name resolvedType var_description var_scopes rowVariable col_modes].
  f_equal. apply omap_ext_elem. intros m Hm.
  by rewrite (built_cell pr m Hpr Hm).
Qed.

(** Every row has its key in the cache pass 2 rebuilds. *)
Lemma built_keys pr :
  pr ∈ pairs ->
  (name +:+ "/" +:+ fst (snd pr), fst pr)
  ∈ cacheEntries (blockHost name ms (map fst pairs) V n).
Proof.
  intros Hpr. apply elem_of_cacheEntries.
  destruct Hbuilt as (_ & Hvars & _). rewrite Forall_forall in Hvars.
  eexists _, _. split; [| split; [| split; [apply (Hvars pr Hpr) |]]].
  - unfold getLocalVariableCollections.
    cbn [collections blockHost filter list_filter col_remote].
    rewrite decide_True by done. apply list_elem_of_here.
  - cbn [variableIds]. apply list_elem_of_fmap. by exists pr.
  - reflexivity.
Qed.
End BuiltView.

(** An entry with distinct mode names, [Mode 1] first if at all, and
    distinct paths in its first mode. *)
Lemma entry_spec fromCss options resolves name first tree restModes :
  NoDup (jsKeys ((first, tree) :: restModes)) ->
  "Mode 1" ∉ jsKeys restModes ->
  NoDup (map fst (flattenVariables tree "")) ->
  returns (fst (isolated fromCss options
                  (entryOf name ((first, tree) :: restModes))))
  /\ entryView fromCss options resolves
       (entryOf name ((first, tree) :: restModes))
     = [ {| cv_name := name;
            cv_modes := jsKeys ((first, tree) :: restModes);
            cv_variables :=
              map (rowView fromCss resolves name ((first, tree) :: restModes)
                     (modesFrom 1 (jsKeys ((first, tree) :: restModes))))
                  (flattenVariables tree "") |} ]
  /\ forall row,
       row ∈ flattenVariables tree "" ->
       exists id,
         (name +:+ "/" +:+ fst row, id)
         ∈ cacheEntries
             (host (snd (isolated fromCss options
                           (entryOf name ((first, tree) :: restModes))))).
Proof.
  intros Hnd Hmode1 Hrows.
  destruct (isolated_entry fromCss options name first tree restModes
              Hnd Hmode1 Hrows) as (acc & pairs & V & c & Hrun & Hsnd & Hbuilt).
  unfold entryView, blockOf. cbn [blk_host blk_pending].
  rewrite Hrun. cbn [fst snd host returns]. split; [done |]. split.
  - rewrite (built_view fromCss resolves name _ _ pairs V _ _
               (modesFrom_NoDup 1 _) Hbuilt).
    by rewrite Hsnd, modesFrom_names.
  - intros row Hrow. rewrite <- Hsnd in Hrow.
    apply list_elem_of_fmap in Hrow as (pr & -> & Hpr).
    exists (fst pr). by apply (built_keys fromCss name _ _ pairs V _ _ Hbuilt).
Qed.

(** ** Values that survive the document *)

Lemma sameQ_eq p q : sameQ p q = true -> p = q.
Proof.
  destruct p as [pn pd], q as [qn qd]. unfold sameQ. simpl.
  intros [E1 E2]%andb_prop. apply Z.eqb_eq in E1. apply Pos.eqb_eq in E2.
  by subst.
Qed.

Lemma byteChannels_kept : forallb channelKept byteChannels = true.
Proof. vm_compute. reflexivity. Qed.

Lemma hundredths_kept : forallb opacityKept hundredths = true.
Proof. vm_compute. reflexivity. Qed.

Lemma channel_kept q :
  q ∈ byteChannels ->
  exists c1 c2 k,
    MathUtils.toHexByte q = String c1 (String c2 EmptyString)
    /\ Js.parseHexByte c1 c2 = Some k
    /\ MathUtils.fromHexByte k = q.
Proof.
  intros Hq. pose proof byteChannels_kept as H.
  rewrite forallb_forall in H. apply list_elem_of_In in Hq.
  specialize (H q Hq). unfold channelKept in H.
  destruct (MathUtils.toHexByte q) as [|c1 [|c2 [|]]]; try done.
  destruct (Js.parseHexByte c1 c2) as [k|] eqn:Ek; [| done].
  exists c1, c2, k. split; [done |]. split; [done |]. by apply sameQ_eq.
Qed.

Lemma opacity_kept q :
  q ∈ hundredths ->
  exists c1 c2 k,
    MathUtils.toHexByte q = String c1 (String c2 EmptyString)
    /\ Js.parseHexByte c1 c2 = Some k
    /\ (q < 1)%Q /\ (MathUtils.fromHexByte k < 1)%Q
    /\ MathUtils.round2 (MathUtils.fromHexByte k) = q.
Proof.
  intros Hq. pose proof hundredths_kept as H.
  rewrite forallb_forall in H. apply list_elem_of_In in Hq.
  specialize (H q Hq). unfold opacityKept in H.
  apply andb_prop in H as [H1 H].
  destruct (Qlt_le_dec q 1) as [Hlt|]; [| done].
  destruct (MathUtils.toHexByte q) as [|c1 [|c2 [|]]]; try done.
  destruct (Js.parseHexByte c1 c2) as [k|] eqn:Ek; [| done].
  apply andb_prop in H as [H2 H3].
  destruct (Qlt_le_dec (MathUtils.fromHexByte k) 1) as [Hlt'|]; [| done].
  exists c1, c2, k. split; [done |]. split; [done |]. split; [done |].
  split; [done |]. by apply sameQ_eq.
Qed.

(** A colour the hexadecimal notation holds exactly comes back from
    its export. *)
Lemma hexExact_kept fromCss (c : RGBA) scopes descr cn lib lv :
  hexExact c ->
  rawValueOf fromCss
    {| e_scopes := scopes; e_type := TColor; e_description := descr;
       e_value := EColor (ColorConverter.toAllFormats c);
       e_collectionName := cn; e_libraryRef := lib; e_localValue := lv |}
  = Some (VColor c).
Proof.
  destruct c as [r g b a]. intros (Hr & Hg & Hb & Ha). simpl in *.
  destruct (channel_kept r Hr) as (r1 & r2 & kr & Er & Pr & Fr).
  destruct (channel_kept g Hg) as (g1 & g2 & kg & Eg & Pg & Fg).
  destruct (channel_kept b Hb) as (b1 & b2 & kb & Eb & Pb & Fb).
  unfold rawValueOf. cbn [e_type e_value].
  unfold ColorParser.parse, ColorConverter.toAllFormats. cbn [hex].
  unfold ColorConverter.toHex. cbn [rgba_r rgba_g rgba_b rgba_a].
  rewrite Er, Eg, Eb.
  destruct Ha as [->|Ha].
  - destruct (Qlt_le_dec 1 1) as [Hlt|_]; [by apply Qlt_irrefl in Hlt |].
    cbv [ColorParser.fromHex ColorParser.stripHash String.append].
    rewrite Pr, Pg, Pb, Fr, Fg, Fb. cbn [rgba_a].
    destruct (Qlt_le_dec 1 1) as [Hlt|_]; [by apply Qlt_irrefl in Hlt | done].
  - destruct (opacity_kept a Ha) as (a1 & a2 & ka & Ea & Pa & Hlt & Hlt' & Fa).
    destruct (Qlt_le_dec a 1) as [_|Hge]; [| by apply Qle_not_lt in Hge].
    rewrite Ea.
    cbv [ColorParser.fromHex ColorParser.stripHash String.append].
    rewrite Pr, Pg, Pb, Pa, Fr, Fg, Fb. cbn [rgba_a rgba_r rgba_g rgba_b].
    destruct (Qlt_le_dec (MathUtils.fromHexByte ka) 1) as [_|Hge];
      [| by apply Qle_not_lt in Hge].
    by rewrite Fa.
Qed.

(** ** References *)

Lemma dropLast_brace s : Js.dropLast (s +:+ "}") = s.
Proof.
  induction s as [|c s IH]; [done |].
  rewrite append_cons. cbn [Js.dropLast]. rewrite IH.
  by destruct s.
Qed.

Lemma slice_braces s : Js.slice_1_m1 ("{" +:+ s +:+ "}") = s.
Proof. apply dropLast_brace. Qed.

Lemma replaceDots_append a b :
  Js.replaceDots (a +:+ b) = Js.replaceDots a +:+ Js.replaceDots b.
Proof.
  induction a as [|c a IH]; [done |].
  rewrite append_cons. cbn [Js.replaceDots]. by rewrite IH.
Qed.

Lemma replaceDots_join sep parts :
  Js.replaceDots sep = "/" ->
  Js.replaceDots (Js.join sep parts) = Js.join "/" (map Js.replaceDots parts).
Proof.
  intros Hsep. induction parts as [|p parts IH]; [done |].
  destruct parts as [|q parts]; [done |].
  rewrite join_cons. cbn [map] in *. rewrite join_cons.
  by rewrite !replaceDots_append, Hsep, IH.
Qed.

Lemma replaceDots_dotFree s : dotFree s = true -> Js.replaceDots s = s.
Proof.
  induction s as [|c s IH]; [done |]. cbn [dotFree Js.replaceDots].
  intros [Hc Hs]%andb_prop. rewrite IH by done.
  by destruct (Ascii.eqb c ".").
Qed.

(** The path of a reference leads back to the name. *)
Lemma reference_path s :
  dotFree s = true ->
  Js.replaceDots (Js.slice_1_m1 ("{" +:+ Js.join "." (Js.splitSlash s) +:+ "}"))
  = s.
Proof.
  intros Hs. rewrite slice_braces.
  rewrite (replaceDots_join "." _ eq_refl).
  rewrite <- (replaceDots_join "/" _ eq_refl).
  rewrite join_splitSlash. by apply replaceDots_dotFree.
Qed.

(** ** The leaves of the export *)

Lemma exportLeaf_type h opts v m :
  e_type (exportLeaf h opts v m) = TypeMapper.toExportType (resolvedType v).
Proof.
  unfold exportLeaf.
  repeat match goal with
         | |- context [match ?x with _ => _ end] => destruct x
         end; reflexivity.
Qed.

Lemma exportLeaf_scopes h opts v m :
  e_scopes (exportLeaf h opts v m) = TypeMapper.scopesToArray (var_scopes v).
Proof.
  unfold exportLeaf.
  repeat match goal with
         | |- context [match ?x with _ => _ end] => destruct x
         end; reflexivity.
Qed.

Lemma exportLeaf_description h opts v m :
  default "" (e_description (exportLeaf h opts v m)) = var_description v.
Proof.
  assert (E : e_description (exportLeaf h opts v m)
              = if Js.truthy (var_description v)
                then Some (var_description v) else None).
  { unfold exportLeaf.
    destruct (alookup (valuesByMode v) (modeId m)) as [[id| | | |]|];
      try reflexivity.
    destruct (getVariableById h id); [| reflexivity].
    by destruct (resolveAliases opts). }
  rewrite E. by destruct (var_description v).
Qed.

Lemma scopesKept_spec s :
  scopesKept s ->
  TypeMapper.arrayToScopes (TypeMapper.scopesToArray s) = s.
Proof.
  unfold TypeMapper.arrayToScopes, TypeMapper.scopesToArray.
  intros [->|[Hne Hall]]; [done |].
  destruct s as [|x s]; [done |].
  rewrite (bool_decide_eq_false_2 _ Hall).
  by rewrite (bool_decide_eq_false_2 _ Hall).
Qed.

Section ExportedCells.
Variable fromCss : string -> RGBA.
Variable resolves : string -> bool.
Variable h : Host.
Variable opts : ExportOptions.
Hypothesis Hopts : exportsAll opts.

(** The cell the import leaves for an exported leaf is the cell of the
    store. *)
Lemma exported_cell name v m x :
  alookup (valuesByMode v) (modeId m) = Some x ->
  plainValue h (resolvedType v) x ->
  (forall id tv tc,
     x = VAlias id -> getVariableById h id = Some tv ->
     getVariableCollectionById h (variableCollectionId tv) = Some tc ->
     plainName (col_name tc)
     /\ resolves (col_name tc +:+ "/" +:+ var_name tv) = true) ->
  match isAliasReference (exportLeaf h opts v m) with
  | Some ref =>
      let key := orElse (e_collectionName (exportLeaf h opts v m)) name
                   +:+ "/" +:+ Js.replaceDots (Js.slice_1_m1 ref) in
      if resolves key then Some (aliasName key)
      else Raw <$> rawValueOf fromCss (exportLeaf h opts v m)
  | None => Raw <$> rawValueOf fromCss (exportLeaf h opts v m)
  end
  = Some (viewValue h x).
Proof.
  destruct Hopts as (_ & _ & _ & Hconv & Hres).
  intros Hx Hplain Htarget. unfold exportLeaf. rewrite Hx.
  destruct x as [id|c|s|q|b]; simpl in Hplain.
  - destruct Hplain as (tv & tc & Htv & Htc & Hlocal & Hlisted & Hdot).
    destruct (Htarget id tv tc eq_refl Htv Htc) as [(Hslash & Htruthy & _) Hr].
    rewrite Htv, Htc, Hres, Hconv, Hlocal, Htruthy.
    cbn [NamingConverter.convert]. rewrite map_id.
    unfold isAliasReference. cbn [e_value e_collectionName orElse].
    rewrite startsWith_append, Htruthy, reference_path by done.
    rewrite Hr. unfold aliasName. rewrite splitKey_join by done.
    unfold viewValue. by rewrite Htv, Htc.
  - destruct Hplain as [Ht Hhex]. rewrite Ht.
    cbn [TypeMapper.toExportType toExportValue isAliasReference e_value].
    by rewrite hexExact_kept.
  - destruct Hplain as [Ht Hs]. rewrite Ht.
    cbn [TypeMapper.toExportType toExportValue isAliasReference e_value].
    by rewrite Hs.
  - rewrite Hplain. reflexivity.
  - rewrite Hplain. reflexivity.
Qed.
End ExportedCells.

(** ** The round trip *)

Lemma view_listed h c :
  cv_variables (collectionViewBy (getVariableById h) (cellOf h) c)
  = map (variableViewOf h c) (listed h c).
Proof.
  unfold collectionViewBy, listed. cbn [cv_variables].
  induction (variableIds c) as [|id ids IH]; [done |].
  cbn [omap list_omap]. unfold cellOf at 1.
  destruct (getVariableById h id) as [v|] eqn:E;
    cbn [fmap option_fmap option_map map]; [| exact IH].
  f_equal. exact IH.
Qed.

Lemma rowCell_name fromCss resolves name modesObj path m :
  rowCell fromCss resolves name modesObj path m
  = rowCell fromCss resolves name modesObj path (mkMode 0 (mode_name m)).
Proof. reflexivity. Qed.

Section ExportedRows.
Variable fromCss : string -> RGBA.
Variable resolves : string -> bool.
Variable h : Host.
Variable opts : ExportOptions.
Hypothesis Hopts : exportsAll opts.
Hypothesis Hplain : plainStore h.
Hypothesis Hresolves :
  forall tc tv,
    tc ∈ getLocalVariableCollections h -> tv ∈ listed h tc ->
    resolves (col_name tc +:+ "/" +:+ var_name tv) = true.

Lemma plain_collection c :
  c ∈ getLocalVariableCollections h ->
  plainName (col_name c) /\ plainCollection h c.
Proof.
  intros Hc. destruct Hplain as [_ Hall]. rewrite Forall_forall in Hall.
  by apply Hall.
Qed.

Lemma exportedModes_keys c :
  jsKeys (exportedModes h opts c) = map mode_name (col_modes c).
Proof. unfold jsKeys, exportedModes. rewrite map_map. by apply map_ext. Qed.

Lemma exported_leafAt c m v :
  c ∈ getLocalVariableCollections h -> m ∈ col_modes c -> v ∈ listed h c ->
  leafAt (exportedModes h opts c) m (var_name v)
  = Some (exportLeaf h opts v m).
Proof.
  intros Hc Hm Hv.
  destruct (plain_collection c Hc) as (_ & _ & Hnd & _ & _ & Hvars & Hapart & Hall).
  unfold leafAt.
  rewrite (jsGet_NoDup (exportedModes h opts c) (mode_name m)
             (treeOf (fun v => exportLeaf h opts v m) (listed h c))).
  - apply treeOf_lookup; try done.
    eapply Forall_impl; [exact Hall |]. by intros u (Hu & _).
  - fold (jsKeys (exportedModes h opts c)). by rewrite exportedModes_keys.
  - unfold exportedModes. apply list_elem_of_fmap. by exists m.
Qed.

Lemma exported_rowCell c m v :
  c ∈ getLocalVariableCollections h -> m ∈ col_modes c -> v ∈ listed h c ->
  rowCell fromCss resolves (col_name c) (exportedModes h opts c) (var_name v) m
  = viewValue h <$> alookup (valuesByMode v) (modeId m).
Proof.
  intros Hc Hm Hv. unfold rowCell. rewrite (exported_leafAt c m v Hc Hm Hv).
  destruct (plain_collection c Hc) as (_ & _ & _ & _ & _ & _ & _ & Hall).
  rewrite Forall_forall in Hall.
  destruct (Hall v Hv) as (_ & _ & Hcells).
  destruct (Hcells m Hm) as (x & Hx & Hval). rewrite Hx.
  apply (exported_cell fromCss resolves h opts Hopts (col_name c) v m x Hx Hval).
  intros id tv tc -> Htv Htc. simpl in Hval.
  destruct Hval as (tv' & tc' & Htv' & Htc' & Hlocal & Hlisted & _).
  rewrite Htv in Htv'. injection Htv' as <-.
  rewrite Htc in Htc'. injection Htc' as <-.
  assert (Hin : tc ∈ getLocalVariableCollections h).
  { apply list_elem_of_filter. split; [done |].
    by apply findCollection_elem in Htc as [? _]. }
  split; [by apply plain_collection |].
  apply Hresolves; [done |].
  apply list_elem_of_omap. by exists id.
Qed.

(** The variable the import creates for the row of a variable of the
    store shows as that variable. *)
Lemma exported_row c m1 v :
  c ∈ getLocalVariableCollections h -> v ∈ listed h c ->
  rowView fromCss resolves (col_name c) (exportedModes h opts c)
          (modesFrom 1 (jsKeys (exportedModes h opts c)))
          (var_name v, exportLeaf h opts v m1)
  = variableViewOf h c v.
Proof.
  intros Hc Hv. unfold rowView, variableViewOf, variableViewBy. cbn [fst snd].
  destruct (plain_collection c Hc) as (_ & _ & _ & _ & _ & _ & _ & Hall).
  rewrite Forall_forall in Hall. destruct (Hall v Hv) as (_ & Hscopes & _).
  rewrite exportLeaf_type, exportLeaf_scopes, exportLeaf_description.
  rewrite (scopesKept_spec _ Hscopes). f_equal.
  - by destruct (resolvedType v).
  - transitivity
      (omap (fun n => pair n <$> rowCell fromCss resolves (col_name c)
                                   (exportedModes h opts c) (var_name v)
                                   (mkMode 0 n))
            (map mode_name (modesFrom 1 (jsKeys (exportedModes h opts c))))).
    { symmetry. by apply omap_map_ext. }
    rewrite modesFrom_names, exportedModes_keys.
    apply omap_map_ext. intros m Hm.
    rewrite <- rowCell_name. by rewrite (exported_rowCell c m v Hc Hm Hv).
Qed.
End ExportedRows.

Section ExportedEntries.
Variable fromCss : string -> RGBA.
Variable options : ImportOptions.
Variable h : Host.
Variable opts : ExportOptions.
Hypothesis Hopts : exportsAll opts.
Hypothesis Hplain : plainStore h.

(** The import of the exported entry of a collection, alone. *)
Lemma exported_entry resolves c :
  c ∈ getLocalVariableCollections h ->
  exists rows,
    rows ≡ₚ map (fun v => (var_name v,
                           exportLeaf h opts v
                             (default (mkMode 0 "") (head (col_modes c)))))
                (listed h c)
    /\ returns (fst (isolated fromCss options
                       (entryOf (col_name c) (exportedModes h opts c))))
    /\ entryView fromCss options resolves
         (entryOf (col_name c) (exportedModes h opts c))
       = [ {| cv_name := col_name c;
              cv_modes := map mode_name (col_modes c);
              cv_variables :=
                map (rowView fromCss resolves (col_name c)
                       (exportedModes h opts c)
                       (modesFrom 1 (jsKeys (exportedModes h opts c))))
                    rows |} ]
    /\ forall row,
         row ∈ rows ->
         exists id,
           (col_name c +:+ "/" +:+ fst row, id)
           ∈ cacheEntries
               (host (snd (isolated fromCss options
                             (entryOf (col_name c) (exportedModes h opts c))))).
Proof.
  intros Hc.
  destruct (plain_collection h Hplain c Hc)
    as (_ & Hne & Hnd & Hmode1 & _ & Hvars & Hapart & Hall).
  assert (Hheads : Forall (fun v => Js.startsWith (var_name v) "/" = false)
                          (listed h c)).
  { eapply Forall_impl; [exact Hall |]. by intros u (Hu & _). }
  pose proof (exportedModes_keys h opts c) as Hkeys.
  unfold exportedModes in *.
  destruct (col_modes c) as [|m1 rest]; [done |].
  cbn [map head default] in *.
  set (tree := treeOf (fun v => exportLeaf h opts v m1) (listed h c)) in *.
  pose proof (treeOf_flatten (fun v => exportLeaf h opts v m1) (listed h c)
                Hvars Hapart Hheads) as Hrows.
  fold tree in Hrows.
  exists (flattenVariables tree ""). split; [exact Hrows |].
  destruct (entry_spec fromCss options resolves (col_name c) (mode_name m1) tree
              (map (fun m => (mode_name m,
                              treeOf (fun v => exportLeaf h opts v m)
                                     (listed h c))) rest))
    as (Hret & Hview & Hcache).
  - by rewrite Hkeys.
  - unfold jsKeys. rewrite map_map. exact Hmode1.
  - rewrite Hrows, map_map. exact Hvars.
  - split; [exact Hret |]. split; [| exact Hcache].
    rewrite Hview. by rewrite Hkeys.
Qed.
End ExportedEntries.

Lemma exportCollections_spec h opts :
  exportsAll opts -> plainStore h ->
  exportCollections h opts
  = map (fun c => entryOf (col_name c) (exportedModes h opts c))
        (getLocalVariableCollections h).
Proof.
  intros Hopts Hplain. unfold exportCollections.
  destruct Hopts as (Hsel & Hrest). rewrite Hsel.
  apply map_ext_in. intros c Hc%list_elem_of_In.
  destruct (plain_collection h Hplain c Hc) as (_ & _ & Hnd & _ & Hidx & _).
  by apply exportCollection_spec.
Qed.

Lemma exported_clean h opts :
  plainStore h ->
  cleanDocument
    (map (fun c => entryOf (col_name c) (exportedModes h opts c))
         (getLocalVariableCollections h)).
Proof.
  intros [Hnd Hall].
  assert (Hnames : collectionNames
                     (map (fun c => entryOf (col_name c) (exportedModes h opts c))
                          (getLocalVariableCollections h))
                   = map col_name (getLocalVariableCollections h)).
  { unfold collectionNames.
    induction Hall as [|c l [(_ & _ & Hc) _] _ IH]; [done |].
    cbn [map omap list_omap isStylesKey entryOf].
    destruct (String.eqb_spec (col_name c) "_styles"); [done |].
    cbn [entryName asContent originalName orElse]. f_equal.
    apply IH. simpl in Hnd. by apply NoDup_cons in Hnd as [_ ?]. }
  split.
  - apply Forall_forall. intros item (c & -> & Hc)%list_elem_of_fmap.
    rewrite Forall_forall in Hall. destruct (Hall c Hc) as [(_ & _ & Hs) _].
    unfold collectionEntry, entryOf. cbn [isStylesKey].
    by destruct (String.eqb_spec (col_name c) "_styles").
  - rewrite Hnames. split; [done |].
    apply Forall_forall. intros n (c & -> & Hc)%list_elem_of_fmap.
    rewrite Forall_forall in Hall. by destruct (Hall c Hc) as [(? & _) _].
Qed.


Lemma byteChannels_elem (k : nat) :
  (k < 256)%nat -> Qmake (Z.of_nat k) 255 ∈ byteChannels.
Proof.
  intros Hk. apply list_elem_of_fmap. exists k. split; [done |].
  apply elem_of_seq. lia.
Qed.

Lemma hundredths_elem (j : nat) :
  (j < 100)%nat -> Qmake (Z.of_nat j) 100 ∈ hundredths.
Proof.
  intros Hj. apply list_elem_of_fmap. exists j. split; [done |].
  apply elem_of_seq. lia.
Qed.

Ltac refute_elem H :=
  repeat (apply elem_of_cons in H as [H|H]; [discriminate H |]);
  by apply elem_of_nil in H.

Ltac distinct_names :=
  repeat (apply NoDup_cons; split;
          [let H := fresh in intros H; refute_elem H |]);
  apply NoDup_nil_2.

Ltac each_elem H :=
  repeat (apply elem_of_cons in H as [->|H]);
  [.. | by apply elem_of_nil in H].

Lemma themeHost_plain : plainStore themeHost.
Proof.
  unfold plainStore.
  set (cols := getLocalVariableCollections themeHost).
  vm_compute in cols. subst cols. split; [cbn [map col_name]; distinct_names |].
  repeat apply List.Forall_cons; try apply List.Forall_nil; (split; [by repeat split |]).
  - unfold plainCollection. set (vars := listed themeHost _).
    vm_compute in vars. subst vars. cbn [col_modes map mode_name var_name tail].
    split; [done |]. split; [distinct_names |].
    split; [intros H; refute_elem H |].
    split; [by repeat constructor |].
    split; [distinct_names |].
    split.
    { intros a b Ha Hb. each_elem Ha; each_elem Hb; reflexivity. }
    repeat apply List.Forall_cons; try apply List.Forall_nil;
      (split; [reflexivity |]); (split; [by left |]);
      intros m Hm; each_elem Hm; eexists; (split; [reflexivity |]);
      try done.
    exists (plainVar "size/small" 0 FLOAT [(1, VNumber 4); (2, VNumber 6)]).
    eexists. split; [reflexivity |]. split; [reflexivity |].
    split; [reflexivity |]. split; [| reflexivity].
    apply list_elem_of_here.
  - unfold plainCollection. set (vars := listed themeHost _).
    vm_compute in vars. subst vars. cbn [col_modes map mode_name var_name tail].
    split; [done |]. split; [distinct_names |].
    split; [intros H; refute_elem H |].
    split; [by repeat constructor |].
    split; [distinct_names |].
    split.
    { intros a b Ha Hb. each_elem Ha; each_elem Hb; reflexivity. }
    repeat apply List.Forall_cons; try apply List.Forall_nil;
      (split; [reflexivity |]); (split; [by left |]);
      intros m Hm; each_elem Hm; eexists; (split; [reflexivity |]);
      try done.
    + exists (plainVar "size/large" 0 FLOAT [(1, VNumber 16); (2, VAlias 3)]).
      eexists. split; [reflexivity |]. split; [reflexivity |].
      split; [reflexivity |]. split; [| reflexivity].
      do 2 apply list_elem_of_further. apply list_elem_of_here.
    + split; [reflexivity |]. split; [apply (byteChannels_elem 255); lia |].
      split; [apply (byteChannels_elem 128); lia |].
      split; [apply (byteChannels_elem 0); lia | by left].
    + split; [reflexivity |]. split; [apply (byteChannels_elem 0); lia |].
      split; [apply (byteChannels_elem 0); lia |].
      split; [apply (byteChannels_elem 0); lia |].
      right. apply (hundredths_elem 50). lia.
Qed.



(** The value the import leaves for the colour. *)
Example half_red_comes_back_as_128 :
  storeView (importedStore noCss defaultOptions
               (exportCollections halfRedHost exportAll))
  = [ {| cv_name := "Paint"; cv_modes := ["Mode 1"];
         cv_variables :=
           [ {| vv_name := "half"; vv_type := COLOR; vv_description := "";
                vv_scopes := ["ALL_SCOPES"];
                vv_values :=
                  [("Mode 1",
                    Raw (VColor (mkRGBA (128 # 255) (0 # 255) (0 # 255) 1)))] |} ] |} ]
  /\ ~ (128 # 255 == 1 # 2)%Q.
Proof. split; [vm_compute; reflexivity | by intros H]. Qed.

(** ** Colours in hexadecimal notation *)

Lemma bytes_kept : forallb byteKept bytes = true.
Proof. vm_compute. reflexivity. Qed.

Lemma bytes_stable : forallb byteStable bytes = true.
Proof. vm_compute. reflexivity. Qed.

Lemma bytes_elem z : (0 <= z <= 255)%Z -> In z bytes.
Proof.
  intros Hz. unfold bytes. apply in_map_iff. exists (Z.to_nat z).
  split; [lia |]. apply in_seq. lia.
Qed.

Lemma byte_kept z :
  (0 <= z <= 255)%Z ->
  exists c1 c2,
    Js.padStart2 (Js.toString16 z) = String c1 (String c2 EmptyString)
    /\ Js.parseHexByte c1 c2 = Some (Z.to_N z).
Proof.
  intros Hz. pose proof bytes_kept as H. rewrite forallb_forall in H.
  specialize (H z (bytes_elem z Hz)). unfold byteKept in H.
  destruct (Js.padStart2 (Js.toString16 z)) as [|c1 [|c2 [|]]]; try done.
  destruct (Js.parseHexByte c1 c2) as [k|] eqn:Ek; [| done].
  apply N.eqb_eq in H. subst k. by exists c1, c2.
Qed.

Lemma round_unit q : unit q -> (0 <= Js.round (q * 255) <= 255)%Z.
Proof.
  intros [H0 H1]. unfold Js.round. split.
  - apply Z.le_trans with (Qfloor (0 # 1)); [done |].
    apply Qfloor_resp_le. lra.
  - apply Z.le_trans with (Qfloor (511 # 2)); [| done].
    apply Qfloor_resp_le. lra.
Qed.

Lemma toHexByte_unit q :
  unit q ->
  exists c1 c2,
    MathUtils.toHexByte q = String c1 (String c2 EmptyString)
    /\ Js.parseHexByte c1 c2 = Some (Z.to_N (Js.round (q * 255))).
Proof. intros Hq. apply byte_kept, (round_unit q Hq). Qed.

(** X1. A colour whose channels lie between 0 and 1 and whose opacity
    is not negative, written by [toHex] and read by [fromHex], comes
    back with every channel at its byte: the nearest multiple of 1/255.
    An opacity of 1 or more comes back as 1. *)
Theorem X1_hex_notation_keeps_bytes (c : RGBA) :
  inGamut c -> (0 <= rgba_a c)%Q ->
  ColorParser.fromHex (ColorConverter.toHex c)
  = {| rgba_r := byteOf (rgba_r c);
       rgba_g := byteOf (rgba_g c);
       rgba_b := byteOf (rgba_b c);
       rgba_a := if Qlt_le_dec (rgba_a c) 1 then byteOf (rgba_a c) else 1 |}.
Proof.
  destruct c as [r g b a]. intros (Hr & Hg & Hb) Ha. simpl in *.
  destruct (toHexByte_unit r Hr) as (r1 & r2 & Er & Pr).
  destruct (toHexByte_unit g Hg) as (g1 & g2 & Eg & Pg).
  destruct (toHexByte_unit b Hb) as (b1 & b2 & Eb & Pb).
  unfold ColorConverter.toHex. cbn [rgba_r rgba_g rgba_b rgba_a].
  rewrite Er, Eg, Eb. unfold byteOf.
  destruct (Qlt_le_dec a 1) as [Hlt|Hge].
  - destruct (toHexByte_unit a) as (a1 & a2 & Ea & Pa).
    { split; [done | lra]. }
    rewrite Ea.
    cbv [ColorParser.fromHex ColorParser.stripHash String.append].
    by rewrite Pr, Pg, Pb, Pa.
  - cbv [ColorParser.fromHex ColorParser.stripHash String.append].
    by rewrite Pr, Pg, Pb.
Qed.

Lemma X1_hex_notation_keeps_bytes_witness :
  ColorParser.fromHex (ColorConverter.toHex (mkRGBA (1 # 2) (1 # 3) 1 (3 # 4)))
  = {| rgba_r := byteOf (1 # 2);
       rgba_g := byteOf (1 # 3);
       rgba_b := byteOf 1;
       rgba_a := if Qlt_le_dec (3 # 4) 1 then byteOf (3 # 4) else 1 |}.
Proof.
  apply (X1_hex_notation_keeps_bytes (mkRGBA (1 # 2) (1 # 3) 1 (3 # 4))).
  - repeat split; done.
  - done.
Defined.

Lemma hexValue_bound c h : Js.hexValue c = Some h -> h <= 15.
Proof.
  unfold Js.hexValue. cbv zeta. generalize (N_of_ascii c) as n. intros n.
  repeat match goal with
         | |- context [if ?b then _ else _] => destruct b eqn:?
         end; intros [= <-];
    repeat match goal with
           | H : (_ && _)%bool = true |- _ => apply andb_prop in H as [? ?]
           | H : (_ <=? _) = true |- _ => apply N.leb_le in H
           end.
  all: lia.
Qed.

Lemma parseHexByte_bound c1 c2 k : Js.parseHexByte c1 c2 = Some k -> k <= 255.
Proof.
  unfold Js.parseHexByte.
  destruct (Js.hexValue c1) as [h|] eqn:E1; [| done].
  destruct (Js.hexValue c2) as [l|] eqn:E2; [| done].
  intros [= <-]. apply hexValue_bound in E1, E2. lia.
Qed.

Lemma fromHexByte_unit k : k <= 255 -> unit (MathUtils.fromHexByte k).
Proof.
  intros Hk. unfold unit, MathUtils.fromHexByte, Qle, Qdiv, Qmult, Qinv, inject_Z.
  simpl. lia.
Qed.

Lemma fromHexByte_stable k :
  k <= 255 ->
  Z.to_N (Js.round (MathUtils.fromHexByte k * 255)) = k.
Proof.
  intros Hk. pose proof bytes_stable as H. rewrite forallb_forall in H.
  assert (Hz : (0 <= Z.of_N k <= 255)%Z) by lia.
  specialize (H (Z.of_N k) (bytes_elem _ Hz)).
  unfold byteStable in H. apply Z.eqb_eq in H.
  rewrite N2Z.id in H. rewrite H. apply N2Z.id.
Qed.

(** The colours [fromHex] returns: black, or bytes. *)
Lemma fromHex_bytes s :
  ColorParser.fromHex s = ColorParser.black
  \/ exists r g b,
       r <= 255 /\ g <= 255 /\ b <= 255
       /\ (ColorParser.fromHex s
           = mkRGBA (MathUtils.fromHexByte r) (MathUtils.fromHexByte g)
                    (MathUtils.fromHexByte b) 1
           \/ exists a,
                a <= 255
                /\ ColorParser.fromHex s
                   = mkRGBA (MathUtils.fromHexByte r) (MathUtils.fromHexByte g)
                            (MathUtils.fromHexByte b) (MathUtils.fromHexByte a)).
Proof.
  unfold ColorParser.fromHex.
  destruct (ColorParser.stripHash s)
    as [|c1 [|c2 [|c3 [|c4 [|c5 [|c6 [|c7 [|c8 [|]]]]]]]]]; try by left.
  - destruct (Js.parseHexByte c1 c2) as [r|] eqn:Er; [| by left].
    destruct (Js.parseHexByte c3 c4) as [g|] eqn:Eg; [| by left].
    destruct (Js.parseHexByte c5 c6) as [b|] eqn:Eb; [| by left].
    right. exists r, g, b. apply parseHexByte_bound in Er, Eg, Eb.
    repeat split; try done. by left.
  - destruct (Js.parseHexByte c1 c2) as [r|] eqn:Er; [| by left].
    destruct (Js.parseHexByte c3 c4) as [g|] eqn:Eg; [| by left].
    destruct (Js.parseHexByte c5 c6) as [b|] eqn:Eb; [| by left].
    destruct (Js.parseHexByte c7 c8) as [a|] eqn:Ea; [| by left].
    right. exists r, g, b. apply parseHexByte_bound in Er, Eg, Eb, Ea.
    repeat split; try done. right. by exists a.
Qed.

Lemma toHexByte_fromHexByte k :
  k <= 255 ->
  exists c1 c2,
    MathUtils.toHexByte (MathUtils.fromHexByte k)
    = String c1 (String c2 EmptyString)
    /\ Js.parseHexByte c1 c2 = Some k.
Proof.
  intros Hk.
  destruct (toHexByte_unit _ (fromHexByte_unit k Hk)) as (c1 & c2 & E & P).
  rewrite (fromHexByte_stable k Hk) in P. by exists c1, c2.
Qed.

Lemma toHex_bytes r g b a :
  r <= 255 -> g <= 255 -> b <= 255 ->
  (1 <= a)%Q ->
  ColorParser.fromHex
    (ColorConverter.toHex
       (mkRGBA (MathUtils.fromHexByte r) (MathUtils.fromHexByte g)
               (MathUtils.fromHexByte b) a))
  = mkRGBA (MathUtils.fromHexByte r) (MathUtils.fromHexByte g)
           (MathUtils.fromHexByte b) 1.
Proof.
  intros Hr Hg Hb Ha.
  destruct (toHexByte_fromHexByte r Hr) as (r1 & r2 & Er & Pr).
  destruct (toHexByte_fromHexByte g Hg) as (g1 & g2 & Eg & Pg).
  destruct (toHexByte_fromHexByte b Hb) as (b1 & b2 & Eb & Pb).
  unfold ColorConverter.toHex. cbn [rgba_r rgba_g rgba_b rgba_a].
  rewrite Er, Eg, Eb.
  destruct (Qlt_le_dec a 1) as [Hlt|_]; [by apply Qlt_not_le in Hlt |].
  cbv [ColorParser.fromHex ColorParser.stripHash String.append].
  by rewrite Pr, Pg, Pb.
Qed.

(** X2. Whatever the string, [fromHex] returns a colour whose channels
    and opacity lie between 0 and 1, and that colour, written by
    [toHex] and read again, is the same colour. *)
Theorem X2_fromHex_in_gamut_and_stable (s : string) :
  inGamut (ColorParser.fromHex s)
  /\ unit (rgba_a (ColorParser.fromHex s))
  /\ sameColor
       (ColorParser.fromHex (ColorConverter.toHex (ColorParser.fromHex s)))
       (ColorParser.fromHex s).
Proof.
  destruct (fromHex_bytes s) as [->|(r & g & b & Hr & Hg & Hb & H)].
  - split; [by repeat split |]. split; [by split |]. by vm_compute.
  - destruct H as [->|(a & Ha & ->)].
    + split; [repeat split; by apply fromHexByte_unit |].
      split; [by split |].
      rewrite toHex_bytes by done. by repeat split.
    + pose proof (fromHexByte_unit a Ha) as [Ha0 Ha1].
      split; [repeat split; by apply fromHexByte_unit |].
      split; [by split |].
      destruct (Qlt_le_dec (MathUtils.fromHexByte a) 1) as [Hlt|Hge].
      * destruct (toHexByte_fromHexByte r Hr) as (r1 & r2 & Er & Pr).
        destruct (toHexByte_fromHexByte g Hg) as (g1 & g2 & Eg & Pg).
        destruct (toHexByte_fromHexByte b Hb) as (b1 & b2 & Eb & Pb).
        destruct (toHexByte_fromHexByte a Ha) as (a1 & a2 & Ea & Pa).
        unfold ColorConverter.toHex. cbn [rgba_r rgba_g rgba_b rgba_a].
        rewrite Er, Eg, Eb, Ea.
        destruct (Qlt_le_dec (MathUtils.fromHexByte a) 1) as [_|Hge];
          [| by apply Qle_not_lt in Hge].
        cbv [ColorParser.fromHex ColorParser.stripHash String.append].
        rewrite Pr, Pg, Pb, Pa. by repeat split.
      * rewrite toHex_bytes by done.
        repeat split; try done. simpl. by apply Qle_antisym.
Qed.

(** ** [clamp] and the colour spaces *)

Lemma jsmax_spec a b :
  (a <= JsMath.max a b /\ b <= JsMath.max a b
   /\ (JsMath.max a b == a \/ JsMath.max a b == b))%Q.
Proof.
  unfold JsMath.max. destruct (Qlt_le_dec a b); repeat split; lra.
Qed.

Lemma jsmin_spec a b :
  (JsMath.min a b <= a /\ JsMath.min a b <= b
   /\ (JsMath.min a b == a \/ JsMath.min a b == b))%Q.
Proof.
  unfold JsMath.min. destruct (Qlt_le_dec b a); repeat split; lra.
Qed.

(** X3. With bounds in order, [clamp] returns the lower bound below it,
    the upper bound above it, and the value itself in between. *)
Theorem X3_clamp_within_bounds (value lo hi : Q) :
  (lo <= hi)%Q ->
  (lo <= clamp value lo hi /\ clamp value lo hi <= hi)%Q
  /\ (if Qlt_le_dec value lo then clamp value lo hi == lo
      else if Qlt_le_dec hi value then clamp value lo hi == hi
      else clamp value lo hi == value).
Proof.
  intros Hb. unfold clamp, JsMath.max, JsMath.min.
  destruct (Qlt_le_dec value hi), (Qlt_le_dec value lo),
    (Qlt_le_dec hi value);
    repeat match goal with
           | |- context [Qlt_le_dec ?a ?b] => destruct (Qlt_le_dec a b)
           end; repeat split; lra.
Qed.

Lemma X3_clamp_within_bounds_witness :
  (0 <= clamp (3 # 2) 0 1 /\ clamp (3 # 2) 0 1 <= 1)%Q
  /\ (if Qlt_le_dec (3 # 2) 0 then clamp (3 # 2) 0 1 == 0
      else if Qlt_le_dec 1 (3 # 2) then clamp (3 # 2) 0 1 == 1
      else clamp (3 # 2) 0 1 == 3 # 2).
Proof. apply (X3_clamp_within_bounds (3 # 2) 0 1). done. Defined.

Lemma max3_spec r g b :
  let m := JsMath.max3 r g b in
  (r <= m /\ g <= m /\ b <= m /\ (m == r \/ m == g \/ m == b))%Q.
Proof.
  unfold JsMath.max3. simpl.
  destruct (jsmax_spec r g) as (H1 & H2 & H3).
  destruct (jsmax_spec (JsMath.max r g) b) as (H4 & H5 & H6).
  repeat split; lra.
Qed.

Lemma min3_spec r g b :
  let m := JsMath.min3 r g b in
  (m <= r /\ m <= g /\ m <= b /\ (m == r \/ m == g \/ m == b))%Q.
Proof.
  unfold JsMath.min3. simpl.
  destruct (jsmin_spec r g) as (H1 & H2 & H3).
  destruct (jsmin_spec (JsMath.min r g) b) as (H4 & H5 & H6).
  repeat split; lra.
Qed.

Lemma round_scaled (x : Q) (n : Z) :
  (0 <= n)%Z -> (0 <= x)%Q -> (x <= 1)%Q ->
  (0 <= Js.round (x * inject_Z n) <= n)%Z.
Proof.
  intros Hn H0 H1. unfold Js.round.
  assert (Hq : (0 <= inject_Z n)%Q).
  { unfold Qle, inject_Z. simpl. lia. }
  assert (Hx : (0 <= x * inject_Z n /\ x * inject_Z n <= inject_Z n)%Q).
  { split; [by apply Qmult_le_0_compat |].
    rewrite <- (Qmult_1_l (inject_Z n)) at 2.
    by apply Qmult_le_compat_r. }
  split.
  - apply Z.le_trans with (Qfloor (0 # 1)); [done |].
    apply Qfloor_resp_le. lra.
  - apply Z.le_trans with (Qfloor (inject_Z n + (1 # 2))).
    + apply Qfloor_resp_le. lra.
    + pose proof (Qfloor_le (inject_Z n + (1 # 2))) as Hf.
      assert (Hlt : (inject_Z (Qfloor (inject_Z n + (1 # 2))) < inject_Z (n + 1))%Q).
      { eapply Qle_lt_trans; [exact Hf |]. rewrite inject_Z_plus.
        change (inject_Z 1) with 1%Q. generalize (inject_Z n). intros. lra. }
      rewrite <- Zlt_Qlt in Hlt. lia.
Qed.

Lemma same_false a b : JsMath.same a b = false -> ~ (a == b)%Q.
Proof. unfold JsMath.same. intros H E. apply Qeq_bool_iff in E. congruence. Qed.

Lemma ratio_unit (x d : Q) :
  (0 < d)%Q -> (0 <= x)%Q -> (x <= d)%Q -> (0 <= x / d /\ x / d <= 1)%Q.
Proof.
  intros Hd H0 H1. split.
  - apply Qle_shift_div_l; [done | lra].
  - apply Qle_shift_div_r; [done | lra].
Qed.

Lemma ratio_signed (x d : Q) :
  (0 < d)%Q -> (- d <= x)%Q -> (x <= d)%Q ->
  (-1 <= x / d /\ x / d <= 1)%Q
  /\ (x <= 0 -> x / d <= 0)%Q /\ (0 <= x -> 0 <= x / d)%Q.
Proof.
  intros Hd H0 H1. repeat split.
  - apply Qle_shift_div_l; [done | lra].
  - apply Qle_shift_div_r; [done | lra].
  - intros Hx. apply Qle_shift_div_r; [done | lra].
  - intros Hx. apply Qle_shift_div_l; [done | lra].
Qed.

Lemma calculateHue_range r g b :
  unit r -> unit g -> unit b ->
  (0 <= calculateHue r g b (JsMath.max3 r g b) (JsMath.min3 r g b) <= 360)%Z.
Proof.
  intros [Hr0 Hr1] [Hg0 Hg1] [Hb0 Hb1].
  destruct (max3_spec r g b) as (M1 & M2 & M3 & _).
  destruct (min3_spec r g b) as (m1 & m2 & m3 & _).
  set (hi := JsMath.max3 r g b) in *. set (lo := JsMath.min3 r g b) in *.
  unfold calculateHue.
  destruct (JsMath.same hi lo) eqn:Esame; [lia |].
  apply same_false in Esame.
  assert (Hd : (0 < hi - lo)%Q).
  { destruct (Qlt_le_dec lo hi); [lra |]. destruct Esame. lra. }
  apply (round_scaled _ 360); [lia | |].
  - destruct (JsMath.same hi r).
    + destruct (ratio_signed (g - b) (hi - lo) Hd) as ((A1 & A2) & A3 & A4);
        [lra | lra |].
      destruct (Qlt_le_dec g b).
      * apply Qle_shift_div_l; [done | lra].
      * specialize (A4 ltac:(lra)). apply Qle_shift_div_l; [done | lra].
    + destruct (JsMath.same hi g).
      * destruct (ratio_signed (b - r) (hi - lo) Hd) as ((A1 & A2) & _);
          [lra | lra |].
        apply Qle_shift_div_l; [done | lra].
      * destruct (JsMath.same hi b); [| lra].
        destruct (ratio_signed (r - g) (hi - lo) Hd) as ((A1 & A2) & _);
          [lra | lra |].
        apply Qle_shift_div_l; [done | lra].
  - destruct (JsMath.same hi r).
    + destruct (ratio_signed (g - b) (hi - lo) Hd) as ((A1 & A2) & A3 & A4);
        [lra | lra |].
      destruct (Qlt_le_dec g b).
      * specialize (A3 ltac:(lra)). apply Qle_shift_div_r; [done | lra].
      * apply Qle_shift_div_r; [done | lra].
    + destruct (JsMath.same hi g).
      * destruct (ratio_signed (b - r) (hi - lo) Hd) as ((A1 & A2) & _);
          [lra | lra |].
        apply Qle_shift_div_r; [done | lra].
      * destruct (JsMath.same hi b); [| lra].
        destruct (ratio_signed (r - g) (hi - lo) Hd) as ((A1 & A2) & _);
          [lra | lra |].
        apply Qle_shift_div_r; [done | lra].
Qed.

Lemma inject_range (z n : Z) :
  (0 <= z <= n)%Z -> (0 <= inject_Z z /\ inject_Z z <= inject_Z n)%Q.
Proof.
  intros [H0 H1]. split; [change 0%Q with (inject_Z 0) |];
    rewrite <- Zle_Qle; lia.
Qed.

(** X4. For a colour whose channels lie between 0 and 1, [toHsl] gives a
    hue between 0 and 360 and a saturation and a lightness between 0 and
    100; [toHsb] gives a hue between 0 and 360 and a saturation and a
    brightness between 0 and 100. *)
Theorem X4_hsl_and_hsb_in_range (c : RGBA) :
  inGamut c ->
  ((0 <= hsl_h (toHsl c) /\ hsl_h (toHsl c) <= 360)
   /\ (0 <= hsl_s (toHsl c) /\ hsl_s (toHsl c) <= 100)
   /\ (0 <= hsl_l (toHsl c) /\ hsl_l (toHsl c) <= 100))%Q
  /\ ((0 <= hsb_h (toHsb c) /\ hsb_h (toHsb c) <= 360)
      /\ (0 <= hsb_s (toHsb c) /\ hsb_s (toHsb c) <= 100)
      /\ (0 <= hsb_b (toHsb c) /\ hsb_b (toHsb c) <= 100))%Q.
Proof.
  destruct c as [r g b a]. intros (Hr & Hg & Hb). simpl in Hr, Hg, Hb.
  pose proof (calculateHue_range r g b Hr Hg Hb) as Hhue.
  destruct Hr as [Hr0 Hr1], Hg as [Hg0 Hg1], Hb as [Hb0 Hb1].
  destruct (max3_spec r g b) as (M1 & M2 & M3 & M4).
  destruct (min3_spec r g b) as (m1 & m2 & m3 & m4).
  unfold toHsl, toHsb. cbn [rgba_r rgba_g rgba_b hsl_h hsl_s hsl_l hsb_h hsb_s hsb_b].
  set (hi := JsMath.max3 r g b) in *. set (lo := JsMath.min3 r g b) in *.
  assert (Hhi : (0 <= hi /\ hi <= 1)%Q).
  { split; [lra |]. destruct M4 as [E|[E|E]]; lra. }
  assert (Hlo : (0 <= lo /\ lo <= 1)%Q).
  { split; [| lra]. destruct m4 as [E|[E|E]]; lra. }
  split; (split; [apply (inject_range _ 360 Hhue) |]); split.
  - apply (inject_range _ 100), (round_scaled _ 100); [lia | |].
    + destruct (JsMath.same hi lo) eqn:Es; [lra |]. apply same_false in Es.
      destruct (Qlt_le_dec (1 # 2) ((hi + lo) / 2)).
      * apply Qle_shift_div_l; [| lra].
        destruct (Qlt_le_dec (hi + lo) 2); [lra |]. destruct Es. lra.
      * apply Qle_shift_div_l; [| lra].
        destruct (Qlt_le_dec 0 (hi + lo)); [lra |]. destruct Es. lra.
    + destruct (JsMath.same hi lo) eqn:Es; [lra |]. apply same_false in Es.
      destruct (Qlt_le_dec (1 # 2) ((hi + lo) / 2)).
      * apply Qle_shift_div_r; [| lra].
        destruct (Qlt_le_dec (hi + lo) 2); [lra |]. destruct Es. lra.
      * apply Qle_shift_div_r; [| lra].
        destruct (Qlt_le_dec 0 (hi + lo)); [lra |]. destruct Es. lra.
  - apply (inject_range _ 100), (round_scaled _ 100); [lia | |].
    + apply Qle_shift_div_l; [done | lra].
    + apply Qle_shift_div_r; [done | lra].
  - apply (inject_range _ 100), (round_scaled _ 100); [lia | |].
    + destruct (JsMath.same hi 0) eqn:Es; [lra |]. apply same_false in Es.
      apply Qle_shift_div_l; [| lra].
      destruct (Qlt_le_dec 0 hi); [lra |]. destruct Es. lra.
    + destruct (JsMath.same hi 0) eqn:Es; [lra |]. apply same_false in Es.
      apply Qle_shift_div_r; [| lra].
      destruct (Qlt_le_dec 0 hi); [lra |]. destruct Es. lra.
  - apply (inject_range _ 100), (round_scaled _ 100); [lia | lra | lra].
Qed.

Lemma X4_hsl_and_hsb_in_range_witness :
  let c := mkRGBA (1 # 5) (4 # 5) (9 # 10) 1 in
  ((0 <= hsl_h (toHsl c) /\ hsl_h (toHsl c) <= 360)
   /\ (0 <= hsl_s (toHsl c) /\ hsl_s (toHsl c) <= 100)
   /\ (0 <= hsl_l (toHsl c) /\ hsl_l (toHsl c) <= 100))%Q
  /\ ((0 <= hsb_h (toHsb c) /\ hsb_h (toHsb c) <= 360)
      /\ (0 <= hsb_s (toHsb c) /\ hsb_s (toHsb c) <= 100)
      /\ (0 <= hsb_b (toHsb c) /\ hsb_b (toHsb c) <= 100))%Q.
Proof.
  apply (X4_hsl_and_hsb_in_range (mkRGBA (1 # 5) (4 # 5) (9 # 10) 1)).
  repeat split; done.
Defined.

(** ** Mappers, plan detection, paths and counts *)

(** X5. The two type mappers are inverse to each other.  The scopes the
    export writes are never empty and are in normal form: a list that
    names [ALL_SCOPES] is that name alone, and both mappers leave a
    normal form as it is. *)
Theorem X5_type_and_scope_mappers :
  (forall t, TypeMapper.toFigmaType (TypeMapper.toExportType t) = t)
  /\ (forall t, TypeMapper.toExportType (TypeMapper.toFigmaType t) = t)
  /\ (forall scopes,
        let arr := TypeMapper.scopesToArray scopes in
        arr <> []
        /\ ("ALL_SCOPES" ∈ arr -> arr = ["ALL_SCOPES"])
        /\ TypeMapper.arrayToScopes arr = arr
        /\ TypeMapper.scopesToArray arr = arr
        /\ (scopes <> [] -> "ALL_SCOPES" ∉ scopes -> arr = scopes)).
Proof.
  split; [by intros [] |]. split; [by intros [] |].
  intros scopes. simpl.
  unfold TypeMapper.scopesToArray, TypeMapper.arrayToScopes.
  assert (Hall : bool_decide ("ALL_SCOPES" ∈ ["ALL_SCOPES"]) = true)
    by (apply bool_decide_eq_true, list_elem_of_here).
  destruct scopes as [|x l].
  { rewrite Hall. by repeat split. }
  destruct (bool_decide ("ALL_SCOPES" ∈ x :: l)) eqn:E.
  - rewrite Hall. repeat split; try done.
    intros _ Hn. by apply bool_decide_eq_true in E.
  - apply bool_decide_eq_false in E as Hn. rewrite E. by repeat split.
Qed.

Lemma fold_max_ge (l : list VariableCollection) (start : N) :
  start <= fold_left (fun m c => N.max m (lengthN (col_modes c))) l start
  /\ forall c, c ∈ l ->
       lengthN (col_modes c)
       <= fold_left (fun m c => N.max m (lengthN (col_modes c))) l start.
Proof.
  revert start. induction l as [|x l IH]; intros start; simpl.
  - split; [lia |]. intros c Hc. by apply elem_of_nil in Hc.
  - destruct (IH (N.max start (lengthN (col_modes x)))) as [H1 H2].
    split; [lia |]. intros c [->|Hc]%elem_of_cons; [lia | by apply H2].
Qed.

Lemma fold_max_attained (l : list VariableCollection) (start : N) :
  fold_left (fun m c => N.max m (lengthN (col_modes c))) l start = start
  \/ exists c, c ∈ l
       /\ fold_left (fun m c => N.max m (lengthN (col_modes c))) l start
          = lengthN (col_modes c).
Proof.
  revert start. induction l as [|x l IH]; intros start; simpl; [by left |].
  destruct (IH (N.max start (lengthN (col_modes x)))) as [E|(c & Hc & E)].
  - rewrite E. destruct (N.max_spec start (lengthN (col_modes x))) as [[_ ->]|[_ ->]].
    + right. exists x. split; [apply list_elem_of_here | done].
    + by left.
  - right. exists c. split; [by apply list_elem_of_further | done].
Qed.

(** X6. [detectCurrentPlan] changes nothing and never infers the starter
    plan.  The plan it infers admits the mode count of every local
    collection, and it is the least such plan: whatever mode count it
    admits, every other plan above starter that admits the local
    collections admits too. *)
Theorem X6_detected_plan_fits_the_document (st : State) :
  exists limits,
    detectCurrentPlan st = (Ok limits, st)
    /\ limits = PLAN_LIMITS (plan limits)
    /\ plan limits <> starter
    /\ (forall c, c ∈ getLocalVariableCollections (host st) ->
          exceeds (lengthN (col_modes c)) (maxModesPerCollection limits) = false)
    /\ (forall p, p <> starter ->
          (forall c, c ∈ getLocalVariableCollections (host st) ->
             exceeds (lengthN (col_modes c))
                     (maxModesPerCollection (PLAN_LIMITS p)) = false) ->
          forall n, exceeds n (maxModesPerCollection limits) = false ->
                    exceeds n (maxModesPerCollection (PLAN_LIMITS p)) = false).
Proof.
  unfold detectCurrentPlan, bind, getHost, ret. cbv beta iota.
  set (l := getLocalVariableCollections (host st)).
  set (found := fold_left _ l 1).
  destruct (fold_max_ge l 1) as [_ Hge]. fold found in Hge.
  destruct (fold_max_attained l 1) as [E|(c0 & Hc0 & E)]; fold found in E.
  - eexists. split; [reflexivity |]. rewrite E. simpl.
    repeat split; try done.
    + intros c Hc. specialize (Hge c Hc). rewrite E in Hge.
      apply N.ltb_ge. lia.
    + intros [] Hp Hall n Hn; simpl in *; try done.
      apply N.ltb_ge in Hn. apply N.ltb_ge. lia.
  - eexists. split; [reflexivity |].
    destruct (20 <? found) eqn:E20; [| destruct (10 <? found) eqn:E10;
                                        [| destruct (1 <? found) eqn:E1]];
      simpl; (split; [done |]); (split; [done |]); split.
    all: try (intros c Hc; specialize (Hge c Hc);
              first [ done | apply N.ltb_ge; apply N.ltb_ge in E20;
                             try apply N.ltb_ge in E10; lia ]).
    + intros [] Hp Hall n Hn; simpl in *; try done.
      * specialize (Hall c0 Hc0). rewrite <- E in Hall.
        apply N.ltb_lt in E20. apply N.ltb_ge in Hall. lia.
      * specialize (Hall c0 Hc0). rewrite <- E in Hall.
        apply N.ltb_lt in E20. apply N.ltb_ge in Hall. lia.
    + intros [] Hp Hall n Hn; simpl in *; try done.
      specialize (Hall c0 Hc0). rewrite <- E in Hall.
      apply N.ltb_lt in E10. apply N.ltb_ge in Hall. lia.
    + intros [] Hp Hall n Hn; simpl in *; try done.
      apply N.ltb_ge in Hn. apply N.ltb_ge. lia.
    + intros [] Hp Hall n Hn; simpl in *; try done.
      apply N.ltb_ge in Hn. apply N.ltb_ge. lia.
Qed.

(** *** Paths *)

Lemma splitSlashGo_slashFree cur p :
  slashFree p = true -> Js.splitSlashGo cur p = [String.rev_app cur "" +:+ p].
Proof.
  revert cur. induction p as [|a p IH]; intros cur Hp.
  - simpl. by rewrite append_nil_r.
  - cbn [slashFree] in Hp. apply andb_prop in Hp as [Ha Hp].
    cbn [Js.splitSlashGo]. destruct (Ascii.eqb a "/"); [done |].
    rewrite (IH _ Hp). cbn [String.rev_app].
    by rewrite (rev_app_append cur (String a "")), append_assoc.
Qed.

Lemma splitSlashGo_segment cur p rest :
  slashFree p = true ->
  Js.splitSlashGo cur (p +:+ "/" +:+ rest)
  = (String.rev_app cur "" +:+ p) :: Js.splitSlashGo "" rest.
Proof.
  revert cur. induction p as [|a p IH]; intros cur Hp.
  - change ("" +:+ "/" +:+ rest) with (String "/" rest).
    cbn [Js.splitSlashGo]. simpl. by rewrite append_nil_r.
  - cbn [slashFree] in Hp. apply andb_prop in Hp as [Ha Hp].
    rewrite append_cons. cbn [Js.splitSlashGo].
    destruct (Ascii.eqb a "/"); [done |].
    rewrite (IH _ Hp). cbn [String.rev_app].
    by rewrite (rev_app_append cur (String a "")), append_assoc.
Qed.

Lemma splitSlash_join (parts : list string) :
  parts <> [] -> Forall (fun p => slashFree p = true) parts ->
  Js.splitSlash (Js.join "/" parts) = parts.
Proof.
  induction parts as [|p parts IH]; [done |]. intros _ Hall.
  inversion Hall as [|? ? Hp Hrest]; subst.
  destruct parts as [|q parts].
  - simpl. unfold Js.splitSlash. by rewrite splitSlashGo_slashFree.
  - rewrite join_cons. unfold Js.splitSlash.
    rewrite splitSlashGo_segment by done.
    f_equal. by apply IH.
Qed.

Lemma leavesOf_wellKeyed (n : Node) :
  forall parts v,
    wellKeyed n -> (parts, v) ∈ leavesOf n ->
    Forall (fun p => slashFree p = true) parts /\ descend n parts = Some v.
Proof.
  induction n as [w|children IH] using Node_ind'; intros parts v Hok Hin.
  - simpl in Hin. apply list_elem_of_singleton in Hin.
    by injection Hin as -> ->.
  - rewrite leavesOf_group in Hin.
    apply list_elem_of_In, in_flat_map in Hin as ([k c] & Hkc & Hin).
    apply in_map_iff in Hin as ([p w] & [= <- <-] & Hp). simpl in *.
    inversion Hok as [|? Hnd Hall]; subst.
    apply list_elem_of_In in Hkc, Hp.
    rewrite (jsGet_NoDup children k c Hnd Hkc).
    rewrite Forall_forall in IH, Hall.
    destruct (Hall (k, c) Hkc) as [Hk Hc]. simpl in *.
    destruct (IH (k, c) Hkc p w Hc Hp) as [Hfree Hdesc].
    split; [by apply List.Forall_cons | done].
Qed.

Lemma descend_elem (n : Node) :
  forall parts v, descend n parts = Some v -> (parts, v) ∈ leavesOf n.
Proof.
  induction n as [w|children IH] using Node_ind'; intros parts v Hd.
  - destruct parts; [| done]. simpl in Hd. injection Hd as ->.
    apply list_elem_of_here.
  - destruct parts as [|part rest]; [done |]. cbn [descend] in Hd.
    destruct (jsGet children part) as [next|] eqn:Hget; [| done].
    apply jsGet_elem in Hget.
    rewrite Forall_forall in IH. specialize (IH (part, next) Hget rest v Hd).
    rewrite leavesOf_group. apply list_elem_of_In, in_flat_map.
    exists (part, next). split; [by apply list_elem_of_In |].
    apply in_map_iff. exists (rest, v). split; [done |].
    by apply list_elem_of_In.
Qed.

(** X7. In a tree whose keys are distinct within each group and hold no
    slash, [getValueAtPath] finds a leaf at a path exactly when
    [flattenVariables] lists that leaf at that path. *)
Theorem X7_paths_of_flatten_are_found (t : NestedVariables) path v :
  wellKeyed (Group t) -> rootsNamed t ->
  getValueAtPath t path = Some v <-> (path, v) ∈ flattenVariables t "".
Proof.
  intros Hok Hroots. rewrite flattenVariables_leaves by done.
  unfold getValueAtPath. split.
  - intros Hd. apply descend_elem in Hd.
    apply list_elem_of_fmap. exists (Js.splitSlash path, v).
    split; [| done]. simpl. by rewrite join_splitSlash.
  - intros ([parts w] & [= -> ->] & Hin)%list_elem_of_fmap. simpl.
    destruct (leavesOf_wellKeyed _ _ _ Hok Hin) as [Hfree Hd].
    rewrite splitSlash_join; [done | | done].
    intros ->. by destruct t.
Qed.

Lemma X7_paths_of_flatten_are_found_witness :
  let v := {| e_scopes := ["ALL_SCOPES"]; e_type := TFloat;
              e_description := None; e_value := ENumber 1;
              e_collectionName := None; e_libraryRef := None;
              e_localValue := None |} in
  let t := [("B", Group [("x", Leaf v)]); ("base", Leaf v)] in
  getValueAtPath t "B/x" = Some v <-> ("B/x", v) ∈ flattenVariables t "".
Proof.
  apply (X7_paths_of_flatten_are_found
           [("B", Group [("x", Leaf _)]); ("base", Leaf _)] "B/x").
  - apply wellKeyed_group; [apply (bool_decide_unpack _); by vm_compute |].
    apply List.Forall_cons; [split; [reflexivity |] |].
    + apply wellKeyed_group; [apply (bool_decide_unpack _); by vm_compute |].
      apply List.Forall_cons; [| apply List.Forall_nil].
      split; [reflexivity | apply wellKeyed_leaf].
    + apply List.Forall_cons; [| apply List.Forall_nil].
      split; [reflexivity | apply wellKeyed_leaf].
  - intros k children Hin.
    apply elem_of_cons in Hin as [Hin|Hin]; [by injection Hin as -> _ |].
    apply elem_of_cons in Hin as [Hin|Hin]; [discriminate |].
    by apply elem_of_nil in Hin.
Defined.

(** *** Counts *)

Lemma lengthN_app {A} (l k : list A) : lengthN (l ++ k) = lengthN l + lengthN k.
Proof. unfold lengthN. rewrite length_app. lia. Qed.

Lemma countVarsInNode_flatten (n : Node) :
  forall prefix key, countVarsInNode n = lengthN (flattenNode prefix key n).
Proof.
  induction n as [v|children IH] using Node_ind'; intros prefix key; [done |].
  rewrite flattenNode_group. generalize (joinPath prefix key) as p. intros p.
  induction IH as [|[k c] rest Hc _ IHrest]; [done |].
  simpl in *. rewrite lengthN_app, <- (Hc p k). by rewrite <- IHrest.
Qed.

Lemma countNode_flatten (n : Node) :
  forall prefix key count,
    countNode n count
    = count + lengthN (filter (fun e => hasValue (snd e) = true)
                              (flattenNode prefix key n)).
Proof.
  induction n as [v|children IH] using Node_ind'; intros prefix key count.
  - cbn [flattenNode countNode]. rewrite filter_cons, filter_nil. cbn [snd].
    unfold hasValue.
    destruct (e_value v); case_decide; try done; unfold lengthN; simpl; lia.
  - rewrite flattenNode_group. generalize (joinPath prefix key) as p. intros p.
    revert count. induction IH as [|[k c] rest Hc _ IHrest]; intros count.
    + simpl. unfold lengthN. simpl. lia.
    + simpl in *. rewrite filter_app, lengthN_app.
      rewrite IHrest, (Hc p k). lia.
Qed.

Lemma fold_left_count_shift (f : Node -> N) (obj : NestedVariables) (start : N) :
  fold_left (fun acc kv => acc + f (snd kv)) obj start
  = start + fold_left (fun acc kv => acc + f (snd kv)) obj 0.
Proof.
  revert start. induction obj as [|[k c] rest IH]; intros start;
    cbn [fold_left snd]; [lia |].
  rewrite (IH (start + f c)), (IH (0 + f c)). lia.
Qed.

Lemma countVarsInNestedObj_flatten (obj : NestedVariables) (prefix : string) :
  countVarsInNestedObj obj = lengthN (flattenVariables obj prefix).
Proof.
  unfold countVarsInNestedObj, flattenVariables.
  induction obj as [|[k c] rest IH]; [done |].
  cbn [fold_left flat_map fst snd].
  rewrite fold_left_count_shift, IH, lengthN_app.
  rewrite <- (countVarsInNode_flatten c prefix k). lia.
Qed.

Lemma countNestedVariables_flatten (obj : NestedVariables) (prefix : string) :
  forall count,
    countNestedVariables obj count
    = count + lengthN (filter (fun e => hasValue (snd e) = true)
                              (flattenVariables obj prefix)).
Proof.
  unfold countNestedVariables, flattenVariables.
  induction obj as [|[k c] rest IH]; intros count.
  - simpl. unfold lengthN. simpl. lia.
  - simpl. rewrite IH, filter_app, lengthN_app.
    rewrite (countNode_flatten c prefix k). lia.
Qed.

(** X8. The diff counts every leaf of a mode, the plan validator only
    the leaves that carry a value: [countVarsInNestedObj] is the length
    of the flattening, and [countNestedVariables] is the number of its
    entries with a [$value], so it never exceeds the former. *)
Theorem X8_two_ways_of_counting (obj : NestedVariables) (prefix : string) :
  countVarsInNestedObj obj = lengthN (flattenVariables obj prefix)
  /\ countNestedVariables obj 0
     = lengthN (filter (fun e => hasValue (snd e) = true)
                       (flattenVariables obj prefix))
  /\ countNestedVariables obj 0 <= countVarsInNestedObj obj.
Proof.
  pose proof (countVarsInNestedObj_flatten obj prefix) as H1.
  pose proof (countNestedVariables_flatten obj prefix 0) as H2.
  split; [done |]. split; [by rewrite H2 |].
  rewrite H2, H1. unfold lengthN.
  pose proof (length_filter (fun e => hasValue (snd e) = true)
                            (flattenVariables obj prefix)).
  lia.
Qed.

(** ** Queries *)

Lemma reach_readMove st st' : reach readMove st st' -> st' = st.
Proof.
  induction 1 as [|m st st' st'' Hm Hstep _ IH]; [done |].
  destruct m as [op|f]; [| done]. destruct op; try done.
  destruct Hstep as (r & h' & Happly & ->). simpl in Happly.
  injection Happly as <- <-. rewrite IH. by destruct st.
Qed.

Lemma reach_cacheMove st st' :
  reach cacheMove st st' -> host st' = host st /\ outbox st' = outbox st.
Proof.
  induction 1 as [|m st st' st'' Hm Hstep _ [IH1 IH2]]; [done |].
  rewrite IH1, IH2. destruct m as [op|f].
  - destruct op; try done.
    destruct Hstep as (r & h' & Happly & ->). simpl in Happly.
    by injection Happly as <- <-.
  - simpl in Hstep. by subst st'.
Qed.

Section Queries.
Variable allowed : Move -> Prop.
Hypothesis Hread : allowed (CallMove OpReadStyles).

Lemma traces_getHost : traces allowed getHost.
Proof. intros st. apply reach_refl. Qed.

Lemma traces_readVariable id : traces allowed (readVariable id).
Proof.
  intros st. unfold readVariable, bind, getHost.
  destruct (getVariableById (host st) id); apply reach_refl.
Qed.

Lemma traces_exportStyles rejects kind :
  traces allowed (exportStyles rejects kind).
Proof.
  unfold exportStyles. apply traces_bind; [by apply traces_call |].
  intros _. apply traces_bind; [apply traces_getHost |].
  intros h. apply traces_ret.
Qed.

Lemma traces_snapshotValue h variable mode values :
  traces allowed (snapshotValue h variable mode values).
Proof.
  unfold snapshotValue.
  destruct (alookup (valuesByMode variable) (modeId mode)) as [[]|];
    repeat match goal with
           | |- traces _ (match ?x with _ => _ end) => destruct x
           end; first [apply traces_ret | apply traces_throw].
Qed.

Lemma traces_snapshotCollection h collection :
  traces allowed (snapshotCollection h collection).
Proof.
  unfold snapshotCollection. apply traces_bind; [| intros; apply traces_ret].
  apply traces_foldM. intros acc variableId.
  destruct (getVariableById h variableId); [| apply traces_ret].
  apply traces_bind; [| intros; apply traces_ret].
  apply traces_foldM. intros vs mode. apply traces_snapshotValue.
Qed.

Lemma traces_createUndoSnapshot rejects :
  traces allowed (createUndoSnapshot rejects).
Proof.
  unfold createUndoSnapshot. apply traces_bind; [apply traces_getHost |].
  intros h. apply traces_bind.
  { apply traces_foldM. intros acc collection.
    apply traces_bind; [apply traces_snapshotCollection |].
    intros; apply traces_ret. }
  intros cols.
  repeat (apply traces_bind; [apply traces_exportStyles | intros ?]).
  apply traces_ret.
Qed.

Lemma traces_exportData rejects opts :
  traces allowed (exportData rejects opts).
Proof.
  unfold exportData. apply traces_bind; [apply traces_getHost |].
  intros h. destruct (styleOptions opts) as [[[[wc wt] we] wg]|];
    [| apply traces_ret].
  repeat (apply traces_bind;
          [match goal with
           | |- traces _ (if ?b then _ else _) =>
               destruct b; [| apply traces_ret];
               apply traces_bind; [apply traces_exportStyles |];
               intros; apply traces_ret
           end | intros ?]).
  destruct (_ || _); apply traces_ret.
Qed.

Lemma traces_detectCurrentPlan : traces allowed detectCurrentPlan.
Proof.
  unfold detectCurrentPlan. apply traces_bind; [apply traces_getHost |].
  intros h. apply traces_ret.
Qed.

Lemma traces_validateImportAgainstPlan importData planOverride :
  traces allowed (validateImportAgainstPlan importData planOverride).
Proof.
  unfold validateImportAgainstPlan. apply traces_bind.
  { destruct planOverride; [apply traces_ret | apply traces_detectCurrentPlan]. }
  intros p. apply traces_bind; [apply traces_getHost |].
  intros h. apply traces_ret.
Qed.

Section DiffQueries.
Variable formatNumber : Q -> string.

Lemma traces_checkLeaf modeId collectionName currentPath value result :
  traces allowed
    (checkLeaf formatNumber modeId collectionName currentPath value result).
Proof.
  unfold checkLeaf. apply traces_bind; [apply traces_getCache |].
  intros c. destruct (Cache.getVariable _ c); [| apply traces_ret].
  apply traces_bind; [apply traces_readVariable |].
  intros v. destruct (valuesAreDifferent _ _); apply traces_ret.
Qed.

Lemma traces_checkVariablesDiff modeId importData collectionName path result :
  traces allowed
    (checkVariablesDiff formatNumber modeId importData collectionName path result).
Proof.
  intros st. rewrite checkVariablesDiff_flatten.
  apply traces_foldM. intros acc flat. apply traces_checkLeaf.
Qed.

Lemma traces_diffItem result item :
  traces allowed (diffItem formatNumber result item).
Proof.
  unfold diffItem. destruct (isStylesKey item).
  { unfold computeStylesDiff. apply traces_bind; [apply traces_getHost |].
    intros h. apply traces_ret. }
  destruct item as [|[name v] rest]; [apply traces_throw |].
  apply traces_bind; [apply traces_getCache |]. intros c.
  destruct (modes (asContent v)) as [m|]; [| apply traces_throw].
  destruct (Cache.getCollection _ c) as [existing|]; [| apply traces_ret].
  apply traces_bind; [| intros; apply traces_ret].
  apply traces_foldM. intros acc entry. unfold diffMode.
  apply traces_bind; [apply traces_readCollection |]. intros col.
  destruct (find _ _); [| apply traces_ret].
  apply traces_bind; [apply traces_checkVariablesDiff |].
  intros; apply traces_ret.
Qed.

Lemma traces_computeImportDiff importData :
  (forall f, allowed (CacheMove f)) ->
  traces allowed (computeImportDiff formatNumber importData).
Proof.
  intros Hcache. unfold computeImportDiff. apply traces_bind.
  { unfold initializeCache. apply traces_bind; [apply traces_getHost |].
    intros h. by apply traces_modifyCache. }
  intros _. apply traces_foldM. intros acc item. apply traces_diffItem.
Qed.
End DiffQueries.
End Queries.


(** ** Clearing *)

Lemma reach_outbox st st' : reach (fun _ => True) st st' -> outbox st' = outbox st.
Proof.
  induction 1 as [|m st st' st'' _ Hstep _ IH]; [done |].
  rewrite IH. destruct m as [op|f]; simpl in Hstep.
  - by destruct Hstep as (r & h' & _ & ->).
  - by subst st'.
Qed.

Section ClearReports.
Variable rejects : Host -> HostOp -> bool.

Lemma clearVariables_report st :
  exists st' m,
    clearVariables rejects st = (Ok tt, st')
    /\ outbox st' = (outbox st ++ [m])%list /\ clearReport "variables" m.
Proof.
  unfold clearVariables, tryCatch.
  match goal with
  | |- context [bind getHost ?k] => set (body := bind getHost k)
  end.
  assert (Hbody : forall h : Host,
             traces (fun _ => True)
               (foldM
                  (fun (acc : N * N) (collection : VariableCollection) =>
                     c <- readCollection (col_id collection) ;;
                     deletedVariables <-
                       foldM
                         (fun (n : N) (varId : N) =>
                            h' <- getHost ;;
                            match getVariableById h' varId with
                            | Some _ =>
                                call rejects (OpRemoveVariable varId) ;;; ret (n + 1)
                            | None => ret n
                            end)
                         (snd acc) (variableIds c) ;;
                     call rejects (OpRemoveCollection (col_id collection)) ;;;
                     ret (fst acc + 1, deletedVariables))
                  (0, 0) (getLocalVariableCollections h))).
  { intros h. apply traces_foldM. intros acc collection.
    apply traces_bind; [apply traces_readCollection |]. intros c.
    apply traces_bind.
    - apply traces_foldM. intros n varId.
      apply traces_bind; [apply traces_getHost |]. intros h'.
      destruct (getVariableById h' varId); [| apply traces_ret].
      apply traces_bind; [by apply traces_call |]. intros; apply traces_ret.
    - intros k. apply traces_bind; [by apply traces_call |].
      intros; apply traces_ret. }
  subst body. unfold bind at 1. unfold getHost at 1. cbv beta iota.
  unfold bind at 1.
  specialize (Hbody (host st) st). apply reach_outbox in Hbody.
  destruct (foldM _ _ _ st) as [[counts|e] st1]; simpl in Hbody.
  - eexists _, _. split; [reflexivity |]. simpl. rewrite Hbody.
    split; [reflexivity |]. left. by eexists.
  - eexists _, _. split; [reflexivity |]. simpl. rewrite Hbody.
    split; [reflexivity |]. right. by eexists.
Qed.

Lemma clearStyles_report st :
  exists st' m,
    clearStyles rejects st = (Ok tt, st')
    /\ outbox st' = (outbox st ++ [m])%list /\ clearReport "styles" m.
Proof.
  unfold clearStyles, tryCatch. unfold bind at 1.
  match goal with
  | |- context [foldM ?f 0 ?l st] =>
      assert (Hbody : traces (fun _ => True) (foldM f 0 l))
  end.
  { apply traces_foldM. intros n kind.
    apply traces_bind; [apply traces_getHost |]. intros h.
    apply traces_foldM. intros n' style.
    apply traces_bind; [by apply traces_call |]. intros; apply traces_ret. }
  specialize (Hbody st). apply reach_outbox in Hbody.
  destruct (foldM _ _ _ st) as [[count|e] st1]; simpl in Hbody.
  - eexists _, _. split; [reflexivity |]. simpl. rewrite Hbody.
    split; [reflexivity |]. left. by eexists.
  - eexists _, _. split; [reflexivity |]. simpl. rewrite Hbody.
    split; [reflexivity |]. right. by eexists.
Qed.

End ClearReports.


(** *** Clearing on a host that accepts every call *)

Lemma heads_ids cols : map col_id cols = map headId (map collectionHead cols).
Proof. rewrite map_map. by apply map_ext. Qed.

Lemma heads_update f id cols :
  (forall c, collectionHead (f c) = collectionHead c) ->
  map collectionHead (updateCollection f id cols) = map collectionHead cols.
Proof.
  intros Hf. unfold updateCollection. rewrite map_map. apply map_ext.
  intros c. by destruct (N.eqb (col_id c) id).
Qed.

Lemma heads_filter id cols :
  map collectionHead (filter (fun c' => col_id c' ≠ id) cols)
  = filter (fun s => headId s ≠ id) (map collectionHead cols).
Proof.
  induction cols as [|c cols IH]; [done |].
  cbn [map]. rewrite !filter_cons. change (headId (collectionHead c)) with (col_id c).
  destruct (decide (col_id c ≠ id)); cbn [map]; by rewrite IH.
Qed.

Lemma findCollection_listed cols id :
  id ∈ map col_id cols -> exists c, findCollection cols id = Some c.
Proof.
  induction cols as [|c cols IH]; simpl.
  - intros H. by apply elem_of_nil in H.
  - intros [->|H]%elem_of_cons.
    + rewrite N.eqb_refl. by eexists.
    + destruct (N.eqb (col_id c) id); [by eexists | by apply IH].
Qed.

(** The inner loop: the variables a collection lists. *)
Lemma removeVariables_run (ids : list N) :
  forall n h c o,
  exists k h',
    foldM
      (fun (n : N) (varId : N) =>
         h' <- getHost ;;
         match getVariableById h' varId with
         | Some _ => call permissive (OpRemoveVariable varId) ;;; ret (n + 1)
         | None => ret n
         end)
      n ids (mkState h c o)
    = (Ok k, mkState h' c o)
    /\ map collectionHead (collections h') = map collectionHead (collections h)
    /\ styles h' = styles h.
Proof.
  induction ids as [|varId ids IH]; intros n h c o.
  - by exists n, h.
  - cbn [foldM]. unfold bind at 1. unfold bind at 1. unfold getHost at 1.
    cbn [host]. unfold getVariableById at 1.
    destruct (variables h !! varId) as [v|] eqn:Hv.
    + unfold bind at 1.
      erewrite call_run; [| simpl; rewrite Hv; reflexivity].
      unfold ret at 1. cbv beta iota.
      edestruct IH as (k & h' & -> & Hheads & Hstyles).
      exists k, h'. split; [done |]. rewrite Hheads, Hstyles. simpl.
      split; [| done]. by apply heads_update.
    + unfold ret at 1. cbv beta iota. apply IH.
Qed.

Lemma filter_filter_heads id (l : list N) (S : list (N * string * bool * list Mode)) :
  filter (fun s => headId s ∉ l) (filter (fun s => headId s ≠ id) S)
  = filter (fun s => headId s ∉ id :: l) S.
Proof.
  induction S as [|s S IH]; [done |].
  rewrite !filter_cons. destruct (decide (headId s ≠ id)) as [Hne|Heq].
  - rewrite filter_cons. rewrite IH.
    destruct (decide (headId s ∉ l)) as [Hl|Hl].
    + rewrite decide_True; [done |]. by intros [?|?]%elem_of_cons.
    + rewrite decide_False; [done |]. intros H. apply Hl. intros Hin.
      apply H. by apply list_elem_of_further.
  - apply dec_stable in Heq. rewrite IH.
    rewrite decide_False; [done |]. intros H. apply H. rewrite Heq.
    apply list_elem_of_here.
Qed.

Lemma filter_keep_all {A} (P : A -> Prop) `{!forall x, Decision (P x)}
  (l : list A) :
  (forall x, x ∈ l -> P x) -> filter P l = l.
Proof.
  induction l as [|x l IH]; [done |]. intros Hall.
  rewrite filter_cons, decide_True by (apply Hall, list_elem_of_here).
  rewrite IH; [done |]. intros y Hy. by apply Hall, list_elem_of_further.
Qed.

Lemma NoDup_ids_filter (P : VariableCollection -> Prop)
  `{!forall x, Decision (P x)} (cols : list VariableCollection) :
  NoDup (map col_id cols) -> NoDup (map col_id (filter P cols)).
Proof.
  induction cols as [|c cols IH]; [done |]. cbn [map].
  intros [Hc Hnd]%NoDup_cons. rewrite filter_cons.
  destruct (decide (P c)); [| by apply IH].
  cbn [map]. apply NoDup_cons. split; [| by apply IH].
  intros Hin. apply Hc.
  apply list_elem_of_fmap in Hin as (y & -> & Hy).
  apply list_elem_of_filter in Hy as [_ Hy].
  apply list_elem_of_fmap. by exists y.
Qed.

(** The outer loop: the collections found when the clear started. *)
Lemma removeCollections_run (l : list VariableCollection) :
  forall acc h c o,
    NoDup (map col_id (collections h)) ->
    NoDup (map col_id l) ->
    (forall x, x ∈ l -> col_id x ∈ map col_id (collections h)) ->
    exists k h',
      foldM
        (fun (acc : N * N) (collection : VariableCollection) =>
           c <- readCollection (col_id collection) ;;
           deletedVariables <-
             foldM
               (fun (n : N) (varId : N) =>
                  h' <- getHost ;;
                  match getVariableById h' varId with
                  | Some _ =>
                      call permissive (OpRemoveVariable varId) ;;; ret (n + 1)
                  | None => ret n
                  end)
               (snd acc) (variableIds c) ;;
           call permissive (OpRemoveCollection (col_id collection)) ;;;
           ret (fst acc + 1, deletedVariables))
        acc l (mkState h c o)
      = (Ok (fst acc + lengthN l, k), mkState h' c o)
      /\ map collectionHead (collections h')
         = filter (fun s => headId s ∉ map col_id l)
                  (map collectionHead (collections h))
      /\ styles h' = styles h.
Proof.
  induction l as [|x l IH]; intros acc h c o Hnd Hl Hin.
  - exists (snd acc), h. cbn [foldM]. unfold ret, lengthN. simpl.
    rewrite N.add_0_r. destruct acc. split; [done |]. split; [| done].
    symmetry. apply filter_keep_all. intros s _. apply not_elem_of_nil.
  - cbn [foldM]. unfold bind at 1. unfold bind at 1.
    unfold readCollection, bind at 1. unfold getHost at 1. cbn [host].
    unfold getVariableCollectionById.
    destruct (findCollection_listed (collections h) (col_id x)) as [cx Hcx].
    { apply Hin, list_elem_of_here. }
    rewrite Hcx. unfold ret at 1. cbv beta iota. unfold bind at 1.
    destruct (removeVariables_run (variableIds cx) (snd acc) h c o)
      as (k1 & h1 & -> & Hheads1 & Hstyles1).
    cbv beta iota. unfold bind at 1.
    assert (Hids1 : map col_id (collections h1) = map col_id (collections h))
      by (by rewrite !heads_ids, Hheads1).
    destruct (findCollection_listed (collections h1) (col_id x)) as [cx1 Hcx1].
    { rewrite Hids1. apply Hin, list_elem_of_here. }
    erewrite call_run; [| simpl; rewrite Hcx1; reflexivity].
    unfold ret at 1. cbv beta iota.
    cbn [map] in Hl. apply NoDup_cons in Hl as [Hx Hl].
    edestruct (IH (fst acc + 1, k1)) as (k & h' & -> & Hheads & Hstyles).
    + cbn [collections]. apply NoDup_ids_filter. by rewrite Hids1.
    + exact Hl.
    + intros y Hy. cbn [collections].
      assert (Hy' : col_id y ∈ map col_id (collections h1))
        by (rewrite Hids1; by apply Hin, list_elem_of_further).
      apply list_elem_of_fmap in Hy' as (z & Hz & Hzin).
      apply list_elem_of_fmap. exists z. split; [done |].
      apply list_elem_of_filter. split; [| done].
      intros E. apply Hx. rewrite <- E, <- Hz.
      apply list_elem_of_fmap. by exists y.
    + exists k, h'. split.
      { cbn [fst]. do 2 f_equal. f_equal. unfold lengthN. cbn [length]. lia. }
      rewrite Hheads, Hstyles. cbn [collections styles].
      split; [| done].
      by rewrite heads_filter, filter_filter_heads, Hheads1.
Qed.

Lemma filter_ext_elem {A} (P Q : A -> Prop) `{!forall x, Decision (P x)}
  `{!forall x, Decision (Q x)} (l : list A) :
  (forall x, x ∈ l -> P x <-> Q x) -> filter P l = filter Q l.
Proof.
  induction l as [|x l IH]; [done |]. intros Hall.
  rewrite !filter_cons.
  rewrite IH by (intros y Hy; by apply Hall, list_elem_of_further).
  destruct (decide (P x)) as [Hp|Hp], (decide (Q x)) as [Hq|Hq]; try done.
  - destruct Hq. by apply (Hall x (list_elem_of_here _ _)).
  - destruct Hp. by apply (Hall x (list_elem_of_here _ _)).
Qed.

Lemma heads_filter_ids (L : list N) cols :
  filter (fun s => headId s ∉ L) (map collectionHead cols)
  = map collectionHead (filter (fun c => col_id c ∉ L) cols).
Proof.
  induction cols as [|c cols IH]; [done |].
  cbn [map]. rewrite !filter_cons. change (headId (collectionHead c)) with (col_id c).
  destruct (decide (col_id c ∉ L)); cbn [map]; by rewrite IH.
Qed.

Lemma heads_remote (cols : list VariableCollection) :
  NoDup (map col_id cols) ->
  filter (fun s => headId s ∉ map col_id (filter (fun c => col_remote c = false) cols))
         (map collectionHead cols)
  = map collectionHead (filter (fun c => col_remote c = true) cols).
Proof.
  intros Hnd. rewrite heads_filter_ids. f_equal.
  apply filter_ext_elem. intros c Hc. split.
  - intros Hn. destruct (col_remote c) eqn:E; [done |]. destruct Hn.
    apply list_elem_of_fmap. exists c. split; [done |].
    by apply list_elem_of_filter.
  - intros Hr Hin. apply list_elem_of_fmap in Hin as (d & E & Hd).
    apply list_elem_of_filter in Hd as [Hl Hd].
    assert (c = d) by (by apply (NoDup_map_inj col_id cols)).
    subst d. congruence.
Qed.

(** X11. On a host that accepts every call and whose collections have
    distinct identifiers, [clearVariables] removes every local
    collection and keeps the remote ones with their names and modes; it
    touches neither the styles nor the cache, and reports the number of
    collections it found. *)
Theorem X11_clearVariables_removes_local_collections (st : State) :
  NoDup (map col_id (collections (host st))) ->
  exists (k : N) st',
    clearVariables permissive st = (Ok tt, st')
    /\ getLocalVariableCollections (host st') = []
    /\ map collectionHead (collections (host st'))
       = map collectionHead
           (filter (fun c => col_remote c = true) (collections (host st)))
    /\ styles (host st') = styles (host st)
    /\ cache st' = cache st
    /\ outbox st'
       = (outbox st
          ++ [MsgClearComplete
                (pretty (lengthN (getLocalVariableCollections (host st)))
                 +:+ " collections, " +:+ pretty k +:+ " variables")])%list.
Proof.
  destruct st as [h c o]. cbn [host cache outbox]. intros Hnd.
  destruct (removeCollections_run (getLocalVariableCollections h) (0, 0) h c o)
    as (k & h' & Hrun & Hheads & Hstyles).
  - done.
  - by apply NoDup_ids_filter.
  - intros x Hx. apply list_elem_of_fmap. exists x. split; [done |].
    by apply list_elem_of_filter in Hx as [_ Hx].
  - exists k, (mkState h' c (o ++ [MsgClearComplete
                (pretty (lengthN (getLocalVariableCollections h))
                 +:+ " collections, " +:+ pretty k +:+ " variables")])).
    unfold getLocalVariableCollections in Hheads.
    rewrite heads_remote in Hheads by done.
    split.
    { unfold clearVariables, tryCatch. unfold bind at 1. unfold getHost at 1.
      cbn [host]. unfold bind at 1. rewrite Hrun. done. }
    cbn [host cache outbox]. repeat split; try done.
    unfold getLocalVariableCollections.
    destruct (filter _ (collections h')) as [|x rest] eqn:E; [done |].
    assert (Hx : x ∈ filter (fun c => col_remote c = false) (collections h'))
      by (rewrite E; apply list_elem_of_here).
    apply list_elem_of_filter in Hx as [Hlocal Hx].
    assert (Hhead : collectionHead x ∈ map collectionHead (collections h'))
      by (apply list_elem_of_fmap; by exists x).
    rewrite Hheads in Hhead.
    apply list_elem_of_fmap in Hhead as (y & Ey & Hy).
    apply list_elem_of_filter in Hy as [Hremote _].
    apply (f_equal (fun s => snd (fst s))) in Ey. simpl in Ey. congruence.
Qed.

Lemma X11_clearVariables_removes_local_collections_witness :
  exists (k : N) st',
    clearVariables permissive themeState = (Ok tt, st')
    /\ getLocalVariableCollections (host st') = []
    /\ map collectionHead (collections (host st'))
       = map collectionHead
           (filter (fun c => col_remote c = true) (collections (host themeState)))
    /\ styles (host st') = styles (host themeState)
    /\ cache st' = cache themeState
    /\ outbox st'
       = (outbox themeState
          ++ [MsgClearComplete
                (pretty (lengthN (getLocalVariableCollections (host themeState)))
                 +:+ " collections, " +:+ pretty k +:+ " variables")])%list.
Proof.
  apply (X11_clearVariables_removes_local_collections themeState).
  apply (bool_decide_unpack _). by vm_compute.
Defined.

(** ** The W3C converter *)

Lemma throughText_strings (l : list string) :
  throughText (JArray (map JString l)) = JArray (map JString l).
Proof.
  cbn [throughText]. f_equal. induction l as [|s l IH]; [done |].
  cbn [map throughText]. by rewrite IH.
Qed.

Lemma stringsOf_strings (l : list string) : stringsOf (map JString l) = Some l.
Proof. induction l as [|s l IH]; [done |]. cbn [map stringsOf]. by rewrite IH. Qed.

Lemma w3cType_round_trip t :
  W3CConverter.w3cTypeToFigma (W3CConverter.typeToW3C t) = t.
Proof. by destruct t. Qed.

Section Tokens.
Variable fromCss : string -> RGBA.
Variable colorJson : ExportColorValue -> Json.
Variable stringify : Json -> string.
Variable keyOf : Json -> string.

Lemma token_read_back (v : ExportVariableValue) (isAlias : bool) :
  typedLeaf v ->
  W3CConverter.parseW3CToken fromCss stringify keyOf
    (throughText (W3CConverter.valueToW3C colorJson v isAlias))
  = Some (readBack fromCss v).
Proof.
  intros Htyped. destruct v as [scopes t d value cn lib lv].
  unfold typedLeaf in Htyped. cbn [e_value e_type] in Htyped.
  unfold W3CConverter.valueToW3C, readBack.
  cbn [e_scopes e_type e_description e_value].
  match goal with
  | |- context [("$value", ?x)] =>
      assert (Hvalue : x
                   = match t, value with
                     | TColor, EColor c => JString (hex c)
                     | _, EString s => JString s
                     | _, ENumber q => JNumber q
                     | _, EBoolean b => JBool b
                     | _, EColor c => colorJson c
                     | _, EUndefined => JUndefined
                     end);
      [| rewrite Hvalue; clear Hvalue]
  end.
  { unfold W3CConverter.isReference. cbn [e_value].
    destruct isAlias, value as [s|q|b|c|], t; simpl;
      try done; by destruct (Js.startsWith s "{"). }
  assert (Hdesc :
            match d with
            | Some x => if Js.truthy x then [("$description", JString x)] else []
            | None => []
            end
            = match (match d with
                     | Some x => if Js.truthy x then Some x else None
                     | None => None
                     end) with
              | Some x => [("$description", JString x)]
              | None => []
              end).
  { destruct d as [x|]; [| done]. by destruct (Js.truthy x). }
  rewrite Hdesc. clear Hdesc.
  assert (Htruthy : forall x,
             match d with
             | Some x => if Js.truthy x then Some x else None
             | None => None
             end = Some x -> Js.truthy x = true).
  { intros x. destruct d as [y|]; [| done].
    destruct (Js.truthy y) eqn:E; [| done]. by intros [= <-]. }
  destruct (match d with
            | Some x => if Js.truthy x then Some x else None
            | None => None
            end) as [x|].
  all: try specialize (Htruthy x eq_refl).
  all: assert (Hitems : forall l, throughText (JArray (map JString l))
                                  = JArray (map JString l))
    by apply throughText_strings.
  all: cbn [throughText] in Hitems.
  all: assert (Hs : forall l, _ (map JString l) = map JString l)
    by (intros l; specialize (Hitems l); injection Hitems as Hitems;
        exact Hitems).
  all: clear Hitems.
  all: destruct scopes as [|sc scopes];
    [| unfold TypeMapper.scopesToArray;
       destruct (bool_decide ("ALL_SCOPES" ∈ sc :: scopes)) eqn:Hall].
  all: destruct value as [s|q|b|c|]; try subst t; try destruct t;
    cbn [app throughText]; try rewrite throughText_strings;
    unfold W3CConverter.parseW3CToken, W3CConverter.scopesOf;
    cbn -[stringsOf map ColorParser.parse ColorConverter.toAllFormats];
    rewrite ?Htruthy, ?Hs, ?stringsOf_strings; try done.
Qed.
End Tokens.

Lemma parse_reference fromCss s :
  Js.startsWith s "{" = true ->
  ColorParser.parse fromCss (EString s) = ColorParser.black.
Proof.
  unfold Js.startsWith. destruct s as [|c s]; [done |].
  cbn [String.prefix]. destruct (ascii_dec "{" c) as [<-|]; [| done].
  intros _. unfold ColorParser.parse.
  change (Js.startsWith (String "{" s) "rgb") with false.
  change (Js.startsWith (String "{" s) "hsl") with false.
  cbn [orb]. unfold ColorParser.fromHex. cbn [ColorParser.stripHash].
  destruct s as [|c2 [|c3 [|c4 [|c5 [|c6 [|c7 [|c8 [|c9 s]]]]]]]]; try done.
Qed.

(** X12. A token the plugin writes reads back, after the trip through
    JSON text, as a leaf of the same type and value, with its scopes in
    normal form and its description; the collection, the library
    reference and the local value of an alias are not written, and a
    colour is read again from its text. *)
Theorem X12_token_reads_back (fromCss : string -> RGBA)
  (colorJson : ExportColorValue -> Json) (stringify keyOf : Json -> string)
  (v : ExportVariableValue) (isAlias : bool) :
  typedLeaf v ->
  W3CConverter.parseW3CToken fromCss stringify keyOf
    (throughText (W3CConverter.valueToW3C colorJson v isAlias))
  = Some (readBack fromCss v)
  /\ W3CConverter.w3cTypeToFigma (W3CConverter.typeToW3C (e_type v)) = e_type v.
Proof.
  intros Htyped. split; [by apply token_read_back | apply w3cType_round_trip].
Qed.

Lemma X12_token_reads_back_witness :
  let v := {| e_scopes := ["FRAME_FILL"]; e_type := TFloat;
              e_description := Some "gap"; e_value := ENumber 4;
              e_collectionName := Some "Base"; e_libraryRef := None;
              e_localValue := None |} in
  W3CConverter.parseW3CToken (fun _ => ColorParser.black) (fun _ => "")
    (fun _ => "")
    (throughText (W3CConverter.valueToW3C (fun _ => JNull) v false))
  = Some (readBack (fun _ => ColorParser.black) v)
  /\ W3CConverter.w3cTypeToFigma (W3CConverter.typeToW3C (e_type v)) = e_type v.
Proof.
  apply (X12_token_reads_back (fun _ => ColorParser.black) (fun _ => JNull)
           (fun _ => "") (fun _ => "")
           {| e_scopes := ["FRAME_FILL"]; e_type := TFloat;
              e_description := Some "gap"; e_value := ENumber 4;
              e_collectionName := Some "Base"; e_libraryRef := None;
              e_localValue := None |} false).
  exact I.
Defined.

(** X13. A colour variable that is an alias is written as its reference
    in braces; read back from the W3C format, its value is opaque black
    and no longer a reference, so the import sets a colour instead of
    an alias. *)
Theorem X13_colour_alias_reads_back_black (fromCss : string -> RGBA)
  (colorJson : ExportColorValue -> Json) (stringify keyOf : Json -> string)
  (v : ExportVariableValue) (s : string) :
  e_type v = TColor -> e_value v = EString s -> Js.startsWith s "{" = true ->
  exists leaf,
    W3CConverter.parseW3CToken fromCss stringify keyOf
      (throughText
         (W3CConverter.valueToW3C colorJson v (W3CConverter.isReference v)))
    = Some leaf
    /\ e_value leaf = EColor (ColorConverter.toAllFormats ColorParser.black)
    /\ hex (ColorConverter.toAllFormats ColorParser.black) = "#000000"
    /\ isAliasReference v = Some s
    /\ isAliasReference leaf = None.
Proof.
  intros Ht Hv Hs. exists (readBack fromCss v).
  split; [apply token_read_back; unfold typedLeaf; by rewrite Hv |].
  unfold readBack, isAliasReference. cbn [e_value]. rewrite Ht, Hv, Hs.
  by rewrite parse_reference.
Qed.

Lemma X13_colour_alias_reads_back_black_witness :
  let v := {| e_scopes := ["ALL_SCOPES"]; e_type := TColor;
              e_description := None; e_value := EString "{brand.primary}";
              e_collectionName := Some "Base"; e_libraryRef := None;
              e_localValue := None |} in
  exists leaf,
    W3CConverter.parseW3CToken (fun _ => ColorParser.black) (fun _ => "")
      (fun _ => "")
      (throughText
         (W3CConverter.valueToW3C (fun _ => JNull) v (W3CConverter.isReference v)))
    = Some leaf
    /\ e_value leaf = EColor (ColorConverter.toAllFormats ColorParser.black)
    /\ hex (ColorConverter.toAllFormats ColorParser.black) = "#000000"
    /\ isAliasReference v = Some "{brand.primary}"
    /\ isAliasReference leaf = None.
Proof.
  apply (X13_colour_alias_reads_back_black (fun _ => ColorParser.black)
           (fun _ => JNull) (fun _ => "") (fun _ => "")
           {| e_scopes := ["ALL_SCOPES"]; e_type := TColor;
              e_description := None; e_value := EString "{brand.primary}";
              e_collectionName := Some "Base"; e_libraryRef := None;
              e_localValue := None |} "{brand.primary}");
    reflexivity.
Defined.

(** *** Detection *)

Lemma throughText_object fields :
  exists fs,
    throughText (JObject fields) = JObject fs
    /\ forall k w, (k, w) ∈ fs ->
         exists v, (k, v) ∈ fields /\ w = throughText v /\ w <> JUndefined.
Proof.
  cbn [throughText]. eexists. split; [reflexivity |].
  induction fields as [|[k0 v0] rest IH]; intros k w Hin.
  - by apply elem_of_nil in Hin.
  - destruct (throughText v0) eqn:E.
    1: { destruct (IH k w Hin) as (v & Hv & Hw). exists v.
         split; [by apply list_elem_of_further | done]. }
    all: apply elem_of_cons in Hin as [[= -> ->]|Hin];
      [ exists v0; split; [apply list_elem_of_here | by rewrite E]
      | destruct (IH k w Hin) as (v & Hv & Hw); exists v;
        split; [by apply list_elem_of_further | done] ].
Qed.

(** An object with no key [$value], once through text. *)
Lemma throughText_plain g :
  "$value" ∉ jsKeys g ->
  isObject (throughText (JObject g)) && hasKey "$value" (throughText (JObject g))
  = false.
Proof.
  intros Hg. destruct (throughText_object g) as (fs & -> & Hfs).
  cbn [isObject hasKey andb]. apply bool_decide_eq_false. intros Hin.
  apply list_elem_of_fmap in Hin as ([k w] & Hk & Hkw). simpl in Hk. subst k.
  destruct (Hfs _ _ Hkw) as (v & Hv & _). apply Hg.
  apply list_elem_of_fmap. by exists ("$value", v).
Qed.

Lemma fold_objSet_elem {A B} (key : B -> string) (val : B -> A) (l : list B) :
  forall (g : list (string * A)) x,
    x ∈ fold_left (fun g b => objSet g (key b) (val b)) l g ->
    x ∈ g \/ exists b, b ∈ l /\ x = (key b, val b).
Proof.
  induction l as [|b l IH]; intros g x Hx; [by left |].
  cbn [fold_left] in Hx. apply IH in Hx as [Hx|(b' & Hb' & ->)].
  - apply elem_of_objSet in Hx as [->|Hx]; [| by left].
    right. exists b. split; [apply list_elem_of_here | done].
  - right. exists b'. split; [by apply list_elem_of_further | done].
Qed.

Section Detection.
Variable colorJson : ExportColorValue -> Json.
Variable namingConvention : NamingConvention.

Lemma tokensOf_group children :
  W3CConverter.tokensOf colorJson namingConvention (Group children)
  = JObject
      (fold_left
         (fun g (kv : string * Node) =>
            objSet g (NamingConverter.convert (fst kv) namingConvention)
                   (W3CConverter.tokensOf colorJson namingConvention (snd kv)))
         children []).
Proof.
  cbn [W3CConverter.tokensOf]. f_equal. generalize (@nil (string * Json)).
  induction children as [|[k c] rest IH]; intros g; [done |].
  cbn [fold_left fst snd]. apply IH.
Qed.

Lemma plain_keys {B} (key : B -> string) (val : B -> Json) (l : list B) :
  forallb (fun b => plainKey namingConvention (key b)) l = true ->
  "$value" ∉ jsKeys
    (fold_left
       (fun g b => objSet g (NamingConverter.convert (key b) namingConvention)
                          (val b))
       l []).
Proof.
  intros Hall Hin. apply list_elem_of_fmap in Hin as ([k w] & Hk & Hkw).
  simpl in Hk. subst k.
  apply (fold_objSet_elem
           (fun b => NamingConverter.convert (key b) namingConvention) val)
    in Hkw as [Hnil|(b & Hb & [= Hkey _])]; [by apply elem_of_nil in Hnil |].
  rewrite forallb_forall in Hall. apply list_elem_of_In in Hb.
  specialize (Hall b Hb). cbv beta in Hall.
  unfold plainKey in Hall. rewrite <- Hkey in Hall.
  done.
Qed.

(** The entries of the group of a collection that hides its tokens. *)
Lemma collection_entries name m originalName k v :
  hidesTokens namingConvention m = true ->
  (k, v) ∈ W3CConverter.collectionToW3C colorJson name m namingConvention
             originalName ->
  k <> "$value"
  /\ ((exists text, v = JString text)
      \/ exists g, v = JObject g /\ "$value" ∉ jsKeys g).
Proof.
  intros Hhide Hin. unfold W3CConverter.collectionToW3C in Hin.
  set (group := match originalName with Some _ => _ | None => _ end) in Hin.
  assert (Hgroup : forall x, x ∈ group ->
                             exists text, x = ("$description", JString text)).
  { intros x Hx. subst group. destruct originalName as [o|];
      [| by apply elem_of_nil in Hx].
    destruct (_ && _); [| by apply elem_of_nil in Hx].
    apply list_elem_of_singleton in Hx. by eexists. }
  assert (Hmulti :
            forallb
              (fun mv => plainKey namingConvention (fst mv)
                         && forallb (fun kv => plainKey namingConvention (fst kv))
                                    (snd mv)) m = true ->
            (k, v) ∈ fold_left
                       (fun g (mv : string * NestedVariables) =>
                          objSet g (NamingConverter.convert (fst mv) namingConvention)
                                 (JObject (W3CConverter.addTokensToGroup colorJson []
                                             (snd mv) namingConvention)))
                       m group ->
            k <> "$value"
            /\ ((exists text, v = JString text)
                \/ exists g, v = JObject g /\ "$value" ∉ jsKeys g)).
  { intros Hall Hkv.
    apply (fold_objSet_elem
             (fun mv : string * NestedVariables =>
                NamingConverter.convert (fst mv) namingConvention)
             (fun mv => JObject (W3CConverter.addTokensToGroup colorJson []
                                   (snd mv) namingConvention)))
      in Hkv as [Hg|(mv & Hmv & [= -> ->])].
    - destruct (Hgroup _ Hg) as (text & [= -> ->]). split; [done |].
      left. by eexists.
    - rewrite forallb_forall in Hall. apply list_elem_of_In in Hmv.
      specialize (Hall mv Hmv). cbv beta in Hall.
      apply andb_prop in Hall as [Hk Hvars].
      split.
      + unfold plainKey in Hk. apply negb_true_iff in Hk.
        by apply String.eqb_neq in Hk.
      + right. eexists. split; [reflexivity |].
        unfold W3CConverter.addTokensToGroup.
        by apply (plain_keys fst
                    (fun kv => W3CConverter.tokensOf colorJson namingConvention
                                 (snd kv))). }
  destruct m as [|[modeName variables] [|second rest]];
    [by apply Hmulti | | by apply Hmulti].
  cbn [hidesTokens] in Hhide. unfold W3CConverter.addTokensToGroup in Hin.
  apply (fold_objSet_elem
           (fun kv : string * Node =>
              NamingConverter.convert (fst kv) namingConvention)
           (fun kv => W3CConverter.tokensOf colorJson namingConvention (snd kv)))
    in Hin as [Hg|(kv & Hkv & [= -> ->])].
  - destruct (Hgroup _ Hg) as (text & [= -> ->]). split; [done |].
    left. by eexists.
  - rewrite forallb_forall in Hhide. apply list_elem_of_In in Hkv.
    specialize (Hhide kv Hkv). cbv beta in Hhide.
    apply andb_prop in Hhide as [Hk Hchildren].
    split.
    + unfold plainKey in Hk. apply negb_true_iff in Hk.
        by apply String.eqb_neq in Hk.
    + destruct (snd kv) as [leaf|children]; [done |].
      right. rewrite tokensOf_group. eexists. split; [reflexivity |].
      by apply (plain_keys fst
                  (fun kc => W3CConverter.tokensOf colorJson namingConvention
                               (snd kc))).
Qed.

Lemma collection_hidden name m originalName :
  hidesTokens namingConvention m = true ->
  let value :=
    throughText
      (JObject (W3CConverter.collectionToW3C colorJson name m namingConvention
                  originalName)) in
  isObject value
  && ((hasKey "$value" value && hasKey "$type" value)
      || match objectEntries value with
         | None => false
         | Some subEntries =>
             existsb (fun sub => isObject (snd sub) && hasKey "$value" (snd sub))
                     subEntries
         end)
  = false.
Proof.
  intros Hhide. cbv zeta.
  destruct (throughText_object
              (W3CConverter.collectionToW3C colorJson name m namingConvention
                 originalName)) as (fs & -> & Hfs).
  cbn [isObject objectEntries andb].
  apply orb_false_iff. split.
  - apply andb_false_iff. left. cbn [hasKey]. apply bool_decide_eq_false.
    intros Hin. apply list_elem_of_fmap in Hin as ([k w] & Hk & Hkw).
    simpl in Hk. subst k. destruct (Hfs _ _ Hkw) as (v & Hv & _).
    by destruct (collection_entries _ _ _ _ _ Hhide Hv).
  - apply not_true_is_false. intros Hex.
    apply existsb_exists in Hex as ([k w] & Hkw & Hsub).
    apply list_elem_of_In in Hkw. destruct (Hfs _ _ Hkw) as (v & Hv & -> & _).
    destruct (collection_entries _ _ _ _ _ Hhide Hv) as [_ [[text ->]|(g & -> & Hg)]].
    + done.
    + cbn [snd] in Hsub. by rewrite throughText_plain in Hsub.
Qed.

Lemma export_entries (exported : ExportFormat) k v :
  (k, v) ∈ w3cExportData colorJson exported namingConvention ->
  exists name c m rest,
    ((name, ICollection c) :: rest) ∈ exported /\ modes c = Some m
    /\ v = JObject (W3CConverter.collectionToW3C colorJson name m
                      namingConvention (originalName c)).
Proof.
  unfold w3cExportData.
  assert (Hgen : forall (l : ExportFormat) g,
             (k, v) ∈ fold_left
               (fun data (item : Item) =>
                  match item with
                  | (name, ICollection c) :: _ =>
                      match modes c with
                      | Some m =>
                          objSet data name
                            (JObject (W3CConverter.collectionToW3C colorJson name m
                                        namingConvention (originalName c)))
                      | None => data
                      end
                  | _ => data
                  end) l g ->
             (k, v) ∈ g
             \/ exists name c m rest,
                  ((name, ICollection c) :: rest) ∈ l /\ modes c = Some m
                  /\ v = JObject (W3CConverter.collectionToW3C colorJson name m
                                    namingConvention (originalName c))).
  { induction l as [|item l IH]; intros g Hin; [by left |].
    cbn [fold_left] in Hin.
    apply IH in Hin as [Hin|(name & c & m & rest & H1 & H2 & H3)].
    - destruct item as [|[name [c|s]] rest]; [by left | | by left].
      destruct (modes c) as [m|] eqn:Hm; [| by left].
      apply elem_of_objSet in Hin as [[= -> ->]|Hin]; [| by left].
      right. exists name, c, m, rest. split; [apply list_elem_of_here | done].
    - right. exists name, c, m, rest.
      split; [by apply list_elem_of_further | done]. }
  intros Hin. apply Hgen in Hin as [Hnil|H]; [by apply elem_of_nil in Hnil | done].
Qed.
End Detection.

(** X14. The importer does not recognise the W3C export of the plugin
    when the tokens lie deeper than [isW3CFormat] looks: when every
    collection has several modes, or a single mode whose variables are
    all in groups.  The file is then read as the plugin's own format. *)
Theorem X14_deep_w3c_export_is_not_detected
  (colorJson : ExportColorValue -> Json) (exported : ExportFormat)
  (namingConvention : NamingConvention) :
  hidden namingConvention exported = true ->
  W3CConverter.isW3CFormat
    (throughText (JObject (w3cExportData colorJson exported namingConvention)))
  = false.
Proof.
  intros Hhidden.
  destruct (throughText_object (w3cExportData colorJson exported namingConvention))
    as (fs & -> & Hfs).
  unfold W3CConverter.isW3CFormat. cbn [isObject objectEntries].
  apply not_true_is_false. intros Hex.
  apply existsb_exists in Hex as ([k w] & Hkw & Hshallow).
  apply list_elem_of_In in Hkw. destruct (Hfs _ _ Hkw) as (v & Hv & -> & _).
  apply export_entries in Hv as (name & c & m & rest & Hitem & Hm & ->).
  unfold hidden in Hhidden. rewrite forallb_forall in Hhidden.
  apply list_elem_of_In in Hitem. specialize (Hhidden _ Hitem).
  cbv beta iota in Hhidden. rewrite Hm in Hhidden.
  cbn [snd] in Hshallow.
  by rewrite (collection_hidden colorJson namingConvention name m
                (originalName c) Hhidden) in Hshallow.
Qed.

Lemma X14_deep_w3c_export_is_not_detected_witness :
  W3CConverter.isW3CFormat
    (throughText
       (JObject (w3cExportData (fun _ => JNull)
                   (exportCollections themeHost exportBase) original)))
  = false.
Proof.
  apply (X14_deep_w3c_export_is_not_detected (fun _ => JNull)
           (exportCollections themeHost exportBase) original).
  by vm_compute.
Defined.

(** *** Reading a tree back *)

Lemma jsGet_mapValues {A B} (f : A -> B) (g : list (string * A)) k :
  jsGet (mapValues f g) k = option_map f (jsGet g k).
Proof.
  induction g as [|[k0 w] g IH]; [done |]. simpl.
  by destruct (String.eqb k0 k).
Qed.

Lemma jsSet_mapValues {A B} (f : A -> B) (g : list (string * A)) k v :
  mapValues f (jsSet g k v) = jsSet (mapValues f g) k (f v).
Proof.
  induction g as [|[k0 w] g IH]; [done |]. simpl.
  destruct (String.eqb k0 k); [done |]. simpl. by f_equal.
Qed.

Lemma objInsert_mapValues {A B} (f : A -> B) (g : list (string * A)) k v :
  mapValues f (objInsert g k v) = objInsert (mapValues f g) k (f v).
Proof.
  unfold mapValues. induction g as [|[k0 w] g IH].
  - cbn [objInsert map]. by destruct (arrayIndex k).
  - cbn [objInsert map fst snd]. destruct (arrayIndex k) as [n|].
    + destruct (arrayIndex k0) as [m|]; [| done].
      destruct (m <? n); [| done]. cbn [map fst snd]. f_equal. exact IH.
    + by rewrite map_app.
Qed.

Lemma objSet_mapValues {A B} (f : A -> B) (g : list (string * A)) k v :
  mapValues f (objSet g k v) = objSet (mapValues f g) k (f v).
Proof.
  unfold objSet. rewrite jsGet_mapValues.
  destruct (jsGet g k); simpl.
  - apply jsSet_mapValues.
  - apply objInsert_mapValues.
Qed.

Lemma fold_objSet_mapValues {A B} (f : A -> B) (l g : list (string * A)) :
  fold_left (fun acc kv => objSet acc (fst kv) (f (snd kv))) l (mapValues f g)
  = mapValues f (fold_left (fun acc kv => objSet acc (fst kv) (snd kv)) l g).
Proof.
  revert g. induction l as [|[k c] l IH]; intros g; [done |].
  cbn [fold_left fst snd]. by rewrite <- objSet_mapValues, IH.
Qed.

Lemma ordered_mapValues {A B} (f : A -> B) (l : list (string * A)) :
  ordered l ->
  fold_left (fun acc kv => objSet acc (fst kv) (f (snd kv))) l [] = mapValues f l.
Proof.
  intros Hl. change (@nil (string * B)) with (mapValues f (@nil (string * A))).
  by rewrite fold_objSet_mapValues, Hl.
Qed.

Lemma mapLeaves_group f children :
  mapLeaves f (Group children) = Group (mapValues (mapLeaves f) children).
Proof.
  cbn [mapLeaves]. f_equal.
  induction children as [|[k c] rest IH]; [done |]. by rewrite IH.
Qed.

Lemma throughText_keep (fields : list (string * Json)) :
  Forall (fun kv => exists fs, throughText (snd kv) = JObject fs) fields ->
  throughText (JObject fields) = JObject (mapValues throughText fields).
Proof.
  intros Hall. cbn [throughText]. f_equal.
  induction Hall as [|[k v] rest [fs E] _ IH]; [done |].
  simpl in E. rewrite E, IH. cbn [mapValues map fst snd]. by rewrite E.
Qed.

Lemma objSet_nil {A} k (v : A) : objSet [] k v = [(k, v)].
Proof. unfold objSet. simpl. by destruct (arrayIndex k). Qed.

Lemma mapValues_mapValues {A B C} (f : A -> B) (g : B -> C)
  (l : list (string * A)) :
  mapValues g (mapValues f l) = mapValues (fun x => g (f x)) l.
Proof. unfold mapValues. rewrite map_map. by apply map_ext. Qed.

Lemma jsKeys_mapValues {A B} (f : A -> B) (l : list (string * A)) :
  jsKeys (mapValues f l) = jsKeys l.
Proof. unfold jsKeys, mapValues. rewrite map_map. by apply map_ext. Qed.

Lemma dollar_free_keys {A} (l : list (string * A)) :
  Forall (fun kv => Js.startsWith (fst kv) "$" = false) l ->
  "$value" ∉ jsKeys l.
Proof.
  intros Hall Hin. apply list_elem_of_fmap in Hin as ([k v] & Hk & Hkv).
  simpl in Hk. subst k. rewrite Forall_forall in Hall.
  by specialize (Hall _ Hkv).
Qed.

Section ReadBack.
Variable fromCss : string -> RGBA.
Variable colorJson : ExportColorValue -> Json.
Variable stringify : Json -> string.
Variable keyOf : Json -> string.

Local Abbreviation jsonOf :=
  (fun n => throughText (W3CConverter.tokensOf colorJson original n)).
Local Abbreviation nestedOf := (W3CConverter.nestedOf fromCss stringify keyOf).
Local Abbreviation back := (mapLeaves (readBack fromCss)).

Lemma token_is_object v a :
  exists fs, throughText (W3CConverter.valueToW3C colorJson v a) = JObject fs.
Proof.
  unfold W3CConverter.valueToW3C.
  match goal with
  | |- context [throughText (JObject ?f)] =>
      destruct (throughText_object f) as (fs & E & _)
  end.
  by exists fs.
Qed.

Lemma node_is_object n : exists fs, jsonOf n = JObject fs.
Proof.
  destruct n as [v|children].
  - apply token_is_object.
  - cbn [W3CConverter.tokensOf].
    match goal with
    | |- context [throughText (JObject ?f)] =>
        destruct (throughText_object f) as (fs & E & _)
    end.
    by exists fs.
Qed.

Lemma token_has_value v a :
  typedLeaf v -> hasValue v = true ->
  W3CConverter.isW3CToken (throughText (W3CConverter.valueToW3C colorJson v a))
  = true.
Proof.
  destruct v as [scopes t d value cn lib lv].
  unfold typedLeaf, hasValue. cbn [e_value e_type]. intros Htyped Hvalue.
  unfold W3CConverter.valueToW3C, W3CConverter.isReference.
  cbn [e_value e_type e_scopes e_description].
  match goal with
  | |- context [("$type", ?x) :: ?rest] => generalize (("$type", x) :: rest)
  end.
  intros tail.
  destruct a, value as [s|q|b|c|], t; try done; try discriminate;
    cbn [andb]; try destruct (Js.startsWith s "{");
    cbn [app throughText W3CConverter.plainJson];
    unfold W3CConverter.isW3CToken; cbn [hasKey jsKeys map fst];
    apply bool_decide_eq_true, list_elem_of_here.
Qed.
Lemma tokensOf_ordered children :
  ordered children ->
  W3CConverter.tokensOf colorJson original (Group children)
  = JObject (mapValues (W3CConverter.tokensOf colorJson original) children).
Proof.
  intros Hord. rewrite tokensOf_group. f_equal.
  by apply (ordered_mapValues (W3CConverter.tokensOf colorJson original)).
Qed.

Lemma jsonOf_group children :
  ordered children ->
  jsonOf (Group children) = JObject (mapValues jsonOf children).
Proof.
  intros Hord. cbv beta. rewrite tokensOf_ordered by done.
  rewrite throughText_keep, mapValues_mapValues; [done |].
  apply Forall_forall. intros [k j] Hin.
  apply list_elem_of_fmap in Hin as ([k' c] & [= -> ->] & _).
  apply node_is_object.
Qed.

(** The loop of [w3cGroupToNestedVars] over the entries of a group
    below the root. *)
Lemma group_loop (F : Node -> Node) (l : list (string * Node)) :
  forall result,
    Forall (fun kv => Js.startsWith (fst kv) "$" = false
                      /\ nestedOf (jsonOf (snd kv)) = Some (Some (F (snd kv)))) l ->
    (fix go (l : list (string * Json)) (result : NestedVariables)
       : option NestedVariables :=
       match l with
       | [] => Some result
       | (key, v) :: rest =>
           if Js.startsWith key "$" then go rest result
           else
             match nestedOf v with
             | None => None
             | Some None => go rest result
             | Some (Some n) => go rest (objSet result key n)
             end
       end) (mapValues jsonOf l) result
    = Some (fold_left (fun acc kv => objSet acc (fst kv) (F (snd kv))) l result).
Proof.
  induction l as [|[k c] l IH]; intros result Hall; [done |].
  inversion Hall as [|? ? [Hk Hc] Hrest]; subst. simpl in Hk, Hc.
  cbn [mapValues map fst snd fold_left]. rewrite Hk, Hc.
  by apply IH.
Qed.

(** The same loop at the root of a collection. *)
Lemma root_loop (F : Node -> Node) (l : list (string * Node)) :
  forall result,
    Forall (fun kv => Js.startsWith (fst kv) "$" = false
                      /\ nestedOf (jsonOf (snd kv)) = Some (Some (F (snd kv)))) l ->
    fold_left
      (fun (acc : option NestedVariables) (kv : string * Json) =>
         match acc with
         | None => None
         | Some result =>
             if Js.startsWith (fst kv) "$" then Some result
             else
               match nestedOf (snd kv) with
               | None => None
               | Some None => Some result
               | Some (Some n) => Some (objSet result (fst kv) n)
               end
         end)
      (mapValues jsonOf l) (Some result)
    = Some (fold_left (fun acc kv => objSet acc (fst kv) (F (snd kv))) l result).
Proof.
  induction l as [|[k c] l IH]; intros result Hall; [done |].
  inversion Hall as [|? ? [Hk Hc] Hrest]; subst. simpl in Hk, Hc.
  cbn [mapValues map fst snd fold_left]. rewrite Hk, Hc.
  by apply IH.
Qed.

Lemma regular_children children :
  regular (Group children) ->
  ordered children
  /\ Forall (fun kv => Js.startsWith (fst kv) "$" = false) children
  /\ Forall (fun kv => regular (snd kv)) children.
Proof.
  inversion 1 as [|? Hord Hall]; subst. split; [done |].
  split; eapply Forall_impl; try exact Hall; by intros ? [? ?].
Qed.

Lemma nestedOf_node (n : Node) :
  regular n -> nestedOf (jsonOf n) = Some (Some (back n)).
Proof.
  induction n as [v|children IH] using Node_ind'; intros Hreg.
  - inversion Hreg as [? Htyped Hvalue|]; subst. cbv beta.
    cbn [W3CConverter.tokensOf mapLeaves].
    pose proof (token_has_value v (W3CConverter.isReference v) Htyped Hvalue)
      as Htoken.
    pose proof (token_read_back fromCss colorJson stringify keyOf v
                  (W3CConverter.isReference v) Htyped) as Hparse.
    destruct (token_is_object v (W3CConverter.isReference v)) as [fs E].
    rewrite E in *. cbn [W3CConverter.nestedOf]. by rewrite Htoken, Hparse.
  - destruct (regular_children _ Hreg) as (Hord & Hkeys & Hregs).
    rewrite jsonOf_group by done. cbn [W3CConverter.nestedOf].
    unfold W3CConverter.isW3CToken. cbn [hasKey].
    rewrite bool_decide_eq_false_2
      by (rewrite jsKeys_mapValues; by apply dollar_free_keys).
    rewrite (group_loop back).
    + rewrite (ordered_mapValues back) by done.
      by rewrite mapLeaves_group.
    + rewrite Forall_forall in IH, Hkeys, Hregs. apply Forall_forall.
      intros kv Hkv. split; [by apply Hkeys |].
      apply (IH kv Hkv). by apply Hregs.
Qed.

Lemma collection_read_back variables :
  regular (Group variables) ->
  W3CConverter.w3cGroupToNestedVars fromCss stringify keyOf
    (throughText
       (JObject (W3CConverter.addTokensToGroup colorJson [] variables original)))
  = Some (mapValues back variables).
Proof.
  intros Hreg. destruct (regular_children _ Hreg) as (Hord & Hkeys & Hregs).
  change (JObject (W3CConverter.addTokensToGroup colorJson [] variables original))
    with (JObject
            (fold_left
               (fun g (kv : string * Node) =>
                  objSet g (NamingConverter.convert (fst kv) original)
                         (W3CConverter.tokensOf colorJson original (snd kv)))
               variables [])).
  rewrite <- tokensOf_group.
  rewrite jsonOf_group by done.
  unfold W3CConverter.w3cGroupToNestedVars. cbn [objectEntries].
  rewrite (root_loop back).
  - by rewrite (ordered_mapValues back).
  - rewrite Forall_forall in Hkeys, Hregs. apply Forall_forall.
    intros kv Hkv. split; [by apply Hkeys |].
    apply nestedOf_node. by apply Hregs.
Qed.
End ReadBack.

(** X15. A collection with a single mode, exported under the original
    names and read back from the W3C format, keeps its name and the
    tree of its variables, each leaf as its token reads back; the name
    of the mode is lost, the mode comes back as [Default].  The file is
    recognised as W3C when a variable lies at the root of the tree. *)
Theorem X15_single_mode_collection_reads_back (fromCss : string -> RGBA)
  (colorJson : ExportColorValue -> Json) (stringify keyOf : Json -> string)
  (name modeName : string) (variables : NestedVariables) :
  regular (Group variables) -> Js.startsWith name "$" = false ->
  let exported :=
    [ [(name, ICollection {| modes := Some [(modeName, variables)];
                             originalName := None |})] ] in
  let text := throughText (JObject (w3cExportData colorJson exported original)) in
  W3CConverter.w3cToFigmaFormat fromCss stringify keyOf text
  = Some [ [(name,
             ICollection
               {| modes := Some [("Default",
                                  mapValues (mapLeaves (readBack fromCss))
                                            variables)];
                  originalName := None |})] ]
  /\ ((exists key v, (key, Leaf v) ∈ variables) ->
      W3CConverter.isW3CFormat text = true).
Proof.
  intros Hreg Hname. cbv zeta.
  unfold w3cExportData. cbn [fold_left modes originalName].
  rewrite objSet_nil. unfold W3CConverter.collectionToW3C.
  pose proof (collection_read_back fromCss colorJson stringify keyOf
                variables Hreg) as Hback.
  destruct (throughText_object
              (W3CConverter.addTokensToGroup colorJson [] variables original))
    as (fs & E & Hfs).
  rewrite throughText_keep
    by (apply List.Forall_cons; [by exists fs | apply List.Forall_nil]).
  cbn [mapValues map fst snd]. split.
  - unfold W3CConverter.w3cToFigmaFormat. cbn [objectEntries fold_left fst snd].
    by rewrite Hname, Hback.
  - intros (key & v & Hin).
    destruct (regular_children _ Hreg) as (Hord & Hkeys & Hregs).
    rewrite Forall_forall in Hregs. specialize (Hregs _ Hin).
    inversion Hregs as [? Htyped Hvalue|]; subst.
    unfold W3CConverter.isW3CFormat. cbn [isObject objectEntries existsb snd].
    rewrite E. cbn [isObject objectEntries andb]. rewrite orb_false_r.
    apply orb_true_iff. right.
    assert (Hfields :
              JObject fs
              = JObject (mapValues
                           (fun n => throughText
                                       (W3CConverter.tokensOf colorJson original n))
                           variables)).
    { rewrite <- E.
      change (JObject (W3CConverter.addTokensToGroup colorJson [] variables original))
        with (JObject
                (fold_left
                   (fun g (kv : string * Node) =>
                      objSet g (NamingConverter.convert (fst kv) original)
                             (W3CConverter.tokensOf colorJson original (snd kv)))
                   variables [])).
      rewrite <- tokensOf_group. by apply (jsonOf_group colorJson). }
    injection Hfields as ->.
    apply existsb_exists.
    exists (key, throughText (W3CConverter.tokensOf colorJson original (Leaf v))).
    split.
    + apply list_elem_of_In, list_elem_of_fmap. by exists (key, Leaf v).
    + cbn [snd W3CConverter.tokensOf].
      pose proof (token_has_value colorJson v (W3CConverter.isReference v)
                    Htyped Hvalue) as Htoken.
      destruct (token_is_object colorJson v (W3CConverter.isReference v))
        as [ts Et].
      rewrite Et in *. exact Htoken.
Qed.

Lemma X15_single_mode_collection_reads_back_witness :
  let variables := [("B", Group [("x", numberLeaf 1)]); ("base", numberLeaf 2)] in
  let exported :=
    [ [("A", ICollection {| modes := Some [("Mode 1", variables)];
                            originalName := None |})] ] in
  let text :=
    throughText (JObject (w3cExportData (fun _ => JNull) exported original)) in
  W3CConverter.w3cToFigmaFormat noCss (fun _ => "") (fun _ => "") text
  = Some [ [("A",
             ICollection
               {| modes := Some [("Default",
                                  mapValues (mapLeaves (readBack noCss))
                                            variables)];
                  originalName := None |})] ]
  /\ ((exists key v, (key, Leaf v) ∈ variables) ->
      W3CConverter.isW3CFormat text = true).
Proof.
  apply (X15_single_mode_collection_reads_back noCss (fun _ => JNull)
           (fun _ => "") (fun _ => "") "A" "Mode 1"
           [("B", Group [("x", numberLeaf 1)]); ("base", numberLeaf 2)]).
  - apply regular_group; [reflexivity |].
    apply List.Forall_cons; [split; [reflexivity |] |].
    + apply regular_group; [reflexivity |].
      apply List.Forall_cons; [| apply List.Forall_nil].
      split; [reflexivity |]. by apply regular_leaf.
    + apply List.Forall_cons; [| apply List.Forall_nil].
      split; [reflexivity |]. by apply regular_leaf.
  - reflexivity.
Defined.

(** ** Rounding *)

Lemma round_near (x : Q) :
  (x - (1 # 2) <= inject_Z (Js.round x) /\ inject_Z (Js.round x) <= x + (1 # 2))%Q.
Proof.
  unfold Js.round. pose proof (Qfloor_le (x + (1 # 2))) as Hle.
  pose proof (Qlt_floor (x + (1 # 2))) as Hlt.
  rewrite inject_Z_plus in Hlt. change (inject_Z 1) with 1%Q in Hlt.
  split; lra.
Qed.

Lemma scaled_near (x : Q) (n : Z) :
  (0 < n)%Z ->
  near (1 # (2 * Z.to_pos n)) x (inject_Z (Js.round (x * inject_Z n)) / inject_Z n).
Proof.
  intros Hn. destruct (round_near (x * inject_Z n)) as [H1 H2].
  assert (Hq : (0 < inject_Z n)%Q) by (unfold Qlt, inject_Z; simpl; lia).
  assert (He : (1 # (2 * Z.to_pos n)) * inject_Z n == 1 # 2).
  { unfold Qeq, Qmult, inject_Z. simpl. destruct n; lia. }
  unfold near. split.
  - apply Qle_shift_div_l; [done |]. nra.
  - apply Qle_shift_div_r; [done |]. nra.
Qed.

(** X16. What the [rgb] rendering of a colour gives back through
    [fromRgb255] is within 1/510 of each channel, and is the channel
    the hexadecimal notation carries; an opacity below 1 comes back
    within 1/200, and an opacity of 1 or more as 1. *)
Theorem X16_rgb_rendering_is_near (c : RGBA) :
  inGamut c ->
  let c' := fromRgb255 (ColorConverter.toRgb255 c) in
  (near (1 # 510) (rgba_r c) (rgba_r c')
   /\ near (1 # 510) (rgba_g c) (rgba_g c')
   /\ near (1 # 510) (rgba_b c) (rgba_b c'))
  /\ (rgba_r c' == byteOf (rgba_r c) /\ rgba_g c' == byteOf (rgba_g c)
      /\ rgba_b c' == byteOf (rgba_b c))%Q
  /\ (if Qlt_le_dec (rgba_a c) 1 then near (1 # 200) (rgba_a c) (rgba_a c')
      else rgba_a c' = 1%Q).
Proof.
  destruct c as [r g b a]. intros (Hr & Hg & Hb). simpl in Hr, Hg, Hb.
  cbv zeta. unfold fromRgb255, ColorConverter.toRgb255.
  cbn [rgba_r rgba_g rgba_b rgba_a rgb_r rgb_g rgb_b rgb_a].
  split; [| split].
  - repeat split; apply (scaled_near _ 255); lia.
  - unfold byteOf, MathUtils.fromHexByte.
    pose proof (round_unit r Hr). pose proof (round_unit g Hg).
    pose proof (round_unit b Hb).
    rewrite !Z2N.id by lia. done.
  - destruct (Qlt_le_dec a 1); [| done].
    apply (scaled_near _ 100). lia.
Qed.

Lemma X16_rgb_rendering_is_near_witness :
  let c := mkRGBA (1 # 2) (1 # 3) 1 (3 # 4) in
  let c' := fromRgb255 (ColorConverter.toRgb255 c) in
  (near (1 # 510) (rgba_r c) (rgba_r c')
   /\ near (1 # 510) (rgba_g c) (rgba_g c')
   /\ near (1 # 510) (rgba_b c) (rgba_b c'))
  /\ (rgba_r c' == byteOf (rgba_r c) /\ rgba_g c' == byteOf (rgba_g c)
      /\ rgba_b c' == byteOf (rgba_b c))%Q
  /\ (if Qlt_le_dec (rgba_a c) 1 then near (1 # 200) (rgba_a c) (rgba_a c')
      else rgba_a c' = 1%Q).
Proof.
  apply (X16_rgb_rendering_is_near (mkRGBA (1 # 2) (1 # 3) 1 (3 # 4))).
  repeat split; done.
Defined.

(** ** The cache after a rebuild *)

Lemma rebuild_inner_collections h col (ids : list N) acc :
  collectionMap
    (foldl (fun acc' varId =>
              match getVariableById h varId with
              | Some v => Cache.setVariable (col_name col +:+ "/" +:+ var_name v)
                                            varId acc'
              | None => acc'
              end) acc ids)
  = collectionMap acc
  /\ initialized
       (foldl (fun acc' varId =>
                 match getVariableById h varId with
                 | Some v => Cache.setVariable (col_name col +:+ "/" +:+ var_name v)
                                               varId acc'
                 | None => acc'
                 end) acc ids)
     = initialized acc.
Proof.
  revert acc. induction ids as [|id ids IH]; intros acc; simpl; [done |].
  destruct (IH (match getVariableById h id with
                | Some v => Cache.setVariable (col_name col +:+ "/" +:+ var_name v)
                                              id acc
                | None => acc
                end)) as [-> ->].
  by destruct (getVariableById h id).
Qed.

Lemma rebuild_outer_collections h (cols : list VariableCollection) acc :
  collectionMap
    (foldl
       (fun acc col =>
          foldl
            (fun acc' varId =>
               match getVariableById h varId with
               | Some v => Cache.setVariable (col_name col +:+ "/" +:+ var_name v)
                                             varId acc'
               | None => acc'
               end)
            (Cache.setCollection (col_name col) (col_id col) acc)
            (variableIds col))
       acc cols)
  = foldl (fun m kv => <[fst kv := snd kv]> m) (collectionMap acc)
          (map (fun col => (col_name col, col_id col)) cols)
  /\ initialized
       (foldl
          (fun acc col =>
             foldl
               (fun acc' varId =>
                  match getVariableById h varId with
                  | Some v => Cache.setVariable (col_name col +:+ "/" +:+ var_name v)
                                                varId acc'
                  | None => acc'
                  end)
               (Cache.setCollection (col_name col) (col_id col) acc)
               (variableIds col))
          acc cols)
     = initialized acc.
Proof.
  revert acc. induction cols as [|col cols IH]; intros acc; simpl; [done |].
  destruct (IH (foldl
                  (fun acc' varId =>
                     match getVariableById h varId with
                     | Some v =>
                         Cache.setVariable (col_name col +:+ "/" +:+ var_name v)
                                           varId acc'
                     | None => acc'
                     end)
                  (Cache.setCollection (col_name col) (col_id col) acc)
                  (variableIds col))) as [-> ->].
  destruct (rebuild_inner_collections h col (variableIds col)
              (Cache.setCollection (col_name col) (col_id col) acc)) as [-> ->].
  done.
Qed.

(** X17. After [rebuild] the cache resolves the local store and nothing
    else: a collection name resolves exactly when a local collection
    has it, and then to the identifier of one; a key resolves exactly
    when it is the name of a local collection, a slash and the name of
    a variable it lists, and then to the identifier of one.  What the
    cache held before is gone.  [initialize] fills the cache once: on a
    cache it has filled it does nothing, whatever the store has become. *)
Theorem X17_rebuild_resolves_the_local_store (h : Host) (c : VariableCache) :
  (forall name,
      is_Some (Cache.getCollection name (Cache.rebuild h c))
      <-> exists col, col ∈ getLocalVariableCollections h /\ col_name col = name)
  /\ (forall name id,
        Cache.getCollection name (Cache.rebuild h c) = Some id ->
        exists col, col ∈ getLocalVariableCollections h
                    /\ col_name col = name /\ col_id col = id)
  /\ (forall key,
        is_Some (Cache.getVariable key (Cache.rebuild h c))
        <-> exists col v id,
              col ∈ getLocalVariableCollections h /\ id ∈ variableIds col
              /\ getVariableById h id = Some v
              /\ key = col_name col +:+ "/" +:+ var_name v)
  /\ (forall key id,
        Cache.getVariable key (Cache.rebuild h c) = Some id ->
        exists col v,
          col ∈ getLocalVariableCollections h /\ id ∈ variableIds col
          /\ getVariableById h id = Some v
          /\ key = col_name col +:+ "/" +:+ var_name v)
  /\ (forall h', Cache.initialize h' (Cache.initialize h c)
                 = Cache.initialize h c).
Proof.
  assert (Hcols : collectionMap (Cache.rebuild h c)
                  = foldl (fun m kv => <[fst kv := snd kv]> m) ∅
                          (map (fun col => (col_name col, col_id col))
                               (getLocalVariableCollections h))).
  { unfold Cache.rebuild.
    by destruct (rebuild_outer_collections h (getLocalVariableCollections h)
                   {| collectionMap := ∅; variableMap := ∅;
                      initialized := initialized c |}) as [-> _]. }
  split; [| split; [| split; [| split]]].
  - intros name. unfold Cache.getCollection. rewrite Hcols. split.
    + intros [id Hid]. apply foldl_insert_Some in Hid as [Hempty|Hin].
      * by rewrite lookup_empty in Hempty.
      * apply list_elem_of_fmap in Hin as (col & [= -> ->] & Hcol). by exists col.
    + intros (col & Hcol & <-). apply foldl_insert_is_Some. right.
      exists (col_id col). apply list_elem_of_fmap. by exists col.
  - intros name id. unfold Cache.getCollection. rewrite Hcols.
    intros [Hempty|Hin]%foldl_insert_Some.
    + by rewrite lookup_empty in Hempty.
    + apply list_elem_of_fmap in Hin as (col & [= -> ->] & Hcol). by exists col.
  - intros key. unfold Cache.getVariable. rewrite rebuild_complete. split.
    + intros [t (col & v & Hcol & Ht & Hv & ->)%elem_of_cacheEntries].
      by exists col, v, t.
    + intros (col & v & id & Hcol & Hid & Hv & ->). exists id.
      apply elem_of_cacheEntries. by exists col, v.
  - intros key id Hkey. apply rebuild_sound, elem_of_cacheEntries in Hkey
      as (col & v & Hcol & Ht & Hv & ->).
    by exists col, v.
  - intros h'. unfold Cache.initialize.
    destruct (initialized c) eqn:E; [by rewrite E |]. done.
Qed.

(** ** Names in the export *)

Lemma entryName_exportCollection h opts c :
  entryName (exportCollection h opts c) = Some (col_name c).
Proof.
  unfold exportCollection, entryName, asContent. cbn [originalName].
  destruct (String.eqb_spec
              (NamingConverter.convert (col_name c) (namingConvention opts))
              (col_name c)) as [E|Hne]; cbn [orElse].
  - by rewrite E.
  - destruct (col_name c) as [|a s] eqn:Ename; [| done].
    destruct Hne. by destruct (namingConvention opts).
Qed.

(** X18. Whatever the naming convention of the export, the name the
    importer reads from an exported entry ([$originalName], or else the
    key) is the name of the collection in the store; the entries are
    those of the local collections, or of the selected ones among them,
    in the order of the store. *)
Theorem X18_collection_names_survive_the_convention (h : Host)
  (opts : ExportOptions) :
  map entryName (exportCollections h opts)
  = map (fun c => Some (col_name c))
        (match selectedCollections opts with
         | [] => getLocalVariableCollections h
         | selected =>
             filter (fun c => col_name c ∈ selected)
                    (getLocalVariableCollections h)
         end).
Proof.
  unfold exportCollections.
  assert (Hmap : forall l,
             map entryName (map (exportCollection h opts) l)
             = map (fun c => Some (col_name c)) l).
  { intros l. rewrite map_map. apply map_ext. intros c.
    apply entryName_exportCollection. }
  destruct (selectedCollections opts) as [|s selected]; [apply Hmap |].
  rewrite Hmap. f_equal. apply filter_ext_elem.
  intros c _. by rewrite bool_decide_eq_true.
Qed.

(** ** From HSL and HSB *)

Lemma between (p q x : Q) :
  unit p -> unit q -> unit x -> unit (p + (q - p) * x).
Proof. unfold unit. intros [? ?] [? ?] [? ?]. split; nra. Qed.

Lemma hue2rgb_unit (p q t : Q) :
  unit p -> unit q -> (-1 <= t)%Q -> (t <= 2)%Q -> unit (hue2rgb p q t).
Proof.
  intros Hp Hq Ht1 Ht2. unfold hue2rgb.
  set (tt := if Qlt_le_dec t 0 then _ else _).
  assert (Htt : (0 <= tt /\ tt <= 1)%Q).
  { subst tt. destruct (Qlt_le_dec t 0); [lra |].
    destruct (Qlt_le_dec 1 t); lra. }
  clearbody tt. destruct Htt as [Ht0 Ht3].
  assert (E16 : (1 / 6 == 1 # 6)%Q) by reflexivity.
  assert (E12 : (1 / 2 == 1 # 2)%Q) by reflexivity.
  assert (E23 : (2 / 3 == 2 # 3)%Q) by reflexivity.
  destruct (Qlt_le_dec tt (1 / 6)) as [H1|H1].
  - rewrite E16 in H1.
    assert (Hx : unit (6 * tt)) by (unfold unit; lra).
    pose proof (between p q (6 * tt) Hp Hq Hx) as [B1 B2].
    unfold unit. split; nra.
  - destruct (Qlt_le_dec tt (1 / 2)) as [H2|H2]; [done |].
    destruct (Qlt_le_dec tt (2 / 3)) as [H3|H3]; [| done].
    rewrite E12 in H2. rewrite E23 in H3.
    assert (Hx : unit (((2 # 3) - tt) * 6)) by (unfold unit; lra).
    pose proof (between p q (((2 # 3) - tt) * 6) Hp Hq Hx) as [B1 B2].
    unfold unit. rewrite E23. split; nra.
Qed.

Lemma percent_unit (x : Q) (n : Z) :
  (0 < n)%Z -> (0 <= x)%Q -> (x <= inject_Z n)%Q -> unit (x / inject_Z n).
Proof.
  intros Hn H0 H1.
  assert (Hq : (0 < inject_Z n)%Q) by (unfold Qlt, inject_Z; simpl; lia).
  split.
  - apply Qle_shift_div_l; [done | lra].
  - apply Qle_shift_div_r; [done | lra].
Qed.

Lemma fromHsl_inGamut (c : HslColor) : hslInRange c -> inGamut (fromHsl c).
Proof.
  intros ((Hh0 & Hh1) & (Hs0 & Hs1) & (Hl0 & Hl1)). unfold fromHsl.
  pose proof (percent_unit (hsl_h c) 360 eq_refl Hh0 Hh1) as [Hh2 Hh3].
  pose proof (percent_unit (hsl_s c) 100 eq_refl Hs0 Hs1) as [Hs2 Hs3].
  pose proof (percent_unit (hsl_l c) 100 eq_refl Hl0 Hl1) as [Hl2 Hl3].
  change (inject_Z 360) with 360%Q in *. change (inject_Z 100) with 100%Q in *.
  set (h := (hsl_h c / 360)%Q) in *. set (s := (hsl_s c / 100)%Q) in *.
  set (l := (hsl_l c / 100)%Q) in *. clearbody h s l.
  destruct (JsMath.same s 0); [by repeat split |].
  set (q := if Qlt_le_dec l (1 # 2) then _ else _).
  assert (Hq : unit q /\ unit (2 * l - q)).
  { subst q. unfold unit. destruct (Qlt_le_dec l (1 # 2)); repeat split; nra. }
  clearbody q. destruct Hq as [Hq Hp].
  assert (E13 : (1 / 3 == 1 # 3)%Q) by reflexivity.
  repeat split; cbn [rgba_r rgba_g rgba_b];
    apply hue2rgb_unit; try done; rewrite ?E13; lra.
Qed.

Lemma floor_six (h : Q) :
  unit h ->
  (0 <= Qfloor (h * 6) <= 6)%Z
  /\ (0 <= h * 6 - inject_Z (Qfloor (h * 6)))%Q
  /\ (h * 6 - inject_Z (Qfloor (h * 6)) <= 1)%Q.
Proof.
  intros [H0 H1]. pose proof (Qfloor_le (h * 6)) as Hle.
  pose proof (Qlt_floor (h * 6)) as Hlt.
  rewrite inject_Z_plus in Hlt. change (inject_Z 1) with 1%Q in Hlt.
  split; [| split; lra]. split.
  - apply Z.le_trans with (Qfloor (0 # 1)); [done |].
    apply Qfloor_resp_le. lra.
  - apply Z.le_trans with (Qfloor (6 # 1)); [| done].
    apply Qfloor_resp_le. lra.
Qed.

Lemma shade_unit (v x : Q) : unit v -> unit x -> unit (v * (1 - x)).
Proof. unfold unit. intros [? ?] [? ?]. split; nra. Qed.

Lemma fromHsb_inGamut (c : HsbColor) :
  hsbInRange c -> exists rgba, fromHsb c = Some rgba /\ inGamut rgba.
Proof.
  intros ((Hh0 & Hh1) & (Hs0 & Hs1) & (Hb0 & Hb1)). unfold fromHsb.
  pose proof (percent_unit (hsb_h c) 360 eq_refl Hh0 Hh1) as Hh.
  pose proof (percent_unit (hsb_s c) 100 eq_refl Hs0 Hs1) as [Hs2 Hs3].
  pose proof (percent_unit (hsb_b c) 100 eq_refl Hb0 Hb1) as [Hv2 Hv3].
  change (inject_Z 360) with 360%Q in *. change (inject_Z 100) with 100%Q in *.
  set (h := (hsb_h c / 360)%Q) in *. set (s := (hsb_s c / 100)%Q) in *.
  set (v := (hsb_b c / 100)%Q) in *. clearbody h s v.
  destruct (floor_six h Hh) as (Hi & Hf0 & Hf1).
  set (i := Qfloor (h * 6)) in *. set (f := (h * 6 - inject_Z i)%Q) in *.
  clearbody f. clearbody i.
  assert (Hp : unit (v * (1 - s))) by (by apply shade_unit).
  assert (Hfs : unit (f * s)) by (unfold unit; split; nra).
  assert (Hgs : unit ((1 - f) * s)) by (unfold unit; split; nra).
  assert (Hq : unit (v * (1 - f * s))) by (by apply shade_unit).
  assert (Ht : unit (v * (1 - (1 - f) * s))) by (by apply shade_unit).
  assert (Hv : unit v) by done.
  assert (Hcases : (i = 0 \/ i = 1 \/ i = 2 \/ i = 3 \/ i = 4 \/ i = 5
                    \/ i = 6)%Z) by lia.
  destruct Hcases as [->|[->|[->|[->|[->|[->| ->]]]]]];
    cbv zeta; eexists; (split; [reflexivity |]); (split; [| split]);
    assumption.
Qed.

(** X19. [fromHsl] maps a hue between 0 and 360 and a saturation and a
    lightness between 0 and 100 to a colour whose channels lie between
    0 and 1, and so does [fromHsb] for a hue, a saturation and a
    brightness in these ranges, where it does not throw.  The opacity
    is the one given, or 1. *)
Theorem X19_hsl_and_hsb_give_colours :
  (forall c, hslInRange c ->
             inGamut (fromHsl c)
             /\ rgba_a (fromHsl c)
                = match hsl_a c with Some a => a | None => 1%Q end)
  /\ (forall c, hsbInRange c ->
                exists rgba, fromHsb c = Some rgba /\ inGamut rgba
                             /\ rgba_a rgba
                                = match hsb_a c with Some a => a | None => 1%Q end).
Proof.
  split.
  - intros c Hc. split; [by apply fromHsl_inGamut |].
    unfold fromHsl. by destruct (JsMath.same _ _).
  - intros c Hc. destruct (fromHsb_inGamut c Hc) as (rgba & E & Hg).
    exists rgba. split; [done |]. split; [done |].
    unfold fromHsb in E. destruct (_ <? _)%Z; [done |].
    destruct (_ !! _) as [[[r g] b]|]; [| done]. by injection E as <-.
Qed.

(** ** What the rollback writes *)

Lemma lookup_foldr_delete_Some (ids : list N) (m : gmap N VariableNode) id v :
  foldr (fun i acc => delete i acc) m ids !! id = Some v -> m !! id = Some v.
Proof.
  induction ids as [|i ids IH]; simpl; [done |].
  intros H. apply lookup_delete_Some in H as [_ H]. by apply IH.
Qed.

Lemma applyOp_descriptions op h r h' :
  keepsDescriptions op ->
  applyOp op h = Some (r, h') ->
  forall id v',
    variables h' !! id = Some v' -> var_description v' <> "" ->
    exists v, variables h !! id = Some v
              /\ var_description v = var_description v'.
Proof.
  intros Hop Happly id v' Hv' Hd.
  destruct op; simpl in Hop, Happly; try done.
  all: repeat match type of Happly with
         | match ?x with _ => _ end = _ =>
             let E := fresh "E" in destruct x eqn:E; try discriminate
         | (if ?x then _ else _) = _ =>
             let E := fresh "E" in destruct x eqn:E; try discriminate
         end.
  all: injection Happly as <- <-; cbn [variables] in Hv'.
  all: try (by exists v').
  - apply lookup_foldr_delete_Some in Hv'. by exists v'.
  - destruct (decide (id = nextId h)) as [->|Hne].
    + rewrite lookup_insert_eq in Hv'. injection Hv' as <-. done.
    + rewrite lookup_insert_ne in Hv' by done. by exists v'.
  - apply lookup_delete_Some in Hv' as [_ Hv']. by exists v'.
  - destruct (decide (id = var)) as [->|Hne].
    + rewrite lookup_insert_eq in Hv'. injection Hv' as <-. by eexists.
    + rewrite lookup_insert_ne in Hv' by done. by exists v'.
  - destruct (decide (id = var)) as [->|Hne].
    + rewrite lookup_insert_eq in Hv'. injection Hv' as <-. by eexists.
    + rewrite lookup_insert_ne in Hv' by done. by exists v'.
Qed.

Lemma hostReach_trans allowed a b c :
  hostReach allowed a b -> hostReach allowed b c -> hostReach allowed a c.
Proof.
  induction 1 as [|op h r h' h'' Hop Happly _ IH]; [done |].
  intros Hc. eapply hostReach_step; eauto.
Qed.

Lemma reach_descriptions h h' :
  hostReach keepsDescriptions h h' -> descriptionsInherited h h'.
Proof.
  induction 1 as [h|op h r h1 h2 Hop Happly _ IH].
  - intros id v' Hv' _. by exists v'.
  - intros id v2 Hv2 Hd. destruct (IH id v2 Hv2 Hd) as (v1 & Hv1 & E1).
    rewrite <- E1 in Hd.
    destruct (applyOp_descriptions op _ r h1 Hop Happly id v1 Hv1 Hd)
      as (v & Hv & E).
    exists v. split; [done | congruence].
Qed.

Section Writes.
Variable allowed : HostOp -> Prop.

Lemma writesOnly_ret {A} (a : A) : writesOnly allowed (ret a).
Proof. intros st. apply hostReach_refl. Qed.

Lemma writesOnly_throw {A} e : writesOnly allowed (throw (A := A) e).
Proof. intros st. apply hostReach_refl. Qed.

Lemma writesOnly_bind {A B} (m : M A) (k : A -> M B) :
  writesOnly allowed m -> (forall a, writesOnly allowed (k a)) ->
  writesOnly allowed (bind m k).
Proof.
  intros Hm Hk st. unfold bind. specialize (Hm st).
  destruct (m st) as [[a|e] st']; simpl in *; [| done].
  eapply hostReach_trans; [exact Hm | apply Hk].
Qed.

Lemma writesOnly_tryCatch {A} (m : M A) (handler : string -> M A) :
  writesOnly allowed m -> (forall e, writesOnly allowed (handler e)) ->
  writesOnly allowed (tryCatch m handler).
Proof.
  intros Hm Hh st. unfold tryCatch. specialize (Hm st).
  destruct (m st) as [[a|e] st']; simpl in *; [done |].
  eapply hostReach_trans; [exact Hm | apply Hh].
Qed.

Lemma writesOnly_foldM {A B} (f : B -> A -> M B) (l : list A) :
  (forall acc x, writesOnly allowed (f acc x)) ->
  forall acc, writesOnly allowed (foldM f acc l).
Proof.
  intros Hf. induction l as [|x l IH]; intros acc; simpl.
  - apply writesOnly_ret.
  - apply writesOnly_bind; [apply Hf | exact IH].
Qed.

Lemma writesOnly_call rejects op :
  allowed op -> writesOnly allowed (call rejects op).
Proof.
  intros Hop st. unfold call.
  destruct (rejects (host st) op); [apply hostReach_refl |].
  destruct (applyOp op (host st)) as [[r h']|] eqn:Happly;
    [| apply hostReach_refl].
  simpl. eapply hostReach_step; [exact Hop | exact Happly | apply hostReach_refl].
Qed.

Lemma writesOnly_send m : writesOnly allowed (send m).
Proof. intros st. apply hostReach_refl. Qed.

Lemma writesOnly_modifyCache f : writesOnly allowed (modifyCache f).
Proof. intros st. apply hostReach_refl. Qed.

Lemma writesOnly_getHost : writesOnly allowed getHost.
Proof. intros st. apply hostReach_refl. Qed.

Lemma writesOnly_getCache : writesOnly allowed getCache.
Proof. intros st. apply hostReach_refl. Qed.
End Writes.

Section Rollback.
Variable fromCss : string -> RGBA.
Variable rejects : Host -> HostOp -> bool.

Ltac quiet_step :=
  first
    [ apply writesOnly_ret | apply writesOnly_throw | apply writesOnly_getHost
    | apply writesOnly_getCache | apply writesOnly_send
    | apply writesOnly_modifyCache
    | apply writesOnly_call; exact I
    | apply writesOnly_bind; [| intros ?]
    | apply writesOnly_tryCatch; [| intros ?]
    | apply writesOnly_foldM; intros ? ?
    | match goal with
      | |- writesOnly _ (match ?x with _ => _ end) => destruct x
      | |- writesOnly _ (if ?x then _ else _) => destruct x
      end ].

Lemma quiet_clearAll : writesOnly keepsDescriptions (clearAll rejects).
Proof.
  unfold clearAll, clearVariables, clearStyles, readCollection.
  repeat quiet_step.
Qed.

Lemma quiet_rebuildCache : writesOnly keepsDescriptions rebuildCache.
Proof. unfold rebuildCache. repeat quiet_step. Qed.

Lemma quiet_bindStyle style bindings :
  writesOnly keepsDescriptions (bindStyle rejects style bindings).
Proof. unfold bindStyle, forEach. repeat quiet_step. Qed.

Lemma quiet_importStylesOf kind styles :
  writesOnly keepsDescriptions (importStylesOf rejects kind styles).
Proof.
  unfold importStylesOf. repeat first [apply quiet_bindStyle | quiet_step].
Qed.

Lemma quiet_restoreValue cs vs modeMap newVar pend mode :
  writesOnly keepsDescriptions
    (restoreValue fromCss rejects cs vs modeMap newVar pend mode).
Proof. unfold restoreValue. repeat quiet_step. Qed.

Lemma quiet_restoreCollection pend cs :
  writesOnly keepsDescriptions (restoreCollection fromCss rejects pend cs).
Proof.
  unfold restoreCollection, restoreVariable, forEach, readCollection.
  repeat first [apply quiet_restoreValue | quiet_step].
Qed.

Lemma quiet_restoreFromSnapshot snapshot :
  writesOnly keepsDescriptions (restoreFromSnapshot fromCss rejects snapshot).
Proof.
  unfold restoreFromSnapshot, restoreStyles, restoreAlias, forEach.
  repeat first [ apply quiet_clearAll | apply quiet_rebuildCache
               | apply quiet_restoreCollection | apply quiet_importStylesOf
               | quiet_step ].
Qed.
End Rollback.

(** X20. The rollback never writes a description: after
    [restoreFromSnapshot], whatever the host refuses and whether the
    restore returns or throws, a variable with a description is a
    variable that had this description before, under the same
    identifier.  The variables the restore creates have none. *)
Theorem X20_rollback_writes_no_description (fromCss : string -> RGBA)
  (rejects : Host -> HostOp -> bool) (snapshot : UndoSnapshot) (st : State) :
  descriptionsInherited
    (host st) (host (snd (restoreFromSnapshot fromCss rejects snapshot st))).
Proof. apply reach_descriptions, quiet_restoreFromSnapshot. Qed.

(** ** The checks of the message handler *)

Lemma sort_fold {A} (P : A -> Prop) `{!forall x, Decision (P x)} (l : list A) :
  forall yes no,
    fold_left
      (fun (acc : list A * list A) x =>
         if bool_decide (P x) then ((fst acc ++ [x])%list, snd acc)
         else (fst acc, (snd acc ++ [x])%list))
      l (yes, no)
    = ((yes ++ filter P l)%list, (no ++ filter (fun x => ~ P x) l)%list).
Proof.
  induction l as [|x l IH]; intros yes no.
  - by rewrite !app_nil_r.
  - cbn [fold_left]. rewrite !filter_cons.
    destruct (decide (P x)) as [Hp|Hp].
    + rewrite bool_decide_eq_true_2 by done. cbn [fst snd]. rewrite IH.
      rewrite decide_False by tauto. by rewrite <- app_assoc.
    + rewrite bool_decide_eq_false_2 by done. cbn [fst snd]. rewrite IH.
      rewrite decide_True by done. by rewrite <- app_assoc.
Qed.

(** X21. The library check changes nothing.  It sorts the required
    names, in their order, into those that a local collection carries
    and those that none carries; a name that only a remote collection
    carries is reported missing.  All are available exactly when none
    is missing. *)
Theorem X21_library_check_sorts_by_local_names (requiredCollections : list string)
  (st : State) :
  let isLocal name :=
    exists c, c ∈ collections (host st) /\ col_remote c = false
              /\ col_name c = name in
  exists result,
    checkLibraries requiredCollections st = (Ok result, st)
    /\ lib_required result = requiredCollections
    /\ (forall name, name ∈ lib_available result
                     <-> name ∈ requiredCollections /\ isLocal name)
    /\ (forall name, name ∈ lib_missing result
                     <-> name ∈ requiredCollections /\ ~ isLocal name)
    /\ lib_available result ++ lib_missing result ≡ₚ requiredCollections
    /\ (lib_allAvailable result = true <-> lib_missing result = []).
Proof.
  cbv zeta. unfold checkLibraries, bind, getHost, ret. cbv beta iota.
  set (names := map col_name (getLocalVariableCollections (host st))).
  rewrite (sort_fold (fun name => name ∈ names)). cbn [app fst snd].
  assert (Hlocal : forall name,
             name ∈ names
             <-> exists c, c ∈ collections (host st) /\ col_remote c = false
                           /\ col_name c = name).
  { intros name. subst names. rewrite list_elem_of_fmap.
    unfold getLocalVariableCollections. split.
    - intros (c & -> & Hc). apply list_elem_of_filter in Hc as [Hr Hc].
      by exists c.
    - intros (c & Hc & Hr & <-). exists c. split; [done |].
      by apply list_elem_of_filter. }
  eexists. split; [reflexivity |]. cbn [lib_required lib_available lib_missing
                                       lib_allAvailable].
  split; [done |]. split; [| split; [| split]].
  - intros name. rewrite list_elem_of_filter, Hlocal. tauto.
  - intros name. rewrite list_elem_of_filter, Hlocal. tauto.
  - induction requiredCollections as [|x l IH]; [done |].
    rewrite !filter_cons. destruct (decide (x ∈ names)) as [Hx|Hx].
    + rewrite decide_False by tauto. cbn [app]. by rewrite IH.
    + rewrite decide_True by done. rewrite <- Permutation_middle. by rewrite IH.
  - by destruct (filter _ requiredCollections).
Qed.

Lemma checkFonts_loop rejects (fonts : list (string * string)) :
  forall yes no st,
    foldM
      (fun (acc : list (string * string) * list (string * string)) font =>
         tryCatch
           (call rejects (OpLoadFont (fst font) (snd font)) ;;;
            ret ((fst acc ++ [font])%list, snd acc))
           (fun _ => ret (fst acc, (snd acc ++ [font])%list)))
      (yes, no) fonts st
    = (Ok ((yes ++ filter (fun f => rejects (host st) (OpLoadFont (fst f) (snd f))
                                    = false) fonts)%list,
           (no ++ filter (fun f => rejects (host st) (OpLoadFont (fst f) (snd f))
                                   <> false) fonts)%list),
       st).
Proof.
  induction fonts as [|font fonts IH]; intros yes no st.
  - cbn [foldM]. unfold ret. by rewrite !app_nil_r.
  - cbn [foldM]. unfold bind at 1. unfold tryCatch, bind, call, ret.
    rewrite !filter_cons.
    destruct (rejects (host st) (OpLoadFont (fst font) (snd font))) eqn:E.
    + cbn [fst snd]. rewrite IH. rewrite decide_False by done.
      rewrite decide_True by done. by rewrite <- app_assoc.
    + cbn [applyOp fst snd]. destruct st as [h c o]. cbn [host cache outbox].
      rewrite IH. cbn [host]. rewrite decide_True by done.
      rewrite decide_False by tauto. by rewrite <- app_assoc.
Qed.

(** X22. The font check never throws and changes nothing.  It sorts the
    required fonts, in their order, into those the host loads and those
    it refuses; all are available exactly when none is missing. *)
Theorem X22_font_check_sorts_by_loading (rejects : Host -> HostOp -> bool)
  (requiredFonts : list (string * string)) (st : State) :
  let loads (font : string * string) :=
    rejects (host st) (OpLoadFont (fst font) (snd font)) = false in
  exists result,
    checkFonts rejects requiredFonts st = (Ok result, st)
    /\ font_required result = requiredFonts
    /\ font_available result = filter loads requiredFonts
    /\ font_missing result = filter (fun font => ~ loads font) requiredFonts
    /\ (font_allAvailable result = true <-> Forall loads requiredFonts).
Proof.
  cbv zeta. unfold checkFonts. unfold bind at 1. rewrite checkFonts_loop.
  eexists. split; [reflexivity |].
  cbn [font_required font_available font_missing font_allAvailable app fst snd].
  split; [done |]. split; [done |]. split; [done |].
  induction requiredFonts as [|x l IH]; [by split |].
  rewrite filter_cons.
  destruct (decide (rejects (host st) (OpLoadFont (fst x) (snd x)) <> false))
    as [Hx|Hx].
  - split; [done |]. intros Hall. inversion Hall; subst. done.
  - apply dec_stable in Hx. rewrite IH. split.
    + intros Hl. by apply List.Forall_cons.
    + intros Hall. by inversion Hall.
Qed.

(** ** Importing styles *)

Lemma returnsWith_ret {A} (pre : State -> Prop) (a : A)
  (post : A -> State -> Prop) :
  (forall st, pre st -> post a st) -> returnsWith pre (ret a) post.
Proof. intros H st Hst. exists a, st. split; [done | by apply H]. Qed.

Lemma returnsWith_bind {A B} (pre : State -> Prop) (m : M A)
  (mid : A -> State -> Prop) (k : A -> M B) (post : B -> State -> Prop) :
  returnsWith pre m mid -> (forall a, returnsWith (mid a) (k a) post) ->
  returnsWith pre (bind m k) post.
Proof.
  intros Hm Hk st Hst. destruct (Hm st Hst) as (a & st1 & E & Hmid).
  destruct (Hk a st1 Hmid) as (b & st2 & E2 & Hpost).
  exists b, st2. split; [| done]. unfold bind. by rewrite E.
Qed.

Lemma returnsWith_tryCatch {A} (pre : State -> Prop) (m : M A) handler
  (post : A -> State -> Prop) :
  returnsWith pre m post -> returnsWith pre (tryCatch m handler) post.
Proof.
  intros Hm st Hst. destruct (Hm st Hst) as (a & st1 & E & Hpost).
  exists a, st1. split; [| done]. unfold tryCatch. by rewrite E.
Qed.

Lemma returnsWith_weaken {A} (pre pre' : State -> Prop) (m : M A)
  (post post' : A -> State -> Prop) :
  returnsWith pre m post -> (forall st, pre' st -> pre st) ->
  (forall a st, post a st -> post' a st) -> returnsWith pre' m post'.
Proof.
  intros Hm Hpre Hpost st Hst.
  destruct (Hm st (Hpre st Hst)) as (a & st1 & E & H).
  exists a, st1. split; [done | by apply Hpost].
Qed.

Lemma returnsWith_foldM {A B} (inv : State -> Prop) (f : B -> A -> M B)
  (l : list A) :
  (forall acc x, returnsWith inv (f acc x) (fun _ => inv)) ->
  forall acc, returnsWith inv (foldM f acc l) (fun _ => inv).
Proof.
  intros Hf. induction l as [|x l IH]; intros acc.
  - by apply returnsWith_ret.
  - cbn [foldM]. eapply returnsWith_bind; [apply Hf | apply IH].
Qed.

(** The calls that write the content of a style. *)
Lemma content_call op id heads n st0 :
  match op with
  | OpSetStyleDescription i _ | OpSetStyleBody i _ _ | OpBindStyle i _ _ => i = id
  | _ => False
  end ->
  id ∈ map (fun hd => fst (fst hd)) heads ->
  returnsWith (settled heads n st0) (call permissive op)
              (fun _ => settled heads n st0).
Proof.
  intros Hop Hid [h c o] (Hheads & Hn & Hc & Hv & Hcache & Hout).
  cbn [host cache outbox] in *. unfold call, permissive. cbn [host].
  assert (Hin : id ∈ map style_id (styles h)).
  { rewrite <- Hheads, map_map in Hid. exact Hid. }
  assert (Hupd : forall upd : Style -> Style,
             (forall s, styleHead (upd s) = styleHead s) ->
             map styleHead (map upd (styles h)) = heads).
  { intros upd Hu. rewrite map_map, <- Hheads. apply map_ext. exact Hu. }
  destruct op; try done; subst style; cbn [applyOp];
    rewrite (bool_decide_eq_true_2 _ Hin);
    eexists _, _; (split; [reflexivity |]);
    (split; [| done]); cbn [host styles]; apply Hupd; intros s;
    by destruct (N.eqb (style_id s) id).
Qed.

Lemma loadFont_call family style heads n st0 :
  returnsWith (settled heads n st0) (call permissive (OpLoadFont family style))
              (fun _ => settled heads n st0).
Proof.
  intros [h c o] Hst. unfold call, permissive. cbn [host applyOp].
  by eexists _, _.
Qed.

Lemma bindStyle_settled id bindings heads n st0 :
  id ∈ map (fun hd => fst (fst hd)) heads ->
  returnsWith (settled heads n st0) (bindStyle permissive id bindings)
              (fun _ => settled heads n st0).
Proof.
  intros Hid. unfold bindStyle, forEach. apply returnsWith_foldM.
  intros [] [key binding]. cbn [snd fst].
  destruct (b_name binding) as [name|]; [| by apply returnsWith_ret].
  destruct (b_collection binding) as [collection|]; [| by apply returnsWith_ret].
  destruct (_ && _); [| by apply returnsWith_ret].
  eapply returnsWith_bind with (mid := fun _ => settled heads n st0).
  { intros st Hst. by exists (cache st), st. }
  intros c. destruct (Cache.getVariable _ c) as [target|];
    [| by apply returnsWith_ret].
  apply returnsWith_tryCatch.
  eapply returnsWith_bind; [by apply (content_call _ id) |].
  intros ?. by apply returnsWith_ret.
Qed.

(** Writing the content of one imported style. *)
Lemma content_settled kind id (exported : ExportStyle) heads n st0
  (counts : N * N) :
  id ∈ map (fun hd => fst (fst hd)) heads ->
  returnsWith (settled heads n st0)
    ((if Js.truthy (s_description exported)
      then call permissive (OpSetStyleDescription id (s_description exported)) ;;;
           ret tt
      else ret tt) ;;;
     let font := (s_fontFamily exported, s_fontStyle exported) in
     match kind with
     | PaintStyle =>
         if Js.truthy (s_body exported)
         then call permissive (OpSetStyleBody id font (s_body exported)) ;;;
              bindStyle permissive id (s_boundVariables exported)
         else ret tt
     | TextStyle =>
         tryCatch
           (call permissive
              (OpLoadFont (s_fontFamily exported) (s_fontStyle exported)) ;;;
            call permissive (OpSetStyleBody id font (s_body exported)) ;;;
            bindStyle permissive id (s_boundVariables exported))
           (fun _ => ret tt)
     | _ =>
         call permissive (OpSetStyleBody id font (s_body exported)) ;;;
         bindStyle permissive id (s_boundVariables exported)
     end ;;;
     ret counts)
    (fun r st => r = counts /\ settled heads n st0 st).
Proof.
  intros Hid.
  eapply returnsWith_bind with (mid := fun _ => settled heads n st0).
  { destruct (Js.truthy (s_description exported)); [| by apply returnsWith_ret].
    eapply returnsWith_bind; [by apply (content_call _ id) |].
    intros ?. by apply returnsWith_ret. }
  intros ?. cbv zeta.
  assert (Hbody :
            returnsWith (settled heads n st0)
              (call permissive
                 (OpSetStyleBody id (s_fontFamily exported, s_fontStyle exported)
                    (s_body exported)) ;;;
               bindStyle permissive id (s_boundVariables exported))
              (fun _ => settled heads n st0)).
  { eapply returnsWith_bind; [by apply (content_call _ id) |].
    intros ?. by apply bindStyle_settled. }
  eapply returnsWith_bind with (mid := fun _ => settled heads n st0).
  2:{ intros ?. by apply returnsWith_ret. }
  destruct kind; try exact Hbody.
  - destruct (Js.truthy (s_body exported)); [exact Hbody |].
    by apply returnsWith_ret.
  - apply returnsWith_tryCatch.
    eapply returnsWith_bind; [apply loadFont_call |].
    intros ?. exact Hbody.
Qed.

(** The names the import finds among the local styles. *)
Lemma existing_fold (l : list Style) :
  forall (m : list (string * N)) name,
    (jsGet (fold_left (fun m s => jsSet m (style_name s) (style_id s)) l m) name
     = None
     <-> jsGet m name = None /\ name ∉ map style_name l)
    /\ (forall id,
          jsGet (fold_left (fun m s => jsSet m (style_name s) (style_id s)) l m)
                name = Some id ->
          jsGet m name = Some id
          \/ exists s, s ∈ l /\ style_name s = name /\ style_id s = id).
Proof.
  induction l as [|s l IH]; intros m name.
  - cbn [fold_left map]. split; [| by left]. split; [| by intros [? _]].
    intros H. split; [done | apply not_elem_of_nil].
  - cbn [fold_left map]. destruct (IH (jsSet m (style_name s) (style_id s)) name)
      as [Hnone Hsome].
    split.
    + rewrite Hnone, jsGet_jsSet, not_elem_of_cons.
      destruct (String.eqb_spec (style_name s) name) as [E|Hne].
      * split; [by intros [? _] | by intros [_ [? _]]].
      * split; [intros [? ?]; by repeat split | by intros [? [_ ?]]].
    + intros id Hid. apply Hsome in Hid as [Hid|(s' & Hs' & E1 & E2)].
      * rewrite jsGet_jsSet in Hid.
        destruct (String.eqb_spec (style_name s) name) as [E|Hne]; [| by left].
        injection Hid as <-. right. exists s.
        split; [apply list_elem_of_here | done].
      * right. exists s'. split; [by apply list_elem_of_further | done].
Qed.

Lemma rename_last (heads : list (N * StyleKind * string)) n kind name
  (l : list Style) (new : Style) :
  map styleHead l = heads ->
  (forall hd, hd ∈ heads -> fst (fst hd) < n) ->
  style_id new = n -> style_kind new = kind ->
  map styleHead
      (map (fun s =>
              if N.eqb (style_id s) n then
                {| style_id := style_id s; style_kind := style_kind s;
                   style_name := name;
                   style_description := style_description s;
                   style_font := style_font s; style_body := style_body s;
                   style_bound := style_bound s |}
              else s)
           (l ++ [new]))
  = (heads ++ [(n, kind, name)])%list.
Proof.
  intros Hheads Hbound Hid Hkind. rewrite !map_app. f_equal.
  - rewrite map_map, <- Hheads. apply map_ext_in. intros s Hs.
    destruct (N.eqb_spec (style_id s) n) as [E|Hne]; [| done].
    assert (Hlt : fst (fst (styleHead s)) < n).
    { apply Hbound. rewrite <- Hheads. apply list_elem_of_fmap.
      exists s. split; [done | by apply list_elem_of_In]. }
    simpl in Hlt. lia.
  - cbn [map]. rewrite Hid, N.eqb_refl. unfold styleHead.
    cbn [style_id style_kind style_name]. by rewrite Hkind.
Qed.

Lemma create_named kind name heads n st0 (counts : N * N) :
  (forall hd, hd ∈ heads -> fst (fst hd) < n) ->
  returnsWith (settled heads n st0)
    (style <- call permissive (OpCreateStyle kind) ;;
     call permissive (OpSetStyleName style name) ;;;
     ret (style, counts))
    (fun r st => r = (n, counts)
                 /\ settled (heads ++ [(n, kind, name)]) (n + 1) st0 st).
Proof.
  intros Hbound [h c o] (Hheads & Hn & Hc & Hv & Hcache & Hout).
  cbn [host cache outbox] in *. unfold bind, call, permissive, ret.
  cbn [host applyOp cache outbox nextId styles collections variables].
  rewrite bool_decide_eq_true_2.
  2:{ rewrite map_app, elem_of_app. right. cbn. apply list_elem_of_here. }
  eexists _, _. split; [reflexivity |]. rewrite Hn. split; [done |].
  split; [| by repeat split; cbn; try lia].
  cbn [host styles]. by apply rename_last.
Qed.

Lemma import_loop kind (existing : list (string * N)) (styles : list ExportStyle)
  st0 :
  forall (acc : N * N) heads n,
    (forall hd, hd ∈ heads -> fst (fst hd) < n) ->
    (forall name id, jsGet existing name = Some id ->
                     (id, kind, name) ∈ heads) ->
    returnsWith (settled heads n st0)
      (foldM
         (fun (counts : N * N) (exported : ExportStyle) =>
            found <-
              match jsGet existing (s_name exported) with
              | Some style => ret (style, (fst counts, snd counts + 1))
              | None =>
                  style <- call permissive (OpCreateStyle kind) ;;
                  call permissive (OpSetStyleName style (s_name exported)) ;;;
                  ret (style, (fst counts + 1, snd counts))
              end ;;
            let style := fst found in
            (if Js.truthy (s_description exported)
             then call permissive
                    (OpSetStyleDescription style (s_description exported)) ;;;
                  ret tt
             else ret tt) ;;;
            let font := (s_fontFamily exported, s_fontStyle exported) in
            match kind with
            | PaintStyle =>
                if Js.truthy (s_body exported)
                then call permissive (OpSetStyleBody style font (s_body exported)) ;;;
                     bindStyle permissive style (s_boundVariables exported)
                else ret tt
            | TextStyle =>
                tryCatch
                  (call permissive
                     (OpLoadFont (s_fontFamily exported) (s_fontStyle exported)) ;;;
                   call permissive (OpSetStyleBody style font (s_body exported)) ;;;
                   bindStyle permissive style (s_boundVariables exported))
                  (fun _ => ret tt)
            | _ =>
                call permissive (OpSetStyleBody style font (s_body exported)) ;;;
                bindStyle permissive style (s_boundVariables exported)
            end ;;;
            ret (snd found))
         acc styles)
      (fun counts st =>
         counts
         = (fst acc + lengthN (filter (fun e => jsGet existing (s_name e) = None)
                                      styles),
            snd acc + lengthN (filter (fun e => jsGet existing (s_name e) <> None)
                                      styles))
         /\ exists heads' n',
              settled heads' n' st0 st
              /\ (forall hd, hd ∈ heads -> hd ∈ heads')
              /\ (forall hd, hd ∈ heads' -> fst (fst hd) < n')
              /\ (forall e, e ∈ styles ->
                            exists id, (id, kind, s_name e) ∈ heads')
              /\ (forall hd, hd ∈ heads' ->
                             hd ∈ heads \/ snd (fst hd) = kind)).
Proof.
  induction styles as [|e styles IH]; intros acc heads n Hbound Hex.
  - cbn [foldM]. apply returnsWith_ret. intros st Hst. split.
    + rewrite !filter_nil. unfold lengthN. cbn [length].
      destruct acc. cbn [fst snd]. f_equal; lia.
    + exists heads, n. split; [exact Hst |]. split; [done |]. split; [done |].
      split; [| by left]. intros x Hx. by apply elem_of_nil in Hx.
  - cbn [foldM]. rewrite !filter_cons.
    destruct (jsGet existing (s_name e)) as [id|] eqn:Hget.
    + rewrite decide_False by done. rewrite decide_True by done.
      eapply returnsWith_bind
        with (mid := fun counts st => counts = (fst acc, snd acc + 1)
                                      /\ settled heads n st0 st).
      { eapply returnsWith_bind
          with (mid := fun found st => found = (id, (fst acc, snd acc + 1))
                                       /\ settled heads n st0 st).
        { by apply returnsWith_ret. }
        intros found st [-> Hst]. cbv zeta. cbn [fst snd].
        apply (content_settled kind id e heads n st0); [| done].
        apply list_elem_of_fmap. exists (id, kind, s_name e).
        split; [done | by apply Hex]. }
      intros counts1 st [-> Hst].
      destruct (IH (fst acc, snd acc + 1) heads n Hbound Hex st Hst)
        as (counts & st' & E & -> & heads' & n' & Hst' & Hsub & Hb & Hnames
            & Hnew).
      eexists _, st'. split; [exact E |]. split.
      * cbn [fst snd]. unfold lengthN. cbn [length]. f_equal; lia.
      * exists heads', n'. split; [exact Hst' |]. split; [done |].
        split; [done |]. split; [| exact Hnew].
        intros x [->|Hx]%elem_of_cons; [| by apply Hnames].
        exists id. by apply Hsub, Hex.
    + rewrite decide_True by done. rewrite decide_False by tauto.
      assert (Hbound1 : forall hd, hd ∈ (heads ++ [(n, kind, s_name e)])%list ->
                                   fst (fst hd) < n + 1).
      { intros hd [Hhd|Hhd]%elem_of_app.
        - specialize (Hbound hd Hhd). lia.
        - apply list_elem_of_singleton in Hhd. subst hd. cbn. lia. }
      eapply returnsWith_bind
        with (mid := fun counts st =>
                       counts = (fst acc + 1, snd acc)
                       /\ settled (heads ++ [(n, kind, s_name e)]) (n + 1) st0 st).
      { eapply returnsWith_bind
          with (mid := fun found st =>
                         found = (n, (fst acc + 1, snd acc))
                         /\ settled (heads ++ [(n, kind, s_name e)]) (n + 1) st0 st).
        { by apply create_named. }
        intros found st [-> Hst]. cbv zeta. cbn [fst snd].
        apply (content_settled kind n e _ (n + 1) st0); [| done].
        rewrite map_app, elem_of_app. right. cbn. apply list_elem_of_here. }
      intros counts1 st [-> Hst].
      destruct (IH (fst acc + 1, snd acc) _ (n + 1) Hbound1) with (st := st)
        as (counts & st' & E & -> & heads' & n' & Hst' & Hsub & Hb & Hnames
            & Hnew).
      { intros name id Hid. apply elem_of_app. left. by apply Hex. }
      { done. }
      eexists _, st'. split; [exact E |]. split.
      * cbn [fst snd]. unfold lengthN. cbn [length]. f_equal; lia.
      * exists heads', n'. split; [exact Hst' |].
        split; [| split; [done |]; split].
        -- intros hd Hhd. apply Hsub, elem_of_app. by left.
        -- intros x [->|Hx]%elem_of_cons; [| by apply Hnames].
           exists n. apply Hsub, elem_of_app. right. apply list_elem_of_here.
        -- intros hd Hhd. destruct (Hnew hd Hhd) as [Hin|Hk]; [| by right].
           apply elem_of_app in Hin as [Hin|Hin]; [by left |].
           apply list_elem_of_singleton in Hin. subst hd. by right.
Qed.

Lemma styleNames_heads kind h name :
  name ∈ styleNames kind h
  <-> exists id, (id, kind, name) ∈ map styleHead (styles h).
Proof.
  unfold styleNames, getLocalStyles. rewrite list_elem_of_fmap. split.
  - intros (s & -> & Hs). apply list_elem_of_filter in Hs as [Hk Hs].
    exists (style_id s). apply list_elem_of_fmap. exists s.
    split; [| done]. unfold styleHead. by rewrite Hk.
  - intros (id & Hin). apply list_elem_of_fmap in Hin as (s & E & Hs).
    unfold styleHead in E. injection E as -> -> ->.
    exists s. split; [done |]. by apply list_elem_of_filter.
Qed.

Lemma filter_False {A} (l : list A) : filter (fun _ => False) l = [].
Proof.
  induction l as [|x l IH]; [done |].
  rewrite filter_cons. destruct (decide False) as [[] | _]. exact IH.
Qed.

Lemma import_run_kinds kind (imported : list ExportStyle) (st : State) :
  stylesBounded (host st) ->
  exists st',
    importStylesOf permissive kind imported st
    = (Ok (lengthN (filter (fun e => s_name e ∉ styleNames kind (host st)) imported),
           lengthN (filter (fun e => s_name e ∈ styleNames kind (host st)) imported)),
       st')
    /\ (forall other name, other <> kind ->
                           name ∈ styleNames other (host st')
                           <-> name ∈ styleNames other (host st))
    /\ (forall e, e ∈ imported -> s_name e ∈ styleNames kind (host st'))
    /\ stylesBounded (host st')
    /\ collections (host st') = collections (host st)
    /\ variables (host st') = variables (host st)
    /\ cache st' = cache st /\ outbox st' = outbox st.
Proof.
  intros Hbounded. unfold importStylesOf. unfold bind at 1. unfold getHost at 1.
  cbv beta iota zeta.
  set (existing := fold_left (fun m s => jsSet m (style_name s) (style_id s))
                             (getLocalStyles kind (host st)) []).
  assert (Hnone : forall name,
             jsGet existing name = None <-> name ∉ styleNames kind (host st)).
  { intros name. subst existing.
    destruct (existing_fold (getLocalStyles kind (host st)) [] name) as [-> _].
    unfold styleNames. simpl. tauto. }
  assert (Hsome : forall name id,
             jsGet existing name = Some id ->
             (id, kind, name) ∈ map styleHead (styles (host st))).
  { intros name id Hid. subst existing.
    destruct (existing_fold (getLocalStyles kind (host st)) [] name) as [_ H].
    destruct (H id Hid) as [Hnil|(s & Hs & <- & <-)]; [done |].
    unfold getLocalStyles in Hs. apply list_elem_of_filter in Hs as [Hk Hs].
    apply list_elem_of_fmap. exists s. split; [| done].
    unfold styleHead. by rewrite Hk. }
  destruct (import_loop kind existing imported st (0, 0)
              (map styleHead (styles (host st))) (nextId (host st)))
    with (st := st)
    as (counts & st' & E & -> & heads' & n' & Hst' & Hsub & Hb & Hnames & Hnew).
  - intros hd Hhd. apply list_elem_of_fmap in Hhd as (s & -> & Hs).
    by apply Hbounded.
  - exact Hsome.
  - by repeat split.
  - exists st'. destruct Hst' as (Hheads & Hn & Hc & Hv & Hcache & Hout).
    split.
    { etransitivity; [exact E |]. cbn [fst snd]. rewrite !N.add_0_l.
      rewrite (filter_ext_elem
                 (fun e => jsGet existing (s_name e) = None)
                 (fun e => s_name e ∉ styleNames kind (host st)) imported)
        by (intros e _; apply Hnone).
      rewrite (filter_ext_elem
                 (fun e => jsGet existing (s_name e) <> None)
                 (fun e => s_name e ∈ styleNames kind (host st)) imported).
      - reflexivity.
      - intros e _. rewrite Hnone. split; [apply dec_stable | tauto]. }
    split; [| split; [| split; [| done]]].
    + intros other name Hother. rewrite !styleNames_heads, Hheads. split.
      * intros [id Hid]. exists id.
        destruct (Hnew _ Hid) as [Hin|Hk]; [done | by destruct Hother].
      * intros [id Hid]. exists id. by apply Hsub.
    + intros e He. apply styleNames_heads. rewrite Hheads. by apply Hnames.
    + intros s Hs. rewrite Hn. apply (Hb (styleHead s)).
      rewrite <- Hheads. apply list_elem_of_fmap. by exists s.
Qed.

Lemma import_run kind (imported : list ExportStyle) (st : State) :
  stylesBounded (host st) ->
  exists st',
    importStylesOf permissive kind imported st
    = (Ok (lengthN (filter (fun e => s_name e ∉ styleNames kind (host st)) imported),
           lengthN (filter (fun e => s_name e ∈ styleNames kind (host st)) imported)),
       st')
    /\ (forall e, e ∈ imported -> s_name e ∈ styleNames kind (host st'))
    /\ stylesBounded (host st')
    /\ collections (host st') = collections (host st)
    /\ variables (host st') = variables (host st)
    /\ cache st' = cache st /\ outbox st' = outbox st.
Proof.
  intros Hbounded.
  destruct (import_run_kinds kind imported st Hbounded)
    as (st' & E & _ & Hrest).
  by exists st'.
Qed.



(** ** Naming conventions applied twice *)

Import NamingConverter.

Lemma lowerChar_noUpper c : isUpper (Js.lowerChar c) = false.
Proof. by destruct c as [[] [] [] [] [] [] [] []]. Qed.

Lemma lowerChar_separator c : isSeparator (Js.lowerChar c) = isSeparator c.
Proof. by destruct c as [[] [] [] [] [] [] [] []]. Qed.

Lemma lowerChar_lowerChar c : Js.lowerChar (Js.lowerChar c) = Js.lowerChar c.
Proof. by destruct c as [[] [] [] [] [] [] [] []]. Qed.

Lemma separator_noUpper c : isSeparator c = true -> isUpper c = false.
Proof. by destruct c as [[] [] [] [] [] [] [] []]. Qed.

Lemma allChars_append p a b :
  allChars p (a +:+ b) = allChars p a && allChars p b.
Proof.
  induction a as [|c a IH]; [done |].
  rewrite append_cons. cbn [allChars]. by rewrite IH, andb_assoc.
Qed.

Lemma allChars_rev_app p a b :
  allChars p (String.rev_app a b) = allChars p a && allChars p b.
Proof.
  revert b. induction a as [|c a IH]; intros b; [done |].
  cbn [String.rev_app allChars]. rewrite IH. cbn [allChars].
  by destruct (p c), (allChars p a), (allChars p b).
Qed.

Lemma rev_app_rev_app a b c :
  String.rev_app (String.rev_app a b) c = String.rev_app b (a +:+ c).
Proof.
  revert b c. induction a as [|x a IH]; intros b c; [done |].
  cbn [String.rev_app]. rewrite IH. by rewrite append_cons.
Qed.

Lemma toLowerCase_noUpper w : noUpper (Js.toLowerCase w) = true.
Proof.
  unfold noUpper. induction w as [|c w IH]; [done |].
  cbn [Js.toLowerCase allChars]. by rewrite lowerChar_noUpper, IH.
Qed.

Lemma toLowerCase_plain w :
  allChars (fun c => negb (isSeparator c)) (Js.toLowerCase w)
  = allChars (fun c => negb (isSeparator c)) w.
Proof.
  induction w as [|c w IH]; [done |].
  cbn [Js.toLowerCase allChars]. by rewrite lowerChar_separator, IH.
Qed.

Lemma toLowerCase_toLowerCase w :
  Js.toLowerCase (Js.toLowerCase w) = Js.toLowerCase w.
Proof.
  induction w as [|c w IH]; [done |].
  cbn [Js.toLowerCase]. by rewrite lowerChar_lowerChar, IH.
Qed.

Lemma toLowerCase_truthy w : Js.truthy (Js.toLowerCase w) = Js.truthy w.
Proof. by destruct w. Qed.

(** Without an upper-case letter there is no camel hump to split. *)
Lemma splitCamel_noUpper s : noUpper s = true -> splitCamel s = s.
Proof.
  unfold noUpper. induction s as [|c s IH]; [done |].
  cbn [allChars]. intros [Hc Hs]%andb_true_iff.
  cbn [splitCamel]. destruct s as [|d s]; [done |].
  assert (Hd : isUpper d = false).
  { cbn [allChars] in Hs. apply andb_true_iff in Hs as [Hd _].
    by apply negb_true_iff in Hd. }
  rewrite Hd, andb_false_r. by rewrite (IH Hs).
Qed.

Lemma wordsGo_words cur s :
  allChars (fun c => negb (isSeparator c)) cur = true ->
  Forall word (wordsGo cur s).
Proof.
  revert cur. induction s as [|c s IH]; intros cur Hcur.
  - cbn [wordsGo]. destruct cur as [|x cur]; [constructor |].
    constructor; [| constructor]. unfold word, String.rev. split.
    + by apply rev_app_truthy.
    + by rewrite allChars_rev_app, Hcur.
  - cbn [wordsGo]. destruct (isSeparator c) eqn:Hc.
    + destruct cur as [|x cur]; [by apply IH |].
      constructor; [| by apply IH]. unfold word, String.rev. split.
      * by apply rev_app_truthy.
      * by rewrite allChars_rev_app, Hcur.
    + apply IH. cbn [allChars]. by rewrite Hc, Hcur.
Qed.

(** A word is read to its end. *)
Lemma wordsGo_word cur w s :
  allChars (fun c => negb (isSeparator c)) w = true ->
  wordsGo cur (w +:+ s) = wordsGo (String.rev_app w cur) s.
Proof.
  revert cur. induction w as [|c w IH]; intros cur Hw; [done |].
  cbn [allChars] in Hw. apply andb_true_iff in Hw as [Hc Hw].
  apply negb_true_iff in Hc.
  rewrite append_cons. cbn [wordsGo String.rev_app]. rewrite Hc. by apply IH.
Qed.

(** Words joined by one separator are split into the same words. *)
Lemma wordsGo_join (sep : ascii) (words : list string) :
  isSeparator sep = true -> Forall word words ->
  wordsGo "" (Js.join (String sep "") words) = words.
Proof.
  intros Hsep. induction 1 as [|w words [Hw1 Hw2] Hwords IH]; [done |].
  destruct words as [|v words].
  - cbn [Js.join]. rewrite <- (append_nil_r w), (wordsGo_word "" w "" Hw2).
    cbn [wordsGo]. destruct (String.rev_app w "") eqn:E.
    + assert (Ht : Js.truthy (String.rev_app w "") = true)
        by (apply rev_app_truthy; by rewrite Hw1).
      by rewrite E in Ht.
    + rewrite <- E. unfold String.rev.
      by rewrite rev_app_rev_app, append_nil_r.
  - rewrite join_cons, (wordsGo_word "" w _ Hw2).
    rewrite append_cons. cbn [wordsGo]. rewrite Hsep.
    change ("" +:+ Js.join (String sep "") (v :: words))
      with (Js.join (String sep "") (v :: words)).
    rewrite IH. destruct (String.rev_app w "") eqn:E.
    + assert (Ht : Js.truthy (String.rev_app w "") = true)
        by (apply rev_app_truthy; by rewrite Hw1).
      by rewrite E in Ht.
    + rewrite <- E. unfold String.rev.
      by rewrite rev_app_rev_app, append_nil_r.
Qed.

Lemma join_noUpper (sep : ascii) (words : list string) :
  isUpper sep = false -> Forall (fun w => noUpper w = true) words ->
  noUpper (Js.join (String sep "") words) = true.
Proof.
  intros Hsep. induction 1 as [|w words Hw Hwords IH]; [done |].
  destruct words as [|v words]; [done |].
  rewrite join_cons. unfold noUpper in *.
  rewrite !allChars_append, Hw, IH. cbn [allChars]. by rewrite Hsep.
Qed.

(** A name without a word is made of separators. *)
Lemma wordsGo_nil cur s :
  wordsGo cur s = [] -> cur = "" /\ allChars isSeparator s = true.
Proof.
  revert cur. induction s as [|c s IH]; intros cur.
  - cbn [wordsGo]. by destruct cur.
  - cbn [wordsGo allChars]. destruct (isSeparator c) eqn:Hc.
    + destruct cur as [|x cur]; [| done]. intros [_ H]%IH. by rewrite H.
    + by intros [? _]%IH.
Qed.

Lemma splitCamel_separators s :
  allChars isSeparator (splitCamel s) = true -> noUpper s = true.
Proof.
  unfold noUpper. induction s as [|c s IH]; [done |].
  cbn [splitCamel]. destruct s as [|d s].
  - cbn [allChars]. intros [Hc _]%andb_true_iff.
    by rewrite (separator_noUpper c Hc).
  - destruct (isLower c && isUpper d).
    + cbn [allChars]. intros [Hc [_ Hs]%andb_true_iff]%andb_true_iff.
      rewrite (separator_noUpper c Hc). by apply IH.
    + cbn [allChars]. intros [Hc Hs]%andb_true_iff.
      rewrite (separator_noUpper c Hc). by apply IH.
Qed.

Lemma lowered_words s :
  Forall word (map Js.toLowerCase (wordsGo "" (splitCamel s))).
Proof.
  apply Forall_map. eapply Forall_impl; [by apply wordsGo_words |].
  intros w [H1 H2]. split.
  - by rewrite toLowerCase_truthy.
  - by rewrite toLowerCase_plain.
Qed.

Lemma joined_stable (sep : ascii) (name : string) :
  isSeparator sep = true ->
  let words := map Js.toLowerCase (wordsGo "" (splitCamel name)) in
  let joined := match words with [] => name | _ => Js.join (String sep "") words end in
  map Js.toLowerCase (wordsGo "" (splitCamel joined)) = words
  /\ noUpper joined = true.
Proof.
  intros Hsep words joined.
  assert (Hwords : Forall word words) by apply lowered_words.
  assert (Hlow : Forall (fun w => noUpper w = true) words).
  { apply Forall_map, Forall_forall. intros w _. apply toLowerCase_noUpper. }
  assert (Hidem : map Js.toLowerCase words = words).
  { unfold words. rewrite map_map. apply map_ext. intros w.
    apply toLowerCase_toLowerCase. }
  subst joined. destruct words as [|w ws] eqn:E.
  - split; [exact E |]. apply map_eq_nil in E.
    apply wordsGo_nil in E as [_ E]. by apply splitCamel_separators.
  - assert (Hno : noUpper (Js.join (String sep "") (w :: ws)) = true).
    { apply join_noUpper; [by apply separator_noUpper | done]. }
    split; [| exact Hno].
    rewrite (splitCamel_noUpper _ Hno), (wordsGo_join sep _ Hsep Hwords).
    exact Hidem.
Qed.

(** X24. Under kebab-case and snake_case [convert] gives a name without
    an upper-case letter of A-Z, and converts this name to itself: the
    conversion applied twice is the conversion applied once.  Under
    camelCase it is not: ["a bC"] becomes ["aBC"], which becomes
    ["aBc"]. *)
Theorem X24_kebab_and_snake_convert_once (name : string) :
  (noUpper (convert name kebab_case) = true
   /\ convert (convert name kebab_case) kebab_case = convert name kebab_case)
  /\ (noUpper (convert name snake_case) = true
      /\ convert (convert name snake_case) snake_case = convert name snake_case)
  /\ (convert "a bC" camelCase = "aBC"
      /\ convert (convert "a bC" camelCase) camelCase = "aBc").
Proof.
  split; [| split; [| by split]].
  - destruct (joined_stable "-" name eq_refl) as [Hw Hn].
    cbv zeta in Hw, Hn. unfold convert.
    destruct (map Js.toLowerCase (wordsGo "" (splitCamel name))) as [|w ws] eqn:E.
    + split; [exact Hn |]. by rewrite E.
    + split; [exact Hn |]. by rewrite Hw.
  - destruct (joined_stable "_" name eq_refl) as [Hw Hn].
    cbv zeta in Hw, Hn. unfold convert.
    destruct (map Js.toLowerCase (wordsGo "" (splitCamel name))) as [|w ws] eqn:E.
    + split; [exact Hn |]. by rewrite E.
    + split; [exact Hn |]. by rewrite Hw.
Qed.

(** ** Clearing the styles on a host that accepts every call *)

Lemma NoDup_map_filter {A B} (f : A -> B) (P : A -> Prop)
  `{!forall x, Decision (P x)} (l : list A) :
  NoDup (map f l) -> NoDup (map f (filter P l)).
Proof.
  induction l as [|c l IH]; [done |]. cbn [map].
  intros [Hc Hnd]%NoDup_cons. rewrite filter_cons.
  destruct (decide (P c)); [| by apply IH].
  cbn [map]. apply NoDup_cons. split; [| by apply IH].
  intros Hin. apply Hc.
  apply list_elem_of_fmap in Hin as (y & -> & Hy).
  apply list_elem_of_filter in Hy as [_ Hy].
  apply list_elem_of_fmap. by exists y.
Qed.

Lemma filter_filter_ids (id : N) (l : list N) (S : list Style) :
  filter (fun s => style_id s ∉ l) (filter (fun s => style_id s ≠ id) S)
  = filter (fun s => style_id s ∉ id :: l) S.
Proof.
  induction S as [|s S IH]; [done |].
  rewrite !filter_cons. destruct (decide (style_id s ≠ id)) as [Hne|Heq].
  - rewrite filter_cons. rewrite IH.
    destruct (decide (style_id s ∉ l)) as [Hl|Hl].
    + rewrite decide_True; [done |]. by intros [?|?]%elem_of_cons.
    + rewrite decide_False; [done |]. intros H. apply Hl. intros Hin.
      apply H. by apply list_elem_of_further.
  - apply dec_stable in Heq. rewrite IH.
    rewrite decide_False; [done |]. intros H. apply H. rewrite Heq.
    apply list_elem_of_here.
Qed.

(** The inner loop: the styles of one kind found when the loop starts. *)
Lemma removeStyles_run (l : list Style) :
  forall n h c o,
    NoDup (map style_id l) ->
    (forall x, x ∈ l -> style_id x ∈ map style_id (styles h)) ->
    exists h',
      foldM (fun (n' : N) (style : Style) =>
               call permissive (OpRemoveStyle (style_id style)) ;;; ret (n' + 1))
            n l (mkState h c o)
      = (Ok (n + lengthN l), mkState h' c o)
      /\ styles h' = filter (fun s => style_id s ∉ map style_id l) (styles h)
      /\ collections h' = collections h /\ variables h' = variables h
      /\ nextId h' = nextId h.
Proof.
  induction l as [|x l IH]; intros n h c o Hl Hin.
  - exists h. cbn [foldM]. unfold ret, lengthN. cbn [length N.of_nat].
    rewrite N.add_0_r. split; [done |]. split; [| done].
    symmetry. apply filter_keep_all. intros s _. apply not_elem_of_nil.
  - cbn [foldM]. unfold bind at 1. unfold bind at 1.
    erewrite call_run;
      [| cbn [applyOp]; rewrite bool_decide_eq_true_2;
         [reflexivity | apply Hin, list_elem_of_here]].
    unfold ret at 1. cbv beta iota.
    cbn [map] in Hl. apply NoDup_cons in Hl as [Hx Hl].
    edestruct (IH (n + 1)) as (h' & -> & Hstyles & Hc & Hv & Hn).
    + exact Hl.
    + intros y Hy. cbn [styles].
      assert (Hy' : style_id y ∈ map style_id (styles h))
        by (by apply Hin, list_elem_of_further).
      apply list_elem_of_fmap in Hy' as (z & Hz & Hzin).
      apply list_elem_of_fmap. exists z. split; [done |].
      apply list_elem_of_filter. split; [| done].
      intros E. apply Hx. rewrite <- E, <- Hz.
      apply list_elem_of_fmap. by exists y.
    + exists h'. split.
      { do 2 f_equal. unfold lengthN. cbn [length]. lia. }
      rewrite Hstyles, Hc, Hv, Hn. cbn [styles collections variables nextId].
      split; [| done]. by rewrite filter_filter_ids.
Qed.

Lemma styles_of_kind_removed (kind : StyleKind) (S : list Style) :
  NoDup (map style_id S) ->
  filter (fun s => style_id s
                   ∉ map style_id (filter (fun s => style_kind s = kind) S)) S
  = filter (fun s => style_kind s ≠ kind) S.
Proof.
  intros Hnd. apply filter_ext_elem. intros s Hs. split.
  - intros Hn E. apply Hn. apply list_elem_of_fmap. exists s.
    split; [done |]. by apply list_elem_of_filter.
  - intros Hk Hin. apply list_elem_of_fmap in Hin as (d & E & Hd).
    apply list_elem_of_filter in Hd as [Hl Hd].
    assert (s = d) by (by apply (NoDup_map_inj style_id S)).
    subst d. congruence.
Qed.

Lemma kinds_count (kind : StyleKind) (kinds : list StyleKind) (S : list Style) :
  (length (filter (fun s => style_kind s = kind) S)
   + length (filter (fun s => style_kind s ∈ kinds)
                    (filter (fun s => style_kind s ≠ kind) S)))%nat
  = length (filter (fun s => style_kind s ∈ kind :: kinds) S).
Proof.
  induction S as [|s S IH]; [done |].
  rewrite !filter_cons. destruct (decide (style_kind s = kind)) as [E|E].
  - rewrite decide_False by (by intros H).
    rewrite decide_True by (rewrite E; apply list_elem_of_here).
    cbn [length]. by rewrite <- IH.
  - rewrite decide_True by done. rewrite filter_cons.
    destruct (decide (style_kind s ∈ kinds)) as [Hk|Hk].
    + rewrite decide_True by (by apply list_elem_of_further).
      cbn [length]. rewrite <- IH. lia.
    + rewrite decide_False; [exact IH |].
      by intros [?|?]%elem_of_cons.
Qed.

Lemma kinds_left (kind : StyleKind) (kinds : list StyleKind) (S : list Style) :
  filter (fun s => style_kind s ∉ kinds)
         (filter (fun s => style_kind s ≠ kind) S)
  = filter (fun s => style_kind s ∉ kind :: kinds) S.
Proof.
  induction S as [|s S IH]; [done |].
  rewrite !filter_cons. destruct (decide (style_kind s ≠ kind)) as [E|E].
  - rewrite filter_cons, IH.
    destruct (decide (style_kind s ∉ kinds)) as [Hk|Hk].
    + rewrite decide_True; [done |]. by intros [?|?]%elem_of_cons.
    + rewrite decide_False; [done |]. intros H. apply Hk. intros Hin.
      apply H. by apply list_elem_of_further.
  - apply dec_stable in E. rewrite IH.
    rewrite decide_False; [done |]. intros H. apply H. rewrite E.
    apply list_elem_of_here.
Qed.

(** The outer loop: one kind of style after the other. *)
Lemma removeKinds_run (kinds : list StyleKind) :
  forall n h c o,
    NoDup (map style_id (styles h)) ->
    exists h',
      foldM
        (fun (n : N) (kind : StyleKind) =>
           h <- getHost ;;
           foldM (fun (n' : N) (style : Style) =>
                    call permissive (OpRemoveStyle (style_id style)) ;;;
                    ret (n' + 1))
                 n (getLocalStyles kind h))
        n kinds (mkState h c o)
      = (Ok (n + lengthN (filter (fun s => style_kind s ∈ kinds) (styles h))),
         mkState h' c o)
      /\ styles h' = filter (fun s => style_kind s ∉ kinds) (styles h)
      /\ collections h' = collections h /\ variables h' = variables h
      /\ nextId h' = nextId h.
Proof.
  induction kinds as [|kind kinds IH]; intros n h c o Hnd.
  - exists h. cbn [foldM]. unfold ret.
    rewrite (filter_ext_elem _ (fun _ => False) (styles h))
      by (intros s _; split; [by intros ?%elem_of_nil | done]).
    rewrite filter_False. unfold lengthN. cbn [length N.of_nat].
    rewrite N.add_0_r. split; [done |]. split; [| done].
    symmetry. apply filter_keep_all. intros s _. apply not_elem_of_nil.
  - cbn [foldM]. unfold bind at 1. unfold bind at 1. unfold getHost at 1.
    cbn [host].
    destruct (removeStyles_run (getLocalStyles kind h) n h c o)
      as (h1 & -> & Hstyles1 & Hc1 & Hv1 & Hn1).
    { by apply NoDup_map_filter. }
    { intros x Hx. apply list_elem_of_fmap. exists x. split; [done |].
      by apply list_elem_of_filter in Hx as [_ Hx]. }
    unfold getLocalStyles in Hstyles1.
    rewrite styles_of_kind_removed in Hstyles1 by done.
    destruct (IH (n + lengthN (getLocalStyles kind h)) h1 c o)
      as (h' & -> & Hstyles & Hc & Hv & Hn).
    { rewrite Hstyles1. by apply NoDup_map_filter. }
    exists h'. split.
    { do 2 f_equal. rewrite Hstyles1. unfold lengthN, getLocalStyles.
      rewrite <- (kinds_count kind kinds (styles h)). lia. }
    rewrite Hstyles, Hc, Hv, Hn, Hstyles1, Hc1, Hv1, Hn1.
    split; [| done]. apply kinds_left.
Qed.

(** X25. On a host that accepts every call and whose styles have
    distinct identifiers, [clearStyles] removes every style, posts the
    number of styles it found, and touches neither the collections, nor
    the variables, nor the cache. *)
Theorem X25_clearStyles_removes_every_style (st : State) :
  NoDup (map style_id (styles (host st))) ->
  exists st',
    clearStyles permissive st = (Ok tt, st')
    /\ styles (host st') = []
    /\ collections (host st') = collections (host st)
    /\ variables (host st') = variables (host st)
    /\ cache st' = cache st
    /\ outbox st'
       = (outbox st
          ++ [MsgClearComplete
                (pretty (lengthN (styles (host st))) +:+ " styles")])%list.
Proof.
  destruct st as [h c o]. cbn [host cache outbox]. intros Hnd.
  destruct (removeKinds_run [PaintStyle; TextStyle; EffectStyle; GridStyle]
              0 h c o Hnd) as (h' & Hrun & Hstyles & Hc & Hv & _).
  assert (Hall : forall k : StyleKind,
             k ∈ [PaintStyle; TextStyle; EffectStyle; GridStyle]).
  { intros []; repeat first [apply list_elem_of_here | apply list_elem_of_further]. }
  rewrite (filter_keep_all _ (styles h)) in Hrun by (intros s _; apply Hall).
  rewrite (filter_ext_elem _ (fun _ => False) (styles h)), filter_False in Hstyles
    by (intros s _; split; [by intros Hn; apply Hn, Hall | done]).
  exists (mkState h' c
            (o ++ [MsgClearComplete (pretty (lengthN (styles h)) +:+ " styles")])).
  split.
  { unfold clearStyles, tryCatch. unfold bind at 1. rewrite Hrun.
    rewrite N.add_0_l. reflexivity. }
  cbn [host cache outbox]. by rewrite Hstyles, Hc, Hv.
Qed.

Lemma X25_clearStyles_removes_every_style_witness :
  exists st',
    clearStyles permissive styledState = (Ok tt, st')
    /\ styles (host st') = []
    /\ collections (host st') = collections (host styledState)
    /\ variables (host st') = variables (host styledState)
    /\ cache st' = cache styledState
    /\ outbox st'
       = (outbox styledState
          ++ [MsgClearComplete
                (pretty (lengthN (styles (host styledState))) +:+ " styles")])%list.
Proof.
  apply (X25_clearStyles_removes_every_style styledState).
  apply (bool_decide_unpack _). by vm_compute.
Defined.

(** ** The preview of the styles and their import *)

Lemma stylesDiffOf_counts (h : Host) (kind : StyleKind) (type : string)
  (imported : option (list ExportStyle)) (result : ImportDiffResult) :
  let preview := stylesDiffOf h kind type imported result in
  stylesNew (summary preview)
  = stylesNew (summary result) + lengthN (unknownStyles kind h imported)
  /\ stylesModified (summary preview)
     = stylesModified (summary result) + lengthN (knownStyles kind h imported)
  /\ newStyles preview
     = (newStyles result
        ++ map (fun e => (type, s_name e)) (unknownStyles kind h imported))%list
  /\ modifiedStyles preview
     = (modifiedStyles result
        ++ map (fun e => (type, s_name e)) (knownStyles kind h imported))%list.
Proof.
  cbv zeta. unfold unknownStyles, knownStyles, stylesDiffOf.
  destruct imported as [l|]; cbv iota.
  2:{ rewrite ?filter_nil. unfold lengthN. cbn [length map N.of_nat].
      by rewrite !N.add_0_r, !app_nil_r. }
  change (map style_name (getLocalStyles kind h)) with (styleNames kind h).
  revert result. induction l as [|e l IH]; intros result.
  - rewrite !filter_nil. unfold lengthN. cbn [fold_left length map N.of_nat].
    by rewrite !N.add_0_r, !app_nil_r.
  - cbn [fold_left]. rewrite !filter_cons.
    destruct (IH (addStyle (bool_decide (s_name e ∈ styleNames kind h))
                           type (s_name e) result))
      as (-> & -> & -> & ->).
    destruct (decide (s_name e ∈ styleNames kind h)) as [Hin|Hin].
    + rewrite bool_decide_eq_true_2 by done.
      rewrite decide_False by (by intros H; apply H).
      cbn [addStyle summary stylesNew stylesModified newStyles modifiedStyles map].
      unfold lengthN. cbn [length].
      repeat split; try lia. by rewrite <- app_assoc.
    + rewrite bool_decide_eq_false_2 by done.
      rewrite decide_True by done.
      cbn [addStyle summary stylesNew stylesModified newStyles modifiedStyles map].
      unfold lengthN. cbn [length].
      repeat split; try lia. by rewrite <- app_assoc.
Qed.

Lemma known_ext (kind : StyleKind) (h h' : Host) imported :
  (forall name, name ∈ styleNames kind h' <-> name ∈ styleNames kind h) ->
  knownStyles kind h' imported = knownStyles kind h imported
  /\ unknownStyles kind h' imported = unknownStyles kind h imported.
Proof.
  intros Hsame. unfold knownStyles, unknownStyles. split.
  - apply filter_ext_elem. intros e _. apply Hsame.
  - apply filter_ext_elem. intros e _. by rewrite Hsame.
Qed.

Lemma importStylesKind_run (kind : StyleKind)
  (imported : option (list ExportStyle)) (counts : N * N) (st : State) :
  stylesBounded (host st) ->
  exists st',
    importStylesKind permissive kind imported counts st
    = (Ok (fst counts + lengthN (unknownStyles kind (host st) imported),
           snd counts + lengthN (knownStyles kind (host st) imported)),
       st')
    /\ stylesBounded (host st')
    /\ (forall other name, other <> kind ->
                           name ∈ styleNames other (host st')
                           <-> name ∈ styleNames other (host st)).
Proof.
  intros Hbounded. unfold importStylesKind, unknownStyles, knownStyles.
  destruct imported as [l|]; cbv iota.
  - destruct (import_run_kinds kind l st Hbounded)
      as (st' & E & Hother & _ & Hbounded' & _).
    exists st'. unfold bind. rewrite E. by cbn [fst snd].
  - exists st. rewrite ?filter_nil. unfold ret, lengthN. cbn [length N.of_nat].
    rewrite !N.add_0_r. by destruct counts.
Qed.

(** X26. On a host that accepts every call, the styles part of an import
    reports as created and updated the numbers the preview of the same
    data counts as new and modified on the same document, and the
    preview lists that many styles. *)
Theorem X26_style_preview_counts_the_import (sd : StylesExport)
  (result : ImportDiffResult) (st : State) :
  stylesBounded (host st) ->
  exists preview created updated st',
    computeStylesDiff sd result st = (Ok preview, st)
    /\ importStylesData permissive sd st = (Ok (created, updated), st')
    /\ stylesNew (summary preview) = stylesNew (summary result) + created
    /\ stylesModified (summary preview)
       = stylesModified (summary result) + updated
    /\ lengthN (newStyles preview) = lengthN (newStyles result) + created
    /\ lengthN (modifiedStyles preview)
       = lengthN (modifiedStyles result) + updated.
Proof.
  intros Hb0.
  destruct (importStylesKind_run PaintStyle (colorStyles sd) (0, 0) st Hb0)
    as (st1 & E1 & Hb1 & H1).
  destruct (importStylesKind_run TextStyle (textStyles sd)
              (0 + lengthN (unknownStyles PaintStyle (host st) (colorStyles sd)),
               0 + lengthN (knownStyles PaintStyle (host st) (colorStyles sd))) st1 Hb1)
    as (st2 & E2 & Hb2 & H2).
  destruct (known_ext TextStyle (host st) (host st1) (textStyles sd)) as [K2 U2].
  { intros name. by apply H1. }
  rewrite K2, U2 in E2. cbn [fst snd] in E1, E2.
  match type of E2 with _ = (Ok ?c, _) =>
    destruct (importStylesKind_run EffectStyle (effectStyles sd) c st2 Hb2)
      as (st3 & E3 & Hb3 & H3)
  end.
  destruct (known_ext EffectStyle (host st) (host st2) (effectStyles sd)) as [K3 U3].
  { intros name. rewrite H2 by done. by apply H1. }
  rewrite K3, U3 in E3. cbn [fst snd] in E3.
  match type of E3 with _ = (Ok ?c, _) =>
    destruct (importStylesKind_run GridStyle (gridStyles sd) c st3 Hb3)
      as (st4 & E4 & _ & _)
  end.
  destruct (known_ext GridStyle (host st) (host st3) (gridStyles sd)) as [K4 U4].
  { intros name. rewrite H3, H2 by done. by apply H1. }
  rewrite K4, U4 in E4. cbn [fst snd] in E4.
  eexists _, _, _, st4. split.
  { unfold computeStylesDiff, bind, getHost, ret. reflexivity. }
  split.
  { unfold importStylesData. unfold bind at 1. rewrite E1.
    cbv beta iota. unfold bind at 1. rewrite E2. cbv beta iota.
    unfold bind at 1. rewrite E3. cbv beta iota. exact E4. }
  destruct (stylesDiffOf_counts (host st) PaintStyle "color" (colorStyles sd) result)
    as (N1 & M1 & L1 & R1).
  destruct (stylesDiffOf_counts (host st) TextStyle "text" (textStyles sd)
              (stylesDiffOf (host st) PaintStyle "color" (colorStyles sd) result))
    as (N2 & M2 & L2 & R2).
  destruct (stylesDiffOf_counts (host st) EffectStyle "effect" (effectStyles sd)
              (stylesDiffOf (host st) TextStyle "text" (textStyles sd)
                 (stylesDiffOf (host st) PaintStyle "color" (colorStyles sd) result)))
    as (N3 & M3 & L3 & R3).
  destruct (stylesDiffOf_counts (host st) GridStyle "grid" (gridStyles sd)
              (stylesDiffOf (host st) EffectStyle "effect" (effectStyles sd)
                 (stylesDiffOf (host st) TextStyle "text" (textStyles sd)
                    (stylesDiffOf (host st) PaintStyle "color" (colorStyles sd) result))))
    as (N4 & M4 & L4 & R4).
  cbv zeta in *.
  rewrite N4, N3, N2, N1, M4, M3, M2, M1, L4, L3, L2, L1, R4, R3, R2, R1.
  unfold lengthN. rewrite !length_app, !length_map.
  repeat split; lia.
Qed.

Lemma X26_style_preview_counts_the_import_witness :
  let sd :=
    {| colorStyles :=
         Some [ {| s_name := "brand"; s_description := ""; s_fontFamily := "";
                   s_fontStyle := ""; s_body := "#000000";
                   s_boundVariables := [] |};
                {| s_name := "accent"; s_description := ""; s_fontFamily := "";
                   s_fontStyle := ""; s_body := "#ffffff";
                   s_boundVariables := [] |} ];
       textStyles := None; effectStyles := None; gridStyles := Some [] |} in
  exists preview created updated st',
    computeStylesDiff sd emptyDiff styledState = (Ok preview, styledState)
    /\ importStylesData permissive sd styledState = (Ok (created, updated), st')
    /\ stylesNew (summary preview) = stylesNew (summary emptyDiff) + created
    /\ stylesModified (summary preview)
       = stylesModified (summary emptyDiff) + updated
    /\ lengthN (newStyles preview) = lengthN (newStyles emptyDiff) + created
    /\ lengthN (modifiedStyles preview)
       = lengthN (modifiedStyles emptyDiff) + updated.
Proof.
  intros sd. apply (X26_style_preview_counts_the_import sd emptyDiff styledState).
  intros s Hs. apply (bool_decide_unpack _).
  revert s Hs. apply Forall_forall. by repeat constructor.
Defined.
